(** * A spreadsheet engine: formula language, cell table, undo log, dump

    Shallow embedding of [src/components/util.mjs] (coordinate helpers and the
    [Spreadsheet] class with [CellInfo]) and [src/components/expr-parser.mjs]
    (scanner, recursive-descent parser, [Ast] and [CellRef] printers).

    Conventions of the embedding.
    - A JS string is a [string]; a character is its code point below 256.
    - A plain object used as a map ([_cells], [_undos], the updates returned by
      [eval]) is a [gmap string _]; a [Set] is the list of its elements in
      insertion order, which is the order a [for .. of] loop visits them.
    - JS numbers are kept abstract (class [JSNum]): the engine only stores
      them and hands them to the entries of [FNS].
    - A method of [Spreadsheet] is a function from the state of the object to
      an [outcome]: a returned value or a thrown exception, with the state
      reached in both cases. *)

From Stdlib Require Import ZArith Ascii List Lia DecimalString DecimalZ DecimalPos DecimalFacts.
From stdpp Require Import base gmap strings list sorting.

Local Open Scope Z_scope.

(** ** Characters and strings *)

Module Js.

Definition code (c : ascii) : Z := Z.of_N (N_of_ascii c).

Definition chr (z : Z) : ascii := ascii_of_N (Z.to_N z).

(** [\d] *)
Definition isDigit (c : ascii) : bool := (48 <=? code c) && (code c <=? 57).

(** [[a-zA-Z]] *)
Definition isLetter (c : ascii) : bool :=
  ((65 <=? code c) && (code c <=? 90)) || ((97 <=? code c) && (code c <=? 122)).

(** [[\w\$]]: letters, digits, underscore and dollar. *)
Definition isWord (c : ascii) : bool :=
  isLetter c || isDigit c || (code c =? 95) || (code c =? 36).

(** White space removed by [trim] and [trimStart]: tab, line feed, vertical
    tab, form feed, carriage return, space and no-break space. *)
Definition isSpace (c : ascii) : bool :=
  ((9 <=? code c) && (code c <=? 13)) || (code c =? 32) || (code c =? 160).

(** [toLowerCase] on one character: [A-Z] and the capital letters of
    Latin-1 (all of U+00C0..U+00DE but the multiplication sign). *)
Definition lowerChar (c : ascii) : ascii :=
  if ((65 <=? code c) && (code c <=? 90))
     || ((192 <=? code c) && (code c <=? 222) && negb (code c =? 215))
  then chr (code c + 32) else c.

Fixpoint toLowerCase (s : string) : string :=
  match s with
  | EmptyString => EmptyString
  | String c r => String (lowerChar c) (toLowerCase r)
  end.

(** [s.replace(/\$/g, '')] *)
Fixpoint stripDollar (s : string) : string :=
  match s with
  | EmptyString => EmptyString
  | String c r => if code c =? 36 then stripDollar r else String c (stripDollar r)
  end.

Fixpoint trimStart (s : string) : string :=
  match s with
  | EmptyString => EmptyString
  | String c r => if isSpace c then trimStart r else s
  end.

(** [trimEnd], written as a right-to-left pass. *)
Fixpoint trimEnd (s : string) : string :=
  match s with
  | EmptyString => EmptyString
  | String c r =>
      match trimEnd r with
      | EmptyString => if isSpace c then EmptyString else String c EmptyString
      | r' => String c r'
      end
  end.

Definition trim (s : string) : string := trimEnd (trimStart s).

(** The longest prefix of [s] whose characters satisfy [p], and the rest. *)
Fixpoint span (p : ascii -> bool) (s : string) : string * string :=
  match s with
  | EmptyString => (EmptyString, EmptyString)
  | String c r =>
      if p c then let '(a, b) := span p r in (String c a, b)
      else (EmptyString, s)
  end.

Fixpoint allChars (p : ascii -> bool) (s : string) : bool :=
  match s with
  | EmptyString => true
  | String c r => p c && allChars p r
  end.

Fixpoint contains (c : ascii) (s : string) : bool :=
  match s with
  | EmptyString => false
  | String d r => (code d =? code c) || contains c r
  end.

(** [String(z)] for an integer [z]. *)
Definition ofInt (z : Z) : string := NilZero.string_of_int (Z.to_int z).

(** [Number(s)] for [s] a string of decimal digits, read from the left;
    no caller passes any other string. *)
Fixpoint toIntFrom (acc : Z) (s : string) : Z :=
  match s with
  | EmptyString => acc
  | String c r => toIntFrom (10 * acc + (code c - 48)) r
  end.

Definition toInt (s : string) : Z := toIntFrom 0 s.

(** A string that starts with a digit other than [0]. *)
Definition headNonZero (s : string) : bool :=
  match s with
  | String c _ => isDigit c && negb (code c =? 48)
  | EmptyString => false
  end.

End Js.

(** ** Errors and results *)

(** The codes of [AppError] (app-error.mjs). *)
Inductive ErrCode := SYNTAX | CIRCULAR_REF | LIMITS | DB.

(** What a [throw] carries: an [AppError] with its code and message, or the
    [TypeError] JS raises itself (a property read on [undefined], a call of
    something that is no function, an iteration over [undefined]). *)
Inductive exn :=
| AppError (code : ErrCode) (message : string)
| TypeError.

Definition is_code (c : ErrCode) (e : exn) : Prop :=
  match e with AppError c' _ => c' = c | TypeError => False end.

(** The result of code that touches no state. *)
Inductive result (A : Type) :=
| Ret (a : A)
| Raise (e : exn).
Arguments Ret {A} a.
Arguments Raise {A} e.

Definition rbind {A B} (k : A -> result B) (r : result A) : result B :=
  match r with Ret a => k a | Raise e => Raise e end.

#[global] Instance result_bind : MBind result := @rbind.
#[global] Instance result_ret : MRet result := @Ret.

#[global] Instance ErrCode_eq_dec : EqDecision ErrCode.
Proof. solve_decision. Defined.
#[global] Instance exn_eq_dec : EqDecision exn.
Proof. solve_decision. Defined.

(** ** Coordinates (util.mjs) *)

Module LIMITS.
(** Modelled from the spec: limits.mjs is not among the sources; section 3
    gives [MAX_COLS = 26] and [MAX_ROWS] large, e.g. 9999. *)
Definition MAX_N_COLS : Z := 26.
Definition MAX_N_ROWS : Z := 9999.
End LIMITS.

Definition cellRefToCellId (cellRef : string) : string :=
  Js.stripDollar (Js.toLowerCase cellRef).

(** [colSpec[0].codePointAt() - 'a'.codePointAt()]; the assertion on the
    length only logs. *)
Definition colSpecToIndex (colSpec : string) : result Z :=
  match colSpec with
  | String c _ => Ret (Js.code c - 97)
  | EmptyString => Raise TypeError
  end.

Definition indexToColSpec (index baseIndex : Z) : result string :=
  let absIndex := baseIndex + index in
  if (absIndex <? 0) || (absIndex >=? LIMITS.MAX_N_COLS) then
    Raise (AppError SYNTAX
             ("bad column spec with index " +:+ Js.ofInt index +:+
              " relative to " +:+ Js.ofInt baseIndex))
  else Ret (String (Js.chr (97 + absIndex)) EmptyString).

Definition rowSpecToIndex (rowSpec : string) : result Z :=
  let index := Js.toInt rowSpec - 1 in
  if index >=? LIMITS.MAX_N_ROWS then
    Raise (AppError LIMITS
             ("bad row spec " +:+ rowSpec +:+ "; cannot be above " +:+
              Js.ofInt LIMITS.MAX_N_COLS))
  else Ret index.

Definition indexToRowSpec (index baseIndex : Z) : result string :=
  let absIndex := baseIndex + index in
  if (absIndex <? 0) || (absIndex >=? LIMITS.MAX_N_ROWS) then
    Raise (AppError SYNTAX
             ("bad row spec " +:+ Js.ofInt (absIndex + 1) +:+ " with index " +:+
              Js.ofInt index +:+ " relative to " +:+ Js.ofInt baseIndex))
  else Ret (Js.ofInt (absIndex + 1)).

(** ** Cell references (class CellRef of expr-parser.mjs) *)

Record Axis := { isAbs : bool; index : Z }.
Record CellRef := { col : Axis; row : Axis }.

#[global] Instance Axis_eq_dec : EqDecision Axis.
Proof. solve_decision. Defined.
#[global] Instance CellRef_eq_dec : EqDecision CellRef.
Proof. solve_decision. Defined.

(** [baseCell?.col?.index ?? 0] and [baseCell?.row?.index ?? 0] *)
Definition baseCol (baseCell : option CellRef) : Z :=
  match baseCell with Some b => index (col b) | None => 0 end.
Definition baseRow (baseCell : option CellRef) : Z :=
  match baseCell with Some b => index (row b) | None => 0 end.

(** One optional leading dollar: the groups [(\$?)] of the pattern. *)
Definition optDollar (s : string) : bool * string :=
  match s with
  | String c r => if Js.code c =? 36 then (true, r) else (false, s)
  | EmptyString => (false, s)
  end.

(** The match of [str] against the pattern of the constructor: an optional
    dollar, one letter, an optional dollar, a non-zero digit and then digits
    up to the end of the string.  The four groups are returned. *)
Definition matchCellRef (str : string) : option (bool * string * bool * string) :=
  let '(isAbsCol, s1) := optDollar str in
  match s1 with
  | String c s2 =>
      if Js.isLetter c then
        let '(isAbsRow, s3) := optDollar s2 in
        match s3 with
        | String d r =>
            if Js.isDigit d && negb (Js.code d =? 48) && Js.allChars Js.isDigit r
            then Some (isAbsCol, String c EmptyString, isAbsRow, s3)
            else None
        | EmptyString => None
        end
      else None
  | EmptyString => None
  end.

(** [new CellRef(str, baseCell)] *)
Definition CellRef_new (str : string) (baseCell : option CellRef) : result CellRef :=
  let str := Js.toLowerCase (Js.trim str) in
  match str with
  | EmptyString =>
      Ret {| col := {| isAbs := false; index := baseCol baseCell |};
             row := {| isAbs := false; index := baseRow baseCell |} |}
  | _ =>
      match matchCellRef str with
      | None => Raise (AppError SYNTAX ("bad cell ref " +:+ str))
      | Some (isAbsCol, col, isAbsRow, row) =>
          c ← colSpecToIndex col;
          let colIndex := c - (if isAbsCol then 0 else baseCol baseCell) in
          r ← rowSpecToIndex row;
          let rowIndex := r - (if isAbsRow then 0 else baseRow baseCell) in
          Ret {| col := {| isAbs := isAbsCol; index := colIndex |};
                 row := {| isAbs := isAbsRow; index := rowIndex |} |}
      end
  end.

(** [CellRef.prototype.toString(baseCell)] *)
Definition CellRef_toString (this : CellRef) (baseCell : option CellRef) : result string :=
  c ← (if isAbs (col this)
       then s ← indexToColSpec (index (col this)) 0; Ret ("$" +:+ s)
       else indexToColSpec (index (col this)) (baseCol baseCell));
  r ← (if isAbs (row this)
       then s ← indexToRowSpec (index (row this)) 0; Ret ("$" +:+ s)
       else indexToRowSpec (index (row this)) (baseRow baseCell));
  Ret (c +:+ r).

(** ** Numbers *)

(** JS numbers are IEEE doubles; the engine never looks inside one.  The
    class lists what the code does with them: read a literal, print one,
    and the arithmetic of the entries of [FNS]. *)
Class JSNum := {
  num : Type;
  num_eq_dec :: EqDecision num;
  (** the literal [0] *)
  zero : num;
  (** [Number(lexeme)] *)
  Number : string -> num;
  (** [value.toString()] *)
  num_toString : num -> string;
  (** [a + b], [a - b], [a * b], [a / b], [-a] *)
  add : num -> num -> num;
  sub : num -> num -> num;
  mul : num -> num -> num;
  div : num -> num -> num;
  neg : num -> num;
  (** [Math.min(...args)] and [Math.max(...args)] *)
  Math_min : list num -> num;
  Math_max : list num -> num;
  (** any other call [FNS[fn](...args)]: an entry called with too few
      arguments or a member inherited from [Object.prototype]; [None] when JS
      throws a [TypeError] *)
  js_call : string -> list num -> option num
}.

(** The names [Object.prototype] gives to every plain object: an index
    [obj[key]] with one of these keys finds a value although the object has
    no such key of its own. *)
Definition Object_prototype : list string :=
  ["constructor"; "__defineGetter__"; "__defineSetter__"; "hasOwnProperty";
   "__lookupGetter__"; "__lookupSetter__"; "isPrototypeOf";
   "propertyIsEnumerable"; "toString"; "valueOf"; "__proto__";
   "toLocaleString"].

(** ** The formula language (expr-parser.mjs) *)

Module ExprParser.

Record FnInfo := { fn : option string; prec : option Z; type : option string }.

Definition MAX_PREC : Z := 100.

(** [FNS[key]]: the six entries of the table, and the members inherited
    from [Object.prototype], none of which has a [fn], [prec] or [type]. *)
Definition FNS (key : string) : option FnInfo :=
  if decide (key = "+") then
    Some {| fn := Some "+"; prec := Some 10; type := Some "left" |}
  else if decide (key = "-") then
    Some {| fn := Some "-"; prec := Some 10; type := Some "left" |}
  else if decide (key = "*") then
    Some {| fn := Some "*"; prec := Some 20; type := Some "left" |}
  else if decide (key = "/") then
    Some {| fn := Some "/"; prec := Some 20; type := Some "left" |}
  else if decide (key = "max") then
    Some {| fn := Some "max"; prec := None; type := None |}
  else if decide (key = "min") then
    Some {| fn := Some "min"; prec := None; type := None |}
  else if decide (key ∈ Object_prototype) then
    Some {| fn := None; prec := None; type := None |}
  else None.

Definition left (isParen : bool) : string := if isParen then "(" else "".
Definition right (isParen : bool) : string := if isParen then ")" else "".

(** [strs.join(sep)] *)
Fixpoint join (sep : string) (strs : list string) : string :=
  match strs with
  | [] => ""
  | [s] => s
  | s :: r => s +:+ sep +:+ join sep r
  end.

Section WithNumbers.
Context {N : JSNum}.

Unset Elimination Schemes.
Inductive Ast :=
| Num (value : num)
| Ref (value : CellRef)
| App (fn : string) (kids : list Ast).
Set Elimination Schemes.

(** [FNS[kid.fn]?.prec]; a leaf has no [fn]. *)
Definition kidPrec (kid : Ast) : option Z :=
  match kid with
  | App f _ => FNS f ≫= prec
  | _ => None
  end.

(** [Ast.prototype.toString] once [baseCell] is a [CellRef]. *)
Fixpoint toStr (this : Ast) (baseCell : CellRef) {struct this} : result string :=
  match this with
  | Ref value => CellRef_toString value (Some baseCell)
  | Num value => Ret (num_toString value)
  | App fn kids =>
      match FNS fn with
      | None => Raise TypeError
      | Some fnInfo =>
          match type fnInfo with
          | None =>
              strs ← (fix mapKids (ks : list Ast) : result (list string) :=
                        match ks with
                        | [] => Ret []
                        | k :: r =>
                            s ← toStr k baseCell;
                            ss ← mapKids r;
                            Ret (s :: ss)
                        end) kids;
              Ret (fn +:+ "(" +:+ join ", " strs +:+ ")")
          | Some _ =>
              match kids with
              | [k0] =>
                  let paren := bool_decide (is_Some (kidPrec k0)) in
                  s0 ← toStr k0 baseCell;
                  Ret (fn +:+ left paren +:+ s0 +:+ right paren)
              | k0 :: k1 :: _ =>
                  let p0 := match prec fnInfo with
                            | Some p => default MAX_PREC (kidPrec k0) <? p
                            | None => false
                            end in
                  let p1 := match prec fnInfo with
                            | Some p => default MAX_PREC (kidPrec k1) <=? p
                            | None => false
                            end in
                  s0 ← toStr k0 baseCell;
                  s1 ← toStr k1 baseCell;
                  Ret (left p0 +:+ s0 +:+ right p0 +:+ fn +:+
                       left p1 +:+ s1 +:+ right p1)
              | [] => Raise TypeError
              end
          end
      end
  end.

(** [ast.toString(baseCell)] with [baseCell] a string: the [CellRef] is
    built first, whatever the shape of the tree. *)
Definition toString (this : Ast) (baseCell : string) : result string :=
  base ← CellRef_new baseCell None;
  toStr this base.

(** *** Scanner *)

Inductive Tok :=
| TNum (lexeme : string) (value : num)
| TFn (lexeme : string)
| TRef (lexeme : string) (value : CellRef)
| TChar (c : ascii)
| TEnd.

Definition tok_type (t : Tok) : string :=
  match t with
  | TNum _ _ => "num"
  | TFn _ => "fn"
  | TRef _ _ => "ref"
  | TChar c => String c ""
  | TEnd => "<END>"
  end.

Definition tok_lexeme (t : Tok) : string :=
  match t with
  | TNum l _ | TFn l | TRef l _ => l
  | TChar c => String c ""
  | TEnd => "<END>"
  end.

(** The lexeme of a number: digits, then a dot with digits if both are
    there, then an exponent mark with an optional sign and digits if the
    digits are there. *)
Definition fracPart (r1 : string) : string * string :=
  match r1 with
  | String c r =>
      if Js.code c =? 46 then
        let '(ds, r') := Js.span Js.isDigit r in
        match ds with
        | EmptyString => ("", r1)
        | _ => (String c ds, r')
        end
      else ("", r1)
  | EmptyString => ("", r1)
  end.

Definition expPart (r2 : string) : string :=
  match r2 with
  | String e r =>
      if (Js.code e =? 101) || (Js.code e =? 69) then
        let '(sign, r') :=
          match r with
          | String sg r'' =>
              if (Js.code sg =? 45) || (Js.code sg =? 43)
              then (String sg "", r'') else ("", r)
          | EmptyString => ("", r)
          end in
        match fst (Js.span Js.isDigit r') with
        | EmptyString => ""
        | ds => String e (sign +:+ ds)
        end
      else ""
  | EmptyString => ""
  end.

Definition matchNum (str : string) : string :=
  let '(int, r1) := Js.span Js.isDigit str in
  let '(frac, r2) := fracPart r1 in
  int +:+ frac +:+ expPart r2.

(** [str.slice(n)] *)
Fixpoint slice (str : string) (n : nat) : string :=
  match n, str with
  | S n', String _ r => slice r n'
  | _, _ => str
  end.

(** The loop of [scan]; every round takes at least one character, so the
    length of the string bounds the rounds ([scanLoop_fuel]). *)
Fixpoint scanLoop (n : nat) (str : string) (baseCell : CellRef) : result (list Tok) :=
  match Js.trimStart str with
  | EmptyString => Ret [TEnd]
  | String c _ as str =>
      match n with
      | O => Raise TypeError
      | S n' =>
          tok ← (if Js.isDigit c then
                   let lexeme := matchNum str in
                   Ret (TNum lexeme (Number lexeme))
                 else if Js.isWord c then
                   let lexeme := fst (Js.span Js.isWord str) in
                   if bool_decide (is_Some (FNS lexeme)) then Ret (TFn lexeme)
                   else value ← CellRef_new lexeme (Some baseCell);
                        Ret (TRef lexeme value)
                 else Ret (TChar c));
          tokens ← scanLoop n' (slice str (String.length (tok_lexeme tok))) baseCell;
          Ret (tok :: tokens)
      end
  end.

Definition scan (str : string) (baseCell : CellRef) : result (list Tok) :=
  scanLoop (String.length str) str baseCell.

(** *** Parser

    The parser object is its list of remaining tokens, the head being
    [this.tok].  Each call below passes a smaller counter to the calls it
    makes; [parse] starts it high enough for the counter never to run out
    ([expr_fuel]). *)

(** [this.match(type)] *)
Definition match_ (type : string) (ts : list Tok) : result (list Tok) :=
  match ts with
  | [] => Raise TypeError
  | tok :: rest =>
      if decide (tok_type tok = type) then
        if decide (tok_type tok = "<END>") then Ret ts else Ret rest
      else
        Raise (AppError SYNTAX
                 ("unexpected token at '" +:+ tok_lexeme tok +:+
                  "': expected '" +:+ type +:+ "'"))
  end.

Definition isAddOp (c : ascii) : bool := (Js.code c =? 43) || (Js.code c =? 45).
Definition isMulOp (c : ascii) : bool := (Js.code c =? 42) || (Js.code c =? 47).

Fixpoint expr (n : nat) (ts : list Tok) {struct n} : result (Ast * list Tok) :=
  match n with
  | O => Raise TypeError
  | S n =>
      '(t0, ts) ← term n ts;
      exprLoop n t0 ts
  end
with exprLoop (n : nat) (t0 : Ast) (ts : list Tok) {struct n} : result (Ast * list Tok) :=
  match n with
  | O => Raise TypeError
  | S n =>
      match ts with
      | [] => Raise TypeError
      | TChar op :: ts' =>
          if isAddOp op then
            '(t1, ts'') ← term n ts';
            exprLoop n (App (String op "") [t0; t1]) ts''
          else Ret (t0, ts)
      | _ => Ret (t0, ts)
      end
  end
with term (n : nat) (ts : list Tok) {struct n} : result (Ast * list Tok) :=
  match n with
  | O => Raise TypeError
  | S n =>
      '(f0, ts) ← factor n ts;
      termLoop n f0 ts
  end
with termLoop (n : nat) (f0 : Ast) (ts : list Tok) {struct n} : result (Ast * list Tok) :=
  match n with
  | O => Raise TypeError
  | S n =>
      match ts with
      | [] => Raise TypeError
      | TChar op :: ts' =>
          if isMulOp op then
            '(f1, ts'') ← factor n ts';
            termLoop n (App (String op "") [f0; f1]) ts''
          else Ret (f0, ts)
      | _ => Ret (f0, ts)
      end
  end
with factor (n : nat) (ts : list Tok) {struct n} : result (Ast * list Tok) :=
  match n with
  | O => Raise TypeError
  | S n =>
      match ts with
      | [] => Raise TypeError
      | TRef _ value :: ts' => Ret (Ref value, ts')
      | TFn fn :: ts' =>
          ts1 ← match_ "(" ts';
          '(a, ts2) ← expr n ts1;
          '(args, ts3) ← argsLoop n [a] ts2;
          ts4 ← match_ ")" ts3;
          Ret (App fn args, ts4)
      | TChar c :: ts' =>
          if Js.code c =? 40 then
            '(e, ts1) ← expr n ts';
            ts2 ← match_ ")" ts1;
            Ret (e, ts2)
          else if Js.code c =? 45 then
            '(operand, ts1) ← factor n ts';
            Ret (App "-" [operand], ts1)
          else
            _ ← match_ "num" ts;
            Raise TypeError
      | TNum _ value :: _ =>
          ts' ← match_ "num" ts;
          Ret (Num value, ts')
      | TEnd :: _ =>
          _ ← match_ "num" ts;
          Raise TypeError
      end
  end
with argsLoop (n : nat) (args : list Ast) (ts : list Tok) {struct n}
  : result (list Ast * list Tok) :=
  match n with
  | O => Raise TypeError
  | S n =>
      match ts with
      | [] => Raise TypeError
      | TChar c :: ts' =>
          if Js.code c =? 44 then
            '(a, ts'') ← expr n ts';
            argsLoop n (args ++ [a]) ts''
          else Ret (args, ts)
      | _ => Ret (args, ts)
      end
  end.

(** [new ExprParser(str, baseCellId).parse()] *)
Definition parse (str baseCellId : string) : result Ast :=
  baseCell ← CellRef_new baseCellId None;
  toks ← scan str baseCell;
  '(e, ts) ← expr (3 * length toks + 3) toks;
  _ ← match_ "<END>" ts;
  Ret e.

End WithNumbers.
End ExprParser.

(** ** The store (an external collaborator)

    The engine only sends requests to its store and lets what the store
    throws pass through.  A store is therefore the list of the requests it
    has received and its answer to each request: nothing, or an exception. *)

Inductive StoreOp :=
| StoreUpdateCell (ssName cellId formula : string)
| StoreDelete (ssName cellId : string)
| StoreClear (ssName : string).

Record Store := {
  requests : list StoreOp;
  failure : StoreOp -> option exn
}.

(** ** The engine (class Spreadsheet of util.mjs) *)

Module Spreadsheet.
Import ExprParser.

Section WithNumbers.
Context {N : JSNum}.

(** *** CellInfo *)

Record CellInfo := {
  id : string;
  value : num;
  ast : option Ast;
  dependents : list string
}.

(** [new CellInfo(id)] *)
Definition CellInfo_new (id : string) : CellInfo :=
  {| id := id; value := zero; ast := None; dependents := [] |}.

(** The getter [formula]. *)
Definition CellInfo_formula (this : CellInfo) : result string :=
  match ast this with
  | Some a => toString a (id this)
  | None => Ret ""
  end.

Definition CellInfo_isEmpty (this : CellInfo) : bool :=
  match ast this with Some _ => false | None => true end.

(** [copy()]: a new object with the same fields and a new [Set] with the
    same elements. *)
Definition CellInfo_copy (this : CellInfo) : CellInfo :=
  {| id := id this; value := value this; ast := ast this;
     dependents := dependents this |}.

(** [set.add(x)] and [set.delete(x)] on a [Set] kept in insertion order. *)
Definition Set_add (x : string) (set : list string) : list string :=
  if decide (x ∈ set) then set else set ++ [x].
Definition Set_delete (x : string) (set : list string) : list string :=
  filter (λ y, y ≠ x) set.

(** *** The object and its methods *)

Record Sheet := {
  name : string;
  _store : option Store;
  _cells : gmap string CellInfo;
  _undos : gmap string (option CellInfo)
}.

Definition set_cells (f : gmap string CellInfo -> gmap string CellInfo) (s : Sheet) : Sheet :=
  {| name := name s; _store := _store s; _cells := f (_cells s); _undos := _undos s |}.
Definition set_undos (f : gmap string (option CellInfo) -> gmap string (option CellInfo))
  (s : Sheet) : Sheet :=
  {| name := name s; _store := _store s; _cells := _cells s; _undos := f (_undos s) |}.
Definition set_store (st : option Store) (s : Sheet) : Sheet :=
  {| name := name s; _store := st; _cells := _cells s; _undos := _undos s |}.

(** [new Spreadsheet(name, store)] *)
Definition new (name : string) (store : option Store) : Sheet :=
  {| name := name; _store := store; _cells := ∅; _undos := ∅ |}.

(** How a call of a method ends: it returns, it throws, or the model ran
    out of the steps it was given. *)
Inductive outcome (A : Type) :=
| Return (a : A) (s : Sheet)
| Throw (e : exn) (s : Sheet)
| OutOfFuel.
Arguments Return {A} a s.
Arguments Throw {A} e s.
Arguments OutOfFuel {A}.

Definition M (A : Type) : Type := Sheet -> outcome A.

#[global] Instance M_ret : MRet M := λ A a s, Return a s.
#[global] Instance M_bind : MBind M := λ A B k m s,
  match m s with
  | Return a s' => k a s'
  | Throw e s' => Throw e s'
  | OutOfFuel => OutOfFuel
  end.

Definition throw {A} (e : exn) : M A := λ s, Throw e s.
Definition lift {A} (r : result A) : M A :=
  λ s, match r with Ret a => Return a s | Raise e => Throw e s end.
Definition get : M Sheet := λ s, Return s s.
Definition modify (f : Sheet -> Sheet) : M unit := λ s, Return () (f s).

(** [try { body } catch (err) { handler; throw err; }] *)
Definition try_catch_rethrow {A} (body : M A) (handler : Sheet -> Sheet) : M A :=
  λ s, match body s with
       | Throw err s' => Throw err (handler s')
       | r => r
       end.

(** A request to the store, when there is one. *)
Definition store_request (op : StoreOp) : M unit :=
  λ s, match _store s with
       | None => Return () s
       | Some st =>
           let s' := set_store
                       (Some {| requests := requests st ++ [op];
                                failure := failure st |}) s in
           match failure st op with
           | Some e => Throw e s'
           | None => Return () s'
           end
       end.

(** The first lines of [_updateCell]: record the cell as it was unless
    that is on record already. *)
Definition recordUndo (cellId : string) (s : Sheet) : Sheet :=
  match _undos s !! cellId with
  | Some _ => s
  | None => set_undos <[cellId := CellInfo_copy <$> (_cells s !! cellId)]> s
  end.

(** [this._cells[cellId] ?? (this._cells[cellId] = new CellInfo(cellId))] *)
Definition getOrCreate (cellId : string) (s : Sheet) : CellInfo * Sheet :=
  match _cells s !! cellId with
  | Some cell => (cell, s)
  | None => (CellInfo_new cellId, set_cells <[cellId := CellInfo_new cellId]> s)
  end.

(** [_updateCell(cellId, updateFn)] for an [updateFn] that assigns to a
    field of the cell: the object under [cellId] is changed in place and
    returned. *)
Definition _updateCell (cellId : string) (updateFn : CellInfo -> CellInfo) : M CellInfo :=
  λ s, let s := recordUndo cellId s in
       let '(cell, s) := getOrCreate cellId s in
       let cell := updateFn cell in
       Return cell (set_cells <[cellId := cell]> s).

(** [_updateCell(cellId, cell => delete this._cells[cell.id])], the one
    [updateFn] that changes the table and not the cell. *)
Definition _updateCell_delete (cellId : string) : M CellInfo :=
  λ s, let s := recordUndo cellId s in
       let '(cell, s) := getOrCreate cellId s in
       Return cell (set_cells (base.delete (id cell)) s).

Definition set_ast (a : Ast) (cell : CellInfo) : CellInfo :=
  {| id := id cell; value := value cell; ast := Some a; dependents := dependents cell |}.
Definition set_value (v : num) (cell : CellInfo) : CellInfo :=
  {| id := id cell; value := v; ast := ast cell; dependents := dependents cell |}.
Definition set_dependents (f : list string -> list string) (cell : CellInfo) : CellInfo :=
  {| id := id cell; value := value cell; ast := ast cell;
     dependents := f (dependents cell) |}.

(** [_undo()] *)
Definition _undo (s : Sheet) : Sheet :=
  set_cells
    (λ cells,
       map_fold (λ k v cells,
                   match v with
                   | Some v => <[k := v]> cells
                   | None => base.delete k cells
                   end) cells (_undos s)) s.

(** [FNS[fn](...args)] with the table at the end of util.mjs. *)
Definition FNS (fn : string) (args : list num) : option num :=
  if decide (fn = "+") then
    match args with a :: b :: _ => Some (add a b) | _ => js_call fn args end
  else if decide (fn = "-") then
    match args with
    | [a] => Some (neg a)
    | a :: b :: _ => Some (sub a b)
    | [] => js_call fn args
    end
  else if decide (fn = "*") then
    match args with a :: b :: _ => Some (mul a b) | _ => js_call fn args end
  else if decide (fn = "/") then
    match args with a :: b :: _ => Some (div a b) | _ => js_call fn args end
  else if decide (fn = "min") then Some (Math_min args)
  else if decide (fn = "max") then Some (Math_max args)
  else if decide (fn ∈ Object_prototype) then js_call fn args
  else None.

(** [_evalAst(baseCellId, ast)] for an [ast] that is not [null]. *)
Fixpoint evalAst (baseCellId : string) (ast : Ast) {struct ast} : M num :=
  match ast with
  | Num value => mret value
  | Ref _ =>
      str ← lift (toString ast baseCellId);
      let cellId := cellRefToCellId str in
      cell ← _updateCell cellId (set_dependents (Set_add baseCellId));
      mret (value cell)
  | App fn kids =>
      args ← (fix mapKids (ks : list Ast) : M (list num) :=
                match ks with
                | [] => mret []
                | k :: r =>
                    v ← evalAst baseCellId k;
                    vs ← mapKids r;
                    mret (v :: vs)
                end) kids;
      match FNS fn args with
      | Some v => mret v
      | None => throw TypeError
      end
  end.

Definition _evalAst (baseCellId : string) (ast : option Ast) : M num :=
  match ast with
  | None => mret zero
  | Some a => evalAst baseCellId a
  end.

(** [_removeAsDependent(baseCellId, ast)] *)
Fixpoint _removeAsDependent (baseCellId : string) (ast : Ast) {struct ast} : M unit :=
  match ast with
  | App _ kids =>
      (fix forEach (ks : list Ast) : M unit :=
         match ks with
         | [] => mret ()
         | k :: r => _ ← _removeAsDependent baseCellId k; forEach r
         end) kids
  | Ref _ =>
      str ← lift (toString ast baseCellId);
      let cellId := cellRefToCellId str in
      _ ← _updateCell cellId (set_dependents (Set_delete baseCellId));
      mret ()
  | Num _ => mret ()
  end.

(** [_evalCell(cell, working)], [cell] being the object stored under [key]
    (a read of [cell.id] throws when there is none).  The loop over
    [cell.dependents] walks the live [Set]: [i] counts the elements
    visited, and an element added meanwhile is visited too.  [working] is
    one [Set] shared by all calls; it is returned as the call leaves it. *)
Fixpoint _evalCell (fuel : nat) (key : string) (working : list string) {struct fuel}
  : M (gmap string num * list string) :=
  match fuel with
  | O => λ _, OutOfFuel
  | S fuel =>
      s ← get;
      match _cells s !! key with
      | None => throw TypeError
      | Some cell =>
          value ← _evalAst (id cell) (ast cell);
          _ ← _updateCell (id cell) (set_value value);
          let vals : gmap string num := {[ id cell := value ]} in
          let working := Set_add (id cell) working in
          '(vals, working) ← _evalDependents fuel key 0 vals working;
          mret (vals, Set_delete (id cell) working)
      end
  end
with _evalDependents (fuel : nat) (key : string) (i : nat)
       (vals : gmap string num) (working : list string) {struct fuel}
  : M (gmap string num * list string) :=
  match fuel with
  | O => λ _, OutOfFuel
  | S fuel =>
      s ← get;
      match (_cells s !! key) ≫= (λ cell, dependents cell !! i) with
      | None => mret (vals, working)
      | Some dependent =>
          if decide (dependent ∈ working) then
            throw (AppError CIRCULAR_REF ("circular ref involving " +:+ dependent))
          else
            '(vals', working) ← _evalCell fuel dependent working;
            _evalDependents fuel key (S i) (vals' ∪ vals) working
      end
  end.

(** [eval(baseCellId, formula, updateStore)] *)
Definition eval (fuel : nat) (baseCellId formula : string) (updateStore : bool)
  : M (gmap string num) :=
  try_catch_rethrow
    (_ ← modify (set_undos (λ _, ∅));
     let cellId := cellRefToCellId baseCellId in
     s ← get;
     let oldAst := (_cells s !! cellId) ≫= ast in
     ast ← lift (parse formula cellId);
     _ ← _updateCell cellId (set_ast ast);
     _ ← match oldAst with
         | Some oldAst => _removeAsDependent cellId oldAst
         | None => mret ()
         end;
     '(updates, _) ← _evalCell fuel cellId [];
     _ ← (if updateStore
          then s ← get; store_request (StoreUpdateCell (name s) cellId formula)
          else mret ());
     mret updates)
    _undo.

(** [query(cellId)] *)
Definition query (s : Sheet) (cellId : string) : result (num * string) :=
  let cellId := Js.toLowerCase cellId in
  match _cells s !! cellId with
  | Some cell =>
      formula ← CellInfo_formula cell;
      Ret (value cell, formula)
  | None => Ret (zero, "")
  end.

(** [clear()] *)
Definition clear : M unit :=
  s ← get;
  _ ← store_request (StoreClear (name s));
  _ ← modify (set_undos (λ _, ∅));
  modify (set_cells (λ _, ∅)).

(** [delete(cellId)].  [this._cells] is a plain object, so the test
    [if (this._cells[cellId])] also passes for a name inherited from
    [Object.prototype]: the value found has no [dependents], the closure
    given to [_updateCell] deletes the key ["undefined"], and the loop
    over [undefined] throws. *)
Definition delete (fuel : nat) (cellId : string) : M (gmap string num) :=
  let cellId := Js.toLowerCase cellId in
  _ ← modify (set_undos (λ _, ∅));
  s ← get;
  results ←
    (match _cells s !! cellId with
     | Some cell =>
         let dependents := dependents cell in
         _ ← _updateCell_delete cellId;
         (fix loop (ds : list string) (results : gmap string num) : M (gmap string num) :=
            match ds with
            | [] => mret results
            | dependent :: ds =>
                s ← get;
                match _cells s !! dependent with
                | None => throw TypeError
                | Some depCell =>
                    formula ← lift (CellInfo_formula depCell);
                    updates ← eval fuel dependent formula true;
                    loop ds (updates ∪ results)
                end
            end) dependents ∅
     | None =>
         if decide (cellId ∈ Object_prototype) then
           _ ← modify (set_cells (base.delete "undefined"));
           throw TypeError
         else mret ∅
     end);
  s ← get;
  _ ← store_request (StoreDelete (name s) cellId);
  mret results.

(** [copy(destCellId, srcCellId)] *)
Definition copy (fuel : nat) (destCellId srcCellId : string) : M (gmap string num) :=
  let destCellId := Js.toLowerCase destCellId in
  let srcCellId := Js.toLowerCase srcCellId in
  _ ← modify (set_undos (λ _, ∅));
  s ← get;
  match _cells s !! srcCellId with
  | None => delete fuel destCellId
  | Some srcCell =>
      formula ← lift (CellInfo_formula srcCell);
      match ast srcCell, formula with
      | Some srcAst, String _ _ =>
          match toString srcAst destCellId with
          | Ret destFormula => eval fuel destCellId destFormula true
          | Raise (AppError SYNTAX message) =>
              srcFormula ← lift (toString srcAst srcCellId);
              let msg := "cannot copy formula " +:+ srcFormula +:+ " to " +:+
                         destCellId +:+ ": " in
              throw (AppError SYNTAX (msg +:+ message))
          | Raise err => throw err
          end
      | _, _ => delete fuel destCellId
      end
  end.

(** [_makePrereqs()].  [Object.values] lists the cells in the order of the
    table; the order only shows in the order of each list of
    prerequisites, which [dump] never looks at. *)
Definition _makePrereqs (s : Sheet) : gmap string (list string) :=
  let prereqCells :=
    filter (λ cell, CellInfo_isEmpty cell = false) (snd <$> map_to_list (_cells s)) in
  let prereqs : gmap string (list string) :=
    list_to_map ((λ c, (id c, [])) <$> prereqCells) in
  foldl (λ prereqs cell,
           foldl (λ prereqs d,
                    match prereqs !! d with
                    | Some l => <[d := l ++ [id cell]]> prereqs
                    | None => prereqs
                    end) prereqs (dependents cell))
        prereqs prereqCells.

(** [cellIds.sort()]: by code units, that is lexicographically. *)
Definition sort (cellIds : list string) : list string := merge_sort String.le cellIds.

(** The body of the loop [for (const cellId of cellIds0)] of [dump], from
    the state of [cellIds1], [sortedIds] and [doneIds] before a cell to
    their state after it. *)
Definition dumpCell (s : Sheet) (prereqs : gmap string (list string))
  (acc : result (list string * list string * gset string)) (cellId : string)
  : result (list string * list string * gset string) :=
  '(cellIds1, sortedIds, doneIds) ← acc;
  let doneIds := doneIds ∪ {[cellId]} in
  let sortedIds := sortedIds ++ [cellId] in
  match _cells s !! cellId with
  | None => Raise TypeError
  | Some cell =>
      let cellIds1 :=
        foldl (λ cellIds1 dependentId,
                 match prereqs !! dependentId with
                 | Some ps =>
                     if forallb (λ prereq, bool_decide (prereq ∈ doneIds)) ps
                     then cellIds1 ++ [dependentId] else cellIds1
                 | None => cellIds1
                 end) cellIds1 (dependents cell) in
      Ret (cellIds1, sortedIds, doneIds)
  end.

(** The [while] loop of [dump]; [fuel] bounds its rounds. *)
Fixpoint dumpLoop (fuel : nat) (s : Sheet) (prereqs : gmap string (list string))
  (nCells : nat) (cellIds0 sortedIds : list string) (doneIds : gset string)
  : option (result (list string)) :=
  if decide (length sortedIds < nCells)%nat then
    match fuel with
    | O => None
    | S fuel =>
        match foldl (dumpCell s prereqs) (Ret ([], sortedIds, doneIds)) cellIds0 with
        | Raise e => Some (Raise e)
        | Ret (cellIds1, sortedIds, doneIds) =>
            dumpLoop fuel s prereqs nCells (sort cellIds1) sortedIds doneIds
        end
    end
  else Some (Ret sortedIds).

(** [dump()]; [None] when the loop is still running after [fuel] rounds. *)
Definition dump (fuel : nat) (s : Sheet) : option (result (list (string * string))) :=
  let prereqs := _makePrereqs s in
  let allCellIds := (map_to_list prereqs).*1 in
  let nCells := length allCellIds in
  let cellIds0 := sort (filter (λ id, prereqs !! id = Some []) allCellIds) in
  r ← dumpLoop fuel s prereqs nCells cellIds0 [] ∅;
  Some (sortedIds ← r;
        mapM (M := result)
             (λ id, match _cells s !! id with
                    | None => Raise TypeError
                    | Some cell => formula ← CellInfo_formula cell; Ret (id, formula)
                    end) sortedIds).

End WithNumbers.

Arguments Return {N A} a s.
Arguments Throw {N A} e s.
Arguments OutOfFuel {N A}.
End Spreadsheet.

(** ** A number system to run the engine on

    The integers JS represents exactly, of magnitude below [2^53]:
    on them [+], [-], [*] and the printing of a literal are what JS
    computes.  [Other] stands for every value outside (a fraction, an
    infinity, NaN, a number too large); the scenarios below never meet it. *)

Inductive int53 := Int (z : Z) | Other.

#[global] Instance int53_eq_dec : EqDecision int53.
Proof. solve_decision. Defined.

Definition norm53 (z : Z) : int53 :=
  if Z.log2 (Z.abs z) <? 53 then Int z else Other.

Definition lift53 (f : Z -> Z -> Z) (a b : int53) : int53 :=
  match a, b with
  | Int x, Int y => norm53 (f x y)
  | _, _ => Other
  end.

Definition fold53 (f : Z -> Z -> Z) (args : list int53) : int53 :=
  match args with
  | Int x :: rest =>
      foldl (λ acc a, match acc, a with
                      | Int u, Int v => Int (f u v)
                      | _, _ => Other
                      end) (Int x) rest
  | _ => Other
  end.

#[global] Instance IntNum : JSNum := {|
  num := int53;
  zero := Int 0;
  Number := λ lexeme,
    match lexeme with
    | EmptyString => Other
    | _ => if Js.allChars Js.isDigit lexeme then norm53 (Js.toInt lexeme) else Other
    end;
  num_toString := λ v, match v with Int z => Js.ofInt z | Other => "NaN" end;
  add := lift53 Z.add;
  sub := lift53 Z.sub;
  mul := lift53 Z.mul;
  div := λ a b,
    match a, b with
    | Int x, Int y => if (y =? 0) || negb (x mod y =? 0) then Other else Int (x / y)
    | _, _ => Other
    end;
  neg := λ a, match a with Int x => Int (- x) | Other => Other end;
  Math_min := fold53 Z.min;
  Math_max := fold53 Z.max;
  js_call := λ _ _, Some Other
|}.

(** ** Notions used to state the properties *)

(** The state a call leaves behind, whether it returns or throws. *)
Definition after `{N : JSNum} {A} (m : Spreadsheet.M A) (s : Spreadsheet.Sheet)
  : Spreadsheet.Sheet :=
  match m s with
  | Spreadsheet.Return _ s' | Spreadsheet.Throw _ s' => s'
  | Spreadsheet.OutOfFuel => s
  end.

(** What a call returned, if it returned, and what it threw, if it threw. *)
Definition returned `{N : JSNum} {A} (o : Spreadsheet.outcome A) : option A :=
  match o with Spreadsheet.Return a _ => Some a | _ => None end.

Definition thrown `{N : JSNum} {A} (o : Spreadsheet.outcome A) : option exn :=
  match o with Spreadsheet.Throw e _ => Some e | _ => None end.

(** A store that rejects every request to delete a cell, and no other. *)
Definition deleteFailingStore : Store :=
  {| requests := [];
     failure := λ op, match op with
                      | StoreDelete _ _ => Some (AppError DB "cannot delete")
                      | _ => None
                      end |}.

(** What a method guarantees: started in a state where [P] holds, it
    returns [a] in a state with [Q a], or throws in a state with [E]. *)
Definition triple `{N : JSNum} {A} (P : Spreadsheet.Sheet -> Prop)
  (m : Spreadsheet.M A) (Q : A -> Spreadsheet.Sheet -> Prop)
  (E : Spreadsheet.Sheet -> Prop) : Prop :=
  forall s, P s ->
    match m s with
    | Spreadsheet.Return a s' => Q a s'
    | Spreadsheet.Throw _ s' => E s'
    | Spreadsheet.OutOfFuel => True
    end.

(** An id with no dollar sign in it. *)
Definition nodollar (k : string) : Prop := Js.contains "$" k = false.

(** The shape of the table and of the undo log that every method keeps:
    a cell is stored under its own id, and no key has a dollar sign. *)
Record table_ok `{N : JSNum} (s : Spreadsheet.Sheet) : Prop := {
  cells_ok : forall k c, Spreadsheet._cells s !! k = Some c ->
                         Spreadsheet.id c = k /\ nodollar k;
  undos_ok : forall k v, Spreadsheet._undos s !! k = Some v ->
                         nodollar k /\ forall c, v = Some c -> Spreadsheet.id c = k
}.

(** The states of a sheet: a new sheet, and what any public method leaves
    behind, whether it returned or threw.  [make] is [new] followed by
    [eval]s that do not update the store. *)
Inductive reachable `{N : JSNum} : Spreadsheet.Sheet -> Prop :=
| reachable_new name store : reachable (Spreadsheet.new name store)
| reachable_eval s fuel baseCellId formula updateStore :
    reachable s ->
    reachable (after (Spreadsheet.eval fuel baseCellId formula updateStore) s)
| reachable_delete s fuel cellId :
    reachable s -> reachable (after (Spreadsheet.delete fuel cellId) s)
| reachable_copy s fuel destCellId srcCellId :
    reachable s -> reachable (after (Spreadsheet.copy fuel destCellId srcCellId) s)
| reachable_clear s :
    reachable s -> reachable (after Spreadsheet.clear s).

(** A method that keeps [I]: it holds again when the method returns or
    throws. *)
Definition keeps `{N : JSNum} {A} (I : Spreadsheet.Sheet -> Prop)
  (m : Spreadsheet.M A) : Prop :=
  triple I m (λ _, I) I.

(** What the undo log promises during a method that started with the table
    [pre]: a key on record is recorded with what [pre] held for it, and a key
    not on record still holds what [pre] held. *)
Definition undo_log_ok `{N : JSNum} (pre : gmap string Spreadsheet.CellInfo)
  (s : Spreadsheet.Sheet) : Prop :=
  forall k,
    match Spreadsheet._undos s !! k with
    | Some v => v = pre !! k
    | None => Spreadsheet._cells s !! k = pre !! k
    end.

(** *** The order of [dump] *)

(** A cell with a formula, a prerequisite of a cell, and what it is for a
    function to give the depths: [0] with no prerequisite, otherwise one
    more than the deepest prerequisite.  Empty cells count nowhere. *)
Definition nonEmptyCell `{N : JSNum} (s : Spreadsheet.Sheet) (k : string) : Prop :=
  exists c, Spreadsheet._cells s !! k = Some c /\ Spreadsheet.CellInfo_isEmpty c = false.

Definition prerequisite `{N : JSNum} (s : Spreadsheet.Sheet) (p d : string) : Prop :=
  exists c, Spreadsheet._cells s !! p = Some c /\
            Spreadsheet.CellInfo_isEmpty c = false /\
            d ∈ Spreadsheet.dependents c.

Definition is_depth `{N : JSNum} (s : Spreadsheet.Sheet) (depth : string -> nat) : Prop :=
  forall c, nonEmptyCell s c ->
    (forall p, prerequisite s p c -> (depth p < depth c)%nat) /\
    (depth c = 0%nat \/ exists p, prerequisite s p c /\ depth c = S (depth p)).

(** The order of the dump: by depth, and by id among cells of one depth. *)
Definition dump_before (depth : string -> nat) (a b : string) : Prop :=
  (depth a < depth b)%nat \/ (depth a = depth b /\ String.le a b /\ a <> b).

(** What a table of JS objects is by construction: a cell sits under its own
    id, and a [Set] holds no element twice. *)
Definition cells_wf `{N : JSNum} (s : Spreadsheet.Sheet) : Prop :=
  forall k c, Spreadsheet._cells s !! k = Some c ->
              Spreadsheet.id c = k /\ NoDup (Spreadsheet.dependents c).

(** [m'] extends the lists of [m] by the [p] with [S p d], key by key. *)
Definition extends_by (S : string -> string -> Prop) (m m' : gmap string (list string)) : Prop :=
  forall d,
    match m !! d, m' !! d with
    | Some l, Some l' => forall p, p ∈ l' <-> p ∈ l \/ S p d
    | None, None => True
    | _, _ => False
    end.

(** The test of [dump] on a dependent: it has a list of prerequisites and
    all of them are done. *)
Definition ready (prereqs : gmap string (list string)) (doneIds : gset string)
  (dependentId : string) : bool :=
  match prereqs !! dependentId with
  | Some ps => forallb (λ prereq, bool_decide (prereq ∈ doneIds)) ps
  | None => false
  end.

(** ** Notions for the round trip of the printer and the parser *)

Section RoundTripNotions.
Import ExprParser.
Context {N : JSNum}.

(** What may follow a number or a reference in a printed formula: the
    end, or a character that is no word character and no dot. *)
Definition delim (rest : string) : Prop :=
  match rest with
  | String c _ => Js.isWord c = false /\ Js.code c <> 46
  | EmptyString => True
  end.

(** The string is empty or starts with a character that fails [p]. *)
Definition headFails (p : ascii -> bool) (rest : string) : Prop :=
  match rest with
  | String c _ => p c = false
  | EmptyString => True
  end.

(** The string starts with a digit. *)
Definition headDigit (s : string) : bool :=
  match s with
  | String c _ => Js.isDigit c
  | EmptyString => false
  end.

(** The coordinate an axis of a reference stands for under a base index
    is in range. *)
Definition axis_in_range (max baseIndex : Z) (a : Axis) : Prop :=
  let absIndex := if isAbs a then index a else baseIndex + index a in
  0 <= absIndex < max.

Definition ref_in_range (base r : CellRef) : Prop :=
  axis_in_range LIMITS.MAX_N_COLS (index (col base)) (col r) /\
  axis_in_range LIMITS.MAX_N_ROWS (index (row base)) (row r).

(** The characters of a printed reference: dollar, digit, small letter. *)
Definition refChar (c : ascii) : bool :=
  (Js.code c =? 36) || Js.isDigit c || ((97 <=? Js.code c) && (Js.code c <=? 122)).

(** A number that prints as a literal of the scanner which reads back as
    the number. *)
Definition num_literal (v : num) : Prop :=
  let t := num_toString v in
  headDigit t = true /\ matchNum t = t /\ Number t = v.

(** The functions of the table and the numbers of arguments each takes:
    the four operators with two, the minus sign also with one, [min] and
    [max] with one or more. *)
Definition arity_ok (fn : string) (n : nat) : Prop :=
  (fn = "+" \/ fn = "*" \/ fn = "/") /\ n = 2%nat \/
  fn = "-" /\ (n = 1%nat \/ n = 2%nat) \/
  (fn = "min" \/ fn = "max") /\ (1 <= n)%nat.

(** A formula whose applications have the arity of their function, whose
    references are in range under the base cell and whose numbers
    satisfy [lit]. *)
Fixpoint well_formed (lit : num -> Prop) (base : CellRef) (a : Ast) : Prop :=
  match a with
  | Num v => lit v
  | Ref r => ref_in_range base r
  | App fn kids =>
      arity_ok fn (length kids) /\
      fold_right (fun k acc => well_formed lit base k /\ acc) True kids
  end.

(** The tokens of [Ast.left(p) + ... + Ast.right(p)]. *)
Definition wrap (p : bool) (l : list Tok) : list Tok :=
  if p then TChar "(" :: l ++ [TChar ")"] else l.

(** The token the scanner makes of the name of a function. *)
Definition opTok (fn : string) : Tok :=
  match fn with
  | String c EmptyString => TChar c
  | _ => TFn fn
  end.

(** The tokens of [strs.join(', ')]. *)
Fixpoint sepToks (ls : list (list Tok)) : list Tok :=
  match ls with
  | [] => []
  | [l] => l
  | l :: r => l ++ TChar "," :: sepToks r
  end.

(** The tokens of the printed form of a formula, case by case as [toStr]
    builds the string. *)
Fixpoint toks (base : CellRef) (a : Ast) : list Tok :=
  match a with
  | Num v => [TNum (num_toString v) (Number (num_toString v))]
  | Ref r =>
      match CellRef_toString r (Some base) with
      | Ret s => [TRef s r]
      | Raise _ => []
      end
  | App fn kids =>
      match FNS fn with
      | None => []
      | Some fnInfo =>
          match type fnInfo with
          | None => TFn fn :: TChar "(" :: sepToks (map (toks base) kids) ++ [TChar ")"]
          | Some _ =>
              match kids with
              | [k0] =>
                  opTok fn :: wrap (bool_decide (is_Some (kidPrec k0))) (toks base k0)
              | k0 :: k1 :: _ =>
                  let p0 := match prec fnInfo with
                            | Some p => default MAX_PREC (kidPrec k0) <? p
                            | None => false
                            end in
                  let p1 := match prec fnInfo with
                            | Some p => default MAX_PREC (kidPrec k1) <=? p
                            | None => false
                            end in
                  wrap p0 (toks base k0) ++ opTok fn :: wrap p1 (toks base k1)
              | [] => []
              end
          end
      end
  end.

(** The scanner reads [s], whatever follows it, as the tokens [l]. *)
Definition lexes (base : CellRef) (s : string) (l : list Tok) : Prop :=
  forall rest ts, delim rest -> scan rest base = Ret ts ->
    scan (s +:+ rest) base = Ret (l ++ ts).

(** The formula prints, and the scanner reads the string as [toks]. *)
Definition prints_as (base : CellRef) (a : Ast) : Prop :=
  exists s, toStr a base = Ret s /\ lexes base s (toks base a).

(** What the scanner needs of the character of an operator. *)
Definition opChar (c : ascii) : Prop :=
  Js.isSpace c = false /\ Js.isDigit c = false /\ Js.isWord c = false /\ Js.code c <> 46.

(** [FNS[a.fn]?.prec ?? MAX_PREC] *)
Definition level (a : Ast) : Z := default MAX_PREC (kidPrec a).

(** The number of operators on the left spine of a sum, and of a product:
    the rounds of the loop of [expr], and of [term], that read it. *)
Fixpoint spineE (a : Ast) : nat :=
  match a with
  | App fn (k0 :: _ :: _) => if decide (level a = 10) then S (spineE k0) else 0
  | _ => 0
  end.

Fixpoint spineT (a : Ast) : nat :=
  match a with
  | App fn (k0 :: _ :: _) => if decide (level a = 20) then S (spineT k0) else 0
  | _ => 0
  end.

(** The next token is there and is no operator of a product, of a sum. *)
Definition noMul (ts : list Tok) : Prop :=
  match ts with
  | TChar c :: _ => isMulOp c = false
  | [] => False
  | _ => True
  end.

Definition noAdd (ts : list Tok) : Prop :=
  match ts with
  | TChar c :: _ => isAddOp c = false
  | [] => False
  | _ => True
  end.

(** The tokens of the arguments of a call after the first one. *)
Definition commaToks (base : CellRef) (kids : list Ast) : list Tok :=
  foldr (fun k acc => TChar "," :: toks base k ++ acc) [] kids.

(** The tokens of a formula where the grammar asks for a factor (the
    operand of a minus sign, the right operand of a product) and for a term
    (the left operand of a product, the right operand of a sum): in
    parentheses when the precedence of the formula is lower. *)
Definition asFactor (base : CellRef) (a : Ast) : list Tok :=
  wrap (level a <? 100) (toks base a).

Definition asTerm (base : CellRef) (a : Ast) : list Tok :=
  wrap (level a <? 20) (toks base a).

(** The parser reads the tokens of the formula back as the formula, as a
    factor, as a term and as an expression, with a counter of three per
    token; after a term the loop of [term] goes on with what follows, after
    an expression the loop of [expr]. *)
Record parses (base : CellRef) (a : Ast) : Prop := {
  parses_size : (2 * spineE a + 1 <= length (toks base a))%nat /\
                (2 * spineT a + 1 <= length (toks base a))%nat;
  parses_level : kidPrec a = Some 10 \/ kidPrec a = Some 20 \/ kidPrec a = None;
  parses_factor : forall ts n,
    (3 * length (asFactor base a) <= n + 2)%nat ->
    factor n (asFactor base a ++ ts) = Ret (a, ts);
  parses_term : forall ts n m,
    n = (m + 1 + spineT a)%nat -> (3 * length (asTerm base a) <= n + 1)%nat ->
    term n (asTerm base a ++ ts) = termLoop m a ts;
  parses_expr : forall ts n m,
    n = (m + 1 + spineE a)%nat -> (3 * length (toks base a) <= n)%nat -> noMul ts ->
    expr n (toks base a ++ ts) = exprLoop m a ts
}.

End RoundTripNotions.

(** Two formulas over the integers. *)

Section RoundTripExamples.
Import ExprParser.

(** The base cells [a1] and [b2] as [new CellRef] builds them. *)
Definition a1 : CellRef :=
  {| col := {| isAbs := false; index := 0 |}; row := {| isAbs := false; index := 0 |} |}.

Definition b2 : CellRef :=
  {| col := {| isAbs := false; index := 1 |}; row := {| isAbs := false; index := 1 |} |}.

(** The formula [(1+a$1)*(-min($c3, 30))] of cell [b2]. *)
Definition sample : @Ast IntNum :=
  App "*"
    [App "+" [Num (Int 1);
              Ref {| col := {| isAbs := false; index := -1 |};
                     row := {| isAbs := true; index := 0 |} |}];
     App "-" [App "min" [Ref {| col := {| isAbs := true; index := 2 |};
                                row := {| isAbs := false; index := 1 |} |};
                         Num (Int 30)]]].

End RoundTripExamples.

(** ** Notions for the counter of the parser *)

Section ParserNotions.
Import ExprParser.
Context {N : JSNum}.

(** What a call that returns has taken from the tokens: [factor], [term]
    and [expr] at least one token, the loops none or more. *)
Definition takes {A} (strict : bool) (ts : list Tok) (r : result (A * list Tok)) : Prop :=
  match r with
  | Ret (_, ts') => if strict then (length ts' < length ts)%nat
                    else (length ts' <= length ts)%nat
  | Raise _ => True
  end.

End ParserNotions.

(** ** Notions for what the parser returns and what the engine keeps *)

Section ParserOutputNotions.
Import ExprParser.
Context {N : JSNum}.

(** A formula that prints under a base cell. *)
Definition printable (base : CellRef) (a : Ast) : Prop :=
  exists s, toStr a base = Ret s.

(** A token the parser can build a printable formula from: a reference
    that prints, a name of a function that is no operator. *)
Definition tok_ok (base : CellRef) (tok : Tok) : Prop :=
  match tok with
  | TRef _ v => exists s, CellRef_toString v (Some base) = Ret s
  | TFn l => exists info, FNS l = Some info /\ type info = None
  | _ => True
  end.

(** What a call of the parser that returns gives back: a result with [P]
    and tokens that are still fine. *)
Definition gives {A} (base : CellRef) (P : A -> Prop) (r : result (A * list Tok)) : Prop :=
  match r with
  | Ret (a, ts') => P a /\ Forall (tok_ok base) ts'
  | Raise _ => True
  end.

End ParserOutputNotions.

Section ContentNotions.
Import ExprParser Spreadsheet.
Context {N : JSNum}.

(** What the engine keeps of every cell: a [Set] holds no element twice,
    and the formula of the cell prints. *)
Definition cell_ok (c : CellInfo) : Prop :=
  NoDup (dependents c) /\ exists f, CellInfo_formula c = Ret f.

Record content_ok (s : Sheet) : Prop := {
  cells_content : forall k c, _cells s !! k = Some c -> cell_ok c;
  undos_content : forall k c, _undos s !! k = Some (Some c) -> cell_ok c
}.

Definition sheet_ok (s : Sheet) : Prop := table_ok s /\ content_ok s.

End ContentNotions.

(** *** What the scanner returns *)

Section ScannerOutputNotions.
Import ExprParser.
Context {N : JSNum}.

(** The token list of the scanner: tokens of the text, then the end token. *)
Definition ends_once (ts : list Tok) : Prop :=
  exists ts', ts = ts' ++ [TEnd] /\ TEnd ∉ ts'.

(** The text without its white space. *)
Fixpoint dropSpaces (s : string) : string :=
  match s with
  | EmptyString => EmptyString
  | String c r => if Js.isSpace c then dropSpaces r else String c (dropSpaces r)
  end.

(** The lexemes of the tokens before the end token, one after the other. *)
Fixpoint lexemes (ts : list Tok) : string :=
  match ts with
  | [] => ""
  | [TEnd] => ""
  | tok :: ts => tok_lexeme tok +:+ lexemes ts
  end.

(** A word of the scanner: letters, digits and underscores, no digit
    first. *)
Definition is_word (l : string) : Prop :=
  l <> "" /\ headDigit l = false /\ Js.allChars Js.isWord l = true.

(** A token that says what its lexeme is: a number next to the digits it
    was read from, a reference next to its text, the name of a function
    of the table. *)
Definition tok_faithful (baseCell : CellRef) (tok : Tok) : Prop :=
  match tok with
  | TNum l v => headDigit l = true /\ v = Number l
  | TFn l => is_word l /\ is_Some (FNS l)
  | TRef l v => is_word l /\ FNS l = None /\ CellRef_new l (Some baseCell) = Ret v
  | TChar c => Js.isSpace c = false /\ Js.isWord c = false
  | TEnd => True
  end.

End ScannerOutputNotions.

(** *** How the parser ends *)

Section ParserSafetyNotions.
Import ExprParser.
Context {N : JSNum}.

(** How a call of the parser on the tokens of the scanner ends: with the
    end token still last, or with a [SYNTAX] error. *)
Definition safe {A} (r : result (A * list Tok)) : Prop :=
  match r with
  | Ret (_, ts') => last ts' = Some TEnd
  | Raise e => is_code SYNTAX e
  end.

End ParserSafetyNotions.

(** *** The shape of a parsed formula *)

Section ParserShapeNotions.
Import ExprParser.
Context {N : JSNum}.

(** A name the scanner takes for the name of a function: a word of the
    table of functions that is no operator. *)
Definition call_name (fn : string) : Prop :=
  is_word fn /\ exists info, FNS fn = Some info /\ type info = None.

(** The applications the parser builds: an operator with two operands,
    the minus sign also with one, a call with one argument or more. *)
Definition shape_fn (fn : string) (n : nat) : Prop :=
  (fn = "+" \/ fn = "*" \/ fn = "/") /\ n = 2%nat \/
  fn = "-" /\ (n = 1%nat \/ n = 2%nat) \/
  call_name fn /\ (1 <= n)%nat.

(** A formula of the shape of the grammar: every application is one the
    parser builds, every number satisfies [lit], and every reference
    resolves, under [base], to a column and a row in range. *)
Fixpoint well_shaped (lit : num -> Prop) (base : CellRef) (a : Ast) : Prop :=
  match a with
  | Num v => lit v
  | Ref r => ref_in_range base r
  | App fn kids =>
      shape_fn fn (length kids) /\
      fold_right (fun k acc => well_shaped lit base k /\ acc) True kids
  end.

(** Every number of a formula satisfies [lit]. *)
Fixpoint all_nums (lit : num -> Prop) (a : Ast) : Prop :=
  match a with
  | Num v => lit v
  | Ref _ => True
  | App _ kids => fold_right (fun k acc => all_nums lit k /\ acc) True kids
  end.

(** What a call of the parser that returns gives back: a result with [P]
    and tokens that still have [Q]. *)
Definition builds {A} (Q : Tok -> Prop) (P : A -> Prop) (r : result (A * list Tok)) : Prop :=
  match r with
  | Ret (a, ts') => P a /\ Forall Q ts'
  | Raise _ => True
  end.

End ParserShapeNotions.

(** *** Requests to the store, and [make] *)

Section StoreNotions.
Import ExprParser Spreadsheet.
Context {N : JSNum}.

(** The store after one more request. *)
Definition logged (op : StoreOp) (st : Store) : Store :=
  {| requests := requests st ++ [op]; failure := failure st |}.

(** The sheet has the name [n] and the store [st]. *)
Definition store_is (n : string) (st : option Store) (s : Sheet) : Prop :=
  name s = n /\ _store s = st.

(** How a call started in [s] ends: it returns [a] in a state with [Q a],
    or throws [e] in a state with [E e]. *)
Definition ends {A} (m : M A) (s : Sheet) (Q : A -> Sheet -> Prop)
    (E : exn -> Sheet -> Prop) : Prop :=
  match m s with
  | Return a s' => Q a s'
  | Throw e s' => E e s'
  | OutOfFuel => True
  end.

(** [Spreadsheet.make(name, store)].  [stored] is what
    [store.readFormulas(name)] answers: the pairs of a cell id and a
    formula, or an exception. *)
Definition make (fuel : nat) (name : string) (store : option Store)
    (stored : result (list (string * string))) : outcome Sheet :=
  let ss := new name store in
  match store with
  | None => Return ss ss
  | Some _ =>
      (pairs ← lift stored;
       _ ← (fix loop (pairs : list (string * string)) : M unit :=
              match pairs with
              | [] => mret ()
              | (cellId, formula) :: pairs =>
                  _ ← eval fuel cellId formula false;
                  loop pairs
              end) pairs;
       get) ss
  end.

End StoreNotions.

(** *** Ids as the engine writes them *)

Section IdNotions.
Import ExprParser Spreadsheet.
Context {N : JSNum}.

(** An id as the engine writes it: in lower case and with no dollar sign. *)
Definition canonical (k : string) : Prop := cellRefToCellId k = k.

(** A cell that is stored under its own id and whose dependents are named
    by ids as the engine writes them. *)
Definition cell_ids_ok (k : string) (c : CellInfo) : Prop :=
  id c = k /\ Forall canonical (dependents c).

(** The ids of the table and of the undo log are as the engine writes
    them. *)
Record ids_ok (s : Sheet) : Prop := {
  cells_ids : forall k c, _cells s !! k = Some c -> canonical k /\ cell_ids_ok k c;
  undos_ids : forall k v, _undos s !! k = Some v ->
                          canonical k /\ forall c, v = Some c -> cell_ids_ok k c
}.

End IdNotions.

(** *** Values and formulas of the table *)

Section ValueNotions.
Import ExprParser Spreadsheet.
Context {N : JSNum}.

(** The value the table holds for a key. *)
Definition valueAt (s : Sheet) (k : string) : option num := value <$> (_cells s !! k).

(** The values of [vals] are the values of the table. *)
Definition agree (vals : gmap string num) (s : Sheet) : Prop :=
  forall k v, vals !! k = Some v -> valueAt s k = Some v.

(** From [s0] to [s] the cells off [vals] kept their values. *)
Definition values_kept_off (vals : gmap string num) (s0 s : Sheet) : Prop :=
  forall k, vals !! k = None -> forall v, valueAt s0 k = Some v -> valueAt s k = Some v.

(** The cell under [k] has the formula [a] and the id [k]. *)
Definition has_ast (k : string) (a : Ast) (s : Sheet) : Prop :=
  exists c, _cells s !! k = Some c /\ ast c = Some a /\ id c = k.

End ValueNotions.

(** *** References and dependents *)

Section DependentNotions.
Import ExprParser Spreadsheet.
Context {N : JSNum}.

(** The references of a formula, from left to right. *)
Fixpoint refs (a : Ast) : list CellRef :=
  match a with
  | Num _ => []
  | Ref r => [r]
  | App _ kids => flat_map refs kids
  end.

(** The cell [r] names in a formula of the cell [baseCellId] has
    [baseCellId] among its dependents. *)
Definition registered (baseCellId : string) (r : CellRef) (s : Sheet) : Prop :=
  exists str c, toString (Ref r) baseCellId = Ret str /\
                _cells s !! cellRefToCellId str = Some c /\
                baseCellId ∈ dependents c.

(** From [s0] to [s] no cell was removed and the sets of dependents only
    got new elements, at their end. *)
Definition deps_grow (s0 s : Sheet) : Prop :=
  forall k c, _cells s0 !! k = Some c ->
    exists c', _cells s !! k = Some c' /\ dependents c `prefix_of` dependents c'.

End DependentNotions.

(** *** [valueFormulas] *)

Section ValueFormulasNotions.
Import ExprParser Spreadsheet.
Context {N : JSNum}.

(** [Object.fromEntries(entries)]: of two entries with one key, the later
    one stays. *)
Definition fromEntries {V} (entries : list (string * V)) : gmap string V :=
  foldl (λ m entry, <[fst entry := snd entry]> m) ∅ entries.

(** [Object.fromEntries(cellIdValuePairs.map(pairValue))] with
    [pairValue = ([cellId, _]) => [cellId, this.query(cellId)]]. *)
Definition pairValues {V} (s : Sheet) (cellIdValuePairs : list (string * V))
  : result (gmap string (num * string)) :=
  entries ← mapM (M := result)
                 (λ pair, q ← query s pair.1; Ret (pair.1, q)) cellIdValuePairs;
  Ret (fromEntries entries).

(** [valueFormulas(cellIdValuePairs)]; [None] is the default [null], for
    which the pairs are those of [dump]. *)
Definition valueFormulas {V} (fuel : nat) (s : Sheet)
    (cellIdValuePairs : option (list (string * V)))
  : option (result (gmap string (num * string))) :=
  match cellIdValuePairs with
  | Some pairs => Some (pairValues s pairs)
  | None => r ← dump fuel s; Some (pairs ← r; pairValues s pairs)
  end.

End ValueFormulasNotions.

(** *** Empty cells *)

Section EmptyNotions.
Import ExprParser Spreadsheet.
Context {N : JSNum}.

(** The table has no cell under [k], or one with no formula and the
    value zero. *)
Definition empty_at (k : string) (s : Sheet) : Prop :=
  match _cells s !! k with
  | None => True
  | Some c => ast c = None /\ value c = zero
  end.

End EmptyNotions.

(** *** A reference seen from another cell *)

Section MoveNotions.

(** The reference [r], made for the base cell [b1], as it is made for
    [b2] from the same text: a relative index is counted from the other
    cell. *)
Definition rebase (b1 b2 : option CellRef) (r : CellRef) : CellRef :=
  {| col := {| isAbs := isAbs (col r);
               index := index (col r) +
                        (if isAbs (col r) then 0 else baseCol b1 - baseCol b2) |};
     row := {| isAbs := isAbs (row r);
               index := index (row r) +
                        (if isAbs (row r) then 0 else baseRow b1 - baseRow b2) |} |}.

End MoveNotions.

(** *** What [eval] leaves alone *)

Section FrameNotions.
Import ExprParser Spreadsheet.
Context {N : JSNum}.

(** The formula the table holds for a key; none when there is no cell. *)
Definition astAt (s : Sheet) (k : string) : option Ast := (_cells s !! k) ≫= ast.

(** Off the cell [cellId] the formulas are those of [s0]. *)
Definition asts_kept_off (cellId : string) (s0 s : Sheet) : Prop :=
  forall k, k <> cellId -> astAt s k = astAt s0 k.

End FrameNotions.

(** *** Dependents that are dropped *)

Section UnlistNotions.
Import ExprParser Spreadsheet.
Context {N : JSNum}.

(** The cell under [t], if there is one, does not have [cellId] among
    its dependents. *)
Definition not_listed (t cellId : string) (s : Sheet) : Prop :=
  forall c, _cells s !! t = Some c -> cellId ∉ dependents c.

(** No reference of the formula [a] of the cell [cellId] names the cell
    [t]. *)
Definition names_other (cellId t : string) (a : Ast) : Prop :=
  forall r str, r ∈ refs a -> toString (Ref r) cellId = Ret str -> cellRefToCellId str <> t.

(** From [s0] to [s] the cell [cellId] was added to no set of
    dependents. *)
Definition unlisted_kept (cellId : string) (s0 s : Sheet) : Prop :=
  forall t, not_listed t cellId s0 -> not_listed t cellId s.

End UnlistNotions.

(** *** Formulas that are copied *)

Section CopyNotions.
Import ExprParser Spreadsheet.
Context {N : JSNum}.





(** The text [t'] is the text [t] of a reference moved with its cell from
    [src] to [dest]: it has the dollar signs of [t]; a column or a row with
    a dollar sign is the same, one without is shifted by the distance from
    [src] to [dest]. *)
Definition moved (src dest : CellRef) (t t' : string) : Prop :=
  exists a a',
    CellRef_new t None = Ret a /\ CellRef_new t' None = Ret a' /\
    isAbs (col a') = isAbs (col a) /\ isAbs (row a') = isAbs (row a) /\
    index (col a') = index (col a) +
                     (if isAbs (col a) then 0 else index (col dest) - index (col src)) /\
    index (row a') = index (row a) +
                     (if isAbs (row a) then 0 else index (row dest) - index (row src)).



End CopyNotions.

(** * Properties *)

(** ** Decimal strings *)

Lemma toIntFrom_string_of_uint (d : Decimal.uint) (acc : positive) :
  Js.toIntFrom (Z.pos acc) (NilEmpty.string_of_uint d) = Z.pos (Pos.of_uint_acc d acc).
Proof.
  revert acc. induction d; intros acc;
    cbn [NilEmpty.string_of_uint Js.toIntFrom Pos.of_uint_acc]; try reflexivity;
    rewrite <- IHd; f_equal;
    match goal with
    | |- context [Js.code ?c] =>
        let v := eval vm_compute in (Js.code c) in change (Js.code c) with v
    end; lia.
Qed.

Lemma toInt_string_of_uint (d : Decimal.uint) :
  Js.toInt (NilEmpty.string_of_uint d) = Z.of_N (Pos.of_uint d).
Proof.
  unfold Js.toInt.
  induction d; cbn [NilEmpty.string_of_uint Js.toIntFrom Pos.of_uint];
    try reflexivity; try assumption;
    apply (toIntFrom_string_of_uint d).
Qed.

Lemma toInt_ofInt (v : Z) : 0 <= v -> Js.toInt (Js.ofInt v) = v.
Proof.
  intros Hv. unfold Js.ofInt.
  destruct v as [|p|p]; [reflexivity | | lia].
  cbn [Z.to_int NilZero.string_of_int].
  assert (Hs : NilZero.string_of_uint (Pos.to_uint p)
               = NilEmpty.string_of_uint (Pos.to_uint p)).
  { pose proof (Unsigned.to_uint_nonnil p).
    destruct (Pos.to_uint p); try reflexivity. congruence. }
  rewrite Hs, toInt_string_of_uint, DecimalPos.Unsigned.of_to. reflexivity.
Qed.

Lemma isDigit_string_of_uint (d : Decimal.uint) :
  Js.allChars Js.isDigit (NilEmpty.string_of_uint d) = true.
Proof.
  induction d; cbn [NilEmpty.string_of_uint Js.allChars];
    try rewrite IHd; reflexivity.
Qed.

Lemma nzhead_head (d : Decimal.uint) :
  Decimal.nzhead d <> Decimal.Nil ->
  Js.headNonZero (NilEmpty.string_of_uint (Decimal.nzhead d)) = true.
Proof. induction d; cbn; auto; congruence. Qed.

(** The decimal form of a positive integer: digits only, the first one not
    a zero. *)
Lemma ofInt_pos_shape (v : Z) :
  1 <= v ->
  Js.headNonZero (Js.ofInt v) = true /\ Js.allChars Js.isDigit (Js.ofInt v) = true.
Proof.
  intros Hv. destruct v as [|p|p]; try lia.
  unfold Js.ofInt. cbn [Z.to_int NilZero.string_of_int].
  assert (Hn : Pos.to_uint p = Decimal.unorm (Pos.to_uint p)).
  { rewrite <- (DecimalPos.Unsigned.to_of (Pos.to_uint p)).
    rewrite DecimalPos.Unsigned.of_to. reflexivity. }
  pose proof (Unsigned.to_uint_nonzero p) as Hz.
  pose proof (Unsigned.to_uint_nonnil p) as Hnil.
  assert (Hs : NilZero.string_of_uint (Pos.to_uint p)
               = NilEmpty.string_of_uint (Pos.to_uint p)).
  { destruct (Pos.to_uint p); try reflexivity. congruence. }
  rewrite Hs. split; [|apply isDigit_string_of_uint].
  rewrite Hn. rewrite Hn in Hz.
  unfold Decimal.unorm in *.
  destruct (Decimal.nzhead (Pos.to_uint p)) eqn:E; try congruence;
    rewrite <- E; apply nzhead_head; rewrite E; discriminate.
Qed.

(** ** Coordinates *)

(** C9, as stated, fails: the row string ["0"] is decimal, its index [-1]
    lies below the range, and [rowSpecToIndex] returns it with no error. *)
Lemma rowSpecToIndex_zero_returns :
  Js.allChars Js.isDigit "0" = true /\
  Js.toInt "0" - 1 < 0 /\
  rowSpecToIndex "0" = Ret (-1).
Proof. repeat split. Qed.

(** C9, amended: for the decimal string of a value [v], [rowSpecToIndex]
    returns [v - 1] when that is below [MAX_N_ROWS] and throws [LIMITS]
    when it is not; there is no check from below. *)
Theorem rowSpecToIndex_spec (v : Z) :
  0 <= v ->
  (v - 1 < LIMITS.MAX_N_ROWS -> rowSpecToIndex (Js.ofInt v) = Ret (v - 1)) /\
  (LIMITS.MAX_N_ROWS <= v - 1 ->
   exists msg, rowSpecToIndex (Js.ofInt v) = Raise (AppError LIMITS msg)).
Proof.
  intros Hv. unfold rowSpecToIndex. rewrite toInt_ofInt by assumption.
  split; intros H.
  - destruct (Z.geb_spec (v - 1) LIMITS.MAX_N_ROWS); [lia | reflexivity].
  - destruct (Z.geb_spec (v - 1) LIMITS.MAX_N_ROWS); [eauto | lia].
Qed.

Lemma rowSpecToIndex_spec_witness :
  (7 - 1 < LIMITS.MAX_N_ROWS -> rowSpecToIndex (Js.ofInt 7) = Ret (7 - 1)) /\
  (LIMITS.MAX_N_ROWS <= 7 - 1 ->
   exists msg, rowSpecToIndex (Js.ofInt 7) = Raise (AppError LIMITS msg)).
Proof. apply (rowSpecToIndex_spec 7). lia. Defined.

(** ** Scenarios *)

Section Scenarios.
Import Spreadsheet.
Context {N : JSNum}.
Variable name : string.

(** C3: on an empty sheet [eval("a1","b1+1")] succeeds; then
    [eval("b1","a1+1")] throws [CIRCULAR_REF] with a message that names [b1],
    a cell of the cycle, and leaves the table as it was: [b1] still queries
    as value [0] with no formula, and [a1] as before. *)
Theorem circular_ref_rejected (n : nat) :
  let fuel := (4 + n)%nat in
  let s0 := new name None in
  let s1 := after (eval fuel "a1" "b1+1" true) s0 in
  let s2 := after (eval fuel "b1" "a1+1" true) s1 in
  eval fuel "a1" "b1+1" true s0 = Return {[ "a1" := add zero (Number "1") ]} s1 /\
  eval fuel "b1" "a1+1" true s1
    = Throw (AppError CIRCULAR_REF "circular ref involving b1") s2 /\
  _cells s2 = _cells s1 /\
  query s2 "b1" = Ret (zero, "") /\
  query s2 "a1" = query s1 "a1" /\
  query s1 "a1"
    = Ret (add zero (Number "1"), "b1+" +:+ num_toString (Number "1") +:+ "").
Proof.
  intros fuel s0 s1 s2.
  split; [vm_compute; reflexivity|].
  split; [vm_compute; reflexivity|].
  split; [vm_compute; reflexivity|].
  split; [vm_compute; reflexivity|].
  split; vm_compute; reflexivity.
Qed.

(** C2 at its failing input: after [eval("a1","2")] and [eval("b1","a1*3")],
    [delete("b1")] succeeds and removes [b1] from the table, yet [a1] still
    lists [b1] among its dependents; the next [eval] of [a1] then reads
    [cell.id] of a cell that does not exist. *)
Theorem delete_leaves_stale_dependent (n : nat) :
  let fuel := (3 + n)%nat in
  let s0 := new name None in
  let s1 := after (eval fuel "a1" "2" true) s0 in
  let s2 := after (eval fuel "b1" "a1*3" true) s1 in
  let s3 := after (delete fuel "b1") s2 in
  delete fuel "b1" s2 = Return ∅ s3 /\
  _cells s3 !! "b1" = None /\
  dependents <$> (_cells s3 !! "a1") = Some ["b1"] /\
  eval fuel "a1" "5" true s3 = Throw TypeError (after (eval fuel "a1" "5" true) s3).
Proof.
  intros fuel s0 s1 s2 s3.
  split; [vm_compute; reflexivity|].
  split; [vm_compute; reflexivity|].
  split; [vm_compute; reflexivity|].
  vm_compute; reflexivity.
Qed.

(** C1 at its failing input: [a1] holds [2] and the store rejects the
    request to delete; [delete("a1")] throws what the store threw and the
    table has lost [a1]. *)
Theorem delete_not_rolled_back (n : nat) :
  let fuel := (2 + n)%nat in
  let s0 := new name (Some deleteFailingStore) in
  let s1 := after (eval fuel "a1" "2" true) s0 in
  let s2 := after (delete fuel "a1") s1 in
  eval fuel "a1" "2" true s0 = Return {[ "a1" := Number "2" ]} s1 /\
  delete fuel "a1" s1 = Throw (AppError DB "cannot delete") s2 /\
  is_Some (_cells s1 !! "a1") /\
  _cells s2 !! "a1" = None.
Proof.
  intros fuel s0 s1 s2.
  split; [vm_compute; reflexivity|].
  split; [vm_compute; reflexivity|].
  split; [vm_compute; eexists; reflexivity | vm_compute; reflexivity].
Qed.

End Scenarios.

(** The scenarios that print a formula and read it back are run on the
    integers. *)

(** C5, as stated, fails: the map [delete("a1")] returns has no entry for
    [a1]. *)
Lemma delete_returns_no_own_entry :
  let s0 := Spreadsheet.new "sheet" None in
  let s1 := after (Spreadsheet.eval 5 "a1" "2" true) s0 in
  let s2 := after (Spreadsheet.eval 5 "b1" "a1*3" true) s1 in
  exists updates,
    returned (Spreadsheet.delete 5 "a1" s2) = Some updates /\
    updates !! "a1" = None /\
    updates <> {[ "a1" := Int 0; "b1" := Int 0 ]}.
Proof.
  intros s0 s1 s2.
  exists {[ "b1" := Int 0 ]}.
  split; [vm_compute; reflexivity|].
  split; [vm_compute; reflexivity|].
  intros H. apply (f_equal (lookup "a1")) in H. vm_compute in H. discriminate.
Qed.

(** C5, amended: [delete("a1")] returns the new values of the cells that
    depend on [a1], here [{b1: 0}], with no entry for [a1] itself; [b1]
    keeps its formula. *)
Theorem delete_cascades (name : string) (n : nat) :
  let fuel := (3 + n)%nat in
  let s0 := Spreadsheet.new name None in
  let s1 := after (Spreadsheet.eval fuel "a1" "2" true) s0 in
  let s2 := after (Spreadsheet.eval fuel "b1" "a1*3" true) s1 in
  let s3 := after (Spreadsheet.delete fuel "a1") s2 in
  returned (Spreadsheet.eval fuel "a1" "2" true s0) = Some {[ "a1" := Int 2 ]} /\
  returned (Spreadsheet.eval fuel "b1" "a1*3" true s1) = Some {[ "b1" := Int 6 ]} /\
  returned (Spreadsheet.delete fuel "a1" s2) = Some {[ "b1" := Int 0 ]} /\
  Spreadsheet.query s3 "b1" = Ret (Int 0, "a1*3").
Proof.
  intros fuel s0 s1 s2 s3.
  split; [vm_compute; reflexivity|].
  split; [vm_compute; reflexivity|].
  split; [vm_compute; reflexivity|].
  vm_compute; reflexivity.
Qed.

(** ** Reasoning about methods *)

Section Methods.
Import ExprParser Spreadsheet.
Context {N : JSNum}.

Lemma triple_bind {A B} P (m : M A) Q (k : A -> M B) R E :
  triple P m Q E -> (forall a, triple (Q a) (k a) R E) -> triple P (m ≫= k) R E.
Proof.
  intros Hm Hk s Hs. specialize (Hm s Hs).
  unfold mbind, M_bind. destruct (m s) as [a s'| |]; auto.
  apply Hk. assumption.
Qed.

Lemma triple_ret {A} (P : Sheet -> Prop) (a : A) (Q : A -> Sheet -> Prop) E :
  (forall s, P s -> Q a s) -> triple P (mret a) Q E.
Proof. intros H s Hs. apply H, Hs. Qed.

Lemma triple_throw {A} (P : Sheet -> Prop) e (Q : A -> Sheet -> Prop) (E : Sheet -> Prop) :
  (forall s, P s -> E s) -> triple P (throw e) Q E.
Proof. intros H s Hs. apply H, Hs. Qed.

Lemma triple_lift {A} (P : Sheet -> Prop) (r : result A) (Q : A -> Sheet -> Prop)
  (E : Sheet -> Prop) :
  (forall s, P s -> match r with Ret a => Q a s | Raise _ => E s end) ->
  triple P (lift r) Q E.
Proof. intros H s Hs. specialize (H s Hs). unfold lift. destruct r; assumption. Qed.

Lemma triple_get (P : Sheet -> Prop) (Q : Sheet -> Sheet -> Prop) E :
  (forall s, P s -> Q s s) -> triple P get Q E.
Proof. intros H s Hs. apply H, Hs. Qed.

Lemma triple_modify (P : Sheet -> Prop) f (Q : unit -> Sheet -> Prop) E :
  (forall s, P s -> Q () (f s)) -> triple P (modify f) Q E.
Proof. intros H s Hs. apply H, Hs. Qed.

Lemma triple_weaken {A} (P P' : Sheet -> Prop) (m : M A) (Q Q' : A -> Sheet -> Prop)
  (E E' : Sheet -> Prop) :
  triple P' m Q' E' ->
  (forall s, P s -> P' s) -> (forall a s, Q' a s -> Q a s) -> (forall s, E' s -> E s) ->
  triple P m Q E.
Proof.
  intros Hm HP HQ HE s Hs. specialize (Hm s (HP s Hs)).
  destruct (m s); auto.
Qed.

Lemma triple_try_catch {A} P (body : M A) handler Q E E' :
  triple P body Q E' -> (forall s, E' s -> E (handler s)) ->
  triple P (try_catch_rethrow body handler) Q E.
Proof.
  intros Hb Hh s Hs. specialize (Hb s Hs). unfold try_catch_rethrow.
  destruct (body s); auto.
Qed.


Lemma keeps_bind {A B} (I : Sheet -> Prop) (m : M A) (k : A -> M B) :
  keeps I m -> (forall a, keeps I (k a)) -> keeps I (m ≫= k).
Proof. intros Hm Hk. eapply triple_bind; [exact Hm | exact Hk]. Qed.

Lemma keeps_ret {A} (I : Sheet -> Prop) (a : A) : keeps I (mret a).
Proof. intros s Hs. exact Hs. Qed.

Lemma keeps_throw {A} (I : Sheet -> Prop) e : keeps I (throw (A := A) e).
Proof. intros s Hs. exact Hs. Qed.

Lemma keeps_lift {A} (I : Sheet -> Prop) (r : result A) : keeps I (lift r).
Proof. intros s Hs. unfold lift. destruct r; exact Hs. Qed.

Lemma keeps_modify (I : Sheet -> Prop) f :
  (forall s, I s -> I (f s)) -> keeps I (modify f).
Proof. intros H s Hs. apply H, Hs. Qed.

Lemma keeps_try_catch {A} (I : Sheet -> Prop) (body : M A) handler :
  keeps I body -> (forall s, I s -> I (handler s)) ->
  keeps I (try_catch_rethrow body handler).
Proof. intros Hb Hh. eapply triple_try_catch; [exact Hb | exact Hh]. Qed.

Lemma keeps_get_bind {B} (I : Sheet -> Prop) (k : Sheet -> M B) :
  (forall s, I s -> keeps I (k s)) -> keeps I (get ≫= k).
Proof.
  intros Hk s Hs. unfold mbind, M_bind, get. apply (Hk s Hs s Hs).
Qed.

(** *** The shape of the table is kept *)

Lemma nodollar_stripDollar (s : string) : nodollar (Js.stripDollar s).
Proof.
  unfold nodollar. induction s as [|c r IH]; [reflexivity|].
  cbn [Js.stripDollar]. destruct (Js.code c =? 36) eqn:E; [exact IH|].
  cbn [Js.contains]. rewrite IH.
  change (Js.code "$") with 36. rewrite E. reflexivity.
Qed.

Lemma nodollar_cellRefToCellId (s : string) : nodollar (cellRefToCellId s).
Proof. apply nodollar_stripDollar. Qed.

Lemma table_ok_set_undos_empty (s : Sheet) :
  table_ok s -> table_ok (set_undos (λ _, ∅) s).
Proof.
  intros [Hc Hu]. split; [exact Hc|].
  intros k v. cbn. rewrite lookup_empty. discriminate.
Qed.

Lemma table_ok_recordUndo (cellId : string) (s : Sheet) :
  nodollar cellId -> table_ok s -> table_ok (recordUndo cellId s).
Proof.
  intros Hd [Hc Hu]. unfold recordUndo.
  destruct (_undos s !! cellId) eqn:E; [split; assumption|].
  split; [exact Hc|]. intros k v. cbn.
  rewrite lookup_insert. case_decide as Hk.
  - subst k. intros [= <-]. split; [exact Hd|].
    intros c Hcopy. destruct (_cells s !! cellId) as [c'|] eqn:E'; [|discriminate].
    cbn in Hcopy. injection Hcopy as <-. cbn. apply (Hc _ _ E').
  - apply Hu.
Qed.

Lemma table_ok_getOrCreate (cellId : string) (s : Sheet) :
  nodollar cellId -> table_ok s ->
  table_ok (getOrCreate cellId s).2 /\ id (getOrCreate cellId s).1 = cellId /\
  _cells (getOrCreate cellId s).2 !! cellId = Some (getOrCreate cellId s).1.
Proof.
  intros Hd [Hc Hu]. unfold getOrCreate.
  destruct (_cells s !! cellId) as [c|] eqn:E; cbn.
  - split; [split; assumption|]. split; [apply (Hc _ _ E) | exact E].
  - split; [|split; [reflexivity | apply lookup_insert_eq]].
    split; [|exact Hu]. intros k c. cbn. rewrite lookup_insert.
    case_decide as Hk; [|apply Hc]. subst k. intros [= <-]. split; [reflexivity | exact Hd].
Qed.

Lemma keeps_updateCell (cellId : string) (updateFn : CellInfo -> CellInfo) :
  nodollar cellId -> (forall c, id (updateFn c) = id c) ->
  keeps table_ok (_updateCell cellId updateFn).
Proof.
  intros Hd Hf s Hs. unfold _updateCell.
  pose proof (table_ok_getOrCreate cellId _ Hd (table_ok_recordUndo cellId s Hd Hs))
    as (Hok & Hid & _).
  destruct (getOrCreate cellId (recordUndo cellId s)) as [cell s'].
  cbn in *. destruct Hok as [Hc Hu]. split; [|exact Hu].
  intros k c. cbn. rewrite lookup_insert. case_decide as Hk; [|apply Hc].
  subst k. intros [= <-]. rewrite Hf. split; [exact Hid | exact Hd].
Qed.


Lemma keeps_updateCell_delete (cellId : string) :
  nodollar cellId -> keeps table_ok (_updateCell_delete cellId).
Proof.
  intros Hd s Hs. unfold _updateCell_delete.
  pose proof (table_ok_getOrCreate cellId _ Hd (table_ok_recordUndo cellId s Hd Hs))
    as (Hok & Hid & _).
  destruct (getOrCreate cellId (recordUndo cellId s)) as [cell s'].
  cbn in *. destruct Hok as [Hc Hu]. split; [|exact Hu].
  intros k c. cbn. rewrite lookup_delete. case_decide; [discriminate | apply Hc].
Qed.

Lemma Ast_induction (P : Ast -> Prop) :
  (forall v, P (Num v)) -> (forall r, P (Ref r)) ->
  (forall fn kids, Forall P kids -> P (App fn kids)) ->
  forall a, P a.
Proof.
  intros HN HR HA. fix IH 1. intros [v|r|fn kids]; [apply HN | apply HR |].
  apply HA. induction kids as [|k kids IHk]; constructor; [apply IH | exact IHk].
Qed.

Lemma keeps_evalAst (baseCellId : string) (a : Ast) :
  keeps table_ok (evalAst baseCellId a).
Proof.
  induction a as [v|r|fn kids IH] using Ast_induction; cbn [evalAst].
  - apply keeps_ret.
  - apply keeps_bind; [apply keeps_lift|]. intros str.
    apply keeps_bind; [|intros; apply keeps_ret].
    apply keeps_updateCell; [apply nodollar_cellRefToCellId | reflexivity].
  - apply keeps_bind.
    + induction IH as [|k ks Hk _ IHks]; [apply keeps_ret|].
      apply keeps_bind; [exact Hk|]. intros v.
      apply keeps_bind; [exact IHks|]. intros vs. apply keeps_ret.
    + intros args. destruct (FNS fn args); [apply keeps_ret | apply keeps_throw].
Qed.

Lemma keeps_removeAsDependent (baseCellId : string) (a : Ast) :
  keeps table_ok (_removeAsDependent baseCellId a).
Proof.
  induction a as [v|r|fn kids IH] using Ast_induction; cbn [_removeAsDependent].
  - apply keeps_ret.
  - apply keeps_bind; [apply keeps_lift|]. intros str.
    apply keeps_bind; [|intros; apply keeps_ret].
    apply keeps_updateCell; [apply nodollar_cellRefToCellId | reflexivity].
  - induction IH as [|k ks Hk _ IHks]; [apply keeps_ret|].
    apply keeps_bind; [exact Hk|]. intros _. exact IHks.
Qed.

Lemma keeps_evalCell (fuel : nat) :
  (forall key working, keeps table_ok (_evalCell fuel key working)) /\
  (forall key i vals working, keeps table_ok (_evalDependents fuel key i vals working)).
Proof.
  induction fuel as [|fuel [IHc IHd]].
  - split; intros; intros s Hs; exact I.
  - split.
    + intros key working. cbn [_evalCell].
      apply keeps_get_bind. intros s Hs.
      destruct (_cells s !! key) as [cell|] eqn:E; [|apply keeps_throw].
      destruct (cells_ok s Hs _ _ E) as [Hid Hd].
      apply keeps_bind.
      { destruct (ast cell); [apply keeps_evalAst | apply keeps_ret]. }
      intros v. apply keeps_bind.
      { apply keeps_updateCell; [rewrite Hid; exact Hd | reflexivity]. }
      intros _. apply keeps_bind; [apply IHd|]. intros [vals w]. apply keeps_ret.
    + intros key i vals working. cbn [_evalDependents].
      apply keeps_get_bind. intros s Hs.
      destruct (_cells s !! key ≫= _) as [dependent|]; [|apply keeps_ret].
      case_decide; [apply keeps_throw|].
      apply keeps_bind; [apply IHc|]. intros [vals' w]. apply IHd.
Qed.


Lemma lookup_undo (s : Sheet) (k : string) :
  _cells (_undo s) !! k
  = match _undos s !! k with Some v => v | None => _cells s !! k end.
Proof.
  unfold _undo. cbn. generalize (_undos s). intros undos.
  apply (map_fold_weak_ind
           (λ r (m : gmap string (option CellInfo)),
              r !! k = match m !! k with Some v => v | None => _cells s !! k end)).
  - rewrite lookup_empty. reflexivity.
  - intros i x m r Hi IH. rewrite lookup_insert. case_decide as Hik.
    + subst i. destruct x; [apply lookup_insert_eq | apply lookup_delete_eq].
    + destruct x; [rewrite lookup_insert_ne by congruence
                  | rewrite lookup_delete_ne by congruence]; exact IH.
Qed.

Lemma table_ok_undo (s : Sheet) : table_ok s -> table_ok (_undo s).
Proof.
  intros [Hc Hu]. split; [|exact Hu].
  intros k c. rewrite lookup_undo.
  destruct (_undos s !! k) as [v|] eqn:E; [|apply Hc].
  intros ->. destruct (Hu _ _ E) as [Hd Hid]. split; [apply Hid; reflexivity | exact Hd].
Qed.

Lemma keeps_store_request (op : StoreOp) : keeps table_ok (store_request op).
Proof.
  intros s [Hc Hu]. unfold store_request.
  destruct (_store s) as [st|]; [|split; assumption].
  destruct (failure st op); split; assumption.
Qed.

Lemma keeps_eval (fuel : nat) (baseCellId formula : string) (updateStore : bool) :
  keeps table_ok (eval fuel baseCellId formula updateStore).
Proof.
  unfold eval. apply keeps_try_catch; [|apply table_ok_undo].
  apply keeps_bind; [apply keeps_modify, table_ok_set_undos_empty|]. intros _.
  apply keeps_get_bind. intros s Hs.
  apply keeps_bind; [apply keeps_lift|]. intros a.
  apply keeps_bind.
  { apply keeps_updateCell; [apply nodollar_cellRefToCellId | reflexivity]. }
  intros _. apply keeps_bind.
  { destruct (_cells s !! _ ≫= ast); [apply keeps_removeAsDependent | apply keeps_ret]. }
  intros _. apply keeps_bind; [apply keeps_evalCell|]. intros [updates w].
  apply keeps_bind; [|intros; apply keeps_ret].
  destruct updateStore; [|apply keeps_ret].
  apply keeps_get_bind. intros; apply keeps_store_request.
Qed.

Lemma keeps_delete (fuel : nat) (cellId : string) :
  keeps table_ok (delete fuel cellId).
Proof.
  unfold delete.
  apply keeps_bind; [apply keeps_modify, table_ok_set_undos_empty|]. intros _.
  apply keeps_get_bind. intros s Hs.
  apply keeps_bind.
  - destruct (_cells s !! Js.toLowerCase cellId) as [cell|] eqn:E.
    + apply keeps_bind.
      { apply keeps_updateCell_delete. apply (cells_ok s Hs _ _ E). }
      intros _. generalize (∅ : gmap string num).
      induction (dependents cell) as [|d ds IH]; intros results; [apply keeps_ret|].
      apply keeps_get_bind. intros s' Hs'.
      destruct (_cells s' !! d); [|apply keeps_throw].
      apply keeps_bind; [apply keeps_lift|]. intros f.
      apply keeps_bind; [apply keeps_eval|]. intros updates. apply IH.
    + case_decide; [|apply keeps_ret].
      apply keeps_bind; [|intros; apply keeps_throw].
      apply keeps_modify. intros s' [Hc Hu]. split; [|exact Hu].
      intros k c. cbn. rewrite lookup_delete. case_decide; [discriminate | apply Hc].
  - intros results. apply keeps_get_bind. intros s' Hs'.
    apply keeps_bind; [apply keeps_store_request | intros; apply keeps_ret].
Qed.

Lemma keeps_copy (fuel : nat) (destCellId srcCellId : string) :
  keeps table_ok (copy fuel destCellId srcCellId).
Proof.
  unfold copy.
  apply keeps_bind; [apply keeps_modify, table_ok_set_undos_empty|]. intros _.
  apply keeps_get_bind. intros s Hs.
  destruct (_cells s !! Js.toLowerCase srcCellId) as [srcCell|]; [|apply keeps_delete].
  apply keeps_bind; [apply keeps_lift|]. intros formula.
  destruct (ast srcCell) as [srcAst|]; [|apply keeps_delete].
  destruct formula; [apply keeps_delete|].
  destruct (toString srcAst _) as [f|[[]|]]; try apply keeps_throw; [apply keeps_eval|].
  apply keeps_bind; [apply keeps_lift | intros; apply keeps_throw].
Qed.

Lemma keeps_clear : keeps table_ok clear.
Proof.
  unfold clear. apply keeps_get_bind. intros s Hs.
  apply keeps_bind; [apply keeps_store_request|]. intros _.
  apply keeps_bind; [apply keeps_modify, table_ok_set_undos_empty|]. intros _.
  apply keeps_modify. intros s' [Hc Hu]. split; [|exact Hu].
  intros k c. cbn. rewrite lookup_empty. discriminate.
Qed.

Lemma keeps_after {A} (I : Sheet -> Prop) (m : M A) (s : Sheet) :
  keeps I m -> I s -> I (after m s).
Proof.
  intros Hm Hs. specialize (Hm s Hs). unfold after. destruct (m s); assumption.
Qed.

Lemma reachable_table_ok (s : Sheet) : reachable s -> table_ok s.
Proof.
  induction 1.
  - split; intros k v; cbn; rewrite lookup_empty; discriminate.
  - apply keeps_after; [apply keeps_eval | assumption].
  - apply keeps_after; [apply keeps_delete | assumption].
  - apply keeps_after; [apply keeps_copy | assumption].
  - apply keeps_after; [apply keeps_clear | assumption].
Qed.



(** *** Lower case and dollars *)

Local Ltac all_chars c := destruct c as [[] [] [] [] [] [] [] []]; reflexivity.

Lemma lowerChar_idemp (c : ascii) : Js.lowerChar (Js.lowerChar c) = Js.lowerChar c.
Proof. all_chars c. Qed.

Lemma lowerChar_dollar (c : ascii) : (Js.code (Js.lowerChar c) =? 36) = (Js.code c =? 36).
Proof. all_chars c. Qed.

Lemma lowerChar_isSpace (c : ascii) : Js.isSpace (Js.lowerChar c) = Js.isSpace c.
Proof. all_chars c. Qed.

Lemma toLowerCase_idemp (s : string) : Js.toLowerCase (Js.toLowerCase s) = Js.toLowerCase s.
Proof.
  induction s as [|c r IH]; [reflexivity|].
  cbn [Js.toLowerCase]. rewrite lowerChar_idemp, IH. reflexivity.
Qed.

Lemma contains_dollar_toLowerCase (s : string) :
  Js.contains "$" (Js.toLowerCase s) = Js.contains "$" s.
Proof.
  induction s as [|c r IH]; [reflexivity|].
  cbn [Js.toLowerCase Js.contains]. change (Js.code "$") with 36.
  rewrite lowerChar_dollar, IH. reflexivity.
Qed.

Lemma cellRefToCellId_toLowerCase (s : string) :
  cellRefToCellId (Js.toLowerCase s) = cellRefToCellId s.
Proof. unfold cellRefToCellId. rewrite toLowerCase_idemp. reflexivity. Qed.

Lemma toLowerCase_stripDollar (s : string) :
  Js.toLowerCase (Js.stripDollar s) = Js.stripDollar (Js.toLowerCase s).
Proof.
  induction s as [|c r IH]; [reflexivity|].
  cbn [Js.toLowerCase Js.stripDollar]. rewrite lowerChar_dollar.
  destruct (Js.code c =? 36); [exact IH|]. cbn [Js.toLowerCase]. rewrite IH. reflexivity.
Qed.

Lemma stripDollar_idemp (s : string) :
  Js.stripDollar (Js.stripDollar s) = Js.stripDollar s.
Proof.
  induction s as [|c r IH]; [reflexivity|].
  cbn [Js.stripDollar]. destruct (Js.code c =? 36) eqn:E; [exact IH|].
  cbn [Js.stripDollar]. rewrite E, IH. reflexivity.
Qed.

Lemma cellRefToCellId_idemp (s : string) :
  cellRefToCellId (cellRefToCellId s) = cellRefToCellId s.
Proof.
  unfold cellRefToCellId.
  rewrite toLowerCase_stripDollar, toLowerCase_idemp, stripDollar_idemp. reflexivity.
Qed.

(** C10: in every state of a sheet, [query] of an id with a dollar sign
    finds no cell and answers value [0] and no formula, whatever the cell
    the id denotes holds; [eval] given the same id works on the id with the
    dollar signs stripped, which has none. *)
Theorem query_keeps_dollar (s : Sheet) (cellId : string) :
  reachable s ->
  Js.contains "$" cellId = true ->
  query s cellId = Ret (zero, "") /\
  nodollar (cellRefToCellId cellId) /\
  forall fuel formula updateStore,
    eval fuel cellId formula updateStore s
    = eval fuel (cellRefToCellId cellId) formula updateStore s.
Proof.
  intros Hr Hd. apply reachable_table_ok in Hr.
  split; [|split; [apply nodollar_cellRefToCellId|]].
  - unfold query.
    destruct (_cells s !! Js.toLowerCase cellId) as [c|] eqn:E; [|reflexivity].
    destruct (cells_ok s Hr _ _ E) as [_ Hn]. unfold nodollar in Hn.
    rewrite contains_dollar_toLowerCase in Hn. congruence.
  - intros fuel formula updateStore. unfold eval.
    rewrite cellRefToCellId_idemp. reflexivity.
Qed.

End Methods.

Lemma query_keeps_dollar_witness :
  let s := after (Spreadsheet.eval 2 "$a1" "5" true) (Spreadsheet.new "sheet" None) in
  Spreadsheet.query s "$a1" = Ret (zero, "") /\
  nodollar (cellRefToCellId "$a1") /\
  forall fuel formula updateStore,
    Spreadsheet.eval fuel "$a1" formula updateStore s
    = Spreadsheet.eval fuel (cellRefToCellId "$a1") formula updateStore s.
Proof.
  apply (query_keeps_dollar (N := IntNum)).
  - apply reachable_eval, reachable_new.
  - reflexivity.
Defined.

(** The cell the id ["$a1"] denotes holds [5] all the while. *)
Example query_a1_after_eval_dollar_a1 :
  let s := after (Spreadsheet.eval 2 "$a1" "5" true) (Spreadsheet.new "sheet" None) in
  Spreadsheet.query s "a1" = Ret (Int 5, "5").
Proof. vm_compute. reflexivity. Qed.

(** ** Deleting and copying *)

Section DeleteCopy.
Import ExprParser Spreadsheet.
Context {N : JSNum}.

(** C6, amended: [delete] of an id the table does not hold leaves the table
    as it is and sends the request to the store; it returns the empty map
    unless the store rejects the request, and then throws what the store
    threw. *)
Theorem delete_unknown_cell (fuel : nat) (s : Sheet) (cellId : string) :
  _cells s !! Js.toLowerCase cellId = None ->
  Js.toLowerCase cellId ∉ Object_prototype ->
  let request := StoreDelete (name s) (Js.toLowerCase cellId) in
  let r := delete fuel cellId s in
  _cells (after (delete fuel cellId) s) = _cells s /\
  (forall updates s', r = Return updates s' -> updates = ∅) /\
  (forall e s', r = Throw e s' ->
     exists st, _store s = Some st /\ failure st request = Some e) /\
  (forall st, _store s = Some st ->
     requests <$> _store (after (delete fuel cellId) s) = Some (requests st ++ [request])) /\
  (_store s = None -> r = Return ∅ (set_undos (λ _, ∅) s)) /\
  r <> OutOfFuel.
Proof.
  intros Hnone Hproto request r. subst r request.
  unfold after, delete, mbind, M_bind, modify, get, mret, M_ret, store_request.
  cbn. rewrite Hnone. rewrite decide_False by exact Hproto. cbn.
  destruct (_store s) as [st|] eqn:Est; cbn.
  - destruct (failure st _) as [e|] eqn:Ef; cbn.
    + repeat split; try discriminate.
      * intros e' s' [= <- <-]. exists st. split; [reflexivity | exact Ef].
      * intros st' [= <-]. reflexivity.
    + repeat split; try discriminate.
      * intros updates s' [= <- <-]. reflexivity.
      * intros st' [= <-]. reflexivity.
  - repeat split; try discriminate.
    + intros updates s' [= <- <-]. reflexivity.

Qed.


Lemma trimStart_toLowerCase (s : string) :
  Js.trimStart (Js.toLowerCase s) = Js.toLowerCase (Js.trimStart s).
Proof.
  induction s as [|c r IH]; [reflexivity|].
  cbn [Js.toLowerCase Js.trimStart]. rewrite lowerChar_isSpace.
  destruct (Js.isSpace c); [exact IH | reflexivity].
Qed.

Lemma trimEnd_toLowerCase (s : string) :
  Js.trimEnd (Js.toLowerCase s) = Js.toLowerCase (Js.trimEnd s).
Proof.
  induction s as [|c r IH]; [reflexivity|].
  cbn [Js.toLowerCase Js.trimEnd]. rewrite IH, lowerChar_isSpace.
  destruct (Js.trimEnd r); cbn [Js.toLowerCase]; [|reflexivity].
  destruct (Js.isSpace c); reflexivity.
Qed.

Lemma CellRef_new_toLowerCase (str : string) (baseCell : option CellRef) :
  CellRef_new (Js.toLowerCase str) baseCell = CellRef_new str baseCell.
Proof.
  unfold CellRef_new, Js.trim.
  rewrite trimStart_toLowerCase, trimEnd_toLowerCase, toLowerCase_idemp. reflexivity.
Qed.

Lemma toString_toLowerCase (a : Ast) (baseCell : string) :
  toString a (Js.toLowerCase baseCell) = toString a baseCell.
Proof. unfold toString. rewrite CellRef_new_toLowerCase. reflexivity. Qed.

Lemma eval_toLowerCase (fuel : nat) (baseCellId formula : string) (updateStore : bool) :
  eval fuel (Js.toLowerCase baseCellId) formula updateStore
  = eval fuel baseCellId formula updateStore.
Proof. unfold eval. rewrite cellRefToCellId_toLowerCase. reflexivity. Qed.

Lemma delete_toLowerCase (fuel : nat) (cellId : string) :
  delete fuel (Js.toLowerCase cellId) = delete fuel cellId.
Proof. unfold delete. rewrite toLowerCase_idemp. reflexivity. Qed.

(** [eval] and [delete] start by emptying the undo log, so they do not see
    that [copy] emptied it before. *)
Lemma eval_set_undos (fuel : nat) (baseCellId formula : string) (updateStore : bool)
  (s : Sheet) :
  eval fuel baseCellId formula updateStore (set_undos (λ _, ∅) s)
  = eval fuel baseCellId formula updateStore s.
Proof. reflexivity. Qed.

Lemma delete_set_undos (fuel : nat) (cellId : string) (s : Sheet) :
  delete fuel cellId (set_undos (λ _, ∅) s) = delete fuel cellId s.
Proof. reflexivity. Qed.

(** The cases of [copy] by what [query] shows of [src]: a formula, and
    [copy(dest, src)] is [eval(dest, f)] for [f] the AST of [src] printed at
    [dest], or throws when the print throws; no formula, and it is
    [delete(dest)]. *)
Lemma copy_cases (s : Sheet) (fuel : nat) (dest src : string) :
  reachable s ->
  match query s src with
  | Ret (_, String _ _) =>
      exists srcCell srcAst,
        _cells s !! Js.toLowerCase src = Some srcCell /\
        ast srcCell = Some srcAst /\
        match toString srcAst dest with
        | Ret destFormula =>
            copy fuel dest src s = eval fuel dest destFormula true s
        | Raise e =>
            exists e',
              copy fuel dest src s = Throw e' (set_undos (λ _, ∅) s) /\
              match e with
              | AppError SYNTAX message =>
                  exists prefix, e' = AppError SYNTAX (prefix +:+ message)
              | _ => e' = e
              end
        end
  | Ret (_, EmptyString) => copy fuel dest src s = delete fuel dest s
  | Raise _ => True
  end.
Proof.
  intros Hr. apply reachable_table_ok in Hr.
  unfold query.
  destruct (_cells s !! Js.toLowerCase src) as [srcCell|] eqn:Esrc.
  - destruct (cells_ok s Hr _ _ Esrc) as [Hid _].
    destruct (CellInfo_formula srcCell) as [formula|e] eqn:Ef; cbn; [|exact I].
    destruct formula as [|c r].
    + unfold copy, mbind, M_bind, modify, get, lift. cbn. rewrite Esrc, Ef.
      destruct (ast srcCell); rewrite delete_toLowerCase; apply delete_set_undos.
    + unfold CellInfo_formula in Ef.
      destruct (ast srcCell) as [srcAst|] eqn:Ea; [|discriminate].
      exists srcCell, srcAst. split; [reflexivity|]. split; [exact Ea|].
      unfold copy, mbind, M_bind, modify, get, lift. cbn. rewrite Esrc.
      unfold CellInfo_formula. rewrite Ea, Ef.
      rewrite toString_toLowerCase.
      destruct (toString srcAst dest) as [destFormula|e].
      * rewrite eval_toLowerCase. apply eval_set_undos.
      * destruct e as [[] message|]; try (eexists; split; reflexivity).
        rewrite <- Hid, Ef. cbn. eexists. split; [reflexivity|].
        eexists. reflexivity.
  - cbn. unfold copy, mbind, M_bind, modify, get. cbn. rewrite Esrc.
    rewrite delete_toLowerCase. apply delete_set_undos.
Qed.

End DeleteCopy.

Lemma delete_unknown_cell_witness :
  let s := after (Spreadsheet.eval 2 "a1" "2" true) (Spreadsheet.new "sheet" None) in
  let request := StoreDelete (Spreadsheet.name s) (Js.toLowerCase "Z9") in
  let r := Spreadsheet.delete 2 "Z9" s in
  Spreadsheet._cells (after (Spreadsheet.delete 2 "Z9") s) = Spreadsheet._cells s /\
  (forall updates s', r = Spreadsheet.Return updates s' -> updates = ∅) /\
  (forall e s', r = Spreadsheet.Throw e s' ->
     exists st, Spreadsheet._store s = Some st /\ failure st request = Some e) /\
  (forall st, Spreadsheet._store s = Some st ->
     requests <$> Spreadsheet._store (after (Spreadsheet.delete 2 "Z9") s)
     = Some (requests st ++ [request])) /\
  (Spreadsheet._store s = None ->
   r = Spreadsheet.Return ∅ (Spreadsheet.set_undos (λ _, ∅) s)) /\
  r <> Spreadsheet.OutOfFuel.
Proof.
  apply (delete_unknown_cell (N := IntNum)).
  - vm_compute. reflexivity.
  - apply (bool_decide_unpack _). vm_compute. exact I.
Defined.

(** C6, as stated, fails: after [eval("a1","b1+1")] the cell [b1] is there,
    empty, kept by the back-edge from [a1]; [delete("b1")] evaluates [a1]
    again and returns its value. *)
Lemma delete_empty_cell_returns_dependents :
  let s := after (Spreadsheet.eval 5 "a1" "b1+1" true) (Spreadsheet.new "sheet" None) in
  Spreadsheet.CellInfo_isEmpty <$> (Spreadsheet._cells s !! "b1") = Some true /\
  Spreadsheet.dependents <$> (Spreadsheet._cells s !! "b1") = Some ["a1"] /\
  returned (Spreadsheet.delete 5 "b1" s) = Some {[ "a1" := Int 1 ]} /\
  ({[ "a1" := Int 1 ]} : gmap string int53) <> ∅.
Proof.
  intros s.
  split; [vm_compute; reflexivity|].
  split; [vm_compute; reflexivity|].
  split; [vm_compute; reflexivity|].
  intros H. apply (f_equal (lookup "a1")) in H. vm_compute in H. discriminate.
Qed.

(** A copy moves the relative axes and keeps the absolute ones: the copy
    of [$a$1+b1] from [c1] to [c2] reads [$a$1+b2]; a copy to [a1] would
    need the column before [a]. *)
Example copy_adjusts_relative_refs :
  let s0 := Spreadsheet.new "sheet" None in
  let s1 := after (Spreadsheet.eval 3 "a1" "1" true) s0 in
  let s2 := after (Spreadsheet.eval 3 "b1" "2" true) s1 in
  let s3 := after (Spreadsheet.eval 3 "c1" "$a$1+b1" true) s2 in
  let s4 := after (Spreadsheet.copy 3 "c2" "c1") s3 in
  returned (Spreadsheet.copy 3 "c2" "c1" s3) = Some {[ "c2" := Int 1 ]} /\
  Spreadsheet.query s4 "c2" = Ret (Int 1, "$a$1+b2") /\
  Spreadsheet.query s4 "c1" = Ret (Int 3, "$a$1+b1") /\
  thrown (Spreadsheet.copy 3 "a1" "c1" s3)
  = Some (AppError SYNTAX
            ("cannot copy formula $a$1+b1 to a1: " +:+
             "bad column spec with index -1 relative to 0")).
Proof.
  intros s0 s1 s2 s3 s4.
  split; [vm_compute; reflexivity|].
  split; [vm_compute; reflexivity|].
  split; vm_compute; reflexivity.
Qed.

(** ** The undo log *)

Section Undo.
Import ExprParser Spreadsheet.
Context {N : JSNum}.

Lemma CellInfo_copy_eq (c : CellInfo) : CellInfo_copy c = c.
Proof. destruct c; reflexivity. Qed.

Lemma undo_restores (pre : gmap string CellInfo) (s : Sheet) :
  undo_log_ok pre s -> _cells (_undo s) = pre.
Proof.
  intros H. apply map_eq. intros k. rewrite lookup_undo.
  specialize (H k). destruct (_undos s !! k); assumption.
Qed.

Lemma undo_log_ok_start (s : Sheet) : undo_log_ok (_cells s) (set_undos (λ _, ∅) s).
Proof. intros k. cbn. rewrite lookup_empty. reflexivity. Qed.

Lemma undo_log_ok_recordUndo (pre : gmap string CellInfo) (cellId : string) (s : Sheet) :
  undo_log_ok pre s ->
  undo_log_ok pre (recordUndo cellId s) /\
  is_Some (_undos (recordUndo cellId s) !! cellId) /\
  _cells (recordUndo cellId s) = _cells s.
Proof.
  intros H. unfold recordUndo.
  destruct (_undos s !! cellId) as [v|] eqn:E.
  - split; [exact H|]. split; [rewrite E; eauto | reflexivity].
  - split; [|split; [cbn; rewrite lookup_insert_eq; eauto | reflexivity]].
    intros k. cbn. rewrite lookup_insert. case_decide as Hk.
    + subst k. specialize (H cellId). rewrite E in H. rewrite <- H.
      destruct (_cells s !! cellId); cbn; [rewrite CellInfo_copy_eq|]; reflexivity.
    + apply H.
Qed.

(** A change to the cells of a key that is on record keeps the promise. *)
Lemma undo_log_ok_change (pre : gmap string CellInfo) (cellId : string)
  (f : gmap string CellInfo -> gmap string CellInfo) (s : Sheet) :
  undo_log_ok pre s -> is_Some (_undos s !! cellId) ->
  (forall k, k <> cellId -> f (_cells s) !! k = _cells s !! k) ->
  undo_log_ok pre (set_cells f s).
Proof.
  intros H [v Hv] Hf k. cbn. specialize (H k).
  destruct (decide (k = cellId)) as [->|Hk]; [rewrite Hv in *; exact H|].
  rewrite Hf by exact Hk. exact H.
Qed.

Lemma keeps_undo_updateCell (pre : gmap string CellInfo) (cellId : string)
  (updateFn : CellInfo -> CellInfo) :
  keeps (undo_log_ok pre) (_updateCell cellId updateFn).
Proof.
  intros s Hs. unfold _updateCell.
  destruct (undo_log_ok_recordUndo pre cellId s Hs) as (Hok & Hsome & _).
  unfold getOrCreate.
  destruct (_cells (recordUndo cellId s) !! cellId) as [cell|] eqn:E; cbn.
  - apply (undo_log_ok_change pre cellId); [exact Hok | exact Hsome|].
    intros k Hk. apply lookup_insert_ne. congruence.
  - apply (undo_log_ok_change pre cellId); [|exact Hsome|].
    + apply (undo_log_ok_change pre cellId); [exact Hok | exact Hsome|].
      intros k Hk. apply lookup_insert_ne. congruence.
    + intros k Hk. apply lookup_insert_ne. congruence.
Qed.

Lemma keeps_undo_evalAst pre (baseCellId : string) (a : Ast) :
  keeps (undo_log_ok pre) (evalAst baseCellId a).
Proof.
  induction a as [v|r|fn kids IH] using Ast_induction; cbn [evalAst].
  - apply keeps_ret.
  - apply keeps_bind; [apply keeps_lift|]. intros str.
    apply keeps_bind; [apply keeps_undo_updateCell | intros; apply keeps_ret].
  - apply keeps_bind.
    + induction IH as [|k ks Hk _ IHks]; [apply keeps_ret|].
      apply keeps_bind; [exact Hk|]. intros v.
      apply keeps_bind; [exact IHks|]. intros vs. apply keeps_ret.
    + intros args. destruct (FNS fn args); [apply keeps_ret | apply keeps_throw].
Qed.

Lemma keeps_undo_removeAsDependent pre (baseCellId : string) (a : Ast) :
  keeps (undo_log_ok pre) (_removeAsDependent baseCellId a).
Proof.
  induction a as [v|r|fn kids IH] using Ast_induction; cbn [_removeAsDependent].
  - apply keeps_ret.
  - apply keeps_bind; [apply keeps_lift|]. intros str.
    apply keeps_bind; [apply keeps_undo_updateCell | intros; apply keeps_ret].
  - induction IH as [|k ks Hk _ IHks]; [apply keeps_ret|].
    apply keeps_bind; [exact Hk|]. intros _. exact IHks.
Qed.

Lemma keeps_undo_evalCell pre (fuel : nat) :
  (forall key working, keeps (undo_log_ok pre) (_evalCell fuel key working)) /\
  (forall key i vals working,
     keeps (undo_log_ok pre) (_evalDependents fuel key i vals working)).
Proof.
  induction fuel as [|fuel [IHc IHd]].
  - split; intros; intros s Hs; exact I.
  - split.
    + intros key working. cbn [_evalCell].
      apply keeps_get_bind. intros s Hs.
      destruct (_cells s !! key) as [cell|]; [|apply keeps_throw].
      apply keeps_bind.
      { destruct (ast cell); [apply keeps_undo_evalAst | apply keeps_ret]. }
      intros v. apply keeps_bind; [apply keeps_undo_updateCell|].
      intros _. apply keeps_bind; [apply IHd|]. intros [vals w]. apply keeps_ret.
    + intros key i vals working. cbn [_evalDependents].
      apply keeps_get_bind. intros s Hs.
      destruct (_cells s !! key ≫= _) as [dependent|]; [|apply keeps_ret].
      case_decide; [apply keeps_throw|].
      apply keeps_bind; [apply IHc|]. intros [vals' w]. apply IHd.
Qed.

Lemma keeps_undo_store_request pre (op : StoreOp) :
  keeps (undo_log_ok pre) (store_request op).
Proof.
  intros s Hs. unfold store_request.
  destruct (_store s) as [st|]; [|exact Hs].
  destruct (failure st op); exact Hs.
Qed.

(** The part of C1 that holds: whatever [eval] throws (a parse error, a
    circular reference, an error of the store, a [TypeError]), the table is
    afterwards what it was before the call. *)
Theorem eval_rolls_back (fuel : nat) (baseCellId formula : string) (updateStore : bool)
  (s : Sheet) (e : exn) (s' : Sheet) :
  eval fuel baseCellId formula updateStore s = Throw e s' ->
  _cells s' = _cells s.
Proof.
  unfold eval, try_catch_rethrow.
  match goal with |- context [match ?b s with _ => _ end] => set (body := b) end.
  assert (Hbody : triple (λ s0, s0 = s) body (λ _ _, True) (undo_log_ok (_cells s))).
  { subst body. eapply triple_bind.
    - apply (triple_modify _ _ (λ _, undo_log_ok (_cells s))).
      intros s0 Hs0. rewrite Hs0. apply undo_log_ok_start.
    - intros u.
      apply triple_weaken with (P' := undo_log_ok (_cells s))
                               (Q' := λ _, undo_log_ok (_cells s))
                               (E' := undo_log_ok (_cells s));
        [|intros; assumption | intros; exact I | intros; assumption].
      apply keeps_get_bind. intros s1 Hs1.
      apply keeps_bind; [apply keeps_lift|]. intros a.
      apply keeps_bind; [apply keeps_undo_updateCell|]. intros _.
      apply keeps_bind.
      { destruct (_cells s1 !! _ ≫= ast);
          [apply keeps_undo_removeAsDependent | apply keeps_ret]. }
      intros _. apply keeps_bind; [apply keeps_undo_evalCell|]. intros [updates w].
      apply keeps_bind; [|intros; apply keeps_ret].
      destruct updateStore; [|apply keeps_ret].
      apply keeps_get_bind. intros; apply keeps_undo_store_request. }
  specialize (Hbody s eq_refl).
  destruct (body s) as [a s1|e1 s1|]; try discriminate.
  intros [= <- <-]. apply undo_restores. exact Hbody.
Qed.

End Undo.

(** ** The dump *)

Section Dump.
Import ExprParser Spreadsheet.
Context {N : JSNum}.

Lemma extends_by_refl (m : gmap string (list string)) : extends_by (λ _ _, False) m m.
Proof. intros d. destruct (m !! d); [|exact I]. intros p. tauto. Qed.

Lemma extends_by_trans S1 S2 (m1 m2 m3 : gmap string (list string)) :
  extends_by S1 m1 m2 -> extends_by S2 m2 m3 ->
  extends_by (λ p d, S1 p d \/ S2 p d) m1 m3.
Proof.
  intros H1 H2 d. specialize (H1 d). specialize (H2 d).
  destruct (m1 !! d), (m2 !! d), (m3 !! d); try tauto.
  intros p. rewrite H2, H1. tauto.
Qed.

Lemma extends_by_iff S S' (m m' : gmap string (list string)) :
  (forall p d, S p d <-> S' p d) -> extends_by S m m' -> extends_by S' m m'.
Proof.
  intros HS H d. specialize (H d).
  destruct (m !! d), (m' !! d); try tauto.
  intros p. rewrite H, HS. tauto.
Qed.

Lemma extends_by_push (cellId : string) (m : gmap string (list string)) (d0 : string) :
  extends_by (λ p d, p = cellId /\ d = d0) m
    match m !! d0 with
    | Some l => <[d0 := l ++ [cellId]]> m
    | None => m
    end.
Proof.
  intros d. destruct (m !! d0) as [l0|] eqn:E0.
  - rewrite lookup_insert. case_decide as Hd.
    + subst d. rewrite E0. intros p. rewrite elem_of_app, list_elem_of_singleton. tauto.
    + destruct (m !! d); [|exact I]. intros p. intuition congruence.
  - destruct (m !! d) eqn:E; [|exact I]. intros p. intuition congruence.
Qed.

Lemma extends_by_cell (cellId : string) (deps : list string) (m : gmap string (list string)) :
  extends_by (λ p d, p = cellId /\ d ∈ deps) m
    (foldl (λ prereqs d,
              match prereqs !! d with
              | Some l => <[d := l ++ [cellId]]> prereqs
              | None => prereqs
              end) m deps).
Proof.
  revert m. induction deps as [|d0 deps IH]; intros m; cbn [foldl].
  - eapply extends_by_iff; [|apply extends_by_refl].
    intros p d. rewrite elem_of_nil. tauto.
  - eapply extends_by_iff;
      [|eapply extends_by_trans; [apply (extends_by_push cellId m d0) | apply IH]].
    intros p d. cbn. rewrite elem_of_cons. tauto.
Qed.

Lemma extends_by_cells (cells : list CellInfo) (m : gmap string (list string)) :
  extends_by (λ p d, exists c, c ∈ cells /\ p = id c /\ d ∈ dependents c) m
    (foldl (λ prereqs cell,
              foldl (λ prereqs d,
                       match prereqs !! d with
                       | Some l => <[d := l ++ [id cell]]> prereqs
                       | None => prereqs
                       end) prereqs (dependents cell)) m cells).
Proof.
  revert m. induction cells as [|c cells IH]; intros m; cbn [foldl].
  - eapply extends_by_iff; [|apply extends_by_refl].
    intros p d. split; [tauto|]. intros (c & Hc & _). inversion Hc.
  - eapply extends_by_iff;
      [|eapply extends_by_trans; [apply (extends_by_cell (id c) (dependents c) m) | apply IH]].
    intros p d. cbn. split.
    + intros [[-> Hd]|(c' & Hc' & Hp & Hd)]; [exists c | exists c'];
        rewrite elem_of_cons; tauto.
    + intros (c' & Hc' & Hp & Hd). apply elem_of_cons in Hc' as [->|Hc']; [tauto|].
      right. exists c'. tauto.
Qed.

Lemma elem_of_prereqCells (s : Sheet) (c : CellInfo) :
  c ∈ filter (λ cell, CellInfo_isEmpty cell = false) (snd <$> map_to_list (_cells s))
  <-> CellInfo_isEmpty c = false /\ exists k, _cells s !! k = Some c.
Proof.
  rewrite list_elem_of_filter, list_elem_of_fmap. split.
  - intros [He ([k c'] & -> & Hin)]. apply elem_of_map_to_list in Hin. eauto.
  - intros [He (k & Hk)]. split; [exact He|]. exists (k, c). split; [reflexivity|].
    apply elem_of_map_to_list. exact Hk.
Qed.

(** What [_makePrereqs] builds: a list for each cell with a formula, and in
    the list of a cell its prerequisites. *)
Lemma makePrereqs_spec (s : Sheet) (d : string) :
  cells_wf s ->
  match _makePrereqs s !! d with
  | Some l => nonEmptyCell s d /\ forall p, p ∈ l <-> prerequisite s p d
  | None => ~ nonEmptyCell s d
  end.
Proof.
  intros Hwf. unfold _makePrereqs.
  set (prereqCells := filter _ _).
  pose proof (extends_by_cells prereqCells
                (list_to_map ((λ c, (id c, [])) <$> prereqCells)) d) as H.
  cbv beta in H.
  destruct (list_to_map _ !! d) as [l0|] eqn:E0.
  - apply elem_of_list_to_map_2 in E0. apply list_elem_of_fmap in E0 as (c & [= -> ->] & Hc).
    apply elem_of_prereqCells in Hc as [He (k & Hk)].
    destruct (Hwf _ _ Hk) as [Hid _]. rewrite Hid in *.
    match goal with |- match ?x with _ => _ end => destruct x as [l|] end; [|contradiction].
    split; [exists c; split; assumption|].
    intros p. rewrite H, elem_of_nil. split.
    + intros [[]|(c' & Hc' & -> & Hd)].
      apply elem_of_prereqCells in Hc' as [He' (k' & Hk')].
      destruct (Hwf _ _ Hk') as [Hid' _]. rewrite Hid'. exists c'. tauto.
    + intros (c' & Hc' & He' & Hd). right. exists c'.
      destruct (Hwf _ _ Hc') as [Hid' _].
      split; [apply elem_of_prereqCells; eauto|]. split; [congruence | exact Hd].
  - match goal with |- match ?x with _ => _ end => destruct x as [l|] end; [contradiction|].
    intros (c & Hc & He).
    apply not_elem_of_list_to_map_2 in E0. apply E0.
    rewrite <- list_fmap_compose. apply list_elem_of_fmap. exists c.
    split; [cbn; destruct (Hwf _ _ Hc); congruence|].
    apply elem_of_prereqCells. eauto.
Qed.


Lemma dumpCell_pushes (prereqs : gmap string (list string)) (doneIds : gset string)
  (l acc : list string) :
  foldl (λ cellIds1 dependentId,
           match prereqs !! dependentId with
           | Some ps =>
               if forallb (λ prereq, bool_decide (prereq ∈ doneIds)) ps
               then cellIds1 ++ [dependentId] else cellIds1
           | None => cellIds1
           end) acc l
  = acc ++ filter (λ d, ready prereqs doneIds d = true) l.
Proof.
  revert acc. induction l as [|d l IH]; intros acc; cbn [foldl].
  - rewrite filter_nil, app_nil_r. reflexivity.
  - rewrite IH, filter_cons.
    assert (E : ready prereqs doneIds d
                = match prereqs !! d with
                  | Some ps => forallb (λ prereq, bool_decide (prereq ∈ doneIds)) ps
                  | None => false
                  end) by reflexivity.
    destruct (prereqs !! d) as [ps|];
      [destruct (forallb _ ps)|];
      first [ rewrite decide_True by exact E; rewrite <- app_assoc; reflexivity
            | rewrite decide_False by (rewrite E; discriminate); reflexivity ].
Qed.

Lemma dumpCell_eq (s : Sheet) (prereqs : gmap string (list string))
  (cellIds1 sortedIds : list string) (doneIds : gset string) (cellId : string) :
  dumpCell s prereqs (Ret (cellIds1, sortedIds, doneIds)) cellId
  = match _cells s !! cellId with
    | None => Raise TypeError
    | Some cell =>
        Ret (cellIds1 ++ filter (λ d, ready prereqs (doneIds ∪ {[cellId]}) d = true)
                           (dependents cell),
             sortedIds ++ [cellId], doneIds ∪ {[cellId]})
    end.
Proof.
  unfold dumpCell. cbn. destruct (_cells s !! cellId) as [cell|]; [|reflexivity].
  rewrite dumpCell_pushes. reflexivity.
Qed.

Section Layers.
Variable s : Sheet.
Variable depth : string -> nat.
Hypothesis Hwf : cells_wf s.
Hypothesis Hdepth : is_depth s depth.

Lemma ready_spec (doneIds : gset string) (d : string) :
  ready (_makePrereqs s) doneIds d = true
  <-> nonEmptyCell s d /\ forall p, prerequisite s p d -> p ∈ doneIds.
Proof.
  unfold ready. pose proof (makePrereqs_spec s d Hwf) as H.
  destruct (_makePrereqs s !! d) as [ps|].
  - destruct H as [Hne Hps]. rewrite forallb_forall. split.
    + intros Hall. split; [exact Hne|]. intros p Hp.
      apply Hps, list_elem_of_In, Hall in Hp. apply bool_decide_eq_true in Hp. exact Hp.
    + intros [_ Hall] p Hp. apply bool_decide_eq_true, Hall, Hps, list_elem_of_In, Hp.
  - split; [discriminate | intros [Hne _]; contradiction].
Qed.

Lemma prerequisite_nonEmpty (p d : string) : prerequisite s p d -> nonEmptyCell s p.
Proof. intros (c & Hc & He & _). exists c. tauto. Qed.

(** One round of the loop of [dump] on the cells [L] of depth [n], all
    cells less deep being done: it appends [L] to the sorted ids and
    collects, once each, the cells of depth [n + 1]. *)
Lemma dump_layer (n : nat) (L2 : list string) :
  forall (L1 cellIds1 sortedIds : list string) (doneIds : gset string),
    NoDup (L1 ++ L2) ->
    (forall k, k ∈ L1 ++ L2 -> nonEmptyCell s k /\ depth k = n) ->
    (forall k, k ∈ doneIds -> k ∈ L1 \/ (nonEmptyCell s k /\ depth k < n)%nat) ->
    (forall k, k ∈ L1 -> k ∈ doneIds) ->
    NoDup cellIds1 ->
    (forall d, d ∈ cellIds1 <->
               nonEmptyCell s d /\ (forall p, prerequisite s p d -> p ∈ doneIds) /\
               exists p, p ∈ L1 /\ prerequisite s p d) ->
    exists cellIds1' doneIds',
      foldl (dumpCell s (_makePrereqs s)) (Ret (cellIds1, sortedIds, doneIds)) L2
      = Ret (cellIds1', sortedIds ++ L2, doneIds') /\
      (forall k, k ∈ doneIds' <-> k ∈ doneIds \/ k ∈ L2) /\
      NoDup cellIds1' /\
      (forall d, d ∈ cellIds1' <->
                 nonEmptyCell s d /\ (forall p, prerequisite s p d -> p ∈ doneIds') /\
                 exists p, p ∈ L1 ++ L2 /\ prerequisite s p d).
Proof.
  induction L2 as [|c L2 IH]; intros L1 cellIds1 sortedIds doneIds Hnd HL Hdone HL1 Hnd1 Hc1.
  - exists cellIds1, doneIds. cbn [foldl]. rewrite !app_nil_r.
    split; [reflexivity|]. split; [intros k; rewrite elem_of_nil; tauto|].
    split; [exact Hnd1 | exact Hc1].
  - cbn [foldl]. rewrite dumpCell_eq.
    destruct (HL c) as [(cell & Hcell & Hempty) Hdc]; [rewrite elem_of_app, elem_of_cons; tauto|].
    rewrite Hcell.
    assert (Hc_notin : c ∉ doneIds).
    { intros Hin. destruct (Hdone _ Hin) as [HinL1|[_ Hlt]]; [|lia].
      apply NoDup_app in Hnd as (_ & Hdisj & _). apply (Hdisj c HinL1).
      apply elem_of_cons. tauto. }
    set (pushed := filter _ (dependents cell)).
    assert (Hpushed : forall d, d ∈ pushed <->
              d ∈ dependents cell /\ nonEmptyCell s d /\
              forall p, prerequisite s p d -> p ∈ doneIds ∪ {[c]}).
    { intros d. unfold pushed. rewrite list_elem_of_filter, ready_spec. tauto. }
    destruct (IH (L1 ++ [c]) (cellIds1 ++ pushed) (sortedIds ++ [c]) (doneIds ∪ {[c]}))
      as (cellIds1' & doneIds' & Hfold & Hdone' & Hnd' & Hc');
      try (rewrite <- app_assoc; cbn [app]; assumption).
    + intros k Hk. rewrite elem_of_union, elem_of_singleton in Hk.
      rewrite elem_of_app, list_elem_of_singleton.
      destruct Hk as [Hk| ->]; [destruct (Hdone _ Hk)|]; tauto.
    + intros k Hk. rewrite elem_of_app, list_elem_of_singleton in Hk.
      rewrite elem_of_union, elem_of_singleton. destruct Hk; [left; apply HL1|]; tauto.
    + apply NoDup_app. split; [exact Hnd1|]. split.
      * intros d Hd1 Hd2. apply Hc1 in Hd1 as (_ & Hall & _).
        apply Hpushed in Hd2 as (Hdep & _ & _).
        apply Hc_notin, Hall. exists cell. tauto.
      * unfold pushed. apply NoDup_filter. apply (Hwf _ _ Hcell).
    + intros d. rewrite elem_of_app, Hc1, Hpushed. split.
      * intros [(Hne & Hall & p & Hp & Hpre)|(Hdep & Hne & Hall)].
        -- split; [exact Hne|]. split; [intros q Hq; apply elem_of_union; left; auto|].
           exists p. rewrite elem_of_app. tauto.
        -- split; [exact Hne|]. split; [exact Hall|].
           exists c. rewrite elem_of_app, list_elem_of_singleton.
           split; [tauto|]. exists cell. tauto.
      * intros (Hne & Hall & p & Hp & Hpre).
        destruct (decide (d ∈ dependents cell)) as [Hdep|Hndep]; [right; tauto|].
        left. split; [exact Hne|].
        assert (Hnotc : forall q, prerequisite s q d -> q <> c).
        { intros q (cq & Hcq & _ & Hdq) ->. rewrite Hcell in Hcq.
          injection Hcq as <-. contradiction. }
        split.
        -- intros q Hq. specialize (Hall q Hq).
           rewrite elem_of_union, elem_of_singleton in Hall.
           destruct Hall as [|Heq]; [assumption|]. exfalso. apply (Hnotc q Hq Heq).
        -- exists p. split; [|exact Hpre].
           rewrite elem_of_app, list_elem_of_singleton in Hp.
           destruct Hp as [|Heq]; [assumption|]. exfalso. apply (Hnotc p Hpre Heq).
    + exists cellIds1', doneIds'. rewrite Hfold.
      split; [rewrite <- app_assoc; reflexivity|].
      split.
      { intros k. rewrite Hdone', elem_of_union, elem_of_singleton, elem_of_cons. tauto. }
      split; [exact Hnd'|].
      intros d. rewrite Hc'. rewrite <- app_assoc. reflexivity.
Qed.


Lemma depth_zero_iff (k : string) :
  nonEmptyCell s k ->
  depth k = 0%nat <-> forall p, ~ prerequisite s p k.
Proof.
  intros Hne. destruct (Hdepth k Hne) as [Hlt Hmax]. split.
  - intros H0 p Hp. specialize (Hlt p Hp). lia.
  - intros Hno. destruct Hmax as [|(p & Hp & _)]; [assumption|].
    exfalso. apply (Hno p Hp).
Qed.

(** Depths have no gaps. *)
Lemma depth_contiguous (m : nat) :
  forall k, nonEmptyCell s k -> (m <= depth k)%nat ->
            exists k', nonEmptyCell s k' /\ depth k' = m.
Proof.
  intros k. remember (depth k) as dk eqn:Hdk. revert k Hdk.
  induction dk as [dk IH] using lt_wf_ind. intros k Hdk Hne Hm.
  destruct (decide (m = dk)) as [->|Hneq]; [exists k; split; [exact Hne | congruence]|].
  destruct (Hdepth k Hne) as [_ [H0|(p & Hp & HS)]]; [lia|].
  apply (IH (depth p)) with (k := p); [lia | reflexivity | | lia].
  apply (prerequisite_nonEmpty _ _ Hp).
Qed.

Lemma dump_layer_full (n : nat) (L sortedIds : list string) (doneIds : gset string) :
  NoDup L ->
  (forall k, k ∈ L <-> nonEmptyCell s k /\ depth k = n) ->
  (forall k, k ∈ doneIds <-> nonEmptyCell s k /\ (depth k < n)%nat) ->
  exists cellIds1 doneIds',
    foldl (dumpCell s (_makePrereqs s)) (Ret ([], sortedIds, doneIds)) L
    = Ret (cellIds1, sortedIds ++ L, doneIds') /\
    (forall k, k ∈ doneIds' <-> nonEmptyCell s k /\ (depth k < S n)%nat) /\
    NoDup cellIds1 /\
    (forall d, d ∈ cellIds1 <-> nonEmptyCell s d /\ depth d = S n).
Proof.
  intros Hnd HL Hdone.
  destruct (dump_layer n L [] [] sortedIds doneIds)
    as (cellIds1 & doneIds' & Hfold & Hdone' & Hnd1 & Hc1).
  - exact Hnd.
  - intros k Hk. apply HL. exact Hk.
  - intros k Hk. right. apply Hdone. exact Hk.
  - intros k Hk. inversion Hk.
  - constructor.
  - intros d. rewrite elem_of_nil. split; [tauto|].
    intros (_ & _ & p & Hp & _). inversion Hp.
  - assert (Hd' : forall k, k ∈ doneIds' <-> nonEmptyCell s k /\ (depth k < S n)%nat).
    { intros k. rewrite Hdone', Hdone, HL. split; [intros [[]|[]]; split; auto; lia|].
      intros [Hne Hlt]. destruct (decide (depth k = n)); [right | left]; split; auto; lia. }
    exists cellIds1, doneIds'. split; [exact Hfold|]. split; [exact Hd'|].
    split; [exact Hnd1|].
    intros d. rewrite Hc1. cbn [app]. split.
    + intros (Hne & Hall & p & Hp & Hpre). split; [exact Hne|].
      destruct (Hdepth d Hne) as [Hlt Hmax].
      apply HL in Hp as [_ Hpn]. specialize (Hlt p Hpre).
      destruct Hmax as [|(q & Hq & HS)]; [lia|].
      apply Hall, Hd' in Hq as [_ Hq]. lia.
    + intros [Hne Hdn]. split; [exact Hne|].
      destruct (Hdepth d Hne) as [Hlt Hmax]. split.
      * intros p Hp. apply Hd'. split; [apply (prerequisite_nonEmpty _ _ Hp)|].
        specialize (Hlt p Hp). lia.
      * destruct Hmax as [|(q & Hq & HS)]; [lia|].
        exists q. split; [|exact Hq]. apply HL.
        split; [apply (prerequisite_nonEmpty _ _ Hq) | lia].
Qed.

Lemma dump_before_same_depth (m : nat) (l : list string) :
  StronglySorted String.le l -> NoDup l -> (forall k, k ∈ l -> depth k = m) ->
  StronglySorted (dump_before depth) l.
Proof.
  induction 1 as [|x l Hl IH Hx]; intros Hnd Hm; constructor.
  - apply IH; [apply NoDup_cons in Hnd; tauto|].
    intros k Hk. apply Hm. apply elem_of_cons. tauto.
  - rewrite Forall_forall in *. intros y Hy. right.
    split; [rewrite !Hm by (apply elem_of_cons; tauto); reflexivity|].
    split; [apply Hx, Hy|].
    intros ->. apply NoDup_cons in Hnd as [Hnot _]. contradiction.
Qed.

Lemma dump_before_irrefl (k : string) : ~ dump_before depth k k.
Proof. intros [H|(_ & _ & H)]; [lia | congruence]. Qed.

Lemma StronglySorted_NoDup (l : list string) :
  StronglySorted (dump_before depth) l -> NoDup l.
Proof.
  induction 1 as [|x l Hl IH Hx]; constructor; [|exact IH].
  intros Hin. rewrite Forall_forall in Hx. apply (dump_before_irrefl x), Hx, Hin.
Qed.

Lemma sort_layer (m : nat) (cellIds1 : list string) :
  NoDup cellIds1 ->
  (forall d, d ∈ cellIds1 <-> nonEmptyCell s d /\ depth d = m) ->
  NoDup (sort cellIds1) /\
  (forall d, d ∈ sort cellIds1 <-> nonEmptyCell s d /\ depth d = m) /\
  StronglySorted (dump_before depth) (sort cellIds1).
Proof.
  intros Hnd Hc. unfold sort.
  pose proof (merge_sort_Permutation String.le cellIds1) as Hperm.
  assert (Hnd' : NoDup (merge_sort String.le cellIds1)) by (rewrite Hperm; exact Hnd).
  assert (Hc' : forall d, d ∈ merge_sort String.le cellIds1
                          <-> nonEmptyCell s d /\ depth d = m).
  { intros d. rewrite Hperm. apply Hc. }
  split; [exact Hnd'|]. split; [exact Hc'|].
  apply (dump_before_same_depth m); [|exact Hnd'|intros k Hk; apply Hc', Hk].
  apply StronglySorted_merge_sort; apply _.
Qed.

(** The loop of [dump], entered with the cells of depth [n] in [cellIds0]
    and all cells less deep in [sortedIds]: it ends with all cells that have
    a formula, in the order of the dump. *)
Lemma dumpLoop_spec (allIds : list string) (fuel : nat) :
  NoDup allIds -> (forall k, k ∈ allIds <-> nonEmptyCell s k) ->
  forall (n : nat) (cellIds0 sortedIds : list string) (doneIds : gset string),
    NoDup cellIds0 ->
    (forall k, k ∈ cellIds0 <-> nonEmptyCell s k /\ depth k = n) ->
    StronglySorted (dump_before depth) cellIds0 ->
    (forall k, k ∈ sortedIds <-> nonEmptyCell s k /\ (depth k < n)%nat) ->
    StronglySorted (dump_before depth) sortedIds ->
    (forall k, k ∈ doneIds <-> nonEmptyCell s k /\ (depth k < n)%nat) ->
    (length allIds <= length sortedIds + fuel)%nat ->
    exists ids,
      dumpLoop fuel s (_makePrereqs s) (length allIds) cellIds0 sortedIds doneIds
      = Some (Ret ids) /\
      StronglySorted (dump_before depth) ids /\
      (forall k, k ∈ ids <-> nonEmptyCell s k).
Proof.
  intros Hall_nd Hall.
  induction fuel as [|fuel IH];
    intros n cellIds0 sortedIds doneIds Hnd0 H0 Hs0 Hsorted Hss Hdone Hfuel.
  all: assert (Hsnd : NoDup sortedIds) by (apply StronglySorted_NoDup; exact Hss).
  all: assert (Hsub : forall k, k ∈ sortedIds -> k ∈ allIds)
         by (intros k Hk; apply Hall, Hsorted, Hk).
  all: assert (Hfull : (length allIds <= length sortedIds)%nat ->
                       forall k, k ∈ sortedIds <-> nonEmptyCell s k).
  1,3: intros Hlen k; rewrite <- Hall;
       assert (Hperm : sortedIds ≡ₚ allIds)
         by (apply submseteq_length_Permutation;
             [apply NoDup_submseteq; assumption | exact Hlen]);
       rewrite Hperm; reflexivity.
  - cbn [dumpLoop]. rewrite decide_False by lia.
    exists sortedIds. split; [reflexivity|]. split; [exact Hss|]. apply Hfull. lia.
  - cbn [dumpLoop]. case_decide as Hlt.
    2:{ exists sortedIds. split; [reflexivity|]. split; [exact Hss|]. apply Hfull. lia. }
    destruct (dump_layer_full n cellIds0 sortedIds doneIds Hnd0 H0 Hdone)
      as (cellIds1 & doneIds' & Hfold & Hdone' & Hnd1 & Hc1).
    rewrite Hfold.
    destruct (sort_layer (S n) cellIds1 Hnd1 Hc1) as (Hnd1' & Hc1' & Hs1').
    assert (Hnonempty : (1 <= length cellIds0)%nat).
    { destruct (decide (Forall (λ k, k ∈ sortedIds) allIds)) as [Hfa|Hnfa].
      - rewrite Forall_forall in Hfa.
        assert (allIds ⊆+ sortedIds) as Hle%submseteq_length
          by (apply NoDup_submseteq; assumption). lia.
      - apply not_Forall_Exists in Hnfa; [|apply _].
        apply Exists_exists in Hnfa as (k & Hk & Hnotin).
        apply Hall in Hk.
        destruct (depth_contiguous n k Hk) as (k' & Hk' & Hdk').
        { destruct (decide (depth k < n)%nat) as [Hlt'|]; [|lia].
          exfalso. apply Hnotin, Hsorted. tauto. }
        assert (Hin : k' ∈ cellIds0) by (apply H0; tauto).
        destruct cellIds0; [inversion Hin | cbn; lia]. }
    apply (IH (S n)); try assumption.
    + intros k. rewrite elem_of_app, Hsorted, H0. split.
      * intros [[]|[]]; split; auto; lia.
      * intros [Hne Hk]. destruct (decide (depth k = n)); [right | left]; split; auto; lia.
    + apply StronglySorted_app_2; [|assumption..].
      intros x1 x2 Hx1 Hx2. left. apply Hsorted in Hx1 as [_ ?]. apply H0 in Hx2 as [_ ?]. lia.
    + rewrite length_app. lia.
Qed.


(** The number of cells with a formula: no more than the cells. *)
Lemma allIds_spec :
  let allIds := (map_to_list (_makePrereqs s)).*1 in
  NoDup allIds /\ (forall k, k ∈ allIds <-> nonEmptyCell s k) /\
  (length allIds <= size (_cells s))%nat.
Proof.
  intros allIds.
  assert (Hnd : NoDup allIds) by apply NoDup_fst_map_to_list.
  assert (Hall : forall k, k ∈ allIds <-> nonEmptyCell s k).
  { intros k. unfold allIds. rewrite list_elem_of_fmap.
    pose proof (makePrereqs_spec s k Hwf) as H. split.
    - intros ([k' l] & -> & Hin). apply elem_of_map_to_list in Hin. cbn.
      cbn in H. rewrite Hin in H. tauto.
    - intros Hne. destruct (_makePrereqs s !! k) as [l|] eqn:E; [|contradiction].
      exists (k, l). split; [reflexivity|]. apply elem_of_map_to_list. exact E. }
  split; [exact Hnd|]. split; [exact Hall|].
  rewrite <- length_map_to_list, <- (length_fmap fst (map_to_list (_cells s))).
  apply submseteq_length, NoDup_submseteq; [exact Hnd|].
  intros k Hk. apply Hall in Hk as (c & Hc & _).
  apply list_elem_of_fmap. exists (k, c). split; [reflexivity|].
  apply elem_of_map_to_list. exact Hc.
Qed.

Lemma formulas_of_ids (ids : list string) :
  (forall k, k ∈ ids -> exists c f, _cells s !! k = Some c /\ CellInfo_formula c = Ret f) ->
  exists l,
    mapM (M := result)
         (λ id, match _cells s !! id with
                | None => Raise TypeError
                | Some cell => formula ← CellInfo_formula cell; Ret (id, formula)
                end) ids = Ret l /\
    l.*1 = ids /\
    forall k f, (k, f) ∈ l <->
                k ∈ ids /\ exists c, _cells s !! k = Some c /\ CellInfo_formula c = Ret f.
Proof.
  induction ids as [|k ids IH]; intros H.
  - exists []. split; [reflexivity|]. split; [reflexivity|].
    intros k f. rewrite !elem_of_nil. tauto.
  - destruct (H k) as (c & f & Hc & Hf); [apply elem_of_cons; tauto|].
    destruct IH as (l & Hl & Hfst & Hin).
    { intros k' Hk'. apply H. apply elem_of_cons. tauto. }
    exists ((k, f) :: l). split; [|split].
    + cbn [mapM]. rewrite Hc, Hf. cbn. rewrite Hl. reflexivity.
    + cbn. rewrite Hfst. reflexivity.
    + intros k' f'. rewrite !elem_of_cons, Hin. split.
      * intros [[= -> ->]|[Hk' Hex]]; [split; [tauto | exists c; tauto] | tauto].
      * intros [[->|Hk'] (c' & Hc' & Hf')]; [left | right; eauto].
        rewrite Hc in Hc'. injection Hc' as <-. congruence.
Qed.

(** On a table whose cells sit under their own ids, whose sets have no
    repetition and whose formulas print, and where [depth] gives the depths,
    [dump] returns, given a round for each cell, the cells that have a
    formula, each once with its formula, ordered by depth and, among cells of
    one depth, by id. *)
Lemma dump_order_wf (fuel : nat) :
  (forall k c, _cells s !! k = Some c -> exists f, CellInfo_formula c = Ret f) ->
  (size (_cells s) <= fuel)%nat ->
  exists l,
    dump fuel s = Some (Ret l) /\
    StronglySorted (dump_before depth) l.*1 /\
    (forall k f, (k, f) ∈ l <->
                 exists c, _cells s !! k = Some c /\ CellInfo_isEmpty c = false /\
                           CellInfo_formula c = Ret f).
Proof.
  intros Hprint Hfuel.
  destruct allIds_spec as (Hnd & Hall & Hlen).
  set (allIds := (map_to_list (_makePrereqs s)).*1) in *.
  set (cellIds0 := filter (λ id, _makePrereqs s !! id = Some []) allIds).
  assert (Hnd0 : NoDup cellIds0) by (apply NoDup_filter; exact Hnd).
  assert (H0 : forall k, k ∈ cellIds0 <-> nonEmptyCell s k /\ depth k = 0%nat).
  { intros k. unfold cellIds0. rewrite list_elem_of_filter, Hall.
    pose proof (makePrereqs_spec s k Hwf) as H. split.
    - intros [E Hne]. split; [exact Hne|]. rewrite E in H. destruct H as [_ H].
      apply depth_zero_iff; [exact Hne|]. intros p Hp. apply H in Hp. inversion Hp.
    - intros [Hne Hd]. split; [|exact Hne].
      destruct (_makePrereqs s !! k) as [l|]; [|contradiction].
      destruct H as [_ H]. destruct l as [|p l]; [reflexivity|].
      exfalso. apply (proj1 (depth_zero_iff k Hne) Hd p). apply H. left. }
  destruct (sort_layer 0 cellIds0 Hnd0 H0) as (Hnd0' & H0' & Hs0').
  destruct (dumpLoop_spec allIds fuel Hnd Hall 0 (sort cellIds0) [] ∅)
    as (ids & Hloop & Hsorted & Hids); try assumption.
  - intros k. rewrite elem_of_nil. split; [tauto | intros [_ ?]; lia].
  - constructor.
  - intros k. rewrite elem_of_empty. split; [tauto | intros [_ ?]; lia].
  - cbn. lia.
  - destruct (formulas_of_ids ids) as (l & Hl & Hfst & Hin).
    { intros k Hk. apply Hids in Hk as (c & Hc & _).
      destruct (Hprint _ _ Hc) as [f Hf]. eauto. }
    exists l. split; [|split].
    + unfold dump. fold allIds. fold cellIds0. rewrite Hloop. cbn. rewrite Hl. reflexivity.
    + rewrite Hfst. exact Hsorted.
    + intros k f. rewrite Hin, Hids. split.
      * intros [(c & Hc & He) (c' & Hc' & Hf)]. exists c.
        rewrite Hc in Hc'. injection Hc' as <-. tauto.
      * intros (c & Hc & He & Hf). split; exists c; tauto.
Qed.

End Layers.
End Dump.


(** A check that decides on a given table that [depth] gives the depths. *)
Lemma is_depth_check `{N : JSNum} (s : Spreadsheet.Sheet) (depth : string -> nat) :
  map_Forall
    (λ k c,
       Spreadsheet.CellInfo_isEmpty c = false ->
       map_Forall (λ p cp, Spreadsheet.CellInfo_isEmpty cp = false ->
                           k ∈ Spreadsheet.dependents cp -> (depth p < depth k)%nat)
                  (Spreadsheet._cells s) /\
       (depth k = 0%nat \/
        map_Exists (λ p cp, Spreadsheet.CellInfo_isEmpty cp = false /\
                            k ∈ Spreadsheet.dependents cp /\ depth k = S (depth p))
                   (Spreadsheet._cells s)))
    (Spreadsheet._cells s) ->
  is_depth s depth.
Proof.
  intros H k (c & Hc & He). destruct (H k c Hc He) as [Hlt Hmax]. split.
  - intros p (cp & Hcp & Hep & Hdep). apply (Hlt p cp Hcp Hep Hdep).
  - destruct Hmax as [H0|(p & cp & Hcp & Hep & Hdep & HS)]; [left; exact H0|].
    right. exists p. split; [exists cp; tauto | exact HS].
Qed.

(** Scenario 6 of the spec: [a1] and [a2] at depth 0 in the order of their
    ids, then [b1], then [c1]. *)
Example dump_scenario :
  let s0 := Spreadsheet.new "sheet" None in
  let s1 := after (Spreadsheet.eval 4 "a1" "1" true) s0 in
  let s2 := after (Spreadsheet.eval 4 "b1" "a1+1" true) s1 in
  let s3 := after (Spreadsheet.eval 4 "c1" "a1+b1" true) s2 in
  let s4 := after (Spreadsheet.eval 4 "a2" "9" true) s3 in
  Spreadsheet.dump 4 s4
  = Some (Ret [("a1", "1"); ("a2", "9"); ("b1", "a1+1"); ("c1", "a1+b1")]).
Proof. vm_compute. reflexivity. Qed.

(** ** The round trip of the printer and the parser *)

Section RoundTrip.
Import ExprParser.
Context {N : JSNum}.
Local Arguments String.append !_ _ / : simpl nomatch.

(** *** Strings *)

Lemma append_assoc (a b c : string) : (a +:+ b) +:+ c = a +:+ (b +:+ c).
Proof. induction a as [|x a IH]; cbn; [reflexivity | f_equal; exact IH]. Qed.

Lemma append_nil_r (a : string) : a +:+ "" = a.
Proof. induction a as [|x a IH]; cbn; [reflexivity | f_equal; exact IH]. Qed.

Lemma append_inv_head (a b c : string) : a +:+ b = a +:+ c -> b = c.
Proof. induction a as [|x a IH]; cbn; [tauto | intros [= H]; auto]. Qed.

Lemma length_append (a b : string) :
  String.length (a +:+ b) = (String.length a + String.length b)%nat.
Proof. induction a as [|x a IH]; cbn; [reflexivity | rewrite IH; reflexivity]. Qed.

Lemma slice_append (a b : string) : slice (a +:+ b) (String.length a) = b.
Proof. induction a as [|x a IH]; [destruct b; reflexivity | exact IH]. Qed.

Lemma slice_0 (s : string) : slice s 0 = s.
Proof. destruct s; reflexivity. Qed.

Lemma length_slice (s : string) (n : nat) :
  String.length (slice s n) = (String.length s - n)%nat.
Proof.
  revert s; induction n as [|n IH]; intros [|c s]; cbn; try reflexivity.
  apply IH.
Qed.

Lemma length_trimStart (s : string) :
  (String.length (Js.trimStart s) <= String.length s)%nat.
Proof.
  induction s as [|c s IH]; cbn; [lia|]. destruct (Js.isSpace c); cbn; lia.
Qed.

Lemma span_split (p : ascii -> bool) (s : string) :
  s = fst (Js.span p s) +:+ snd (Js.span p s).
Proof.
  induction s as [|c s IH]; cbn; [reflexivity|].
  destruct (p c); [|reflexivity].
  destruct (Js.span p s) as [a b]; cbn in *. congruence.
Qed.

Lemma span_append (p : ascii -> bool) (s rest a b : string) :
  Js.span p s = (a, b) -> headFails p rest ->
  Js.span p (s +:+ rest) = (a, b +:+ rest).
Proof.
  intros Hs Hrest. revert a b Hs; induction s as [|c s IH]; intros a b Hs; cbn in *.
  - injection Hs as <- <-. destruct rest as [|d r]; cbn in *; [reflexivity|].
    rewrite Hrest. reflexivity.
  - destruct (p c).
    + destruct (Js.span p s) as [a' b'] eqn:E. injection Hs as <- <-.
      rewrite (IH a' b' eq_refl). reflexivity.
    + injection Hs as <- <-. reflexivity.
Qed.

Lemma span_all (p : ascii -> bool) (s : string) :
  Js.allChars p s = true -> Js.span p s = (s, "").
Proof.
  induction s as [|c s IH]; cbn; [reflexivity|].
  intros [Hc Hs]%andb_prop. rewrite Hc, (IH Hs). reflexivity.
Qed.

Lemma span_fst_nonempty (p : ascii -> bool) (c : ascii) (s : string) :
  p c = true -> (1 <= String.length (fst (Js.span p (String c s))))%nat.
Proof. intros H. cbn. rewrite H. destruct (Js.span p s). cbn. lia. Qed.

Local Ltac by_chars c :=
  destruct c as [[] [] [] [] [] [] [] []]; vm_compute; intuition congruence.

Lemma isWord_false (c : ascii) :
  Js.isWord c = false ->
  Js.isDigit c = false /\ (Js.code c =? 101) = false /\ (Js.code c =? 69) = false.
Proof. by_chars c. Qed.

Lemma isDigit_props (c : ascii) :
  Js.isDigit c = true ->
  Js.isSpace c = false /\ Js.isWord c = true /\ Js.lowerChar c = c /\
  (Js.code c =? 36) = false /\ Js.isLetter c = false.
Proof. by_chars c. Qed.

(** *** The lexeme of a number *)

Lemma fracPart_split (r1 : string) :
  r1 = fst (fracPart r1) +:+ snd (fracPart r1).
Proof.
  destruct r1 as [|c r]; [reflexivity|]. unfold fracPart.
  destruct (Js.code c =? 46); [|reflexivity].
  pose proof (span_split Js.isDigit r) as H.
  destruct (Js.span Js.isDigit r) as [ds r']. cbn in H.
  destruct ds; [reflexivity|]. cbn in *. congruence.
Qed.

Lemma fracPart_append (r1 rest f r2 : string) :
  fracPart r1 = (f, r2) -> delim rest ->
  fracPart (r1 +:+ rest) = (f, r2 +:+ rest).
Proof.
  intros H Hrest. destruct r1 as [|c r].
  - cbn in H. injection H as <- <-. destruct rest as [|d rest]; [reflexivity|].
    cbn in *. destruct Hrest as [_ Hd].
    destruct (Z.eqb_spec (Js.code d) 46); [contradiction | reflexivity].
  - cbn in *. destruct (Js.code c =? 46); [|injection H as <- <-; reflexivity].
    destruct (Js.span Js.isDigit r) as [ds r'] eqn:E.
    rewrite (span_append _ _ rest _ _ E).
    + destruct ds; injection H as <- <-; reflexivity.
    + destruct rest; cbn in *; [exact I|]. apply isWord_false, Hrest.
Qed.

Lemma expPart_append (r2 rest : string) :
  expPart r2 = r2 -> delim rest -> expPart (r2 +:+ rest) = r2.
Proof.
  intros H Hrest.
  assert (Hd : headFails Js.isDigit rest).
  { destruct rest; cbn in *; [exact I|]. apply isWord_false, Hrest. }
  destruct r2 as [|e r].
  - destruct rest as [|d rest]; [reflexivity|]. cbn in *.
    destruct (isWord_false d (proj1 Hrest)) as (_ & -> & ->). reflexivity.
  - cbn in *. destruct ((Js.code e =? 101) || (Js.code e =? 69)); [|discriminate].
    destruct r as [|sg r'']; [cbn in H; discriminate|].
    cbn in *.
    destruct ((Js.code sg =? 45) || (Js.code sg =? 43)).
    + pose proof (span_split Js.isDigit r'') as Hs.
      destruct (Js.span Js.isDigit r'') as [ds x] eqn:E. cbn in *.
      destruct ds as [|d ds]; [discriminate|].
      injection H as H. rewrite <- H in Hs.
      assert (x = "").
      { destruct x; [reflexivity|].
        apply (f_equal String.length) in Hs. rewrite length_append in Hs. cbn in Hs. lia. }
      subst x.
      rewrite (span_append _ _ rest _ _ E Hd). cbn. congruence.
    + pose proof (span_split Js.isDigit (String sg r'')) as Hs.
      destruct (Js.span Js.isDigit (String sg r'')) as [ds x] eqn:E. cbn [fst snd] in *.
      destruct ds as [|d ds]; [discriminate|].
      cbn in H. injection H as -> ->.
      assert (x = "").
      { destruct x; [reflexivity|].
        apply (f_equal String.length) in Hs. rewrite length_append in Hs. cbn in Hs. lia. }
      subst x.
      change (String sg (r'' +:+ rest)) with (String sg r'' +:+ rest).
      rewrite (span_append _ _ rest _ _ E Hd). reflexivity.
Qed.

Lemma matchNum_append (t rest : string) :
  matchNum t = t -> delim rest -> matchNum (t +:+ rest) = t.
Proof.
  intros H Hrest. unfold matchNum in *.
  assert (Hd : headFails Js.isDigit rest).
  { destruct rest; cbn in *; [exact I|]. apply isWord_false, Hrest. }
  pose proof (span_split Js.isDigit t) as Hs.
  destruct (Js.span Js.isDigit t) as [int r1] eqn:E. cbn [fst snd] in Hs.
  rewrite (span_append _ _ rest _ _ E Hd).
  pose proof (fracPart_split r1) as Hf.
  destruct (fracPart r1) as [frac r2] eqn:F. cbn [fst snd] in Hf.
  rewrite (fracPart_append _ rest _ _ F Hrest).
  assert (He : expPart r2 = r2).
  { pose proof H as H'. rewrite Hs in H'. rewrite Hf in H'.
    apply append_inv_head in H'. apply append_inv_head in H'. exact H'. }
  rewrite (expPart_append _ _ He Hrest). congruence.
Qed.

Lemma matchNum_nonempty (c : ascii) (s : string) :
  Js.isDigit c = true -> (1 <= String.length (matchNum (String c s)))%nat.
Proof.
  intros H. unfold matchNum. cbn [Js.span]. rewrite H.
  destruct (Js.span Js.isDigit s) as [a b].
  destruct (fracPart b) as [f r2]. cbn. lia.
Qed.

(** *** One round of the scanner *)

Lemma scanLoop_fuel (n m : nat) (str : string) (baseCell : CellRef) :
  (String.length str <= n)%nat -> (String.length str <= m)%nat ->
  scanLoop n str baseCell = scanLoop m str baseCell.
Proof.
  revert m str; induction n as [|n IH]; intros m str Hn Hm.
  - destruct str; [|cbn in Hn; lia]. destruct m; reflexivity.
  - pose proof (length_trimStart str) as Ht.
    destruct m as [|m].
    { destruct str; [reflexivity | cbn in Hm; lia]. }
    cbn [scanLoop]. destruct (Js.trimStart str) as [|c r] eqn:E; [reflexivity|].
    match goal with |- mbind _ ?t = _ => set (tok := t) end.
    assert (Hl : forall t, tok = Ret t -> (1 <= String.length (tok_lexeme t))%nat).
    { intros t. subst tok. destruct (Js.isDigit c) eqn:Hd.
      - intros [= <-]. apply matchNum_nonempty, Hd.
      - destruct (Js.isWord c) eqn:Hw.
        + pose proof (span_fst_nonempty Js.isWord c r Hw) as Hp.
          destruct (bool_decide _).
          * intros [= <-]. exact Hp.
          * destruct (CellRef_new _ _); cbn; [|discriminate]. intros [= <-]. exact Hp.
        + intros [= <-]. cbn. lia. }
    destruct tok as [t|e]; [|reflexivity]. cbn [mbind result_bind rbind].
    specialize (Hl t eq_refl). cbn in Ht.
    rewrite (IH m); [reflexivity | |]; rewrite length_slice; cbn; lia.
Qed.

Lemma scan_rest (n : nat) (str : string) (baseCell : CellRef) :
  (String.length str <= n)%nat -> scanLoop n str baseCell = scan str baseCell.
Proof. intros H. apply scanLoop_fuel; [exact H | lia]. Qed.

Lemma scan_space (c : ascii) (r : string) (baseCell : CellRef) :
  Js.isSpace c = true -> scan (String c r) baseCell = scan r baseCell.
Proof.
  intros H. unfold scan at 1. cbn [String.length].
  rewrite <- (scan_rest (S (String.length r)) r) by lia.
  cbn [scanLoop Js.trimStart]. rewrite H. reflexivity.
Qed.

Lemma scan_char (c : ascii) (r : string) (baseCell : CellRef) (ts : list Tok) :
  Js.isSpace c = false -> Js.isDigit c = false -> Js.isWord c = false ->
  scan r baseCell = Ret ts ->
  scan (String c r) baseCell = Ret (TChar c :: ts).
Proof.
  intros Hs Hd Hw Hr. unfold scan. cbn [String.length scanLoop Js.trimStart].
  rewrite Hs, Hd, Hw. cbn. rewrite slice_0. fold (scan r baseCell). rewrite Hr. reflexivity.
Qed.

Lemma scan_num (t rest : string) (baseCell : CellRef) (ts : list Tok) :
  headDigit t = true -> matchNum t = t -> delim rest ->
  scan rest baseCell = Ret ts ->
  scan (t +:+ rest) baseCell = Ret (TNum t (Number t) :: ts).
Proof.
  intros Hh Hm Hrest Hr. destruct t as [|c t']; [discriminate|]. cbn in Hh.
  destruct (isDigit_props c Hh) as (Hs & _).
  unfold scan. rewrite length_append. cbn [String.length Nat.add].
  change (String c t' +:+ rest) with (String c (t' +:+ rest)).
  cbn [scanLoop Js.trimStart]. rewrite Hs, Hh.
  change (String c (t' +:+ rest)) with (String c t' +:+ rest).
  rewrite (matchNum_append _ _ Hm Hrest). cbn [mbind result_bind rbind tok_lexeme].
  rewrite slice_append, scan_rest by lia. rewrite Hr. reflexivity.
Qed.

Lemma scan_word (w rest : string) (baseCell : CellRef) (ts : list Tok) :
  Js.allChars Js.isWord w = true -> headDigit w = false -> w <> "" ->
  headFails Js.isWord rest ->
  scan rest baseCell = Ret ts ->
  scan (w +:+ rest) baseCell =
    if bool_decide (is_Some (FNS w)) then Ret (TFn w :: ts)
    else value ← CellRef_new w (Some baseCell); Ret (TRef w value :: ts).
Proof.
  intros Hall Hh Hne Hrest Hr. destruct w as [|c w']; [congruence|]. cbn in Hh.
  pose proof Hall as Hc. cbn in Hc. apply andb_prop in Hc as [Hc _].
  assert (Hs : Js.isSpace c = false).
  { clear -Hc. destruct c as [[] [] [] [] [] [] [] []]; vm_compute in *; congruence. }
  unfold scan. rewrite length_append. cbn [String.length Nat.add].
  change (String c w' +:+ rest) with (String c (w' +:+ rest)).
  cbn [scanLoop Js.trimStart]. rewrite Hs, Hh, Hc.
  change (String c (w' +:+ rest)) with (String c w' +:+ rest).
  rewrite (span_append _ _ rest _ _ (span_all _ _ Hall) Hrest). cbn [fst].
  destruct (bool_decide (is_Some (FNS (String c w')))).
  - cbn [mbind result_bind rbind tok_lexeme].
    rewrite slice_append, scan_rest by lia. rewrite Hr. reflexivity.
  - destruct (CellRef_new _ _) as [v|e]; [|reflexivity].
    cbn [mbind result_bind rbind tok_lexeme].
    rewrite slice_append, scan_rest by lia. rewrite Hr. reflexivity.
Qed.

(** *** A printed reference reads back *)

Lemma allChars_append (p : ascii -> bool) (a b : string) :
  Js.allChars p (a +:+ b) = Js.allChars p a && Js.allChars p b.
Proof.
  induction a as [|c a IH]; cbn; [reflexivity|]. rewrite IH, andb_assoc. reflexivity.
Qed.

Lemma allChars_impl (p q : ascii -> bool) (s : string) :
  (forall c, p c = true -> q c = true) ->
  Js.allChars p s = true -> Js.allChars q s = true.
Proof.
  intros Hpq. induction s as [|c s IH]; cbn; [reflexivity|].
  intros [Hc Hs]%andb_prop. rewrite (Hpq c Hc), (IH Hs). reflexivity.
Qed.

Lemma refChar_props (c : ascii) :
  refChar c = true ->
  Js.isSpace c = false /\ Js.lowerChar c = c /\ Js.isWord c = true.
Proof. destruct c as [[] [] [] [] [] [] [] []]; vm_compute; intuition congruence. Qed.

Lemma isDigit_refChar (c : ascii) : Js.isDigit c = true -> refChar c = true.
Proof. unfold refChar. intros ->. rewrite orb_true_r. reflexivity. Qed.

Lemma trimEnd_nospace (s : string) :
  Js.allChars (fun c => negb (Js.isSpace c)) s = true -> Js.trimEnd s = s.
Proof.
  induction s as [|c s IH]; cbn; [reflexivity|].
  intros [Hc Hs]%andb_prop. rewrite (IH Hs).
  destruct s; [|reflexivity]. apply negb_true_iff in Hc. rewrite Hc. reflexivity.
Qed.

Lemma trim_nospace (s : string) :
  Js.allChars (fun c => negb (Js.isSpace c)) s = true -> Js.trim s = s.
Proof.
  intros H. unfold Js.trim.
  assert (E : Js.trimStart s = s).
  { destruct s as [|c s]; [reflexivity|]. cbn in *.
    apply andb_prop in H as [Hc _]. apply negb_true_iff in Hc. rewrite Hc. reflexivity. }
  rewrite E. apply trimEnd_nospace, H.
Qed.

Lemma toLowerCase_fixed (s : string) :
  Js.allChars (fun c => bool_decide (Js.lowerChar c = c)) s = true -> Js.toLowerCase s = s.
Proof.
  induction s as [|c s IH]; cbn; [reflexivity|].
  intros [Hc Hs]%andb_prop. apply bool_decide_eq_true in Hc. rewrite Hc, (IH Hs). reflexivity.
Qed.

Lemma refChars_text (s : string) :
  Js.allChars refChar s = true ->
  Js.trim s = s /\ Js.toLowerCase s = s /\ Js.allChars Js.isWord s = true.
Proof.
  intros H. split; [|split].
  - apply trim_nospace. revert H. apply allChars_impl.
    intros c Hc. destruct (refChar_props c Hc) as (-> & _). reflexivity.
  - apply toLowerCase_fixed. revert H. apply allChars_impl.
    intros c Hc. destruct (refChar_props c Hc) as (_ & E & _).
    apply bool_decide_eq_true. exact E.
  - revert H. apply allChars_impl. intros c Hc. apply (refChar_props c Hc).
Qed.

Lemma code_chr (z : Z) : 0 <= z < 256 -> Js.code (Js.chr z) = z.
Proof.
  intros H. unfold Js.code, Js.chr. rewrite N_ascii_embedding by lia. lia.
Qed.

(** A name of the table of functions has no digit. *)
Lemma FNS_digit (s : string) :
  Js.allChars (fun c => negb (Js.isDigit c)) s = false -> FNS s = None.
Proof.
  intros H. unfold FNS.
  repeat (destruct (decide _) as [->|_]; [vm_compute in H; discriminate|]).
  destruct (decide _) as [Hin|_]; [exfalso | reflexivity].
  unfold Object_prototype in Hin.
  repeat (apply elem_of_cons in Hin as [->|Hin]; [vm_compute in H; discriminate|]).
  apply elem_of_nil in Hin. exact Hin.
Qed.

Lemma ofInt_row (v : Z) :
  1 <= v ->
  exists d r, Js.ofInt v = String d r /\ Js.isDigit d = true /\
    (Js.code d =? 48) = false /\ Js.allChars Js.isDigit r = true.
Proof.
  intros Hv. destruct (ofInt_pos_shape v Hv) as [Hh Ha].
  destruct (Js.ofInt v) as [|d r]; [discriminate|]. cbn in *.
  apply andb_prop in Hh as [Hd Hz]. apply andb_prop in Ha as [_ Ha].
  exists d, r. rewrite negb_true_iff in Hz. auto.
Qed.

Lemma CellRef_print_read (base r : CellRef) :
  ref_in_range base r ->
  exists s, CellRef_toString r (Some base) = Ret s /\
    CellRef_new s (Some base) = Ret r /\
    Js.allChars Js.isWord s = true /\ headDigit s = false /\ s <> "" /\
    FNS s = None.
Proof.
  destruct r as [[ca ci] [ra ri]], base as [[bca bci] [bra bri]].
  unfold ref_in_range, axis_in_range, LIMITS.MAX_N_COLS, LIMITS.MAX_N_ROWS. cbn.
  intros [Hc Hr].
  set (cabs := if ca then ci else bci + ci) in *.
  set (rabs := if ra then ri else bri + ri) in *.
  set (L := Js.chr (97 + cabs)).
  assert (HL : Js.code L = 97 + cabs) by (apply code_chr; lia).
  assert (HLl : Js.isLetter L = true).
  { unfold Js.isLetter. rewrite HL. apply orb_true_iff. right.
    apply andb_true_iff. split; apply Z.leb_le; lia. }
  assert (HLr : refChar L = true).
  { unfold refChar. rewrite HL. apply orb_true_iff. right.
    apply andb_true_iff. split; apply Z.leb_le; lia. }
  assert (HLd : (Js.code L =? 36) = false) by (rewrite HL; apply Z.eqb_neq; lia).
  assert (HLg : Js.isDigit L = false).
  { unfold Js.isDigit. rewrite HL. apply andb_false_iff. right. apply Z.leb_gt. lia. }
  destruct (ofInt_row (rabs + 1)) as (d & rr & HD & Hd & Hz & Hrr); [lia|].
  assert (Hdd : (Js.code d =? 36) = false) by apply (isDigit_props d Hd).
  assert (HDr : Js.allChars refChar (String d rr) = true).
  { cbn. rewrite (isDigit_refChar d Hd). cbn.
    revert Hrr. apply allChars_impl, isDigit_refChar. }
  assert (Hrd : Js.toInt (String d rr) = rabs + 1) by (rewrite <- HD; apply toInt_ofInt; lia).
  assert (Hcol : indexToColSpec ci (if ca then 0 else bci) = Ret (String L "")).
  { unfold indexToColSpec, LIMITS.MAX_N_COLS.
    replace ((if ca then 0 else bci) + ci) with cabs by (subst cabs; destruct ca; lia).
    destruct (Z.ltb_spec cabs 0); [lia|]. destruct (Z.geb_spec cabs 26); [lia|]. reflexivity. }
  assert (Hrow : indexToRowSpec ri (if ra then 0 else bri) = Ret (String d rr)).
  { unfold indexToRowSpec, LIMITS.MAX_N_ROWS.
    replace ((if ra then 0 else bri) + ri) with rabs by (subst rabs; destruct ra; lia).
    destruct (Z.ltb_spec rabs 0); [lia|]. destruct (Z.geb_spec rabs 9999); [lia|].
    cbn. rewrite HD. reflexivity. }
  assert (Hnd : forall pre, Js.allChars (fun c => negb (Js.isDigit c)) (pre +:+ String d rr) = false).
  { intros pre. rewrite allChars_append. cbn. rewrite Hd. cbn. apply andb_false_r. }
  unfold CellRef_toString, CellRef_new. cbn [col row isAbs index baseCol baseRow].
  set (cs := if ca then "$" +:+ String L "" else String L "").
  set (rs := if ra then "$" +:+ String d rr else String d rr).
  exists (cs +:+ rs).
  assert (Hall : Js.allChars refChar (cs +:+ rs) = true).
  { rewrite allChars_append. apply andb_true_iff. split.
    - subst cs. destruct ca; cbn; rewrite HLr; reflexivity.
    - subst rs. destruct ra; [|exact HDr]. cbn [String.append Js.allChars].
      change (refChar "$") with true. exact HDr. }
  destruct (refChars_text _ Hall) as (Ht & Hlow & Hw).
  split; [|split; [|split; [exact Hw | split; [|split]]]].
  - subst cs rs. destruct ca, ra; rewrite Hcol, Hrow; reflexivity.
  - rewrite Ht, Hlow.
    assert (Hm : matchCellRef (cs +:+ rs) = Some (ca, String L "", ra, String d rr)).
    { subst cs rs. unfold matchCellRef.
      destruct ca, ra; cbn [String.append optDollar];
        change (Js.code "$" =? 36) with true; cbv iota; rewrite ?HLd, HLl;
        cbn [optDollar]; change (Js.code "$" =? 36) with true; cbv iota;
        rewrite ?Hdd, Hd, Hz, Hrr; reflexivity. }
    rewrite Hm.
    assert (Hne : cs +:+ rs <> "") by (subst cs; destruct ca; discriminate).
    destruct (cs +:+ rs) as [|x y] eqn:E; [congruence|].
    unfold colSpecToIndex, rowSpecToIndex, LIMITS.MAX_N_ROWS.
    cbn [mbind result_bind rbind]. rewrite Hrd, HL.
    destruct (Z.geb_spec (rabs + 1 - 1) 9999); [lia|].
    cbn [mbind result_bind rbind]. subst cabs rabs.
    destruct ca, ra; do 2 f_equal; f_equal; lia.
  - subst cs. destruct ca; cbn; [reflexivity | exact HLg].
  - subst cs. destruct ca; discriminate.
  - apply FNS_digit. subst rs. destruct ra; [|apply Hnd].
    replace (cs +:+ "$" +:+ String d rr) with ((cs +:+ "$") +:+ String d rr)
      by apply append_assoc.
    apply Hnd.
Qed.

(** *** The scanner on a printed formula *)

Section Lexing.
Variable base : CellRef.

Lemma delim_headFails (rest : string) : delim rest -> headFails Js.isWord rest.
Proof. destruct rest; cbn; tauto. Qed.

Lemma well_formed_kids (lit : num -> Prop) (kids : list Ast) :
  fold_right (fun k acc => well_formed lit base k /\ acc) True kids <->
  Forall (well_formed lit base) kids.
Proof.
  induction kids as [|k kids IH]; cbn; [split; auto|].
  rewrite Forall_cons, IH. reflexivity.
Qed.

Lemma lexes_wrap (s : string) (l : list Tok) (p : bool) (rest : string) (ts : list Tok) :
  lexes base s l -> (p = false -> delim rest) -> scan rest base = Ret ts ->
  scan (left p +:+ s +:+ right p +:+ rest) base = Ret (wrap p l ++ ts).
Proof.
  intros H Hd Hr. destruct p; cbn [left right wrap String.append app].
  - rewrite <- app_assoc. cbn [app].
    apply scan_char; [reflexivity..|]. apply H.
    + cbn. split; [reflexivity | discriminate].
    + apply scan_char; [reflexivity..|]. exact Hr.
  - apply H; auto.
Qed.

Lemma binary_lexes (c : ascii) (info : FnInfo) (ty : string) (p : Z) (k0 k1 : Ast) :
  FNS (String c "") = Some info -> type info = Some ty -> prec info = Some p ->
  opChar c -> prints_as base k0 -> prints_as base k1 ->
  prints_as base (App (String c "") [k0; k1]).
Proof.
  intros HF Hty Hp (Hs & Hd & Hw & Hdot) (s0 & E0 & L0) (s1 & E1 & L1).
  unfold prints_as. cbn [toStr toks]. rewrite HF, Hty, Hp, E0, E1.
  cbn [mbind result_bind rbind opTok]. eexists. split; [reflexivity|].
  intros rest ts Hrest Hr.
  rewrite !append_assoc. rewrite <- app_assoc.
  apply lexes_wrap; [exact L0 | intros _; cbn; auto |].
  cbn [String.append app]. apply scan_char; auto.
  apply lexes_wrap; auto.
Qed.

Lemma unary_lexes (c : ascii) (info : FnInfo) (ty : string) (k0 : Ast) :
  FNS (String c "") = Some info -> type info = Some ty ->
  opChar c -> prints_as base k0 ->
  prints_as base (App (String c "") [k0]).
Proof.
  intros HF Hty (Hs & Hd & Hw & Hdot) (s0 & E0 & L0).
  unfold prints_as. cbn [toStr toks]. rewrite HF, Hty, E0.
  cbn [mbind result_bind rbind opTok]. eexists. split; [reflexivity|].
  intros rest ts Hrest Hr.
  rewrite !append_assoc.
  cbn [String.append app]. apply scan_char; auto.
  apply lexes_wrap; auto.
Qed.

Lemma join_lexes (kids : list Ast) :
  kids <> [] -> Forall (prints_as base) kids ->
  exists strs, Forall2 (fun k s => toStr k base = Ret s) kids strs /\
    lexes base (join ", " strs) (sepToks (map (toks base) kids)).
Proof.
  intros Hne H. induction H as [|k kids (s & E & L) Hk IH]; [congruence|].
  destruct kids as [|k' kids].
  - exists [s]. split; [repeat constructor; exact E | exact L].
  - destruct IH as (strs & HF & HL); [discriminate|].
    exists (s :: strs). split; [constructor; assumption|].
    destruct strs as [|s' strs]; [inversion HF|].
    cbn [join map sepToks] in *. intros rest ts Hrest Hr.
    rewrite !append_assoc. rewrite <- app_assoc. apply L.
    + cbn. split; [reflexivity | discriminate].
    + cbn [String.append app]. apply scan_char; [reflexivity..|].
      rewrite scan_space by reflexivity. apply HL; assumption.
Qed.

Lemma call_lexes (fn : string) (info : FnInfo) (kids : list Ast) :
  FNS fn = Some info -> type info = None ->
  Js.allChars Js.isWord fn = true -> headDigit fn = false -> fn <> "" ->
  kids <> [] -> Forall (prints_as base) kids ->
  prints_as base (App fn kids).
Proof.
  intros HF Hty Hw Hh Hne Hk H.
  destruct (join_lexes kids Hk H) as (strs & HS & HL).
  unfold prints_as. cbn [toStr toks]. rewrite HF, Hty.
  match goal with |- context [mbind _ ?m] =>
    assert (Hm : m = Ret strs) end.
  { clear -HS. induction HS as [|k s kids strs E _ IH]; [reflexivity|].
    rewrite E, IH. reflexivity. }
  rewrite Hm. cbn [mbind result_bind rbind]. eexists. split; [reflexivity|].
  intros rest ts Hrest Hr.
  rewrite !append_assoc.
  rewrite (scan_word fn _ base (TChar "(" :: (sepToks (map (toks base) kids) ++ [TChar ")"]) ++ ts) Hw Hh Hne).
  - rewrite HF. rewrite bool_decide_eq_true_2 by eauto. reflexivity.
  - reflexivity.
  - cbn [String.append]. apply scan_char; [reflexivity..|].
    rewrite <- app_assoc. apply HL.
    + cbn. split; [reflexivity | discriminate].
    + cbn [String.append app]. apply scan_char; [reflexivity..|]. exact Hr.
Qed.

Lemma toStr_lexes (a : Ast) : well_formed num_literal base a -> prints_as base a.
Proof.
  induction a as [v|r|fn kids IH] using Ast_induction.
  - intros (Hh & Hm & Hn). exists (num_toString v). split; [reflexivity|].
    intros rest ts Hd Hr. cbn [toks app]. apply scan_num; assumption.
  - intros Hr. destruct (CellRef_print_read base r Hr) as (s & Hp & Hn & Hw & Hh & Hne & Hf).
    exists s. split; [exact Hp|]. intros rest ts Hd Hs. cbn [toks]. rewrite Hp.
    rewrite (scan_word s rest base ts Hw Hh Hne (delim_headFails _ Hd) Hs).
    rewrite bool_decide_eq_false_2 by (rewrite Hf; intros [? [=]]).
    rewrite Hn. reflexivity.
  - intros [Har Hk]. apply well_formed_kids in Hk.
    assert (Hp : Forall (prints_as base) kids).
    { clear Har. induction IH as [|k kids Hk1 _ IHk]; [constructor|].
      apply Forall_cons in Hk as [Hk Hks]. constructor; auto. }
    clear IH Hk.
    destruct Har as [[Hfn Hl]|[[Hfn Hl]|[Hfn Hl]]]; [| subst fn |].
    + destruct kids as [|k0 [|k1 [|? ?]]]; try discriminate.
      apply Forall_cons in Hp as [H0 Hp]. apply Forall_cons in Hp as [H1 _].
      destruct Hfn as [ -> | [ -> | -> ] ];
        eapply binary_lexes; try reflexivity; try assumption;
        (split; [|split; [|split]]); (reflexivity || discriminate).
    + destruct Hl as [Hl|Hl].
      * destruct kids as [|k0 [|? ?]]; try discriminate.
        apply Forall_cons in Hp as [H0 _].
        eapply unary_lexes; try reflexivity; try assumption;
        (split; [|split; [|split]]); (reflexivity || discriminate).
      * destruct kids as [|k0 [|k1 [|? ?]]]; try discriminate.
        apply Forall_cons in Hp as [H0 Hp]. apply Forall_cons in Hp as [H1 _].
        eapply binary_lexes; try reflexivity; try assumption;
        (split; [|split; [|split]]); (reflexivity || discriminate).
    + assert (kids <> []) by (destruct kids; [cbn in Hl; lia | discriminate]).
      destruct Hfn as [ -> | -> ]; eapply call_lexes; try reflexivity; try assumption; discriminate.
Qed.

End Lexing.

(** *** The parser on the tokens of a printed formula *)

Section Parsing.
Variable base : CellRef.

Lemma expr_S (n : nat) (ts : list Tok) :
  expr (S n) ts = ('(t0, ts) ← term n ts; exprLoop n t0 ts).
Proof. reflexivity. Qed.

Lemma term_S (n : nat) (ts : list Tok) :
  term (S n) ts = ('(f0, ts) ← factor n ts; termLoop n f0 ts).
Proof. reflexivity. Qed.

Lemma exprLoop_add (n : nat) (t0 : Ast) (op : ascii) (ts : list Tok) :
  isAddOp op = true ->
  exprLoop (S n) t0 (TChar op :: ts) =
    ('(t1, ts'') ← term n ts; exprLoop n (App (String op "") [t0; t1]) ts'').
Proof. intros H. cbn. rewrite H. reflexivity. Qed.

Lemma termLoop_mul (n : nat) (f0 : Ast) (op : ascii) (ts : list Tok) :
  isMulOp op = true ->
  termLoop (S n) f0 (TChar op :: ts) =
    ('(f1, ts'') ← factor n ts; termLoop n (App (String op "") [f0; f1]) ts'').
Proof. intros H. cbn. rewrite H. reflexivity. Qed.

Lemma exprLoop_stop (m : nat) (a : Ast) (ts : list Tok) :
  (1 <= m)%nat -> noAdd ts -> exprLoop m a ts = Ret (a, ts).
Proof.
  intros Hm H. destruct m as [|m]; [lia|].
  destruct ts as [|[| | |c|] ts]; cbn in *; try reflexivity; [contradiction|].
  rewrite H. reflexivity.
Qed.

Lemma termLoop_stop (m : nat) (a : Ast) (ts : list Tok) :
  (1 <= m)%nat -> noMul ts -> termLoop m a ts = Ret (a, ts).
Proof.
  intros Hm H. destruct m as [|m]; [lia|].
  destruct ts as [|[| | |c|] ts]; cbn in *; try reflexivity; [contradiction|].
  rewrite H. reflexivity.
Qed.

Lemma factor_paren (n : nat) (ts : list Tok) :
  factor (S n) (TChar "(" :: ts) =
    ('(e, ts1) ← expr n ts; ts2 ← match_ ")" ts1; Ret (e, ts2)).
Proof. reflexivity. Qed.

Lemma factor_minus (n : nat) (ts : list Tok) :
  factor (S n) (TChar "-" :: ts) =
    ('(operand, ts1) ← factor n ts; Ret (App "-" [operand], ts1)).
Proof. reflexivity. Qed.

Lemma factor_fn (n : nat) (fn : string) (ts : list Tok) :
  factor (S n) (TFn fn :: TChar "(" :: ts) =
    ('(a, ts2) ← expr n ts;
     '(args, ts3) ← argsLoop n [a] ts2;
     ts4 ← match_ ")" ts3;
     Ret (App fn args, ts4)).
Proof. reflexivity. Qed.

Lemma argsLoop_comma (n : nat) (args : list Ast) (ts : list Tok) :
  argsLoop (S n) args (TChar "," :: ts) =
    ('(a, ts'') ← expr n ts; argsLoop n (args ++ [a]) ts'').
Proof. reflexivity. Qed.

Lemma argsLoop_close (n : nat) (args : list Ast) (ts : list Tok) :
  argsLoop (S n) args (TChar ")" :: ts) = Ret (args, TChar ")" :: ts).
Proof. reflexivity. Qed.

Lemma length_wrap (p : bool) (l : list Tok) :
  length (wrap p l) = if p then (length l + 2)%nat else length l.
Proof. destruct p; cbn; [|reflexivity]. rewrite length_app. cbn. lia. Qed.

Lemma wrap_bounds (p : bool) (l : list Tok) :
  (length l <= length (wrap p l) <= length l + 2)%nat.
Proof. rewrite length_wrap. destruct p; lia. Qed.

Lemma match_close (ts : list Tok) : match_ ")" (TChar ")" :: ts) = Ret ts.
Proof. reflexivity. Qed.

Lemma expr_ret (a : Ast) (ts : list Tok) (n : nat) :
  parses base a -> (3 * length (toks base a) <= n)%nat -> noMul ts -> noAdd ts ->
  expr n (toks base a ++ ts) = Ret (a, ts).
Proof.
  intros [[HsE _] _ _ _ HE] Hn HM HA.
  rewrite (HE ts n (n - 1 - spineE a)%nat) by (auto; lia).
  apply exprLoop_stop; [lia | exact HA].
Qed.

(** A parenthesised expression is a factor. *)
Lemma factor_of_expr (a : Ast) (ts : list Tok) (n : nat) :
  (2 * spineE a + 1 <= length (toks base a))%nat ->
  (forall ts n m, n = (m + 1 + spineE a)%nat -> (3 * length (toks base a) <= n)%nat ->
     noMul ts -> expr n (toks base a ++ ts) = exprLoop m a ts) ->
  (3 * (length (toks base a) + 2) <= n + 2)%nat ->
  factor n (wrap true (toks base a) ++ ts) = Ret (a, ts).
Proof.
  intros Hs HE Hn. destruct n as [|n]; [lia|].
  cbn [wrap app]. rewrite <- app_assoc. cbn [app]. rewrite factor_paren.
  rewrite (HE _ n (n - 1 - spineE a)%nat); [| lia | lia | reflexivity].
  rewrite exprLoop_stop; [| lia | reflexivity].
  cbn [mbind result_bind rbind]. rewrite match_close. reflexivity.
Qed.

(** A factor is a term, the loop of [term] going on after it. *)
Lemma term_of_factor (a : Ast) (l : list Tok) (ts : list Tok) (n m : nat) :
  (forall ts n, (3 * length l <= n + 2)%nat -> factor n (l ++ ts) = Ret (a, ts)) ->
  n = (m + 1)%nat -> (3 * length l <= n + 1)%nat ->
  term n (l ++ ts) = termLoop m a ts.
Proof.
  intros HF -> Hn. replace (m + 1)%nat with (S m) by lia.
  rewrite term_S, HF by lia. reflexivity.
Qed.

(** A term is an expression when no operator of a product follows, the
    loop of [expr] going on after it. *)
Lemma expr_of_term (a : Ast) (ts : list Tok) (n m : nat) :
  (2 * spineT a + 1 <= length (toks base a))%nat ->
  (forall ts n m, n = (m + 1 + spineT a)%nat -> (3 * length (toks base a) <= n + 1)%nat ->
     term n (toks base a ++ ts) = termLoop m a ts) ->
  n = (m + 1)%nat -> (3 * length (toks base a) <= n)%nat -> noMul ts ->
  expr n (toks base a ++ ts) = exprLoop m a ts.
Proof.
  intros Hs HT -> Hn HM. replace (m + 1)%nat with (S m) by lia.
  rewrite expr_S, (HT ts m (m - 1 - spineT a)%nat) by lia.
  rewrite termLoop_stop; [reflexivity | lia | exact HM].
Qed.

(** An application with no precedence, or a leaf: a factor as it stands. *)
Lemma parses_plain (a : Ast) :
  kidPrec a = None -> (1 <= length (toks base a))%nat ->
  (forall ts n, (3 * length (toks base a) <= n + 2)%nat ->
     factor n (toks base a ++ ts) = Ret (a, ts)) ->
  parses base a.
Proof.
  intros Hk Hlen HF.
  assert (Hl : level a = 100) by (unfold level; rewrite Hk; reflexivity).
  assert (HsE : spineE a = 0%nat).
  { destruct a as [| |fn [|k0 [|k1 kids]]]; try reflexivity.
    cbn [spineE]. rewrite Hl. reflexivity. }
  assert (HsT : spineT a = 0%nat).
  { destruct a as [| |fn [|k0 [|k1 kids]]]; try reflexivity.
    cbn [spineT]. rewrite Hl. reflexivity. }
  assert (HTa : forall ts n m, n = (m + 1 + 0)%nat ->
                  (3 * length (toks base a) <= n + 1)%nat ->
                  term n (toks base a ++ ts) = termLoop m a ts).
  { intros ts n m -> Hn. apply term_of_factor; [exact HF | lia | exact Hn]. }
  split; unfold asFactor, asTerm; rewrite ?Hl, ?HsE, ?HsT;
    change (100 <? 100) with false; change (100 <? 20) with false; cbn [wrap].
  - lia.
  - auto.
  - exact HF.
  - exact HTa.
  - intros ts n m -> Hn HM. apply expr_of_term; rewrite ?HsT; auto; lia.
Qed.

Lemma level_facts (a : Ast) :
  parses base a ->
  ((level a <? 10) = false) /\ ((level a <=? 10) = (level a <? 20)) /\
  ((level a <=? 20) = (level a <? 100)) /\
  (bool_decide (is_Some (kidPrec a)) = (level a <? 100)).
Proof.
  intros [_ H _ _ _]. unfold level.
  destruct H as [ -> | [ -> | -> ] ]; repeat split; cbn;
    try reflexivity; try (apply bool_decide_eq_true_2; eauto);
    apply bool_decide_eq_false_2; intros [? [=]].
Qed.

Lemma toks_size (a : Ast) :
  parses base a ->
  (1 <= length (toks base a) /\
   length (toks base a) <= length (asTerm base a) <= length (toks base a) + 2 /\
   length (toks base a) <= length (asFactor base a) <= length (toks base a) + 2 /\
   2 * spineE a + 1 <= length (toks base a) /\
   2 * spineT a + 1 <= length (toks base a))%nat.
Proof.
  intros [[H1 H2] _ _ _ _].
  pose proof (wrap_bounds (level a <? 20) (toks base a)).
  pose proof (wrap_bounds (level a <? 100) (toks base a)).
  unfold asTerm, asFactor. lia.
Qed.

Lemma parses_neg (k : Ast) : parses base k -> parses base (App "-" [k]).
Proof.
  intros Hk. set (a := App "-" [k]).
  destruct (level_facts k Hk) as (_ & _ & _ & Hb).
  pose proof (toks_size k Hk) as Hsz.
  assert (Ht : toks base a = TChar "-" :: asFactor base k).
  { subst a. cbn [toks]. change (FNS "-") with (Some {| fn := Some "-"; prec := Some 10; type := Some "left" |}).
    cbn [type opTok]. rewrite Hb. reflexivity. }
  assert (Hlen : length (toks base a) = S (length (asFactor base k))) by (rewrite Ht; reflexivity).
  assert (HN : forall ts n, (3 * length (toks base a) <= n + 2)%nat ->
                 factor n (toks base a ++ ts) = Ret (a, ts)).
  { intros ts [|n] Hn; [lia|]. rewrite Ht. cbn [app]. rewrite factor_minus.
    rewrite (parses_factor base k Hk) by lia. reflexivity. }
  assert (HE : forall ts n m, n = (m + 1 + 0)%nat -> (3 * length (toks base a) <= n)%nat ->
                 noMul ts -> expr n (toks base a ++ ts) = exprLoop m a ts).
  { intros ts n m -> Hn HM. apply expr_of_term; change (spineT a) with 0%nat; auto; try lia.
    intros ts' n' m' -> Hn'. apply term_of_factor; [exact HN | lia | exact Hn']. }
  assert (HF : forall ts n, (3 * length (wrap true (toks base a)) <= n + 2)%nat ->
                 factor n (wrap true (toks base a) ++ ts) = Ret (a, ts)).
  { intros ts n Hn. rewrite length_wrap in Hn.
    apply factor_of_expr; change (spineE a) with 0%nat; auto; lia. }
  split; unfold asFactor, asTerm;
    change (level a) with 10; change (spineE a) with 0%nat; change (spineT a) with 0%nat;
    change (10 <? 100) with true; change (10 <? 20) with true.
  - lia.
  - left. reflexivity.
  - exact HF.
  - intros ts n m -> Hn. apply term_of_factor; [exact HF | lia | exact Hn].
  - exact HE.
Qed.

Lemma parses_add (c : ascii) (info : FnInfo) (ty : string) (k0 k1 : Ast) :
  FNS (String c "") = Some info -> type info = Some ty -> prec info = Some 10 ->
  isAddOp c = true -> isMulOp c = false ->
  parses base k0 -> parses base k1 ->
  parses base (App (String c "") [k0; k1]).
Proof.
  intros HFN Hty Hp Hadd Hmul H0 H1. set (a := App (String c "") [k0; k1]).
  destruct (level_facts k0 H0) as (Hb0 & _).
  destruct (level_facts k1 H1) as (_ & Hb1 & _).
  pose proof (toks_size k0 H0) as Hsz0. pose proof (toks_size k1 H1) as Hsz1.
  assert (Hk : kidPrec a = Some 10) by (subst a; cbn [kidPrec]; rewrite HFN; exact Hp).
  assert (Hl : level a = 10) by (unfold level; rewrite Hk; reflexivity).
  assert (Ht : toks base a = toks base k0 ++ TChar c :: asTerm base k1).
  { subst a. cbn [toks]. rewrite HFN, Hty, Hp.
    fold (level k0). fold (level k1). rewrite Hb0, Hb1. reflexivity. }
  assert (Hlen : length (toks base a)
                 = (length (toks base k0) + S (length (asTerm base k1)))%nat).
  { rewrite Ht, length_app. reflexivity. }
  assert (HsE : spineE a = S (spineE k0)).
  { change (spineE a) with (if decide (level a = 10) then S (spineE k0) else 0%nat).
    rewrite Hl. reflexivity. }
  assert (HsT : spineT a = 0%nat).
  { change (spineT a) with (if decide (level a = 20) then S (spineT k0) else 0%nat).
    rewrite Hl. reflexivity. }
  assert (HE : forall ts n m, n = (m + 1 + spineE a)%nat ->
                 (3 * length (toks base a) <= n)%nat ->
                 noMul ts -> expr n (toks base a ++ ts) = exprLoop m a ts).
  { intros ts n m -> Hn HM. rewrite Ht, <- app_assoc. cbn [app].
    rewrite (parses_expr base k0 H0 _ _ (S m)); [| lia | lia | exact Hmul].
    rewrite exprLoop_add by exact Hadd.
    rewrite (parses_term base k1 H1 ts m (m - 1 - spineT k1)%nat) by lia.
    rewrite termLoop_stop; [reflexivity | lia | exact HM]. }
  assert (HF : forall ts n, (3 * length (wrap true (toks base a)) <= n + 2)%nat ->
                 factor n (wrap true (toks base a) ++ ts) = Ret (a, ts)).
  { intros ts n Hn. rewrite length_wrap in Hn.
    apply factor_of_expr; auto; lia. }
  split; unfold asFactor, asTerm; rewrite ?Hl, ?HsT;
    change (10 <? 100) with true; change (10 <? 20) with true.
  - lia.
  - left. exact Hk.
  - exact HF.
  - intros ts n m -> Hn. apply term_of_factor; [exact HF | lia | exact Hn].
  - exact HE.
Qed.

Lemma parses_mul (c : ascii) (info : FnInfo) (ty : string) (k0 k1 : Ast) :
  FNS (String c "") = Some info -> type info = Some ty -> prec info = Some 20 ->
  isMulOp c = true ->
  parses base k0 -> parses base k1 ->
  parses base (App (String c "") [k0; k1]).
Proof.
  intros HFN Hty Hp Hmul H0 H1. set (a := App (String c "") [k0; k1]).
  destruct (level_facts k1 H1) as (_ & _ & Hb1 & _).
  pose proof (toks_size k0 H0) as Hsz0. pose proof (toks_size k1 H1) as Hsz1.
  assert (Hk : kidPrec a = Some 20) by (subst a; cbn [kidPrec]; rewrite HFN; exact Hp).
  assert (Hl : level a = 20) by (unfold level; rewrite Hk; reflexivity).
  assert (Ht : toks base a = asTerm base k0 ++ TChar c :: asFactor base k1).
  { subst a. cbn [toks]. rewrite HFN, Hty, Hp.
    fold (level k0). fold (level k1). rewrite Hb1. reflexivity. }
  assert (Hlen : length (toks base a)
                 = (length (asTerm base k0) + S (length (asFactor base k1)))%nat).
  { rewrite Ht, length_app. reflexivity. }
  assert (HsE : spineE a = 0%nat).
  { change (spineE a) with (if decide (level a = 10) then S (spineE k0) else 0%nat).
    rewrite Hl. reflexivity. }
  assert (HsT : spineT a = S (spineT k0)).
  { change (spineT a) with (if decide (level a = 20) then S (spineT k0) else 0%nat).
    rewrite Hl. reflexivity. }
  assert (HT : forall ts n m, n = (m + 1 + spineT a)%nat ->
                 (3 * length (toks base a) <= n + 1)%nat ->
                 term n (toks base a ++ ts) = termLoop m a ts).
  { intros ts n m -> Hn. rewrite Ht, <- app_assoc. cbn [app].
    rewrite (parses_term base k0 H0 _ _ (S m)) by lia.
    rewrite termLoop_mul by exact Hmul.
    rewrite (parses_factor base k1 H1) by lia. reflexivity. }
  assert (HE : forall ts n m, n = (m + 1 + 0)%nat -> (3 * length (toks base a) <= n)%nat ->
                 noMul ts -> expr n (toks base a ++ ts) = exprLoop m a ts).
  { intros ts n m -> Hn HM. apply expr_of_term; auto; lia. }
  assert (HF : forall ts n, (3 * length (wrap true (toks base a)) <= n + 2)%nat ->
                 factor n (wrap true (toks base a) ++ ts) = Ret (a, ts)).
  { intros ts n Hn. rewrite length_wrap in Hn.
    apply factor_of_expr; rewrite ?HsE; auto; lia. }
  split; unfold asFactor, asTerm; rewrite ?Hl, ?HsE;
    change (20 <? 100) with true; change (20 <? 20) with false.
  - lia.
  - right. left. exact Hk.
  - exact HF.
  - exact HT.
  - exact HE.
Qed.

Lemma sepToks_cons (k : Ast) (kids : list Ast) :
  sepToks (map (toks base) (k :: kids)) = toks base k ++ commaToks base kids.
Proof.
  revert k; induction kids as [|k' kids IH]; intros k.
  - cbn. rewrite app_nil_r. reflexivity.
  - change (sepToks (map (toks base) (k :: k' :: kids)))
      with (toks base k ++ TChar "," :: sepToks (map (toks base) (k' :: kids))).
    rewrite IH. reflexivity.
Qed.

Lemma commaToks_head (kids : list Ast) (ts : list Tok) :
  noMul (commaToks base kids ++ TChar ")" :: ts) /\
  noAdd (commaToks base kids ++ TChar ")" :: ts).
Proof. destruct kids; cbn; split; reflexivity. Qed.

Lemma argsLoop_kids (kids : list Ast) :
  Forall (parses base) kids ->
  forall acc ts n, (3 * length (commaToks base kids) + 1 <= n)%nat ->
    argsLoop n acc (commaToks base kids ++ TChar ")" :: ts)
    = Ret (acc ++ kids, TChar ")" :: ts).
Proof.
  induction 1 as [|k kids Hk _ IH]; intros acc ts n Hn.
  - destruct n as [|n]; [lia|]. cbn [commaToks foldr app].
    rewrite argsLoop_close, app_nil_r. reflexivity.
  - change (commaToks base (k :: kids))
      with (TChar "," :: toks base k ++ commaToks base kids) in *.
    cbn [length] in Hn. rewrite length_app in Hn.
    destruct n as [|n]; [lia|].
    cbn [app]. rewrite <- app_assoc, argsLoop_comma.
    destruct (commaToks_head kids ts) as [HM HA].
    rewrite (expr_ret k _ n Hk) by (auto; lia).
    cbn [mbind result_bind rbind]. rewrite IH by lia.
    rewrite <- app_assoc. reflexivity.
Qed.

Lemma parses_call (fn : string) (info : FnInfo) (kids : list Ast) :
  FNS fn = Some info -> type info = None -> prec info = None ->
  kids <> [] -> Forall (parses base) kids ->
  parses base (App fn kids).
Proof.
  intros HFN Hty Hp Hne Hk.
  destruct kids as [|k kids]; [congruence|]. clear Hne.
  apply Forall_cons in Hk as [Hk Hks].
  assert (Ht : toks base (App fn (k :: kids))
               = TFn fn :: TChar "(" :: (toks base k ++ commaToks base kids) ++ [TChar ")"]).
  { cbn [toks]. rewrite HFN, Hty, sepToks_cons. reflexivity. }
  apply parses_plain.
  - cbn [kidPrec]. rewrite HFN. exact Hp.
  - rewrite Ht. cbn. lia.
  - intros ts n Hn. rewrite Ht in *. cbn [length] in Hn. rewrite !length_app in Hn.
    cbn [length] in Hn. destruct n as [|n]; [lia|].
    cbn [app]. rewrite <- !app_assoc. cbn [app]. rewrite factor_fn.
    destruct (commaToks_head kids ts) as [HM HA].
    rewrite (expr_ret k _ n Hk) by (auto; lia).
    cbn [mbind result_bind rbind]. rewrite (argsLoop_kids kids Hks) by lia.
    cbn [mbind result_bind rbind]. rewrite match_close. reflexivity.
Qed.

(** The parser reads the tokens of a printed formula back as the formula. *)
Lemma toks_parse (a : Ast) : well_formed num_literal base a -> parses base a.
Proof.
  induction a as [v|r|fn kids IH] using Ast_induction.
  - intros (Hh & Hm & Hn). apply parses_plain; [reflexivity | cbn; lia |].
    intros ts [|n] Hl; [cbn in Hl; lia|]. cbn [toks app]. rewrite Hn. reflexivity.
  - intros Hr. destruct (CellRef_print_read base r Hr) as (s & Hp & _).
    apply parses_plain; cbn [toks]; rewrite ?Hp; [reflexivity | cbn; lia |].
    intros ts [|n] Hl; [cbn in Hl; lia|]. reflexivity.
  - intros [Har Hk]. apply well_formed_kids in Hk.
    assert (Hp : Forall (parses base) kids).
    { clear Har. induction IH as [|k kids Hk1 _ IHk]; [constructor|].
      apply Forall_cons in Hk as [Hk Hks]. constructor; auto. }
    clear IH Hk.
    destruct Har as [[Hfn Hl]|[[Hfn Hl]|[Hfn Hl]]]; [| subst fn |].
    + destruct kids as [|k0 [|k1 [|? ?]]]; try discriminate.
      apply Forall_cons in Hp as [H0 Hp]. apply Forall_cons in Hp as [H1 _].
      destruct Hfn as [ -> | [ -> | -> ] ].
      * eapply parses_add; try reflexivity; assumption.
      * eapply parses_mul; try reflexivity; assumption.
      * eapply parses_mul; try reflexivity; assumption.
    + destruct Hl as [Hl|Hl].
      * destruct kids as [|k0 [|? ?]]; try discriminate.
        apply Forall_cons in Hp as [H0 _]. apply parses_neg, H0.
      * destruct kids as [|k0 [|k1 [|? ?]]]; try discriminate.
        apply Forall_cons in Hp as [H0 Hp]. apply Forall_cons in Hp as [H1 _].
        eapply parses_add; try reflexivity; assumption.
    + assert (kids <> []) by (destruct kids; [cbn in Hl; lia | discriminate]).
      destruct Hfn as [ -> | -> ]; eapply parses_call; try reflexivity; assumption.
Qed.

End Parsing.

(** C4 (amended). For a base cell [c] that is a cell id, and a formula
    whose applications have the arity of their function, whose references
    stay in range under [c] and whose numbers print as literals of the
    scanner, the printed formula parses back to the formula. *)
Theorem print_parse_roundtrip (c : string) (base : CellRef) (A : Ast) :
  CellRef_new c None = Ret base ->
  well_formed num_literal base A ->
  exists s, toString A c = Ret s /\ parse s c = Ret A.
Proof.
  intros Hc Hwf.
  destruct (toStr_lexes base A Hwf) as (s & Hs & HL).
  pose proof (toks_parse base A Hwf) as HP.
  exists s. unfold toString, parse. rewrite Hc. cbn [mbind result_bind rbind].
  split; [exact Hs|].
  specialize (HL "" [TEnd] I eq_refl). rewrite append_nil_r in HL. rewrite HL.
  cbn [mbind result_bind rbind].
  rewrite (expr_ret base A [TEnd] _ HP); [reflexivity | | exact I | exact I].
  rewrite length_app. cbn. lia.
Qed.

End RoundTrip.

Section RoundTripInt.
Import ExprParser.

(** C4, as stated: the number [-1] is a formula in which every application
    has its arity and every reference is in range; it prints as [-1], which
    the parser reads as the negation of the number [1]. *)
Lemma roundtrip_negative_number :
  let A := @Num IntNum (Int (-1)) in
  CellRef_new "a1" None = Ret a1 /\
  well_formed (fun _ => True) a1 A /\
  toString A "a1" = Ret "-1" /\
  parse "-1" "a1" = Ret (App "-" [Num (Int 1)]) /\
  parse "-1" "a1" <> Ret A.
Proof.
  assert (E : @parse IntNum "-1" "a1" = Ret (App "-" [Num (Int 1)])).
  { vm_compute. reflexivity. }
  cbv zeta. rewrite E.
  split; [vm_compute; reflexivity|].
  split; [exact I|]. split; [vm_compute; reflexivity|].
  split; [reflexivity | discriminate].
Qed.

(** The integers from [0] on that a double holds exactly print as
    literals. *)
Lemma num_literal_Int (z : Z) :
  0 <= z -> Z.log2 z < 53 -> @num_literal IntNum (Int z).
Proof.
  intros Hz Hb. unfold num_literal. cbn [num_toString IntNum].
  assert (Hall : Js.allChars Js.isDigit (Js.ofInt z) = true).
  { destruct (Z.eq_dec z 0) as [->|]; [reflexivity|]. apply ofInt_pos_shape. lia. }
  assert (Hne : Js.ofInt z <> "").
  { destruct (Z.eq_dec z 0) as [->|]; [discriminate|].
    destruct (ofInt_pos_shape z) as [H _]; [lia|].
    destruct (Js.ofInt z); discriminate. }
  destruct (Js.ofInt z) as [|d r] eqn:E; [congruence|].
  split; [|split].
  - cbn in *. apply andb_prop in Hall. apply Hall.
  - unfold matchNum. rewrite (span_all _ _ Hall). cbn. rewrite append_nil_r. reflexivity.
  - cbn [Number IntNum]. rewrite Hall, <- E, toInt_ofInt by lia.
    unfold norm53. rewrite Z.abs_eq by lia.
    destruct (Z.ltb_spec (Z.log2 z) 53); [reflexivity | lia].
Qed.

Lemma sample_prints : toString sample "b2" = Ret "(1+a$1)*(-min($c3, 30))".
Proof. vm_compute. reflexivity. Qed.

Lemma print_parse_roundtrip_witness :
  CellRef_new "b2" None = Ret b2 /\
  well_formed num_literal b2 sample /\
  exists s, toString sample "b2" = Ret s /\ parse s "b2" = Ret sample.
Proof.
  assert (Hc : CellRef_new "b2" None = Ret b2) by (vm_compute; reflexivity).
  assert (Hwf : well_formed num_literal b2 sample).
  { cbn [well_formed sample fold_right length].
    unfold arity_ok, ref_in_range, axis_in_range, LIMITS.MAX_N_COLS, LIMITS.MAX_N_ROWS.
    cbn [isAbs index col row b2].
    repeat match goal with
           | |- _ /\ _ => split
           | |- True => exact I
           | |- num_literal _ =>
               unfold num_literal; cbn [num_toString IntNum];
               (split; [vm_compute; reflexivity | split; vm_compute; reflexivity])
           end; try lia.
    + left. split; [right; left; reflexivity | reflexivity].
    + left. split; [left; reflexivity | reflexivity].
    + right. left. split; [reflexivity | left; reflexivity].
    + right. right. split; [left; reflexivity | lia]. }
  split; [exact Hc|]. split; [exact Hwf|].
  exact (print_parse_roundtrip "b2" b2 sample Hc Hwf).
Defined.

End RoundTripInt.

(** ** The counter of the parser *)

Section ParserFuel.
Import ExprParser.
Context {N : JSNum}.

Lemma exprLoop_S (n : nat) (t0 : Ast) (ts : list Tok) :
  exprLoop (S n) t0 ts =
    match ts with
    | [] => Raise TypeError
    | TChar op :: ts' =>
        if isAddOp op then
          '(t1, ts'') ← term n ts';
          exprLoop n (App (String op "") [t0; t1]) ts''
        else Ret (t0, ts)
    | _ => Ret (t0, ts)
    end.
Proof. reflexivity. Qed.

Lemma termLoop_S (n : nat) (f0 : Ast) (ts : list Tok) :
  termLoop (S n) f0 ts =
    match ts with
    | [] => Raise TypeError
    | TChar op :: ts' =>
        if isMulOp op then
          '(f1, ts'') ← factor n ts';
          termLoop n (App (String op "") [f0; f1]) ts''
        else Ret (f0, ts)
    | _ => Ret (f0, ts)
    end.
Proof. reflexivity. Qed.

Lemma factor_S (n : nat) (ts : list Tok) :
  factor (S n) ts =
    match ts with
    | [] => Raise TypeError
    | TRef _ value :: ts' => Ret (Ref value, ts')
    | TFn fn :: ts' =>
        ts1 ← match_ "(" ts';
        '(a, ts2) ← expr n ts1;
        '(args, ts3) ← argsLoop n [a] ts2;
        ts4 ← match_ ")" ts3;
        Ret (App fn args, ts4)
    | TChar c :: ts' =>
        if Js.code c =? 40 then
          '(e, ts1) ← expr n ts';
          ts2 ← match_ ")" ts1;
          Ret (e, ts2)
        else if Js.code c =? 45 then
          '(operand, ts1) ← factor n ts';
          Ret (App "-" [operand], ts1)
        else
          _ ← match_ "num" ts;
          Raise TypeError
    | TNum _ value :: _ =>
        ts' ← match_ "num" ts;
        Ret (Num value, ts')
    | TEnd :: _ =>
        _ ← match_ "num" ts;
        Raise TypeError
    end.
Proof. reflexivity. Qed.

Lemma argsLoop_S (n : nat) (args : list Ast) (ts : list Tok) :
  argsLoop (S n) args ts =
    match ts with
    | [] => Raise TypeError
    | TChar c :: ts' =>
        if Js.code c =? 44 then
          '(a, ts'') ← expr n ts';
          argsLoop n (args ++ [a]) ts''
        else Ret (args, ts)
    | _ => Ret (args, ts)
    end.
Proof. reflexivity. Qed.

Lemma match_length (ty : string) (ts ts' : list Tok) :
  match_ ty ts = Ret ts' -> (length ts' <= length ts)%nat.
Proof.
  destruct ts as [|tok ts]; [discriminate|]. cbn [match_].
  destruct (decide _); [|discriminate].
  destruct (decide _); intros [= <-]; cbn; lia.
Qed.

Lemma match_num (l : string) (v : num) (ts : list Tok) :
  match_ "num" (TNum l v :: ts) = Ret ts.
Proof. reflexivity. Qed.

Lemma takes_ret {A} (strict : bool) (ts ts' : list Tok) (a : A) :
  (if strict then length ts' < length ts else length ts' <= length ts)%nat ->
  takes strict ts (Ret (a, ts')).
Proof. intros H. exact H. Qed.

Local Ltac sub_call H m a l :=
  destruct m as [[a l]|?]; cbn [mbind result_bind rbind takes] in H |- *;
  [|exact I].

Local Ltac sub_match m l :=
  let E := fresh "E" in
  destruct m as [l|?] eqn:E; cbn [mbind result_bind rbind];
  [apply match_length in E; cbn [length] in E | exact I].

Lemma consumes (n : nat) (ts : list Tok) :
  takes true ts (factor n ts) /\ takes true ts (term n ts) /\
  takes true ts (expr n ts) /\
  (forall f0, takes false ts (termLoop n f0 ts)) /\
  (forall t0, takes false ts (exprLoop n t0 ts)) /\
  (forall args, takes false ts (argsLoop n args ts)).
Proof.
  revert ts; induction n as [|n IH]; intros ts; [repeat split; intros; exact I|].
  assert (HF : takes true ts (factor (S n) ts)).
  { rewrite factor_S. destruct ts as [|[l v|fn|l v|c|] ts']; try exact I.
    - rewrite match_num. cbn. lia.
    - sub_match (match_ "(" ts') ts1.
      pose proof (IH ts1) as (_ & _ & H1 & _). sub_call H1 (expr n ts1) a ts2.
      pose proof (IH ts2) as (_ & _ & _ & _ & _ & H2). specialize (H2 [a]).
      sub_call H2 (argsLoop n [a] ts2) args ts3.
      sub_match (match_ ")" ts3) ts4. cbn. lia.
    - cbn. lia.
    - destruct (Js.code c =? 40).
      + pose proof (IH ts') as (_ & _ & H1 & _). sub_call H1 (expr n ts') a ts1.
        sub_match (match_ ")" ts1) ts2. cbn. lia.
      + destruct (Js.code c =? 45).
        * pose proof (IH ts') as (H1 & _). sub_call H1 (factor n ts') a ts1. cbn. lia.
        * destruct (match_ "num" (TChar c :: ts')); exact I. }
  assert (HTL : forall f0, takes false ts (termLoop (S n) f0 ts)).
  { intros f0. rewrite termLoop_S. destruct ts as [|[l v|fn|l v|c|] ts']; try exact I;
      try (cbn; lia).
    destruct (isMulOp c); [|cbn; lia].
    pose proof (IH ts') as (H1 & _). sub_call H1 (factor n ts') a ts1.
    pose proof (IH ts1) as (_ & _ & _ & H2 & _).
    specialize (H2 (App (String c "") [f0; a])).
    destruct (termLoop n _ ts1) as [[? ?]|?]; [|exact I]. cbn in *. lia. }
  assert (HT : takes true ts (term (S n) ts)).
  { rewrite term_S. pose proof (IH ts) as (H1 & _). sub_call H1 (factor n ts) a ts1.
    pose proof (IH ts1) as (_ & _ & _ & H2 & _). specialize (H2 a).
    destruct (termLoop n a ts1) as [[? ?]|?]; [|exact I]. cbn in *. lia. }
  assert (HEL : forall t0, takes false ts (exprLoop (S n) t0 ts)).
  { intros t0. rewrite exprLoop_S. destruct ts as [|[l v|fn|l v|c|] ts']; try exact I;
      try (cbn; lia).
    destruct (isAddOp c); [|cbn; lia].
    pose proof (IH ts') as (_ & H1 & _). sub_call H1 (term n ts') a ts1.
    pose proof (IH ts1) as (_ & _ & _ & _ & H2 & _).
    specialize (H2 (App (String c "") [t0; a])).
    destruct (exprLoop n _ ts1) as [[? ?]|?]; [|exact I]. cbn in *. lia. }
  assert (HE : takes true ts (expr (S n) ts)).
  { rewrite expr_S. pose proof (IH ts) as (_ & H1 & _). sub_call H1 (term n ts) a ts1.
    pose proof (IH ts1) as (_ & _ & _ & _ & H2 & _). specialize (H2 a).
    destruct (exprLoop n a ts1) as [[? ?]|?]; [|exact I]. cbn in *. lia. }
  assert (HAL : forall args, takes false ts (argsLoop (S n) args ts)).
  { intros args. rewrite argsLoop_S. destruct ts as [|[l v|fn|l v|c|] ts']; try exact I;
      try (cbn; lia).
    destruct (Js.code c =? 44); [|cbn; lia].
    pose proof (IH ts') as (_ & _ & H1 & _). sub_call H1 (expr n ts') a ts1.
    pose proof (IH ts1) as (_ & _ & _ & _ & _ & H2).
    specialize (H2 (args ++ [a])).
    destruct (argsLoop n _ ts1) as [[? ?]|?]; [|exact I]. cbn in *. lia. }
  auto 10.
Qed.

Lemma fuel_enough (n m : nat) (ts : list Tok) :
  ((3 * length ts + 1 <= n)%nat -> (3 * length ts + 1 <= m)%nat ->
     factor n ts = factor m ts) /\
  ((3 * length ts + 2 <= n)%nat -> (3 * length ts + 2 <= m)%nat ->
     term n ts = term m ts) /\
  ((3 * length ts + 3 <= n)%nat -> (3 * length ts + 3 <= m)%nat ->
     expr n ts = expr m ts) /\
  (forall f0, (3 * length ts + 3 <= n)%nat -> (3 * length ts + 3 <= m)%nat ->
     termLoop n f0 ts = termLoop m f0 ts) /\
  (forall t0, (3 * length ts + 3 <= n)%nat -> (3 * length ts + 3 <= m)%nat ->
     exprLoop n t0 ts = exprLoop m t0 ts) /\
  (forall args, (3 * length ts + 3 <= n)%nat -> (3 * length ts + 3 <= m)%nat ->
     argsLoop n args ts = argsLoop m args ts).
Proof.
  revert m ts; induction n as [|n IH]; intros m ts; [repeat split; intros; lia|].
  destruct m as [|m]; [repeat split; intros; lia|].
  repeat split.
  - intros Hn Hm. rewrite !factor_S.
    destruct ts as [|[l v|fn|l v|c|] ts']; try reflexivity; cbn [length] in Hn, Hm.
    + destruct (match_ "(" ts') as [ts1|] eqn:E1; cbn [mbind result_bind rbind];
        [|reflexivity].
      apply match_length in E1.
      pose proof (IH m ts1) as (_ & _ & H1 & _). rewrite H1 by lia.
      pose proof (consumes m ts1) as (_ & _ & Hc & _).
      destruct (expr m ts1) as [[a ts2]|]; cbn [mbind result_bind rbind takes] in *;
        [|reflexivity].
      pose proof (IH m ts2) as (_ & _ & _ & _ & _ & H2). rewrite H2 by lia. reflexivity.
    + destruct (Js.code c =? 40).
      * pose proof (IH m ts') as (_ & _ & H1 & _). rewrite H1 by lia. reflexivity.
      * destruct (Js.code c =? 45); [|reflexivity].
        pose proof (IH m ts') as (H1 & _). rewrite H1 by lia. reflexivity.
  - intros Hn Hm. rewrite !term_S.
    pose proof (IH m ts) as (H1 & _). rewrite H1 by lia.
    pose proof (consumes m ts) as (Hc & _).
    destruct (factor m ts) as [[f0 ts1]|]; cbn [mbind result_bind rbind takes] in *;
      [|reflexivity].
    pose proof (IH m ts1) as (_ & _ & _ & H2 & _). apply H2; lia.
  - intros Hn Hm. rewrite !expr_S.
    pose proof (IH m ts) as (_ & H1 & _). rewrite H1 by lia.
    pose proof (consumes m ts) as (_ & Hc & _).
    destruct (term m ts) as [[t0 ts1]|]; cbn [mbind result_bind rbind takes] in *;
      [|reflexivity].
    pose proof (IH m ts1) as (_ & _ & _ & _ & H2 & _). apply H2; lia.
  - intros f0 Hn Hm. rewrite !termLoop_S.
    destruct ts as [|[l v|fn|l v|c|] ts']; try reflexivity; cbn [length] in Hn, Hm.
    destruct (isMulOp c); [|reflexivity].
    pose proof (IH m ts') as (H1 & _). rewrite H1 by lia.
    pose proof (consumes m ts') as (Hc & _).
    destruct (factor m ts') as [[f1 ts1]|]; cbn [mbind result_bind rbind takes] in *;
      [|reflexivity].
    pose proof (IH m ts1) as (_ & _ & _ & H2 & _). apply H2; lia.
  - intros t0 Hn Hm. rewrite !exprLoop_S.
    destruct ts as [|[l v|fn|l v|c|] ts']; try reflexivity; cbn [length] in Hn, Hm.
    destruct (isAddOp c); [|reflexivity].
    pose proof (IH m ts') as (_ & H1 & _). rewrite H1 by lia.
    pose proof (consumes m ts') as (_ & Hc & _).
    destruct (term m ts') as [[t1 ts1]|]; cbn [mbind result_bind rbind takes] in *;
      [|reflexivity].
    pose proof (IH m ts1) as (_ & _ & _ & _ & H2 & _). apply H2; lia.
  - intros args Hn Hm. rewrite !argsLoop_S.
    destruct ts as [|[l v|fn|l v|c|] ts']; try reflexivity; cbn [length] in Hn, Hm.
    destruct (Js.code c =? 44); [|reflexivity].
    pose proof (IH m ts') as (_ & _ & H1 & _). rewrite H1 by lia.
    pose proof (consumes m ts') as (_ & _ & Hc & _).
    destruct (expr m ts') as [[a ts1]|]; cbn [mbind result_bind rbind takes] in *;
      [|reflexivity].
    pose proof (IH m ts1) as (_ & _ & _ & _ & _ & H2). apply H2; lia.
Qed.

(** The counter [parse] starts [expr] with never runs out: a higher one
    gives the same result. *)
Lemma expr_fuel (n : nat) (ts : list Tok) :
  (3 * length ts + 3 <= n)%nat -> expr n ts = expr (3 * length ts + 3) ts.
Proof. intros H. apply fuel_enough; lia. Qed.

End ParserFuel.

(** ** What the parser returns prints *)

Section ParserOutput.
Import ExprParser.
Context {N : JSNum}.
Local Arguments String.append !_ _ / : simpl nomatch.

Lemma matchCellRef_inv (s : string) (ac ar : bool) (colS rowS : string) :
  matchCellRef s = Some (ac, colS, ar, rowS) ->
  exists c d r,
    colS = String c "" /\ Js.isLetter c = true /\
    (forall p, Js.allChars p s = true -> p c = true) /\
    rowS = String d r /\ Js.isDigit d = true /\ (Js.code d =? 48) = false /\
    Js.allChars Js.isDigit r = true.
Proof.
  unfold matchCellRef.
  destruct (optDollar s) as [ac' s1] eqn:O.
  destruct s1 as [|c s2]; [discriminate|].
  destruct (Js.isLetter c) eqn:L; [|discriminate].
  destruct (optDollar s2) as [ar' s3].
  destruct s3 as [|d r]; [discriminate|].
  destruct (Js.isDigit d && negb (Js.code d =? 48) && Js.allChars Js.isDigit r) eqn:B;
    [|discriminate].
  intros [= <- <- <- <-].
  apply andb_prop in B as [B Hr]. apply andb_prop in B as [Hd Hz].
  apply negb_true_iff in Hz.
  exists c, d, r. repeat split; auto.
  intros p Hp. unfold optDollar in O. destruct s as [|x y]; [discriminate|].
  destruct (Js.code x =? 36); inversion O; subst; cbn in Hp.
  - apply andb_prop in Hp as [_ Hp]. apply andb_prop in Hp as [Hp _]. exact Hp.
  - apply andb_prop in Hp as [Hp _]. exact Hp.
Qed.

Lemma lowered_letter (c : ascii) :
  Js.isLetter c = true -> Js.lowerChar c = c -> 97 <= Js.code c <= 122.
Proof.
  destruct c as [[] [] [] [] [] [] [] []]; vm_compute; intros H1 H2;
    try discriminate; split; discriminate.
Qed.

Lemma allChars_toLowerCase (s : string) :
  Js.allChars (fun c => bool_decide (Js.lowerChar c = c)) (Js.toLowerCase s) = true.
Proof.
  induction s as [|c s IH]; [reflexivity|]. cbn. rewrite IH, andb_true_r.
  apply bool_decide_eq_true. apply lowerChar_idemp.
Qed.

Lemma toIntFrom_ge (s : string) (acc : Z) :
  Js.allChars Js.isDigit s = true -> 0 <= acc -> acc <= Js.toIntFrom acc s.
Proof.
  revert acc; induction s as [|c s IH]; intros acc Hs Hacc; cbn; [lia|].
  cbn in Hs. apply andb_prop in Hs as [Hc Hs].
  unfold Js.isDigit in Hc. apply andb_prop in Hc as [Hc _]. apply Z.leb_le in Hc.
  etransitivity; [|apply IH; [exact Hs | lia]]. lia.
Qed.

(** A reference read under a base cell prints under that base cell. *)
Lemma CellRef_new_prints (str : string) (base r : CellRef) :
  Js.toLowerCase (Js.trim str) <> "" ->
  CellRef_new str (Some base) = Ret r ->
  exists s, CellRef_toString r (Some base) = Ret s.
Proof.
  intros Hne. unfold CellRef_new.
  pose proof (allChars_toLowerCase (Js.trim str)) as Hlow.
  destruct (Js.toLowerCase (Js.trim str)) as [|x y] eqn:Es; [congruence|].
  destruct (matchCellRef (String x y)) as [[[[ac colS] ar] rowS]|] eqn:M; [|discriminate].
  destruct (matchCellRef_inv _ _ _ _ _ M) as (c & d & r' & -> & HL & Hc & -> & Hd & Hz & Hr).
  specialize (Hc _ Hlow). apply bool_decide_eq_true in Hc.
  pose proof (lowered_letter c HL Hc) as Hcode.
  unfold colSpecToIndex, rowSpecToIndex, LIMITS.MAX_N_ROWS.
  cbn [mbind result_bind rbind].
  destruct (Z.geb_spec (Js.toInt (String d r') - 1) 9999) as [|Hrow]; [discriminate|].
  cbn [mbind result_bind rbind]. intros [= <-].
  assert (Hge : 1 <= Js.toInt (String d r')).
  { unfold Js.toInt. cbn [Js.toIntFrom].
    etransitivity; [|apply toIntFrom_ge; [exact Hr|]].
    - unfold Js.isDigit in Hd. apply andb_prop in Hd as [Hd _]. apply Z.leb_le in Hd.
      apply Z.eqb_neq in Hz. lia.
    - unfold Js.isDigit in Hd. apply andb_prop in Hd as [Hd _]. apply Z.leb_le in Hd. lia. }
  unfold CellRef_toString. cbn [col row isAbs index baseCol baseRow].
  assert (Hcol : forall b i, b + i = Js.code c - 97 ->
                   exists s, indexToColSpec i b = Ret s).
  { intros b i E. unfold indexToColSpec, LIMITS.MAX_N_COLS. rewrite E.
    destruct (Z.ltb_spec (Js.code c - 97) 0); [lia|].
    destruct (Z.geb_spec (Js.code c - 97) 26); [lia|]. eauto. }
  assert (Hrw : forall b i, b + i = Js.toInt (String d r') - 1 ->
                  exists s, indexToRowSpec i b = Ret s).
  { intros b i E. unfold indexToRowSpec, LIMITS.MAX_N_ROWS. rewrite E.
    destruct (Z.ltb_spec (Js.toInt (String d r') - 1) 0); [lia|].
    destruct (Z.geb_spec (Js.toInt (String d r') - 1) 9999); [lia|]. eauto. }
  destruct ac, ar.
  - destruct (Hcol 0 (Js.code c - 97 - 0)) as [s1 ->]; [lia|].
    destruct (Hrw 0 (Js.toInt (String d r') - 1 - 0)) as [s2 ->]; [lia|]. cbn. eauto.
  - destruct (Hcol 0 (Js.code c - 97 - 0)) as [s1 ->]; [lia|].
    destruct (Hrw (index (row base)) (Js.toInt (String d r') - 1 - index (row base)))
      as [s2 ->]; [lia|]. cbn. eauto.
  - destruct (Hcol (index (col base)) (Js.code c - 97 - index (col base)))
      as [s1 ->]; [lia|].
    destruct (Hrw 0 (Js.toInt (String d r') - 1 - 0)) as [s2 ->]; [lia|]. cbn. eauto.
  - destruct (Hcol (index (col base)) (Js.code c - 97 - index (col base)))
      as [s1 ->]; [lia|].
    destruct (Hrw (index (row base)) (Js.toInt (String d r') - 1 - index (row base)))
      as [s2 ->]; [lia|]. cbn. eauto.
Qed.

Lemma FNS_word (c : ascii) (w : string) (info : FnInfo) :
  Js.isWord c = true -> FNS (String c w) = Some info -> type info = None.
Proof.
  intros Hw. unfold FNS.
  repeat (destruct (decide _) as [E|_];
          [injection E as -> ->;
           first [vm_compute in Hw; discriminate | intros [= <-]; reflexivity]|]).
  destruct (decide _); [intros [= <-]; reflexivity | discriminate].
Qed.

Lemma trim_head (c : ascii) (x : string) :
  Js.isSpace c = false -> exists y, Js.trim (String c x) = String c y.
Proof.
  intros H. unfold Js.trim. cbn [Js.trimStart]. rewrite H. cbn [Js.trimEnd]. rewrite H.
  destruct (Js.trimEnd x); eauto.
Qed.

Lemma isWord_isSpace (c : ascii) : Js.isWord c = true -> Js.isSpace c = false.
Proof. destruct c as [[] [] [] [] [] [] [] []]; vm_compute; congruence. Qed.

Lemma scanLoop_tok_ok (n : nat) (str : string) (base : CellRef) (ts : list Tok) :
  scanLoop n str base = Ret ts -> Forall (tok_ok base) ts.
Proof.
  revert str ts; induction n as [|n IH]; intros str ts; cbn [scanLoop];
    destruct (Js.trimStart str) as [|c r] eqn:E;
    try (intros [= <-]; repeat constructor); try discriminate.
  destruct (Js.isDigit c) eqn:Hd; [|destruct (Js.isWord c) eqn:Hw].
  - cbn [mbind result_bind rbind].
    destruct (scanLoop n _ base) as [ts'|] eqn:E'; [|discriminate].
    cbn [mbind result_bind rbind]. intros [= <-]. constructor; [exact I | eauto].
  - cbn [Js.span]. rewrite Hw. destruct (Js.span Js.isWord r) as [w rest]. cbn [fst].
    case_bool_decide as HF.
    + cbn [mbind result_bind rbind].
      destruct (scanLoop n _ base) as [ts'|] eqn:E'; [|discriminate].
      cbn [mbind result_bind rbind]. intros [= <-]. constructor; [|eauto].
      destruct HF as [info HF]. exists info. split; [exact HF|].
      apply (FNS_word c w info Hw HF).
    + destruct (CellRef_new (String c w) (Some base)) as [v|] eqn:Ev; [|discriminate].
      cbn [mbind result_bind rbind].
      destruct (scanLoop n _ base) as [ts'|] eqn:E'; [|discriminate].
      cbn [mbind result_bind rbind]. intros [= <-]. constructor; [|eauto].
      apply (CellRef_new_prints (String c w)); [|exact Ev].
      destruct (trim_head c w (isWord_isSpace c Hw)) as [y ->]. discriminate.
  - cbn [mbind result_bind rbind].
    destruct (scanLoop n _ base) as [ts'|] eqn:E'; [|discriminate].
    cbn [mbind result_bind rbind]. intros [= <-]. constructor; [exact I | eauto].
Qed.

Lemma printable_binary (base : CellRef) (op : ascii) (k0 k1 : Ast) :
  isAddOp op = true \/ isMulOp op = true ->
  printable base k0 -> printable base k1 ->
  printable base (App (String op "") [k0; k1]).
Proof.
  intros Hop [s0 E0] [s1 E1].
  assert (H : op = "+"%char \/ op = "-"%char \/ op = "*"%char \/ op = "/"%char).
  { clear -Hop. destruct op as [[] [] [] [] [] [] [] []]; vm_compute in Hop;
      destruct Hop; try discriminate; auto. }
  unfold printable.
  destruct H as [ -> | [ -> | [ -> | -> ] ] ]; cbn [toStr];
    match goal with |- context [FNS ?f] =>
      let v := eval vm_compute in (FNS f) in change (FNS f) with v end;
    cbn [type prec]; rewrite E0, E1; cbn [mbind result_bind rbind]; eauto.
Qed.

Lemma printable_neg (base : CellRef) (k : Ast) :
  printable base k -> printable base (App "-" [k]).
Proof.
  intros [s0 E0]. unfold printable. cbn [toStr].
  change (FNS "-") with (Some {| fn := Some "-"; prec := Some 10; type := Some "left" |}).
  cbn [type]. rewrite E0. cbn [mbind result_bind rbind]. eauto.
Qed.

Lemma printable_call (base : CellRef) (fn : string) (info : FnInfo) (args : list Ast) :
  FNS fn = Some info -> type info = None ->
  Forall (printable base) args -> printable base (App fn args).
Proof.
  intros HF Hty Hargs. unfold printable. cbn [toStr]. rewrite HF, Hty.
  match goal with |- context [mbind _ ?m] =>
    assert (Hm : exists strs, m = Ret strs) end.
  { induction Hargs as [|k ks [s E] _ [strs IH]]; [eexists; reflexivity|].
    rewrite E, IH. eexists; reflexivity. }
  destruct Hm as [strs ->]. cbn [mbind result_bind rbind]. eauto.
Qed.

Lemma match_tok_ok (base : CellRef) (ty : string) (ts ts' : list Tok) :
  match_ ty ts = Ret ts' -> Forall (tok_ok base) ts -> Forall (tok_ok base) ts'.
Proof.
  destruct ts as [|tok ts]; [discriminate|]. cbn [match_].
  destruct (decide _); [|discriminate].
  destruct (decide _); intros [= <-] H; [exact H|].
  apply Forall_cons in H. apply H.
Qed.

Local Ltac sub_gives H m a l :=
  destruct m as [[a l]|?]; cbn [mbind result_bind rbind gives] in H |- *;
  [destruct H as [? ?] | exact I].

Local Ltac sub_match' m l base H :=
  let E := fresh "E" in
  destruct m as [l|?] eqn:E; cbn [mbind result_bind rbind];
  [apply (match_tok_ok base) in E; [|exact H] | exact I].

(** What the parser returns prints. *)
Lemma parser_prints (base : CellRef) (n : nat) (ts : list Tok) :
  Forall (tok_ok base) ts ->
  gives base (printable base) (factor n ts) /\
  gives base (printable base) (term n ts) /\
  gives base (printable base) (expr n ts) /\
  (forall f0, printable base f0 -> gives base (printable base) (termLoop n f0 ts)) /\
  (forall t0, printable base t0 -> gives base (printable base) (exprLoop n t0 ts)) /\
  (forall args, Forall (printable base) args ->
     gives base (Forall (printable base)) (argsLoop n args ts)).
Proof.
  revert ts; induction n as [|n IH]; intros ts Hts; [repeat split; intros; exact I|].
  assert (HF : gives base (printable base) (factor (S n) ts)).
  { rewrite factor_S. destruct ts as [|[l v|fn|l v|c|] ts']; try exact I;
      apply Forall_cons in Hts as [Htok Hts'].
    - rewrite match_num. cbn. split; [eexists; reflexivity | exact Hts'].
    - destruct Htok as (info & HFN & Hty).
      sub_match' (match_ "(" ts') ts1 base Hts'.
      pose proof (IH ts1 E) as (_ & _ & H1 & _). sub_gives H1 (expr n ts1) a ts2.
      pose proof (IH ts2 H0) as (_ & _ & _ & _ & _ & H2).
      specialize (H2 [a] ltac:(repeat constructor; assumption)).
      sub_gives H2 (argsLoop n [a] ts2) args ts3.
      sub_match' (match_ ")" ts3) ts4 base H2.
      cbn. split; [|exact E0]. eapply printable_call; eassumption.
    - cbn. split; [exact Htok | exact Hts'].
    - destruct (Js.code c =? 40).
      + pose proof (IH ts' Hts') as (_ & _ & H1 & _). sub_gives H1 (expr n ts') a ts1.
        sub_match' (match_ ")" ts1) ts2 base H0. cbn. split; assumption.
      + destruct (Js.code c =? 45).
        * pose proof (IH ts' Hts') as (H1 & _). sub_gives H1 (factor n ts') a ts1.
          cbn. split; [apply printable_neg|]; assumption.
        * destruct (match_ "num" (TChar c :: ts')); exact I. }
  assert (HTL : forall f0, printable base f0 ->
                  gives base (printable base) (termLoop (S n) f0 ts)).
  { intros f0 Hf0. rewrite termLoop_S.
    destruct ts as [|[l v|fn|l v|c|] ts']; try exact I; try (cbn; split; assumption).
    destruct (isMulOp c) eqn:Hop; [|cbn; split; assumption].
    apply Forall_cons in Hts as [_ Hts'].
    pose proof (IH ts' Hts') as (H1 & _). sub_gives H1 (factor n ts') a ts1.
    pose proof (IH ts1 H0) as (_ & _ & _ & H2 & _). apply H2.
    apply printable_binary; auto. }
  assert (HT : gives base (printable base) (term (S n) ts)).
  { rewrite term_S. pose proof (IH ts Hts) as (H1 & _). sub_gives H1 (factor n ts) a ts1.
    pose proof (IH ts1 H0) as (_ & _ & _ & H2 & _). apply H2. assumption. }
  assert (HEL : forall t0, printable base t0 ->
                  gives base (printable base) (exprLoop (S n) t0 ts)).
  { intros t0 Ht0. rewrite exprLoop_S.
    destruct ts as [|[l v|fn|l v|c|] ts']; try exact I; try (cbn; split; assumption).
    destruct (isAddOp c) eqn:Hop; [|cbn; split; assumption].
    apply Forall_cons in Hts as [_ Hts'].
    pose proof (IH ts' Hts') as (_ & H1 & _). sub_gives H1 (term n ts') a ts1.
    pose proof (IH ts1 H0) as (_ & _ & _ & _ & H2 & _). apply H2.
    apply printable_binary; auto. }
  assert (HE : gives base (printable base) (expr (S n) ts)).
  { rewrite expr_S. pose proof (IH ts Hts) as (_ & H1 & _). sub_gives H1 (term n ts) a ts1.
    pose proof (IH ts1 H0) as (_ & _ & _ & _ & H2 & _). apply H2. assumption. }
  assert (HAL : forall args, Forall (printable base) args ->
                  gives base (Forall (printable base)) (argsLoop (S n) args ts)).
  { intros args Hargs. rewrite argsLoop_S.
    destruct ts as [|[l v|fn|l v|c|] ts']; try exact I; try (cbn; split; assumption).
    destruct (Js.code c =? 44); [|cbn; split; assumption].
    apply Forall_cons in Hts as [_ Hts'].
    pose proof (IH ts' Hts') as (_ & _ & H1 & _). sub_gives H1 (expr n ts') a ts1.
    pose proof (IH ts1 H0) as (_ & _ & _ & _ & _ & H2). apply H2.
    apply Forall_app. split; [assumption | repeat constructor; assumption]. }
  auto 10.
Qed.

(** The formula [parse] returns for a cell prints for that cell. *)
Lemma parse_prints (str c : string) (a : Ast) :
  parse str c = Ret a -> exists f, toString a c = Ret f.
Proof.
  unfold parse, toString.
  destruct (CellRef_new c None) as [base|]; [|discriminate].
  cbn [mbind result_bind rbind].
  destruct (scan str base) as [ts|] eqn:Es; [|discriminate].
  cbn [mbind result_bind rbind].
  pose proof (parser_prints base (3 * length ts + 3) ts (scanLoop_tok_ok _ _ _ _ Es))
    as (_ & _ & H & _).
  destruct (expr _ ts) as [[e ts']|]; [|discriminate].
  cbn [mbind result_bind rbind gives] in *.
  destruct (match_ "<END>" ts'); [|discriminate].
  cbn [mbind result_bind rbind]. intros [= <-]. apply H.
Qed.

End ParserOutput.

(** ** The content of the table is kept *)

Section Content.
Import ExprParser Spreadsheet.
Context {N : JSNum}.

Lemma keeps_lift_bind {A B} (I : Sheet -> Prop) (r : result A) (k : A -> M B) :
  (forall a, r = Ret a -> keeps I (k a)) -> keeps I (lift r ≫= k).
Proof.
  intros H s Hs. unfold mbind, M_bind, lift. destruct r as [a|e]; [|exact Hs].
  apply (H a eq_refl s Hs).
Qed.

Lemma cell_ok_new (k : string) : cell_ok (CellInfo_new k).
Proof. split; [constructor | eexists; reflexivity]. Qed.

Lemma cell_ok_set_value (v : num) (c : CellInfo) : cell_ok c -> cell_ok (set_value v c).
Proof. intros H. exact H. Qed.

Lemma cell_ok_Set_add (x : string) (c : CellInfo) :
  cell_ok c -> cell_ok (set_dependents (Set_add x) c).
Proof.
  intros [Hn Hf]. split; [|exact Hf]. cbn. unfold Set_add.
  case_decide as Hx; [exact Hn|].
  apply NoDup_app. split; [exact Hn|]. split; [|apply NoDup_singleton].
  intros y Hy Hy'. apply list_elem_of_singleton in Hy'. congruence.
Qed.

Lemma cell_ok_Set_delete (x : string) (c : CellInfo) :
  cell_ok c -> cell_ok (set_dependents (Set_delete x) c).
Proof.
  intros [Hn Hf]. split; [|exact Hf]. cbn. unfold Set_delete.
  apply NoDup_filter, Hn.
Qed.

Lemma cell_ok_set_ast (formula : string) (a : Ast) (c : CellInfo) :
  parse formula (id c) = Ret a -> cell_ok c -> cell_ok (set_ast a c).
Proof.
  intros Hp [Hn _]. split; [exact Hn|].
  unfold CellInfo_formula. cbn. apply (parse_prints formula), Hp.
Qed.

Lemma content_ok_set_undos_empty (s : Sheet) :
  content_ok s -> content_ok (set_undos (λ _, ∅) s).
Proof.
  intros [Hc Hu]. split; [exact Hc|].
  intros k c. cbn. rewrite lookup_empty. discriminate.
Qed.

Lemma content_ok_recordUndo (cellId : string) (s : Sheet) :
  content_ok s -> content_ok (recordUndo cellId s).
Proof.
  intros [Hc Hu]. unfold recordUndo.
  destruct (_undos s !! cellId) eqn:E; [split; assumption|].
  split; [exact Hc|]. intros k c. cbn.
  rewrite lookup_insert. case_decide as Hk; [|apply Hu].
  destruct (_cells s !! cellId) as [c'|] eqn:E'; [|discriminate].
  cbn. intros [= <-]. rewrite CellInfo_copy_eq. apply (Hc _ _ E').
Qed.

Lemma content_ok_getOrCreate (cellId : string) (s : Sheet) :
  content_ok s ->
  content_ok (getOrCreate cellId s).2 /\ cell_ok (getOrCreate cellId s).1.
Proof.
  intros [Hc Hu]. unfold getOrCreate.
  destruct (_cells s !! cellId) as [c|] eqn:E; cbn.
  - split; [split; assumption | apply (Hc _ _ E)].
  - split; [|apply cell_ok_new]. split; [|exact Hu].
    intros k c. cbn. rewrite lookup_insert.
    case_decide as Hk; [|apply Hc]. intros [= <-]. apply cell_ok_new.
Qed.

Lemma keeps_sheet_updateCell (cellId : string) (updateFn : CellInfo -> CellInfo) :
  nodollar cellId -> (forall c, id (updateFn c) = id c) ->
  (forall c, id c = cellId -> cell_ok c -> cell_ok (updateFn c)) ->
  keeps sheet_ok (_updateCell cellId updateFn).
Proof.
  intros Hd Hf Hok s [Ht Hc].
  pose proof (keeps_updateCell cellId updateFn Hd Hf s Ht) as Ht'.
  unfold _updateCell in *.
  pose proof (table_ok_getOrCreate cellId _ Hd (table_ok_recordUndo cellId s Hd Ht))
    as (_ & Hid & _).
  pose proof (content_ok_getOrCreate cellId _ (content_ok_recordUndo cellId s Hc))
    as (Hc' & Hcell).
  destruct (getOrCreate cellId (recordUndo cellId s)) as [cell s'].
  cbn in *. split; [exact Ht'|].
  destruct Hc' as [Hcs Hus]. split; [|exact Hus].
  intros k c. cbn. rewrite lookup_insert. case_decide as Hk; [|apply Hcs].
  intros [= <-]. apply Hok; assumption.
Qed.

Lemma keeps_sheet_updateCell_delete (cellId : string) :
  nodollar cellId -> keeps sheet_ok (_updateCell_delete cellId).
Proof.
  intros Hd s [Ht Hc].
  pose proof (keeps_updateCell_delete cellId Hd s Ht) as Ht'.
  unfold _updateCell_delete in *.
  pose proof (content_ok_getOrCreate cellId _ (content_ok_recordUndo cellId s Hc))
    as (Hc' & _).
  destruct (getOrCreate cellId (recordUndo cellId s)) as [cell s'].
  cbn in *. split; [exact Ht'|].
  destruct Hc' as [Hcs Hus]. split; [|exact Hus].
  intros k c. cbn. rewrite lookup_delete. case_decide; [discriminate | apply Hcs].
Qed.

Lemma keeps_sheet_evalAst (baseCellId : string) (a : Ast) :
  keeps sheet_ok (evalAst baseCellId a).
Proof.
  induction a as [v|r|fn kids IH] using Ast_induction; cbn [evalAst].
  - apply keeps_ret.
  - apply keeps_bind; [apply keeps_lift|]. intros str.
    apply keeps_bind; [|intros; apply keeps_ret].
    apply keeps_sheet_updateCell; [apply nodollar_cellRefToCellId | reflexivity |].
    intros c _. apply cell_ok_Set_add.
  - apply keeps_bind.
    + induction IH as [|k ks Hk _ IHks]; [apply keeps_ret|].
      apply keeps_bind; [exact Hk|]. intros v.
      apply keeps_bind; [exact IHks|]. intros vs. apply keeps_ret.
    + intros args. destruct (FNS fn args); [apply keeps_ret | apply keeps_throw].
Qed.

Lemma keeps_sheet_removeAsDependent (baseCellId : string) (a : Ast) :
  keeps sheet_ok (_removeAsDependent baseCellId a).
Proof.
  induction a as [v|r|fn kids IH] using Ast_induction; cbn [_removeAsDependent].
  - apply keeps_ret.
  - apply keeps_bind; [apply keeps_lift|]. intros str.
    apply keeps_bind; [|intros; apply keeps_ret].
    apply keeps_sheet_updateCell; [apply nodollar_cellRefToCellId | reflexivity |].
    intros c _. apply cell_ok_Set_delete.
  - induction IH as [|k ks Hk _ IHks]; [apply keeps_ret|].
    apply keeps_bind; [exact Hk|]. intros u. exact IHks.
Qed.

Lemma keeps_sheet_evalCell (fuel : nat) :
  (forall key working, keeps sheet_ok (_evalCell fuel key working)) /\
  (forall key i vals working, keeps sheet_ok (_evalDependents fuel key i vals working)).
Proof.
  induction fuel as [|fuel [IHc IHd]].
  - split; intros; intros s Hs; exact I.
  - split.
    + intros key working. cbn [_evalCell].
      apply keeps_get_bind. intros s Hs.
      destruct (_cells s !! key) as [cell|] eqn:E; [|apply keeps_throw].
      destruct (cells_ok s (proj1 Hs) _ _ E) as [Hid Hd].
      apply keeps_bind.
      { destruct (ast cell); [apply keeps_sheet_evalAst | apply keeps_ret]. }
      intros v. apply keeps_bind.
      { apply keeps_sheet_updateCell; [rewrite Hid; exact Hd | reflexivity |].
        intros c _. apply cell_ok_set_value. }
      intros u. apply keeps_bind; [apply IHd|]. intros [vals w]. apply keeps_ret.
    + intros key i vals working. cbn [_evalDependents].
      apply keeps_get_bind. intros s Hs.
      destruct (_cells s !! key ≫= _) as [dependent|]; [|apply keeps_ret].
      case_decide; [apply keeps_throw|].
      apply keeps_bind; [apply IHc|]. intros [vals' w]. apply IHd.
Qed.

Lemma sheet_ok_set_undos_empty (s : Sheet) :
  sheet_ok s -> sheet_ok (set_undos (λ _, ∅) s).
Proof.
  intros [Ht Hc]. split;
    [apply table_ok_set_undos_empty | apply content_ok_set_undos_empty]; assumption.
Qed.

Lemma sheet_ok_undo (s : Sheet) : sheet_ok s -> sheet_ok (_undo s).
Proof.
  intros [Ht [Hc Hu]]. split; [apply table_ok_undo, Ht|]. split; [|exact Hu].
  intros k c. rewrite lookup_undo.
  destruct (_undos s !! k) as [v|] eqn:E; [|apply Hc].
  intros ->. apply (Hu _ _ E).
Qed.

Lemma keeps_sheet_store_request (op : StoreOp) : keeps sheet_ok (store_request op).
Proof.
  intros s [Ht Hc]. pose proof (keeps_store_request op s Ht) as Ht'.
  unfold store_request in *.
  destruct (_store s) as [st|]; [|split; assumption].
  destruct Hc as [Hc Hu].
  destruct (failure st op); (split; [exact Ht' | split; assumption]).
Qed.

Lemma keeps_sheet_eval (fuel : nat) (baseCellId formula : string) (updateStore : bool) :
  keeps sheet_ok (eval fuel baseCellId formula updateStore).
Proof.
  unfold eval. apply keeps_try_catch; [|apply sheet_ok_undo].
  apply keeps_bind; [apply keeps_modify, sheet_ok_set_undos_empty|]. intros u.
  apply keeps_get_bind. intros s Hs.
  apply keeps_lift_bind. intros a Ha.
  apply keeps_bind.
  { apply keeps_sheet_updateCell; [apply nodollar_cellRefToCellId | reflexivity |].
    intros c Hid. apply (cell_ok_set_ast formula). rewrite Hid. exact Ha. }
  intros c. apply keeps_bind.
  { destruct (_cells s !! _ ≫= ast);
      [apply keeps_sheet_removeAsDependent | apply keeps_ret]. }
  intros u'. apply keeps_bind; [apply keeps_sheet_evalCell|]. intros [updates w].
  apply keeps_bind; [|intros; apply keeps_ret].
  destruct updateStore; [|apply keeps_ret].
  apply keeps_get_bind. intros; apply keeps_sheet_store_request.
Qed.

Lemma sheet_ok_delete_key (k : string) (s : Sheet) :
  sheet_ok s -> sheet_ok (set_cells (base.delete k) s).
Proof.
  intros [[Hc Hu] [Hcc Hcu]]. split; (split; [|assumption]); intros k' c; cbn;
    rewrite lookup_delete; (case_decide; [discriminate|]); [apply Hc | apply Hcc].
Qed.

Lemma keeps_sheet_delete (fuel : nat) (cellId : string) :
  keeps sheet_ok (delete fuel cellId).
Proof.
  unfold delete.
  apply keeps_bind; [apply keeps_modify, sheet_ok_set_undos_empty|]. intros u.
  apply keeps_get_bind. intros s Hs.
  apply keeps_bind.
  - destruct (_cells s !! Js.toLowerCase cellId) as [cell|] eqn:E.
    + apply keeps_bind.
      { apply keeps_sheet_updateCell_delete. apply (cells_ok s (proj1 Hs) _ _ E). }
      intros c. generalize (∅ : gmap string num).
      induction (dependents cell) as [|d ds IH]; intros results; [apply keeps_ret|].
      apply keeps_get_bind. intros s' Hs'.
      destruct (_cells s' !! d); [|apply keeps_throw].
      apply keeps_bind; [apply keeps_lift|]. intros f.
      apply keeps_bind; [apply keeps_sheet_eval|]. intros updates. apply IH.
    + case_decide; [|apply keeps_ret].
      apply keeps_bind; [|intros; apply keeps_throw].
      apply keeps_modify, sheet_ok_delete_key.
  - intros results. apply keeps_get_bind. intros s' Hs'.
    apply keeps_bind; [apply keeps_sheet_store_request | intros; apply keeps_ret].
Qed.

Lemma keeps_sheet_copy (fuel : nat) (destCellId srcCellId : string) :
  keeps sheet_ok (copy fuel destCellId srcCellId).
Proof.
  unfold copy.
  apply keeps_bind; [apply keeps_modify, sheet_ok_set_undos_empty|]. intros u.
  apply keeps_get_bind. intros s Hs.
  destruct (_cells s !! Js.toLowerCase srcCellId) as [srcCell|];
    [|apply keeps_sheet_delete].
  apply keeps_bind; [apply keeps_lift|]. intros formula.
  destruct (ast srcCell) as [srcAst|]; [|apply keeps_sheet_delete].
  destruct formula; [apply keeps_sheet_delete|].
  destruct (toString srcAst _) as [f|[[]|]]; try apply keeps_throw;
    [apply keeps_sheet_eval|].
  apply keeps_bind; [apply keeps_lift | intros; apply keeps_throw].
Qed.

Lemma keeps_sheet_clear : keeps sheet_ok clear.
Proof.
  unfold clear. apply keeps_get_bind. intros s Hs.
  apply keeps_bind; [apply keeps_sheet_store_request|]. intros u.
  apply keeps_bind; [apply keeps_modify, sheet_ok_set_undos_empty|]. intros u'.
  apply keeps_modify. intros s' [[Hc Hu] [Hcc Hcu]].
  split; (split; [|assumption]); intros k c; cbn; rewrite lookup_empty; discriminate.
Qed.

(** Every state of a sheet has the shape and the content the engine keeps. *)
Lemma reachable_sheet_ok (s : Sheet) : reachable s -> sheet_ok s.
Proof.
  induction 1.
  - split; split; intros k v; cbn; rewrite lookup_empty; discriminate.
  - apply keeps_after; [apply keeps_sheet_eval | assumption].
  - apply keeps_after; [apply keeps_sheet_delete | assumption].
  - apply keeps_after; [apply keeps_sheet_copy | assumption].
  - apply keeps_after; [apply keeps_sheet_clear | assumption].
Qed.

Lemma reachable_cells_wf (s : Sheet) : reachable s -> cells_wf s.
Proof.
  intros H. destruct (reachable_sheet_ok s H) as [Ht Hc]. intros k c Hk.
  split; [apply (cells_ok s Ht _ _ Hk) | apply (cells_content s Hc _ _ Hk)].
Qed.

Lemma reachable_prints (s : Sheet) (k : string) (c : CellInfo) :
  reachable s -> _cells s !! k = Some c -> exists f, CellInfo_formula c = Ret f.
Proof.
  intros H Hk. destruct (reachable_sheet_ok s H) as [_ Hc].
  apply (cells_content s Hc _ _ Hk).
Qed.

End Content.

(** ** The order of [dump] in the states of a sheet *)

Section DumpReachable.
Import Spreadsheet.

(** X25: the order of [dump] over the sets of dependents the engine
    keeps.  A prerequisite of a cell is a cell with a formula that lists it
    among its dependents.  In every state of a sheet where [depth] gives the
    depths over these (no prerequisite: [0]; otherwise one more than the
    deepest prerequisite; empty cells ignored), [dump] returns, given a
    round for each cell, the cells that have a formula, each once with its
    formula, ordered by depth and, among cells of one depth, by id. *)
Theorem dump_order `{N : JSNum} (s : Sheet) (depth : string -> nat) (fuel : nat) :
  reachable s ->
  is_depth s depth ->
  (size (_cells s) <= fuel)%nat ->
  exists l,
    dump fuel s = Some (Ret l) /\
    StronglySorted (dump_before depth) l.*1 /\
    (forall k f, (k, f) ∈ l <->
                 exists c, _cells s !! k = Some c /\ CellInfo_isEmpty c = false /\
                           CellInfo_formula c = Ret f).
Proof.
  intros Hr Hdepth Hfuel.
  apply (dump_order_wf s depth (reachable_cells_wf s Hr) Hdepth fuel); [|exact Hfuel].
  intros k c. apply reachable_prints, Hr.
Qed.

Lemma dump_order_witness :
  let s0 := Spreadsheet.new "sheet" None in
  let s1 := after (Spreadsheet.eval 4 "a1" "1" true) s0 in
  let s2 := after (Spreadsheet.eval 4 "b1" "a1+1" true) s1 in
  let s3 := after (Spreadsheet.eval 4 "c1" "a1+b1" true) s2 in
  let s := after (Spreadsheet.eval 4 "a2" "9" true) s3 in
  let depth := λ k : string,
    if decide (k = "b1") then 1%nat else if decide (k = "c1") then 2%nat else 0%nat in
  exists l,
    Spreadsheet.dump 4 s = Some (Ret l) /\
    StronglySorted (dump_before depth) l.*1 /\
    (forall k f, (k, f) ∈ l <->
                 exists c, Spreadsheet._cells s !! k = Some c /\
                           Spreadsheet.CellInfo_isEmpty c = false /\
                           Spreadsheet.CellInfo_formula c = Ret f).
Proof.
  intros s0 s1 s2 s3 s depth.
  apply (dump_order (N := IntNum) s depth).
  - unfold s, s3, s2, s1, s0. repeat apply reachable_eval. apply reachable_new.
  - apply is_depth_check. apply (bool_decide_unpack _). vm_compute. exact I.
  - vm_compute. lia.
Defined.

End DumpReachable.

(** ** Coordinates and references: round trips *)

Section CoordinateRoundTrips.
Local Arguments String.append !_ _ / : simpl nomatch.

Lemma digit_uint (s : string) :
  Js.allChars Js.isDigit s = true ->
  exists d, NilEmpty.string_of_uint d = s.
Proof.
  induction s as [|c s IH]; [exists Decimal.Nil; reflexivity|].
  cbn. intros [Hc Hs]%andb_prop. destruct (IH Hs) as [d <-].
  clear IH Hs.
  destruct c as [[] [] [] [] [] [] [] []]; try (vm_compute in Hc; discriminate).
  all: first [exists (Decimal.D0 d); reflexivity | exists (Decimal.D1 d); reflexivity
             | exists (Decimal.D2 d); reflexivity | exists (Decimal.D3 d); reflexivity
             | exists (Decimal.D4 d); reflexivity | exists (Decimal.D5 d); reflexivity
             | exists (Decimal.D6 d); reflexivity | exists (Decimal.D7 d); reflexivity
             | exists (Decimal.D8 d); reflexivity | exists (Decimal.D9 d); reflexivity].
Qed.

Lemma ofInt_toInt (s : string) :
  Js.headNonZero s = true -> Js.allChars Js.isDigit s = true ->
  Js.ofInt (Js.toInt s) = s.
Proof.
  intros Hh Ha. destruct (digit_uint s Ha) as [d <-].
  rewrite toInt_string_of_uint.
  assert (Hn : Decimal.unorm d = d).
  { destruct d; try reflexivity; vm_compute in Hh; discriminate. }
  pose proof (DecimalPos.Unsigned.to_of d) as Hto. rewrite Hn in Hto.
  unfold Js.ofInt. destruct (Pos.of_uint d) as [|p] eqn:E.
  - cbn in Hto. subst d. vm_compute in Hh. discriminate.
  - cbn in Hto. cbn [Z.of_N Z.to_int NilZero.string_of_int]. rewrite Hto.
    destruct d; try reflexivity. vm_compute in Hh. discriminate.
Qed.

(** X1: [indexToColSpec] gives the letter of a column in range, which
    [colSpecToIndex] reads back as the column; out of range it throws
    [SYNTAX]; and the index of a small letter prints as that letter. *)
Theorem col_spec_round_trip (index baseIndex : Z) :
  (0 <= baseIndex + index < LIMITS.MAX_N_COLS ->
   exists c, indexToColSpec index baseIndex = Ret (String c "") /\
             97 <= Js.code c <= 122 /\
             colSpecToIndex (String c "") = Ret (baseIndex + index)) /\
  (~ 0 <= baseIndex + index < LIMITS.MAX_N_COLS ->
   exists msg, indexToColSpec index baseIndex = Raise (AppError SYNTAX msg)) /\
  (forall c i, 97 <= Js.code c <= 122 ->
     colSpecToIndex (String c "") = Ret i ->
     0 <= i < LIMITS.MAX_N_COLS /\ indexToColSpec i 0 = Ret (String c "")).
Proof.
  unfold indexToColSpec, colSpecToIndex, LIMITS.MAX_N_COLS. split; [|split].
  - intros H. exists (Js.chr (97 + (baseIndex + index))).
    destruct (Z.ltb_spec (baseIndex + index) 0); [lia|].
    destruct (Z.geb_spec (baseIndex + index) 26); [lia|]. cbn [orb].
    rewrite code_chr by lia. split; [reflexivity|]. split; [lia|]. f_equal. lia.
  - intros H.
    destruct (Z.ltb_spec (baseIndex + index) 0); [cbn; eauto|].
    destruct (Z.geb_spec (baseIndex + index) 26); [cbn; eauto|]. lia.
  - intros c i Hc [= <-]. split; [lia|].
    destruct (Z.ltb_spec (0 + (Js.code c - 97)) 0); [lia|].
    destruct (Z.geb_spec (0 + (Js.code c - 97)) 26); [lia|]. cbn [orb].
    replace (97 + (0 + (Js.code c - 97))) with (Js.code c) by lia.
    unfold Js.chr, Js.code. rewrite N2Z.id, ascii_N_embedding. reflexivity.
Qed.

(** X2: [indexToRowSpec] gives the decimal number of a row in range, with
    no leading zero, which [rowSpecToIndex] reads back as the row; out of
    range it throws [SYNTAX]; and the index [rowSpecToIndex] returns for
    such a number prints as that number. *)
Theorem row_spec_round_trip (index baseIndex : Z) :
  (0 <= baseIndex + index < LIMITS.MAX_N_ROWS ->
   exists s, indexToRowSpec index baseIndex = Ret s /\
             Js.headNonZero s = true /\ Js.allChars Js.isDigit s = true /\
             rowSpecToIndex s = Ret (baseIndex + index)) /\
  (~ 0 <= baseIndex + index < LIMITS.MAX_N_ROWS ->
   exists msg, indexToRowSpec index baseIndex = Raise (AppError SYNTAX msg)) /\
  (forall s i, Js.headNonZero s = true -> Js.allChars Js.isDigit s = true ->
     rowSpecToIndex s = Ret i ->
     0 <= i < LIMITS.MAX_N_ROWS /\ indexToRowSpec i 0 = Ret s).
Proof.
  unfold indexToRowSpec, rowSpecToIndex, LIMITS.MAX_N_ROWS. split; [|split].
  - intros H. exists (Js.ofInt (baseIndex + index + 1)).
    destruct (Z.ltb_spec (baseIndex + index) 0); [lia|].
    destruct (Z.geb_spec (baseIndex + index) 9999); [lia|]. cbn [orb].
    destruct (ofInt_pos_shape (baseIndex + index + 1)) as [Hh Ha]; [lia|].
    split; [reflexivity|]. split; [exact Hh|]. split; [exact Ha|].
    rewrite toInt_ofInt by lia.
    destruct (Z.geb_spec (baseIndex + index + 1 - 1) 9999); [lia|]. f_equal. lia.
  - intros H.
    destruct (Z.ltb_spec (baseIndex + index) 0); [cbn; eauto|].
    destruct (Z.geb_spec (baseIndex + index) 9999); [cbn; eauto|]. lia.
  - intros s i Hh Ha.
    assert (Hge : 1 <= Js.toInt s).
    { destruct s as [|d r]; [discriminate|]. cbn in Hh, Ha.
      apply andb_prop in Hh as [Hd Hz]. apply andb_prop in Ha as [_ Hr].
      apply negb_true_iff, Z.eqb_neq in Hz.
      unfold Js.isDigit in Hd. apply andb_prop in Hd as [Hd _]. apply Z.leb_le in Hd.
      unfold Js.toInt. cbn [Js.toIntFrom].
      etransitivity; [|apply toIntFrom_ge; [exact Hr | lia]]. lia. }
    destruct (Z.geb_spec (Js.toInt s - 1) 9999); [discriminate|]. intros [= <-].
    split; [lia|].
    destruct (Z.ltb_spec (0 + (Js.toInt s - 1)) 0); [lia|].
    destruct (Z.geb_spec (0 + (Js.toInt s - 1)) 9999); [lia|]. cbn [orb].
    replace (0 + (Js.toInt s - 1) + 1) with (Js.toInt s) by lia.
    rewrite ofInt_toInt by assumption. reflexivity.
Qed.

(** X3: [cellRefToCellId] gives the one id of a cell: no dollar sign, no
    capital letter, the same for a reference and for its id, and the same
    whatever the case and the dollar signs of the reference. *)
Theorem cellRefToCellId_canonical (cellRef : string) :
  let cellId := cellRefToCellId cellRef in
  Js.contains "$" cellId = false /\
  Js.toLowerCase cellId = cellId /\
  cellRefToCellId cellId = cellId /\
  cellRefToCellId (Js.toLowerCase cellRef) = cellId /\
  cellRefToCellId (Js.stripDollar cellRef) = cellId.
Proof.
  cbv zeta. split; [apply nodollar_cellRefToCellId|].
  split.
  { unfold cellRefToCellId. rewrite toLowerCase_stripDollar, toLowerCase_idemp. reflexivity. }
  split; [apply cellRefToCellId_idemp|].
  split; [apply cellRefToCellId_toLowerCase|].
  unfold cellRefToCellId. rewrite toLowerCase_stripDollar, stripDollar_idemp. reflexivity.
Qed.

Lemma matchCellRef_text (s : string) (ac ar : bool) (colS rowS : string) :
  matchCellRef s = Some (ac, colS, ar, rowS) ->
  s = (if ac then "$" else "") +:+ colS +:+ (if ar then "$" else "") +:+ rowS.
Proof.
  unfold matchCellRef, optDollar.
  destruct s as [|x y]; [discriminate|].
  destruct (Z.eqb_spec (Js.code x) 36) as [Ex|Ex].
  - assert (x = "$"%char).
    { clear -Ex. destruct x as [[] [] [] [] [] [] [] []]; vm_compute in Ex;
        try discriminate; reflexivity. }
    subst x. destruct y as [|c s2]; [discriminate|].
    destruct (Js.isLetter c); [|discriminate].
    destruct s2 as [|z s3]; [discriminate|].
    destruct (Z.eqb_spec (Js.code z) 36) as [Ez|Ez].
    + assert (z = "$"%char).
      { clear -Ez. destruct z as [[] [] [] [] [] [] [] []]; vm_compute in Ez;
          try discriminate; reflexivity. }
      subst z. destruct s3 as [|d r]; [discriminate|].
      destruct (_ && _); [|discriminate]. intros [= <- <- <- <-]. reflexivity.
    + destruct (_ && _); [|discriminate]. intros [= <- <- <- <-]. reflexivity.
  - destruct (Js.isLetter x); [|discriminate].
    destruct y as [|z s3]; [discriminate|].
    destruct (Z.eqb_spec (Js.code z) 36) as [Ez|Ez].
    + assert (z = "$"%char).
      { clear -Ez. destruct z as [[] [] [] [] [] [] [] []]; vm_compute in Ez;
          try discriminate; reflexivity. }
      subst z. destruct s3 as [|d r]; [discriminate|].
      destruct (_ && _); [|discriminate]. intros [= <- <- <- <-]. reflexivity.
    + destruct (_ && _); [|discriminate]. intros [= <- <- <- <-]. reflexivity.
Qed.

(** The four parts of a reference the constructor accepts, and the
    reference it builds. *)
Lemma CellRef_new_inv (str : string) (baseCell : option CellRef) (r : CellRef) :
  Js.toLowerCase (Js.trim str) <> "" ->
  CellRef_new str baseCell = Ret r ->
  exists c rowS,
    Js.toLowerCase (Js.trim str)
    = (if isAbs (col r) then "$" else "") +:+ String c "" +:+
      (if isAbs (row r) then "$" else "") +:+ rowS /\
    97 <= Js.code c <= 122 /\
    Js.headNonZero rowS = true /\ Js.allChars Js.isDigit rowS = true /\
    1 <= Js.toInt rowS <= LIMITS.MAX_N_ROWS /\
    index (col r) = Js.code c - 97 - (if isAbs (col r) then 0 else baseCol baseCell) /\
    index (row r) = Js.toInt rowS - 1 - (if isAbs (row r) then 0 else baseRow baseCell).
Proof.
  intros Hne. unfold CellRef_new.
  pose proof (allChars_toLowerCase (Js.trim str)) as Hlow.
  destruct (Js.toLowerCase (Js.trim str)) as [|x y] eqn:Es; [congruence|].
  destruct (matchCellRef (String x y)) as [[[[ac colS] ar] rowS]|] eqn:M; [|discriminate].
  pose proof (matchCellRef_text _ _ _ _ _ M) as Ht.
  destruct (matchCellRef_inv _ _ _ _ _ M) as (c & d & r' & -> & HL & Hc & -> & Hd & Hz & Hr).
  specialize (Hc _ Hlow). apply bool_decide_eq_true in Hc.
  pose proof (lowered_letter c HL Hc) as Hcode.
  unfold colSpecToIndex, rowSpecToIndex, LIMITS.MAX_N_ROWS.
  cbn [mbind result_bind rbind].
  destruct (Z.geb_spec (Js.toInt (String d r') - 1) 9999) as [|Hrow]; [discriminate|].
  cbn [mbind result_bind rbind]. intros [= <-]. cbn [col row isAbs index].
  assert (Hge : 1 <= Js.toInt (String d r')).
  { unfold Js.isDigit in Hd. pose proof Hd as Hd'.
    apply andb_prop in Hd' as [Hd' _]. apply Z.leb_le in Hd'.
    apply Z.eqb_neq in Hz.
    unfold Js.toInt. cbn [Js.toIntFrom].
    etransitivity; [|apply toIntFrom_ge; [exact Hr | lia]]. lia. }
  exists c, (String d r'). split; [exact Ht|]. split; [exact Hcode|].
  split; [cbn; rewrite Hd, Hz; reflexivity|].
  split; [cbn; rewrite Hd, Hr; reflexivity|].
  split; [lia|]. split; reflexivity.
Qed.

(** X4: a reference built from a text prints, under the base cell it was
    built with, as the text in small letters without the spaces around
    it. *)
Theorem CellRef_read_print (str : string) (baseCell : option CellRef) (r : CellRef) :
  Js.toLowerCase (Js.trim str) <> "" ->
  CellRef_new str baseCell = Ret r ->
  CellRef_toString r baseCell = Ret (Js.toLowerCase (Js.trim str)).
Proof.
  intros Hne Hr.
  destruct (CellRef_new_inv str baseCell r Hne Hr)
    as (c & rowS & -> & Hc & Hh & Ha & Hrow & Hci & Hri).
  unfold CellRef_toString. rewrite Hci, Hri.
  assert (Hcol : forall b i, b + i = Js.code c - 97 ->
                   indexToColSpec i b = Ret (String c "")).
  { intros b i E. unfold indexToColSpec, LIMITS.MAX_N_COLS. rewrite E.
    destruct (Z.ltb_spec (Js.code c - 97) 0); [lia|].
    destruct (Z.geb_spec (Js.code c - 97) 26); [lia|]. cbn [orb].
    replace (97 + (Js.code c - 97)) with (Js.code c) by lia.
    unfold Js.chr, Js.code. rewrite N2Z.id, ascii_N_embedding. reflexivity. }
  assert (Hrw : forall b i, b + i = Js.toInt rowS - 1 ->
                  indexToRowSpec i b = Ret rowS).
  { intros b i E. unfold indexToRowSpec, LIMITS.MAX_N_ROWS in *. rewrite E.
    destruct (Z.ltb_spec (Js.toInt rowS - 1) 0); [lia|].
    destruct (Z.geb_spec (Js.toInt rowS - 1) 9999); [lia|]. cbn [orb].
    replace (Js.toInt rowS - 1 + 1) with (Js.toInt rowS) by lia.
    rewrite ofInt_toInt by assumption. reflexivity. }
  destruct (isAbs (col r)), (isAbs (row r));
    rewrite Hcol by lia; rewrite Hrw by lia; reflexivity.
Qed.

Lemma CellRef_read_print_witness :
  Js.toLowerCase (Js.trim " $B12 ") <> "" /\
  CellRef_new " $B12 " (Some b2)
  = Ret {| col := {| isAbs := true; index := 1 |};
           row := {| isAbs := false; index := 10 |} |} /\
  CellRef_toString {| col := {| isAbs := true; index := 1 |};
                      row := {| isAbs := false; index := 10 |} |} (Some b2)
  = Ret (Js.toLowerCase (Js.trim " $B12 ")).
Proof.
  assert (H1 : Js.toLowerCase (Js.trim " $B12 ") <> "") by (vm_compute; discriminate).
  assert (H2 : CellRef_new " $B12 " (Some b2)
               = Ret {| col := {| isAbs := true; index := 1 |};
                        row := {| isAbs := false; index := 10 |} |})
    by (vm_compute; reflexivity).
  split; [exact H1|]. split; [exact H2|].
  exact (CellRef_read_print _ _ _ H1 H2).
Defined.

(** What the constructor of a reference throws. *)
Lemma CellRef_new_raise (str : string) (baseCell : option CellRef) (e : exn) :
  CellRef_new str baseCell = Raise e ->
  (exists msg, e = AppError SYNTAX msg /\ matchCellRef (Js.toLowerCase (Js.trim str)) = None)
  \/ (exists msg ac c ar rowS,
        e = AppError LIMITS msg /\
        matchCellRef (Js.toLowerCase (Js.trim str)) = Some (ac, c, ar, rowS) /\
        LIMITS.MAX_N_ROWS < Js.toInt rowS).
Proof.
  intros E. unfold CellRef_new in E.
  destruct (Js.toLowerCase (Js.trim str)) as [|x y] eqn:Es; [discriminate|].
  destruct (matchCellRef (String x y)) as [[[[ac colS] ar] rowS]|] eqn:M.
  - right.
    destruct (matchCellRef_inv _ _ _ _ _ M) as (c & d & r' & -> & _ & _ & -> & _).
    unfold colSpecToIndex, rowSpecToIndex, LIMITS.MAX_N_ROWS in *.
    cbn [mbind result_bind rbind] in E.
    destruct (Z.geb_spec (Js.toInt (String d r') - 1) 9999) as [Hrow|]; [|discriminate].
    cbn [mbind result_bind rbind] in E. injection E as <-.
    eexists _, ac, (String c ""), ar, (String d r').
    split; [reflexivity|]. split; [reflexivity | lia].
  - left. injection E as <-. eauto.
Qed.

Lemma CellRef_new_code (str : string) (baseCell : option CellRef) (e : exn) :
  CellRef_new str baseCell = Raise e -> is_code SYNTAX e \/ is_code LIMITS e.
Proof.
  intros E. destruct (CellRef_new_raise _ _ _ E) as [(msg & -> & _)|(msg & ? & ? & ? & ? & -> & _)];
    [left | right]; reflexivity.
Qed.

(** X5: the constructor of a reference throws [SYNTAX] for a text that is
    no reference and [LIMITS] for a row that is too high, and nothing else;
    the reference it builds from a text that is not empty resolves, under
    the base cell, to a column and a row in range. *)
Theorem CellRef_new_outcome (str : string) (baseCell : option CellRef) :
  match CellRef_new str baseCell with
  | Ret r =>
      Js.toLowerCase (Js.trim str) <> "" ->
      0 <= (if isAbs (col r) then 0 else baseCol baseCell) + index (col r)
        < LIMITS.MAX_N_COLS /\
      0 <= (if isAbs (row r) then 0 else baseRow baseCell) + index (row r)
        < LIMITS.MAX_N_ROWS
  | Raise e =>
      (exists msg, e = AppError SYNTAX msg /\ matchCellRef (Js.toLowerCase (Js.trim str)) = None)
      \/ (exists msg ac c ar rowS,
            e = AppError LIMITS msg /\
            matchCellRef (Js.toLowerCase (Js.trim str)) = Some (ac, c, ar, rowS) /\
            LIMITS.MAX_N_ROWS < Js.toInt rowS)
  end.
Proof.
  destruct (CellRef_new str baseCell) as [r|e] eqn:E.
  - intros Hne.
    destruct (CellRef_new_inv str baseCell r Hne E)
      as (c & rowS & _ & Hc & _ & _ & Hrow & Hci & Hri).
    unfold LIMITS.MAX_N_COLS, LIMITS.MAX_N_ROWS in *.
    destruct (isAbs (col r)), (isAbs (row r)); lia.
  - apply (CellRef_new_raise _ _ _ E).
Qed.

End CoordinateRoundTrips.

(** ** The output of the scanner *)

Section ScannerOutput.
Import ExprParser.
Context {N : JSNum}.
Local Arguments String.append !_ _ / : simpl nomatch.

Lemma ends_once_cons (tok : Tok) (ts : list Tok) :
  tok <> TEnd -> ends_once ts -> ends_once (tok :: ts).
Proof.
  intros Ht (ts' & -> & Hn). exists (tok :: ts'). split; [reflexivity|].
  intros [E|H]%elem_of_cons; [congruence | contradiction].
Qed.

Lemma scanLoop_outcome (n : nat) (str : string) (baseCell : CellRef) :
  (String.length str <= n)%nat ->
  match scanLoop n str baseCell with
  | Ret ts => ends_once ts
  | Raise e => is_code SYNTAX e \/ is_code LIMITS e
  end.
Proof.
  revert str; induction n as [|n IH]; intros str Hn.
  - destruct str; [|cbn in Hn; lia]. exists []. split; [reflexivity | apply not_elem_of_nil].
  - pose proof (length_trimStart str) as Ht.
    cbn [scanLoop]. destruct (Js.trimStart str) as [|c r] eqn:E.
    { exists []. split; [reflexivity | apply not_elem_of_nil]. }
    match goal with |- context [mbind _ ?t] => set (tok := t) end.
    assert (Hl : match tok with
                 | Ret t => (1 <= String.length (tok_lexeme t))%nat /\ t <> TEnd
                 | Raise e => is_code SYNTAX e \/ is_code LIMITS e
                 end).
    { subst tok. destruct (Js.isDigit c) eqn:Hd.
      - split; [apply matchNum_nonempty, Hd | discriminate].
      - destruct (Js.isWord c) eqn:Hw.
        + pose proof (span_fst_nonempty Js.isWord c r Hw) as Hp.
          destruct (bool_decide _); [split; [exact Hp | discriminate]|].
          destruct (CellRef_new _ _) as [v|e] eqn:Ev; cbn.
          * split; [exact Hp | discriminate].
          * apply (CellRef_new_code _ _ _ Ev).
        + split; [cbn; lia | discriminate]. }
    destruct tok as [t|e]; [|exact Hl]. destruct Hl as [Hl Hne].
    cbn [mbind result_bind rbind].
    specialize (IH (slice (String c r) (String.length (tok_lexeme t)))).
    rewrite length_slice in IH. cbn [String.length] in *.
    specialize (IH ltac:(lia)).
    destruct (scanLoop n _ baseCell) as [ts|e]; [|exact IH].
    cbn [mbind result_bind rbind]. apply ends_once_cons; assumption.
Qed.

(** X6: the scanner returns the tokens of the text followed by the end
    token, which is nowhere else in the list, or throws what the
    constructor of a reference throws: [SYNTAX] or [LIMITS]. *)
Theorem scan_outcome (str : string) (baseCell : CellRef) :
  match scan str baseCell with
  | Ret ts => exists ts', ts = ts' ++ [TEnd] /\ TEnd ∉ ts'
  | Raise e => is_code SYNTAX e \/ is_code LIMITS e
  end.
Proof. apply scanLoop_outcome. lia. Qed.

Lemma dropSpaces_append (a b : string) :
  dropSpaces (a +:+ b) = dropSpaces a +:+ dropSpaces b.
Proof.
  induction a as [|c a IH]; [reflexivity|]. cbn. destruct (Js.isSpace c); cbn; congruence.
Qed.

Lemma dropSpaces_nospace (s : string) :
  Js.allChars (fun c => negb (Js.isSpace c)) s = true -> dropSpaces s = s.
Proof.
  induction s as [|c s IH]; [reflexivity|]. cbn.
  intros [Hc Hs]%andb_prop. apply negb_true_iff in Hc. rewrite Hc, (IH Hs). reflexivity.
Qed.

Lemma dropSpaces_trimStart (s : string) : dropSpaces (Js.trimStart s) = dropSpaces s.
Proof.
  induction s as [|c s IH]; [reflexivity|]. cbn. destruct (Js.isSpace c) eqn:E; [exact IH|].
  cbn. rewrite E. reflexivity.
Qed.

Lemma slice_prefix (a b : string) (s : string) :
  s = a +:+ b -> s = a +:+ slice s (String.length a).
Proof. intros ->. rewrite slice_append. reflexivity. Qed.

Lemma span_nospace (p : ascii -> bool) (s : string) :
  (forall c, p c = true -> Js.isSpace c = false) ->
  Js.allChars (fun c => negb (Js.isSpace c)) (fst (Js.span p s)) = true.
Proof.
  intros Hp. induction s as [|c s IH]; [reflexivity|]. cbn.
  destruct (p c) eqn:E; [|reflexivity].
  destruct (Js.span p s) as [a b]. cbn in *. rewrite (Hp c E), IH. reflexivity.
Qed.

Lemma isDigit_isSpace (c : ascii) : Js.isDigit c = true -> Js.isSpace c = false.
Proof. intros H. apply (isDigit_props c H). Qed.

Lemma expPart_prefix (r2 : string) :
  (exists rest, r2 = expPart r2 +:+ rest) /\
  Js.allChars (fun c => negb (Js.isSpace c)) (expPart r2) = true.
Proof.
  unfold expPart. destruct r2 as [|e r]; [split; [exists ""|]; reflexivity|].
  destruct (Z.eqb_spec (Js.code e) 101) as [E1|E1];
    [|destruct (Z.eqb_spec (Js.code e) 69) as [E2|E2]]; cbn [orb];
    try (split; [eexists; reflexivity | reflexivity]).
  all: assert (He : Js.isSpace e = false)
         by (unfold Js.isSpace; first [rewrite E1 | rewrite E2]; reflexivity).
  all: destruct r as [|sg r''].
  all: try (cbn; split; [eexists; reflexivity | reflexivity]).
  all: destruct (Z.eqb_spec (Js.code sg) 45) as [S1|S1];
         [|destruct (Z.eqb_spec (Js.code sg) 43) as [S2|S2]]; cbn [orb].
  all: match goal with
       | |- context [Js.span Js.isDigit ?x] =>
           pose proof (span_split Js.isDigit x) as Hs;
           pose proof (span_nospace Js.isDigit x isDigit_isSpace) as Hn;
           destruct (Js.span Js.isDigit x) as [ds y]; cbn [fst snd] in *
       end.
  all: destruct ds as [|d ds]; [split; [eexists; reflexivity | reflexivity]|].
  all: try (assert (Hsg : Js.isSpace sg = false)
              by (unfold Js.isSpace; first [rewrite S1 | rewrite S2]; reflexivity)).
  all: split; [exists y; cbn in *; congruence|].
  all: cbn in *; rewrite ?He, ?Hsg; cbn; exact Hn.
Qed.

Lemma fracPart_prefix (r1 : string) :
  r1 = fst (fracPart r1) +:+ snd (fracPart r1) /\
  Js.allChars (fun c => negb (Js.isSpace c)) (fst (fracPart r1)) = true.
Proof.
  split; [apply fracPart_split|].
  unfold fracPart. destruct r1 as [|c r]; [reflexivity|].
  destruct (Z.eqb_spec (Js.code c) 46) as [E|E]; [|reflexivity].
  pose proof (span_nospace Js.isDigit r isDigit_isSpace) as Hn.
  destruct (Js.span Js.isDigit r) as [ds y]. cbn [fst] in *.
  destruct ds; [reflexivity|]. cbn [fst Js.allChars].
  unfold Js.isSpace at 1. rewrite E. exact Hn.
Qed.

Lemma matchNum_prefix (s : string) :
  (exists rest, s = matchNum s +:+ rest) /\
  Js.allChars (fun c => negb (Js.isSpace c)) (matchNum s) = true.
Proof.
  unfold matchNum.
  pose proof (span_split Js.isDigit s) as Hs.
  pose proof (span_nospace Js.isDigit s isDigit_isSpace) as Hn.
  destruct (Js.span Js.isDigit s) as [int r1]. cbn [fst snd] in *.
  destruct (fracPart_prefix r1) as [Hf Hfn].
  destruct (fracPart r1) as [frac r2]. cbn [fst snd] in *.
  destruct (expPart_prefix r2) as [[rest He] Hen].
  split.
  - exists rest. rewrite Hs, Hf, He at 1. rewrite !append_assoc. reflexivity.
  - rewrite !allChars_append, Hn, Hfn, Hen. reflexivity.
Qed.

Lemma scanLoop_lexemes (n : nat) (str : string) (baseCell : CellRef) (ts : list Tok) :
  scanLoop n str baseCell = Ret ts ->
  lexemes ts = dropSpaces str /\ Forall (tok_faithful baseCell) ts.
Proof.
  revert str ts; induction n as [|n IH]; intros str ts; cbn [scanLoop];
    rewrite <- (dropSpaces_trimStart str);
    destruct (Js.trimStart str) as [|c r] eqn:E;
    try (intros [= <-]; split; [reflexivity | repeat constructor]); try discriminate.
  assert (Hstep : forall tok l,
            tok_lexeme tok = l -> tok <> TEnd -> tok_faithful baseCell tok ->
            (exists rest, String c r = l +:+ rest) ->
            Js.allChars (fun c => negb (Js.isSpace c)) l = true ->
            (tokens ← scanLoop n (slice (String c r) (String.length (tok_lexeme tok))) baseCell;
             Ret (tok :: tokens)) = Ret ts ->
            lexemes ts = dropSpaces (String c r) /\ Forall (tok_faithful baseCell) ts).
  { intros tok l Hl Hne Hf [rest Hr] Hns. rewrite Hl.
    rewrite Hr at 1. rewrite slice_append.
    destruct (scanLoop n rest baseCell) as [ts'|] eqn:E'; [|discriminate].
    cbn [mbind result_bind rbind]. intros [= <-].
    destruct (IH _ _ E') as [IH1 IH2]. split; [|constructor; assumption].
    rewrite Hr, dropSpaces_append, (dropSpaces_nospace l Hns), <- IH1.
    destruct tok; try congruence; cbn [lexemes]; rewrite <- ?Hl; try reflexivity.
    all: destruct ts'; reflexivity. }
  destruct (Js.isDigit c) eqn:Hd; [|destruct (Js.isWord c) eqn:Hw].
  - cbn [mbind result_bind rbind]. destruct (matchNum_prefix (String c r)) as [Hp Hn].
    apply (Hstep _ (matchNum (String c r))); auto; try discriminate.
    cbn. split; [|reflexivity].
    unfold matchNum. cbn [Js.span]. rewrite Hd.
    destruct (Js.span Js.isDigit r) as [a b]. destruct (fracPart b). cbn. exact Hd.
  - pose proof (span_split Js.isWord (String c r)) as Hs.
    pose proof (span_nospace Js.isWord (String c r) isWord_isSpace) as Hn.
    assert (Hall : Js.allChars Js.isWord (fst (Js.span Js.isWord (String c r))) = true).
    { clear. generalize (String c r). intros s. induction s as [|x s IH]; [reflexivity|].
      cbn. destruct (Js.isWord x) eqn:E; [|reflexivity].
      destruct (Js.span Js.isWord s). cbn in *. rewrite E, IH. reflexivity. }
    assert (Hh : headDigit (fst (Js.span Js.isWord (String c r))) = false).
    { cbn. rewrite Hw. destruct (Js.span Js.isWord r). exact Hd. }
    assert (Hword : is_word (fst (Js.span Js.isWord (String c r)))).
    { split; [|split; assumption]. cbn. rewrite Hw.
      destruct (Js.span Js.isWord r). discriminate. }
    case_bool_decide as HF.
    + cbn [mbind result_bind rbind].
      apply (Hstep _ (fst (Js.span Js.isWord (String c r)))); eauto; try discriminate.
      cbn. auto.
    + destruct (CellRef_new _ (Some baseCell)) as [v|] eqn:Ev; [|discriminate].
      cbn [mbind result_bind rbind].
      apply (Hstep _ (fst (Js.span Js.isWord (String c r)))); eauto; try discriminate.
      cbn. split; [exact Hword|]. split; [|exact Ev].
      destruct (FNS _) eqn:EF; [exfalso; apply HF; eauto | reflexivity].
  - cbn [mbind result_bind rbind].
    assert (Hs : Js.isSpace c = false).
    { clear -E. destruct str as [|x str]; [discriminate|].
      revert E. generalize (String x str). intros s. induction s as [|y s IH]; [discriminate|].
      cbn. destruct (Js.isSpace y) eqn:Ey; [exact IH | intros [= -> _]; exact Ey]. }
    apply (Hstep _ (String c "")); eauto; try discriminate.
    + cbn. auto.
    + cbn. rewrite Hs. reflexivity.
Qed.

(** X7: the lexemes of the tokens the scanner returns, one after the
    other, are the text without its white space: the scanner drops white
    space and nothing else; and each token goes with its lexeme: a number
    is [Number] of its digits, a reference is built from its text, the name
    of a function is in the table. *)
Theorem scan_lexemes (str : string) (baseCell : CellRef) (ts : list Tok) :
  scan str baseCell = Ret ts ->
  lexemes ts = dropSpaces str /\ Forall (tok_faithful baseCell) ts.
Proof. apply scanLoop_lexemes. Qed.

End ScannerOutput.

(** ** The errors of the parser *)

Section ParserSafety.
Import ExprParser.
Context {N : JSNum}.

Lemma last_tail (tok : Tok) (ts : list Tok) :
  last (tok :: ts) = Some TEnd -> tok <> TEnd -> last ts = Some TEnd.
Proof. destruct ts; cbn; [congruence | auto]. Qed.

Lemma match_safe (ty : string) (ts : list Tok) :
  last ts = Some TEnd ->
  match match_ ty ts with
  | Ret ts' => last ts' = Some TEnd
  | Raise e => is_code SYNTAX e
  end.
Proof.
  destruct ts as [|tok ts]; [discriminate|]. intros H. cbn [match_].
  destruct (decide _) as [E|]; [|reflexivity].
  destruct (decide _) as [E'|E']; [exact H|].
  apply (last_tail tok); [exact H|]. intros ->. apply E'. reflexivity.
Qed.

Local Ltac sub_safe H m a l :=
  destruct m as [[a l]|?]; cbn [mbind result_bind rbind safe takes] in *;
  [|apply H].

Local Ltac sub_match_safe m l Hl :=
  let Hm := fresh "Hm" in
  pose proof (match_safe _ _ Hl : match m with Ret _ => _ | Raise _ => _ end) as Hm;
  let E := fresh "E" in
  destruct m as [l|?] eqn:E; cbn [mbind result_bind rbind safe];
  [apply match_length in E; cbn [length] in E | exact Hm].

(** On the tokens of the scanner, with the counter [parse] gives it, the
    parser never reads past the end token and never runs out of steps. *)
Lemma parser_safe (n : nat) (ts : list Tok) :
  last ts = Some TEnd ->
  ((3 * length ts + 1 <= n)%nat -> safe (factor n ts)) /\
  ((3 * length ts + 2 <= n)%nat -> safe (term n ts)) /\
  ((3 * length ts + 3 <= n)%nat -> safe (expr n ts)) /\
  (forall f0, (3 * length ts + 3 <= n)%nat -> safe (termLoop n f0 ts)) /\
  (forall t0, (3 * length ts + 3 <= n)%nat -> safe (exprLoop n t0 ts)) /\
  (forall args, (3 * length ts + 3 <= n)%nat -> safe (argsLoop n args ts)).
Proof.
  revert ts; induction n as [|n IH]; intros ts Hts; [repeat split; intros; lia|].
  assert (Hne : ts <> []) by (intros ->; discriminate).
  repeat split.
  - intros Hn. rewrite factor_S.
    destruct ts as [|[l v|fn|l v|c|] ts']; try congruence; cbn [length] in Hn.
    + rewrite match_num. cbn. apply (last_tail _ _ Hts). discriminate.
    + assert (Hts' : last ts' = Some TEnd) by (apply (last_tail _ _ Hts); discriminate).
      sub_match_safe (match_ "(" ts') ts1 Hts'.
      pose proof (IH ts1 Hm) as (_ & _ & H1 & _). specialize (H1 ltac:(lia)).
      pose proof (consumes n ts1) as (_ & _ & Hc & _).
      sub_safe H1 (expr n ts1) a ts2.
      pose proof (IH ts2 H1) as (_ & _ & _ & _ & _ & H2).
      specialize (H2 [a] ltac:(lia)).
      sub_safe H2 (argsLoop n [a] ts2) args ts3.
      sub_match_safe (match_ ")" ts3) ts4 H2. exact Hm0.
    + cbn. apply (last_tail _ _ Hts). discriminate.
    + assert (Hts' : last ts' = Some TEnd).
      { apply (last_tail _ _ Hts). discriminate. }
      destruct (Js.code c =? 40).
      * pose proof (IH ts' Hts') as (_ & _ & H1 & _). specialize (H1 ltac:(lia)).
        sub_safe H1 (expr n ts') a ts1.
        sub_match_safe (match_ ")" ts1) ts2 H1. exact Hm.
      * destruct (Js.code c =? 45).
        -- pose proof (IH ts' Hts') as (H1 & _). specialize (H1 ltac:(lia)).
           sub_safe H1 (factor n ts') a ts1. exact H1.
        -- cbn [match_ tok_type]. destruct (decide _) as [E|]; [discriminate | reflexivity].
  - intros Hn. rewrite term_S.
    pose proof (IH ts Hts) as (H1 & _). specialize (H1 ltac:(lia)).
    pose proof (consumes n ts) as (Hc & _).
    sub_safe H1 (factor n ts) a ts1.
    pose proof (IH ts1 H1) as (_ & _ & _ & H2 & _). apply H2. lia.
  - intros Hn. rewrite expr_S.
    pose proof (IH ts Hts) as (_ & H1 & _). specialize (H1 ltac:(lia)).
    pose proof (consumes n ts) as (_ & Hc & _).
    sub_safe H1 (term n ts) a ts1.
    pose proof (IH ts1 H1) as (_ & _ & _ & _ & H2 & _). apply H2. lia.
  - intros f0 Hn. rewrite termLoop_S.
    destruct ts as [|[l v|fn|l v|c|] ts']; try congruence; try exact Hts.
    cbn [length] in Hn. destruct (isMulOp c); [|exact Hts].
    assert (Hts' : last ts' = Some TEnd) by (apply (last_tail _ _ Hts); discriminate).
    pose proof (IH ts' Hts') as (H1 & _). specialize (H1 ltac:(lia)).
    pose proof (consumes n ts') as (Hc & _).
    sub_safe H1 (factor n ts') a ts1.
    pose proof (IH ts1 H1) as (_ & _ & _ & H2 & _). apply H2. lia.
  - intros t0 Hn. rewrite exprLoop_S.
    destruct ts as [|[l v|fn|l v|c|] ts']; try congruence; try exact Hts.
    cbn [length] in Hn. destruct (isAddOp c); [|exact Hts].
    assert (Hts' : last ts' = Some TEnd) by (apply (last_tail _ _ Hts); discriminate).
    pose proof (IH ts' Hts') as (_ & H1 & _). specialize (H1 ltac:(lia)).
    pose proof (consumes n ts') as (_ & Hc & _).
    sub_safe H1 (term n ts') a ts1.
    pose proof (IH ts1 H1) as (_ & _ & _ & _ & H2 & _). apply H2. lia.
  - intros args Hn. rewrite argsLoop_S.
    destruct ts as [|[l v|fn|l v|c|] ts']; try congruence; try exact Hts.
    cbn [length] in Hn. destruct (Js.code c =? 44); [|exact Hts].
    assert (Hts' : last ts' = Some TEnd) by (apply (last_tail _ _ Hts); discriminate).
    pose proof (IH ts' Hts') as (_ & _ & H1 & _). specialize (H1 ltac:(lia)).
    pose proof (consumes n ts') as (_ & _ & Hc & _).
    sub_safe H1 (expr n ts') a ts1.
    pose proof (IH ts1 H1) as (_ & _ & _ & _ & _ & H2). apply H2. lia.
Qed.

(** X8: [parse] throws nothing but [SYNTAX] and [LIMITS] errors: it never
    reads past the last token, whatever the text. *)
Theorem parse_errors (str baseCellId : string) (e : exn) :
  parse str baseCellId = Raise e -> is_code SYNTAX e \/ is_code LIMITS e.
Proof.
  unfold parse.
  destruct (CellRef_new baseCellId None) as [base|e0] eqn:Eb; cbn [mbind result_bind rbind].
  2: { intros [= <-]. apply (CellRef_new_code _ _ _ Eb). }
  pose proof (scanLoop_outcome (String.length str) str base ltac:(lia)) as Hs.
  fold (scan str base) in Hs.
  destruct (scan str base) as [ts|e0]; cbn [mbind result_bind rbind].
  2: { intros [= <-]. exact Hs. }
  destruct Hs as (ts' & -> & _).
  assert (Hl : last (ts' ++ [TEnd]) = Some TEnd) by apply last_snoc.
  pose proof (parser_safe (3 * length (ts' ++ [TEnd]) + 3) _ Hl) as (_ & _ & H & _).
  specialize (H ltac:(lia)).
  destruct (expr _ _) as [[a ts1]|e0]; cbn [mbind result_bind rbind safe] in *.
  2: { intros [= <-]. left. exact H. }
  pose proof (match_safe "<END>" ts1 H) as Hm.
  destruct (match_ "<END>" ts1); cbn [mbind result_bind rbind]; [discriminate|].
  intros [= <-]. left. exact Hm.
Qed.

End ParserSafety.

(** ** The shape of a parsed formula *)

Section ParserBuilds.
Import ExprParser.
Context {N : JSNum}.
Variable Q : Tok -> Prop.
Variable P : Ast -> Prop.
Hypothesis P_num : forall l v, Q (TNum l v) -> P (Num v).
Hypothesis P_ref : forall l v, Q (TRef l v) -> P (Ref v).
Hypothesis P_binary : forall op k0 k1,
  isAddOp op = true \/ isMulOp op = true -> P k0 -> P k1 -> P (App (String op "") [k0; k1]).
Hypothesis P_neg : forall k, P k -> P (App "-" [k]).
Hypothesis P_call : forall fn args,
  Q (TFn fn) -> args <> [] -> Forall P args -> P (App fn args).

Lemma match_builds (ty : string) (ts ts' : list Tok) :
  match_ ty ts = Ret ts' -> Forall Q ts -> Forall Q ts'.
Proof.
  destruct ts as [|tok ts]; [discriminate|]. cbn [match_].
  destruct (decide _); [|discriminate].
  destruct (decide _); intros [= <-] H; [exact H|].
  apply Forall_cons in H. apply H.
Qed.

Local Ltac sub_builds H m a l :=
  destruct m as [[a l]|?]; cbn [mbind result_bind rbind builds] in H |- *;
  [destruct H as [? ?] | exact I].

Local Ltac sub_match_b m l H :=
  let E := fresh "E" in
  destruct m as [l|?] eqn:E; cbn [mbind result_bind rbind];
  [apply match_builds in E; [|exact H] | exact I].

(** What the parser builds from tokens with [Q] has [P], when [P] holds of
    the leaves made from such tokens and passes to the applications the
    parser makes. *)
Lemma parser_builds (n : nat) (ts : list Tok) :
  Forall Q ts ->
  builds Q P (factor n ts) /\
  builds Q P (term n ts) /\
  builds Q P (expr n ts) /\
  (forall f0, P f0 -> builds Q P (termLoop n f0 ts)) /\
  (forall t0, P t0 -> builds Q P (exprLoop n t0 ts)) /\
  (forall args, args <> [] -> Forall P args ->
     builds Q (fun l => l <> [] /\ Forall P l) (argsLoop n args ts)).
Proof.
  revert ts; induction n as [|n IH]; intros ts Hts; [repeat split; intros; exact I|].
  assert (HF : builds Q P (factor (S n) ts)).
  { rewrite factor_S. destruct ts as [|[l v|fn|l v|c|] ts']; try exact I;
      apply Forall_cons in Hts as [Htok Hts'].
    - rewrite match_num. cbn. split; [eapply P_num; eassumption | exact Hts'].
    - sub_match_b (match_ "(" ts') ts1 Hts'.
      pose proof (IH ts1 E) as (_ & _ & H1 & _). sub_builds H1 (expr n ts1) a ts2.
      pose proof (IH ts2 H0) as (_ & _ & _ & _ & _ & H2).
      specialize (H2 [a] ltac:(discriminate) ltac:(repeat constructor; assumption)).
      sub_builds H2 (argsLoop n [a] ts2) args ts3.
      sub_match_b (match_ ")" ts3) ts4 H2.
      cbn. split; [|exact E0]. destruct H1 as [? ?]. apply P_call; assumption.
    - cbn. split; [eapply P_ref; eassumption | exact Hts'].
    - destruct (Js.code c =? 40).
      + pose proof (IH ts' Hts') as (_ & _ & H1 & _). sub_builds H1 (expr n ts') a ts1.
        sub_match_b (match_ ")" ts1) ts2 H0. cbn. split; assumption.
      + destruct (Js.code c =? 45).
        * pose proof (IH ts' Hts') as (H1 & _). sub_builds H1 (factor n ts') a ts1.
          cbn. split; [apply P_neg|]; assumption.
        * destruct (match_ "num" (TChar c :: ts')); exact I. }
  assert (HTL : forall f0, P f0 -> builds Q P (termLoop (S n) f0 ts)).
  { intros f0 Hf0. rewrite termLoop_S.
    destruct ts as [|[l v|fn|l v|c|] ts']; try exact I; try (cbn; split; assumption).
    destruct (isMulOp c) eqn:Hop; [|cbn; split; assumption].
    apply Forall_cons in Hts as [_ Hts'].
    pose proof (IH ts' Hts') as (H1 & _). sub_builds H1 (factor n ts') a ts1.
    pose proof (IH ts1 H0) as (_ & _ & _ & H2 & _). apply H2.
    apply P_binary; auto. }
  assert (HT : builds Q P (term (S n) ts)).
  { rewrite term_S. pose proof (IH ts Hts) as (H1 & _). sub_builds H1 (factor n ts) a ts1.
    pose proof (IH ts1 H0) as (_ & _ & _ & H2 & _). apply H2. assumption. }
  assert (HEL : forall t0, P t0 -> builds Q P (exprLoop (S n) t0 ts)).
  { intros t0 Ht0. rewrite exprLoop_S.
    destruct ts as [|[l v|fn|l v|c|] ts']; try exact I; try (cbn; split; assumption).
    destruct (isAddOp c) eqn:Hop; [|cbn; split; assumption].
    apply Forall_cons in Hts as [_ Hts'].
    pose proof (IH ts' Hts') as (_ & H1 & _). sub_builds H1 (term n ts') a ts1.
    pose proof (IH ts1 H0) as (_ & _ & _ & _ & H2 & _). apply H2.
    apply P_binary; auto. }
  assert (HE : builds Q P (expr (S n) ts)).
  { rewrite expr_S. pose proof (IH ts Hts) as (_ & H1 & _). sub_builds H1 (term n ts) a ts1.
    pose proof (IH ts1 H0) as (_ & _ & _ & _ & H2 & _). apply H2. assumption. }
  assert (HAL : forall args, args <> [] -> Forall P args ->
                  builds Q (fun l => l <> [] /\ Forall P l) (argsLoop (S n) args ts)).
  { intros args Hne Hargs. rewrite argsLoop_S.
    destruct ts as [|[l v|fn|l v|c|] ts']; try exact I; try (cbn; auto).
    destruct (Js.code c =? 44); [|cbn; auto].
    apply Forall_cons in Hts as [_ Hts'].
    pose proof (IH ts' Hts') as (_ & _ & H1 & _). sub_builds H1 (expr n ts') a ts1.
    pose proof (IH ts1 H0) as (_ & _ & _ & _ & _ & H2). apply H2.
    - destruct args; discriminate.
    - apply Forall_app. split; [assumption | repeat constructor; assumption]. }
  auto 10.
Qed.

End ParserBuilds.

Section ParserShape.
Import ExprParser.
Context {N : JSNum}.
Local Arguments String.append !_ _ / : simpl nomatch.

Lemma is_word_text (l : string) :
  is_word l -> Js.toLowerCase (Js.trim l) <> "" /\ exists c w, l = String c w /\ Js.isWord c = true.
Proof.
  intros (Hne & _ & Ha). destruct l as [|c w]; [congruence|].
  cbn in Ha. apply andb_prop in Ha as [Hc _].
  split; [|eauto]. destruct (trim_head c w (isWord_isSpace c Hc)) as [y ->]. discriminate.
Qed.

Lemma CellRef_new_in_range (l : string) (base r : CellRef) :
  Js.toLowerCase (Js.trim l) <> "" ->
  CellRef_new l (Some base) = Ret r -> ref_in_range base r.
Proof.
  intros Hne Hr.
  destruct (CellRef_new_inv l (Some base) r Hne Hr)
    as (c & rowS & _ & Hc & _ & _ & Hrow & Hci & Hri).
  unfold ref_in_range, axis_in_range, LIMITS.MAX_N_COLS, LIMITS.MAX_N_ROWS in *.
  cbn [baseCol baseRow] in *.
  destruct (isAbs (col r)), (isAbs (row r)); lia.
Qed.

Lemma call_name_of_tok (fn : string) :
  is_word fn -> is_Some (FNS fn) -> call_name fn.
Proof.
  intros Hw [info HF]. split; [exact Hw|]. exists info. split; [exact HF|].
  destruct (is_word_text fn Hw) as (_ & c & w & -> & Hc).
  apply (FNS_word c w info Hc HF).
Qed.

Lemma well_shaped_kids (lit : num -> Prop) (base : CellRef) (kids : list Ast) :
  fold_right (fun k acc => well_shaped lit base k /\ acc) True kids <->
  Forall (well_shaped lit base) kids.
Proof.
  induction kids as [|k kids IH]; cbn; [split; auto|].
  rewrite Forall_cons, IH. reflexivity.
Qed.

Lemma all_nums_kids (lit : num -> Prop) (kids : list Ast) :
  fold_right (fun k acc => all_nums lit k /\ acc) True kids <->
  Forall (all_nums lit) kids.
Proof.
  induction kids as [|k kids IH]; cbn; [split; auto|].
  rewrite Forall_cons, IH. reflexivity.
Qed.

Lemma isOp_cases (op : ascii) :
  isAddOp op = true \/ isMulOp op = true ->
  op = "+"%char \/ op = "-"%char \/ op = "*"%char \/ op = "/"%char.
Proof.
  intros Hop. destruct op as [[] [] [] [] [] [] [] []]; vm_compute in Hop;
    destruct Hop; try discriminate; auto.
Qed.

(** The formula [parse] returns has the shape of the grammar. *)
Lemma parse_well_shaped (str c : string) (a : Ast) :
  parse str c = Ret a ->
  exists base, CellRef_new c None = Ret base /\ well_shaped (fun _ => True) base a.
Proof.
  unfold parse.
  destruct (CellRef_new c None) as [base|]; [|discriminate].
  cbn [mbind result_bind rbind].
  destruct (scan str base) as [ts|] eqn:Es; [|discriminate].
  cbn [mbind result_bind rbind].
  destruct (scanLoop_lexemes _ _ _ _ Es) as [_ Hts].
  destruct (parser_builds (tok_faithful base) (well_shaped (fun _ => True) base))
    with (n := (3 * length ts + 3)%nat) (ts := ts) as (_ & _ & H & _);
    [ intros l v _; exact I
    | intros l v (Hw & _ & Hv); cbn;
      apply (CellRef_new_in_range l); [apply is_word_text, Hw | exact Hv]
    | intros op k0 k1 Hop H0 H1; cbn; split; [|auto];
      destruct (isOp_cases op Hop) as [ -> | [ -> | [ -> | -> ] ] ];
      unfold shape_fn; auto 10
    | intros k Hk; cbn; split; [|auto]; unfold shape_fn; auto 10
    | intros fn args [Hw HF] Hne Hargs; cbn; split;
      [ right; right; split; [apply call_name_of_tok; assumption|];
        destruct args; [congruence | cbn; lia]
      | apply well_shaped_kids, Hargs ]
    | exact Hts | ].
  destruct (expr _ ts) as [[e ts']|]; [|discriminate].
  cbn [mbind result_bind rbind builds] in *.
  destruct (match_ "<END>" ts'); [|discriminate].
  cbn [mbind result_bind rbind]. intros [= <-]. exists base. split; [reflexivity | apply H].
Qed.

(** X9: every formula [parse] returns has the shape of the grammar: an
    operator has two operands, a minus sign one or two, a call has a name
    of the table that is no operator and one argument or more, and every
    reference resolves, under the cell of the formula, to a column and a row
    in range. *)
Theorem parse_shape (str baseCellId : string) (a : Ast) :
  parse str baseCellId = Ret a ->
  exists base,
    CellRef_new baseCellId None = Ret base /\ well_shaped (fun _ => True) base a.
Proof. apply parse_well_shaped. Qed.

Lemma well_shaped_nums (lit : num -> Prop) (base : CellRef) (a : Ast) :
  well_shaped (fun _ => True) base a -> all_nums lit a -> well_shaped lit base a.
Proof.
  induction a as [v|r|fn kids IH] using Ast_induction; cbn; auto.
  intros [Hs Hk] Hn. split; [exact Hs|].
  apply well_shaped_kids in Hk. apply all_nums_kids in Hn. apply well_shaped_kids.
  clear Hs. induction IH as [|k kids Hk1 _ IHk]; [constructor|].
  apply Forall_cons in Hk as [? ?]. apply Forall_cons in Hn as [? ?].
  constructor; auto.
Qed.

Lemma FNS_no_prec (fn : string) (info : FnInfo) :
  FNS fn = Some info -> type info = None -> prec info = None.
Proof.
  unfold FNS. intros HF Hty.
  repeat (destruct (decide _) as [E|_] in HF;
          [injection HF as <-; first [discriminate Hty | reflexivity]|]).
  discriminate HF.
Qed.

Lemma well_shaped_cases (lit : num -> Prop) (base : CellRef) (fn : string)
    (kids : list Ast) (R : Ast -> Prop) :
  shape_fn fn (length kids) -> Forall R kids ->
  (forall c k0 k1 info ty, fn = String c "" -> kids = [k0; k1] ->
     FNS fn = Some info -> type info = Some ty -> prec info = Some 10 ->
     isAddOp c = true -> isMulOp c = false -> opChar c -> R k0 -> R k1 -> R (App fn kids)) ->
  (forall c k0 k1 info ty, fn = String c "" -> kids = [k0; k1] ->
     FNS fn = Some info -> type info = Some ty -> prec info = Some 20 ->
     isMulOp c = true -> opChar c -> R k0 -> R k1 -> R (App fn kids)) ->
  (forall k0, fn = "-" -> kids = [k0] -> R k0 -> R (App fn kids)) ->
  (forall info, FNS fn = Some info -> type info = None -> prec info = None ->
     is_word fn -> kids <> [] -> R (App fn kids)) ->
  R (App fn kids).
Proof.
  intros Hs Hk Hadd Hmul Hneg Hcall.
  assert (Hop : forall c, c = "+"%char \/ c = "-"%char \/ c = "*"%char \/ c = "/"%char ->
                  opChar c).
  { intros c [ -> | [ -> | [ -> | -> ] ] ]; repeat split; (reflexivity || discriminate). }
  destruct Hs as [[Hfn Hl]|[[Hfn Hl]|[[Hw (info & HF & Hty)] Hl]]].
  - destruct kids as [|k0 [|k1 [|? ?]]]; try discriminate.
    apply Forall_cons in Hk as [H0 Hk]. apply Forall_cons in Hk as [H1 _].
    destruct Hfn as [ -> | [ -> | -> ] ].
    + eapply (Hadd _ k0 k1); try reflexivity; auto.
    + eapply (Hmul _ k0 k1); try reflexivity; auto 10.
    + eapply (Hmul _ k0 k1); try reflexivity; auto 10.
  - subst fn. destruct Hl as [Hl|Hl].
    + destruct kids as [|k0 [|? ?]]; try discriminate.
      apply Forall_cons in Hk as [H0 _]. apply (Hneg k0); auto.
    + destruct kids as [|k0 [|k1 [|? ?]]]; try discriminate.
      apply Forall_cons in Hk as [H0 Hk]. apply Forall_cons in Hk as [H1 _].
      eapply (Hadd _ k0 k1); try reflexivity; auto.
  - apply (Hcall info); auto.
    + apply (FNS_no_prec fn); assumption.
    + destruct kids; [cbn in Hl; lia | discriminate].
Qed.

Lemma well_shaped_lexes (base : CellRef) (a : Ast) :
  well_shaped num_literal base a -> prints_as base a.
Proof.
  induction a as [v|r|fn kids IH] using Ast_induction.
  - apply (toStr_lexes base (Num v)).
  - apply (toStr_lexes base (Ref r)).
  - intros [Hs Hk]. apply well_shaped_kids in Hk.
    assert (Hp : Forall (prints_as base) kids).
    { clear Hs. induction IH as [|k kids Hk1 _ IHk]; [constructor|].
      apply Forall_cons in Hk as [Hk Hks]. constructor; auto. }
    clear IH Hk.
    apply (well_shaped_cases num_literal base fn kids (prints_as base) Hs Hp).
    + intros c k0 k1 info ty -> -> HF Hty Hpr _ _ Hc H0 H1.
      apply (binary_lexes base c info ty 10); assumption.
    + intros c k0 k1 info ty -> -> HF Hty Hpr _ Hc H0 H1.
      apply (binary_lexes base c info ty 20); assumption.
    + intros k0 -> -> H0.
      eapply (unary_lexes base "-"); try reflexivity; [|exact H0].
      repeat split; (reflexivity || discriminate).
    + intros info HF Hty _ (Hne & Hh & Ha) Hkids.
      apply (call_lexes base fn info); assumption.
Qed.

Lemma well_shaped_parses (base : CellRef) (a : Ast) :
  well_shaped num_literal base a -> parses base a.
Proof.
  induction a as [v|r|fn kids IH] using Ast_induction.
  - apply (toks_parse base (Num v)).
  - apply (toks_parse base (Ref r)).
  - intros [Hs Hk]. apply well_shaped_kids in Hk.
    assert (Hp : Forall (parses base) kids).
    { clear Hs. induction IH as [|k kids Hk1 _ IHk]; [constructor|].
      apply Forall_cons in Hk as [Hk Hks]. constructor; auto. }
    clear IH Hk.
    apply (well_shaped_cases num_literal base fn kids (parses base) Hs Hp).
    + intros c k0 k1 info ty -> -> HF Hty Hpr Ha Hm _ H0 H1.
      apply (parses_add base c info ty); assumption.
    + intros c k0 k1 info ty -> -> HF Hty Hpr Hm _ H0 H1.
      apply (parses_mul base c info ty); assumption.
    + intros k0 -> -> H0. apply parses_neg, H0.
    + intros info HF Hty Hpr _ Hkids.
      apply (parses_call base fn info); assumption.
Qed.

(** X10: the text of a formula [parse] returned parses back to the
    formula, when the numbers of the formula print as literals of the
    scanner: what a cell shows for its formula can be typed in again. *)
Theorem parse_print_parse (str baseCellId : string) (a : Ast) :
  parse str baseCellId = Ret a ->
  all_nums num_literal a ->
  exists text, toString a baseCellId = Ret text /\ parse text baseCellId = Ret a.
Proof.
  intros Hp Hn.
  destruct (parse_well_shaped _ _ _ Hp) as (base & Hc & Hs).
  pose proof (well_shaped_nums num_literal base a Hs Hn) as Hwf.
  destruct (well_shaped_lexes base a Hwf) as (s & Hs' & HL).
  pose proof (well_shaped_parses base a Hwf) as HP.
  exists s. unfold toString, parse. rewrite Hc. cbn [mbind result_bind rbind].
  split; [exact Hs'|].
  specialize (HL "" [TEnd] I eq_refl). rewrite append_nil_r in HL. rewrite HL.
  cbn [mbind result_bind rbind].
  rewrite (expr_ret base a [TEnd] _ HP); [reflexivity | | exact I | exact I].
  rewrite length_app. cbn. lia.
Qed.

End ParserShape.

(** ** The scanner and the parser on the integers *)

Section ParserWitnesses.
Import ExprParser.

Lemma scan_lexemes_witness :
  let ts := [TFn "max"; TChar "("; TNum "1" (Int 1); TChar ",";
             TRef "$B2" {| col := {| index := 1; isAbs := true |};
                           row := {| index := 1; isAbs := false |} |};
             TChar ")"; TEnd] in
  scan (N := IntNum) " max(1, $B2) " a1 = Ret ts /\
  lexemes ts = dropSpaces " max(1, $B2) " /\ Forall (tok_faithful a1) ts.
Proof.
  split; [reflexivity|].
  apply (scan_lexemes (N := IntNum) " max(1, $B2) " a1). reflexivity.
Defined.

Lemma parse_errors_witness :
  let e := AppError LIMITS "bad row spec 10000; cannot be above 26" in
  parse (N := IntNum) "1+a10000" "a1" = Raise e /\
  (is_code SYNTAX e \/ is_code LIMITS e).
Proof.
  split; [reflexivity|].
  apply (parse_errors (N := IntNum) "1+a10000" "a1"). reflexivity.
Defined.

Lemma parse_shape_witness :
  parse (N := IntNum) "max(1, $B2) * -c3" "b2" =
    Ret (App "*" [App "max" [Num (Int 1); Ref {| col := {| index := 1; isAbs := true |};
                                                row := {| index := 0; isAbs := false |} |}];
                  App "-" [Ref {| col := {| index := 1; isAbs := false |};
                                  row := {| index := 1; isAbs := false |} |}]]) /\
  exists base,
    CellRef_new "b2" None = Ret base /\
    well_shaped (fun _ => True) base
      (App "*" [App "max" [Num (Int 1); Ref {| col := {| index := 1; isAbs := true |};
                                                row := {| index := 0; isAbs := false |} |}];
                  App "-" [Ref {| col := {| index := 1; isAbs := false |};
                                  row := {| index := 1; isAbs := false |} |}]]).
Proof.
  split; [reflexivity|].
  apply (parse_shape (N := IntNum) "max(1, $B2) * -c3" "b2"). reflexivity.
Defined.

Lemma parse_print_parse_witness :
  let a := App "*" [App "max" [Num (Int 1); Ref {| col := {| index := 1; isAbs := true |};
                                                   row := {| index := 0; isAbs := false |} |}];
                    App "-" [Ref {| col := {| index := 1; isAbs := false |};
                                    row := {| index := 1; isAbs := false |} |}]] in
  parse (N := IntNum) "max(1, $B2) * -c3" "b2" = Ret a /\
  all_nums num_literal a /\
  exists text, toString a "b2" = Ret text /\ parse text "b2" = Ret a.
Proof.
  assert (Hn : all_nums (N := IntNum) num_literal
                 (App "*" [App "max" [Num (Int 1);
                                      Ref {| col := {| index := 1; isAbs := true |};
                                             row := {| index := 0; isAbs := false |} |}];
                           App "-" [Ref {| col := {| index := 1; isAbs := false |};
                                           row := {| index := 1; isAbs := false |} |}]])).
  { cbn [all_nums fold_right]. repeat split. }
  split; [reflexivity|]. split; [exact Hn|].
  exact (parse_print_parse (N := IntNum) "max(1, $B2) * -c3" "b2" _ eq_refl Hn).
Defined.

End ParserWitnesses.

(** ** Invariants of the evaluation *)

Section Internals.
Import ExprParser Spreadsheet.
Context {N : JSNum}.

(** What [_updateCell] does to the table: the cell under [cellId], a new
    one when there is none, is replaced by its update. *)
Lemma updateCell_run (cellId : string) (updateFn : CellInfo -> CellInfo) (s : Sheet) :
  _updateCell cellId updateFn s =
    Return (updateFn (default (CellInfo_new cellId) (_cells s !! cellId)))
           (set_cells (λ _, <[cellId := updateFn (default (CellInfo_new cellId)
                                                     (_cells s !! cellId))]> (_cells s))
                      (recordUndo cellId s)).
Proof.
  unfold _updateCell, getOrCreate.
  assert (Hc : _cells (recordUndo cellId s) = _cells s).
  { unfold recordUndo. destruct (_undos s !! cellId); reflexivity. }
  rewrite Hc. destruct (_cells s !! cellId) as [c|] eqn:E; cbn [default].
  - unfold set_cells. rewrite Hc. reflexivity.
  - unfold set_cells. cbn. rewrite Hc, insert_insert_eq. reflexivity.
Qed.

Lemma recordUndo_cells (cellId : string) (s : Sheet) :
  _cells (recordUndo cellId s) = _cells s /\
  _store (recordUndo cellId s) = _store s /\
  name (recordUndo cellId s) = name s.
Proof. unfold recordUndo. destruct (_undos s !! cellId); auto. Qed.

(** An invariant that the updates of the evaluation keep is kept by the
    evaluation. *)
Section Kept.
Variable I : Sheet -> Prop.
Variable G : string -> Prop.
Hypothesis I_read : forall s key cell, I s -> _cells s !! key = Some cell -> G (id cell).
Hypothesis I_value : forall k v, G k -> keeps I (_updateCell k (set_value v)).
Hypothesis I_add : forall b str,
  G b -> keeps I (_updateCell (cellRefToCellId str) (set_dependents (Set_add b))).

Lemma kept_evalAst (baseCellId : string) (a : Ast) :
  G baseCellId -> keeps I (evalAst baseCellId a).
Proof.
  intros Hb. induction a as [v|r|fn kids IH] using Ast_induction; cbn [evalAst].
  - apply keeps_ret.
  - apply keeps_bind; [apply keeps_lift|]. intros str.
    apply keeps_bind; [|intros; apply keeps_ret]. apply I_add, Hb.
  - apply keeps_bind.
    + induction IH as [|k ks Hk _ IHks]; [apply keeps_ret|].
      apply keeps_bind; [exact Hk|]. intros v.
      apply keeps_bind; [exact IHks|]. intros vs. apply keeps_ret.
    + intros args. destruct (FNS fn args); [apply keeps_ret | apply keeps_throw].
Qed.

Lemma kept_evalCell (fuel : nat) :
  (forall key working, keeps I (_evalCell fuel key working)) /\
  (forall key i vals working, keeps I (_evalDependents fuel key i vals working)).
Proof.
  induction fuel as [|fuel [IHc IHd]].
  - split; intros; intros s Hs; exact Logic.I.
  - split.
    + intros key working. cbn [_evalCell].
      apply keeps_get_bind. intros s Hs.
      destruct (_cells s !! key) as [cell|] eqn:E; [|apply keeps_throw].
      pose proof (I_read s key cell Hs E) as Hg.
      apply keeps_bind.
      { destruct (ast cell); [apply kept_evalAst, Hg | apply keeps_ret]. }
      intros v. apply keeps_bind; [apply I_value, Hg|].
      intros _. apply keeps_bind; [apply IHd|]. intros [vals w]. apply keeps_ret.
    + intros key i vals working. cbn [_evalDependents].
      apply keeps_get_bind. intros s Hs.
      destruct (_cells s !! key ≫= _) as [dependent|]; [|apply keeps_ret].
      case_decide; [apply keeps_throw|].
      apply keeps_bind; [apply IHc|]. intros [vals' w]. apply IHd.
Qed.

Hypothesis I_delete : forall b str,
  G b -> keeps I (_updateCell (cellRefToCellId str) (set_dependents (Set_delete b))).

Lemma kept_removeAsDependent (baseCellId : string) (a : Ast) :
  G baseCellId -> keeps I (_removeAsDependent baseCellId a).
Proof.
  intros Hb. induction a as [v|r|fn kids IH] using Ast_induction; cbn [_removeAsDependent].
  - apply keeps_ret.
  - apply keeps_bind; [apply keeps_lift|]. intros str.
    apply keeps_bind; [|intros; apply keeps_ret]. apply I_delete, Hb.
  - induction IH as [|k ks Hk _ IHks]; [apply keeps_ret|].
    apply keeps_bind; [exact Hk|]. intros _. exact IHks.
Qed.

End Kept.
End Internals.

(** ** Requests to the store *)

Section StoreRequests.
Import ExprParser Spreadsheet.
Context {N : JSNum}.

Lemma store_is_updateCell n st (cellId : string) (updateFn : CellInfo -> CellInfo) :
  keeps (store_is n st) (_updateCell cellId updateFn).
Proof.
  intros s [Hn Hs]. rewrite updateCell_run.
  destruct (recordUndo_cells cellId s) as (_ & Hs' & Hn').
  split; cbn; congruence.
Qed.

Lemma store_is_evalCell n st (fuel : nat) (key : string) (working : list string) :
  keeps (store_is n st) (_evalCell fuel key working).
Proof.
  apply (kept_evalCell (store_is n st) (fun _ => True)); intros; try exact I;
    apply store_is_updateCell.
Qed.

Lemma store_is_undo n st (s : Sheet) : store_is n st s -> store_is n st (_undo s).
Proof. intros H. exact H. Qed.

(** The part of [eval] before the request to the store. *)
Lemma store_is_eval_false n st (fuel : nat) (baseCellId formula : string) :
  keeps (store_is n st) (eval fuel baseCellId formula false).
Proof.
  unfold eval. apply keeps_try_catch; [|apply store_is_undo].
  apply keeps_bind; [apply keeps_modify; intros s H; exact H|]. intros _.
  apply keeps_get_bind. intros s Hs.
  apply keeps_bind; [apply keeps_lift|]. intros a.
  apply keeps_bind; [apply store_is_updateCell|].
  intros _. apply keeps_bind.
  { destruct (_cells s !! _ ≫= ast); [|apply keeps_ret].
    apply (kept_removeAsDependent (store_is n st) (fun _ => True));
      intros; try exact I; apply store_is_updateCell. }
  intros _. apply keeps_bind; [apply store_is_evalCell|]. intros [updates w].
  apply keeps_bind; [|intros; apply keeps_ret]. apply keeps_ret.
Qed.

Lemma ends_bind {A B} (m : M A) (k : A -> M B) (s : Sheet) Q1 Q E :
  ends m s Q1 E -> (forall a s1, Q1 a s1 -> ends (k a) s1 Q E) -> ends (m ≫= k) s Q E.
Proof.
  unfold ends, mbind, M_bind. intros Hm Hk.
  destruct (m s) as [a s1|e s1|]; [apply Hk, Hm | exact Hm | exact Logic.I].
Qed.

Lemma ends_keeps {A} (I : Sheet -> Prop) (m : M A) (s : Sheet)
    (Q : A -> Sheet -> Prop) (E : exn -> Sheet -> Prop) :
  keeps I m -> I s -> (forall a s', I s' -> Q a s') -> (forall e s', I s' -> E e s') ->
  ends m s Q E.
Proof.
  intros Hm Hs HQ HE. specialize (Hm s Hs). unfold ends.
  destruct (m s); [apply HQ, Hm | apply HE, Hm | exact Logic.I].
Qed.

(** X11: [eval] writes to the store once, after the cells are evaluated:
    when it returns, the store has received the request to update the cell,
    under its id without dollar signs and with the formula as typed, or
    nothing when [updateStore] is off; when it throws, the store has
    received nothing, unless it is the store that threw on that request. *)
Theorem eval_store_requests (fuel : nat) (baseCellId formula : string)
    (updateStore : bool) (s : Sheet) :
  let op := StoreUpdateCell (name s) (cellRefToCellId baseCellId) formula in
  match eval fuel baseCellId formula updateStore s with
  | Return _ s' =>
      name s' = name s /\
      _store s' = if updateStore then logged op <$> _store s else _store s
  | Throw e s' =>
      name s' = name s /\
      (_store s' = _store s \/
       updateStore = true /\
       exists st, _store s = Some st /\ failure st op = Some e /\
                  _store s' = Some (logged op st))
  | OutOfFuel => True
  end.
Proof.
  intros op. destruct updateStore.
  2: { pose proof (store_is_eval_false (name s) (_store s) fuel baseCellId formula s
                     (conj eq_refl eq_refl)) as H.
       destruct (eval _ _ _ _ s) as [a s'|e s'|]; [| |exact I];
         destruct H as [Hn Hs]; auto. }
  unfold eval, try_catch_rethrow.
  match goal with |- context [match ?b s with _ => _ end] => set (body := b) end.
  pose (I0 := store_is (name s) (_store s)).
  pose (E0 := fun (e : exn) (s' : Sheet) =>
                name s' = name s /\
                (_store s' = _store s \/
                 exists st, _store s = Some st /\ failure st op = Some e /\
                            _store s' = Some (logged op st))).
  assert (HE : forall e s', I0 s' -> E0 e s') by (intros e s' [Hn Hs]; split; auto).
  assert (Hbody : ends body s
            (fun _ s' => name s' = name s /\ _store s' = logged op <$> _store s) E0).
  { subst body.
    eapply ends_bind.
    { apply (ends_keeps I0) with (Q := fun _ => I0);
        [apply keeps_modify; intros s0 H; exact H | split; reflexivity | auto | exact HE]. }
    intros u1 s1 H1. eapply ends_bind.
    { apply (ends_keeps I0) with (Q := fun _ => I0);
        [intros s0 H; exact H | exact H1 | auto | exact HE]. }
    intros s2 s3 H3. eapply ends_bind.
    { apply (ends_keeps I0) with (Q := fun _ => I0);
        [apply keeps_lift | exact H3 | auto | exact HE]. }
    intros a s4 H4. eapply ends_bind.
    { apply (ends_keeps I0) with (Q := fun _ => I0);
        [apply store_is_updateCell | exact H4 | auto | exact HE]. }
    intros u5 s5 H5. eapply ends_bind.
    { apply (ends_keeps I0) with (Q := fun _ => I0); [| exact H5 | auto | exact HE].
      destruct (_cells s2 !! _ ≫= ast); [|apply keeps_ret].
      apply (kept_removeAsDependent I0 (fun _ => True));
        intros; try exact I; apply store_is_updateCell. }
    intros u6 s6 H6. eapply ends_bind.
    { apply (ends_keeps I0) with (Q := fun _ => I0);
        [apply store_is_evalCell | exact H6 | auto | exact HE]. }
    intros [updates w] s7 [Hn Hs].
    unfold ends, mbind, M_bind, get, store_request. rewrite Hs, Hn. fold op.
    destruct (_store s) as [st|] eqn:Est; cbn.
    - destruct (failure st op) eqn:Ef; cbn; [split; [exact Hn|]; eauto 6 | split; auto].
    - split; assumption. }
  unfold ends in Hbody.
  destruct (body s) as [a s'|e s'|] eqn:Eb; [exact Hbody | | exact I].
  cbn. destruct Hbody as [Hn [Hs|(st & Hst & Hf & Hs)]]; (split; [exact Hn|]);
    [left; exact Hs|].
  right. split; [reflexivity|]. exists st. auto.
Qed.

Lemma keeps_conj {A} (I J : Sheet -> Prop) (m : M A) :
  keeps I m -> keeps J m -> keeps (fun s => I s /\ J s) m.
Proof.
  intros HI HJ s [Hi Hj]. specialize (HI s Hi). specialize (HJ s Hj).
  destruct (m s); auto.
Qed.

Lemma keeps_reachable_eval (fuel : nat) (baseCellId formula : string) (updateStore : bool) :
  keeps reachable (eval fuel baseCellId formula updateStore).
Proof.
  intros s Hr. pose proof (reachable_eval s fuel baseCellId formula updateStore Hr) as H.
  unfold after in H. destruct (eval _ _ _ _ s); auto.
Qed.

(** X12: [make] replays the formulas of the store: the sheet it returns is
    a state of the engine like any other, with the name and the store it
    was given, and the store has received no request to update, delete or
    clear; with no store, or with no formula stored, it is the new sheet;
    and when it throws, the store has received no such request either. *)
Theorem make_replays (fuel : nat) (name : string) (store : option Store)
    (stored : result (list (string * string))) :
  match make fuel name store stored with
  | Return ss s' =>
      ss = s' /\ reachable ss /\ Spreadsheet.name ss = name /\ _store ss = store /\
      (store = None \/ stored = Ret [] -> ss = new name store)
  | Throw e s' => store <> None /\ _store s' = store
  | OutOfFuel => True
  end.
Proof.
  unfold make. destruct store as [st|].
  2: { split; [reflexivity|]. split; [apply reachable_new|]. auto. }
  pose (I0 := fun s => reachable s /\ store_is name (Some st) s).
  assert (H0 : I0 (new name (Some st))).
  { split; [apply reachable_new | split; reflexivity]. }
  destruct stored as [pairs|e]; [|split; [discriminate | reflexivity]].
  unfold mbind at 1, M_bind at 1. unfold mbind at 1, M_bind at 1. cbn [lift].
  match goal with |- context [?l pairs (new name (Some st))] => set (loop := l) end.
  assert (Hloop : keeps I0 (loop pairs)).
  { induction pairs as [|[cellId formula] pairs IH]; [apply keeps_ret|].
    apply keeps_bind; [|intros _; exact IH].
    apply keeps_conj; [apply keeps_reachable_eval | apply store_is_eval_false]. }
  specialize (Hloop _ H0).
  destruct (loop pairs (new name (Some st))) as [u s'|e s'|] eqn:El; [| |exact I].
  - cbn. destruct Hloop as [Hr [Hn Hs]]. split; [reflexivity|].
    split; [exact Hr|]. split; [exact Hn|]. split; [exact Hs|].
    intros [H|H]; [discriminate|]. injection H as ->.
    subst loop. cbn in El. inversion El. reflexivity.
  - destruct Hloop as [_ [_ Hs]]. split; [discriminate | exact Hs].
Qed.

End StoreRequests.

(** ** The ids of the table *)

Section Ids.
Import ExprParser Spreadsheet.
Context {N : JSNum}.

Lemma canonical_cellRefToCellId (x : string) : canonical (cellRefToCellId x).
Proof. apply cellRefToCellId_idemp. Qed.

Lemma canonical_toLowerCase (k : string) : canonical k -> Js.toLowerCase k = k.
Proof.
  unfold canonical, cellRefToCellId. intros H.
  rewrite <- H at 1. rewrite toLowerCase_stripDollar, toLowerCase_idemp. exact H.
Qed.

Lemma ids_ok_set_undos_empty (s : Sheet) : ids_ok s -> ids_ok (set_undos (λ _, ∅) s).
Proof.
  intros [Hc Hu]. split; [exact Hc|].
  intros k v. cbn. rewrite lookup_empty. discriminate.
Qed.

Lemma ids_ok_recordUndo (cellId : string) (s : Sheet) :
  canonical cellId -> ids_ok s -> ids_ok (recordUndo cellId s).
Proof.
  intros Hd [Hc Hu]. unfold recordUndo.
  destruct (_undos s !! cellId) eqn:E; [split; assumption|].
  split; [exact Hc|]. intros k v. cbn.
  rewrite lookup_insert. case_decide as Hk; [|apply Hu].
  subst k. intros [= <-]. split; [exact Hd|].
  intros c Hcopy. destruct (_cells s !! cellId) as [c'|] eqn:E'; [|discriminate].
  cbn in Hcopy. injection Hcopy as <-. apply (Hc _ _ E').
Qed.

Lemma keeps_ids_updateCell (cellId : string) (updateFn : CellInfo -> CellInfo) :
  canonical cellId ->
  (forall c, cell_ids_ok cellId c -> cell_ids_ok cellId (updateFn c)) ->
  keeps ids_ok (_updateCell cellId updateFn).
Proof.
  intros Hd Hf s Hs. rewrite updateCell_run.
  destruct (ids_ok_recordUndo cellId s Hd Hs) as [Hc Hu].
  destruct (recordUndo_cells cellId s) as (Hcells & _ & _). rewrite Hcells in Hc.
  split; [|exact Hu].
  intros k c. cbn. rewrite lookup_insert. case_decide as Hk; [|apply Hc].
  subst k. intros [= <-]. split; [exact Hd|]. apply Hf.
  destruct (_cells s !! cellId) as [c|] eqn:E; cbn [default].
  - apply (Hc _ _ E).
  - split; [reflexivity | constructor].
Qed.

Lemma keeps_ids_updateCell_delete (cellId : string) :
  canonical cellId -> keeps ids_ok (_updateCell_delete cellId).
Proof.
  intros Hd s Hs. unfold _updateCell_delete.
  destruct (ids_ok_recordUndo cellId s Hd Hs) as [Hc Hu].
  unfold getOrCreate.
  destruct (_cells (recordUndo cellId s) !! cellId) as [c|] eqn:E; cbn.
  - split; [|exact Hu]. intros k c'. cbn. rewrite lookup_delete.
    case_decide; [discriminate | apply Hc].
  - split; [|exact Hu]. intros k c'. cbn. rewrite lookup_delete.
    case_decide; [discriminate|]. rewrite lookup_insert.
    case_decide; [congruence | apply Hc].
Qed.

Lemma keeps_ids_value (k : string) (v : num) :
  canonical k -> keeps ids_ok (_updateCell k (set_value v)).
Proof. intros Hk. apply keeps_ids_updateCell; [exact Hk | intros c H; exact H]. Qed.

Lemma keeps_ids_add (b str : string) :
  canonical b ->
  keeps ids_ok (_updateCell (cellRefToCellId str) (set_dependents (Set_add b))).
Proof.
  intros Hb. apply keeps_ids_updateCell; [apply canonical_cellRefToCellId|].
  intros c [Hid Hd]. split; [exact Hid|]. cbn. unfold Set_add.
  case_decide; [exact Hd|]. apply Forall_app. split; [exact Hd|]. constructor; auto.
Qed.

Lemma keeps_ids_remove (b str : string) :
  canonical b ->
  keeps ids_ok (_updateCell (cellRefToCellId str) (set_dependents (Set_delete b))).
Proof.
  intros Hb. apply keeps_ids_updateCell; [apply canonical_cellRefToCellId|].
  intros c [Hid Hd]. split; [exact Hid|]. cbn. unfold Set_delete.
  apply Forall_forall. intros x Hx%list_elem_of_filter.
  rewrite Forall_forall in Hd. apply Hd, Hx.
Qed.

Lemma ids_ok_read (s : Sheet) (key : string) (cell : CellInfo) :
  ids_ok s -> _cells s !! key = Some cell -> canonical (id cell).
Proof. intros Hs E. destruct (cells_ids s Hs _ _ E) as [Hk [-> _]]. exact Hk. Qed.

Lemma ids_ok_undo (s : Sheet) : ids_ok s -> ids_ok (_undo s).
Proof.
  intros [Hc Hu]. split; [|exact Hu].
  intros k c. rewrite lookup_undo.
  destruct (_undos s !! k) as [v|] eqn:E; [|apply Hc].
  intros ->. destruct (Hu _ _ E) as [Hd Hid]. split; [exact Hd | apply Hid; reflexivity].
Qed.

Lemma keeps_ids_store_request (op : StoreOp) : keeps ids_ok (store_request op).
Proof.
  intros s [Hc Hu]. unfold store_request.
  destruct (_store s) as [st|]; [|split; assumption].
  destruct (failure st op); split; assumption.
Qed.

Lemma keeps_ids_eval (fuel : nat) (baseCellId formula : string) (updateStore : bool) :
  keeps ids_ok (eval fuel baseCellId formula updateStore).
Proof.
  unfold eval. apply keeps_try_catch; [|apply ids_ok_undo].
  apply keeps_bind; [apply keeps_modify, ids_ok_set_undos_empty|]. intros _.
  apply keeps_get_bind. intros s Hs.
  apply keeps_bind; [apply keeps_lift|]. intros a.
  apply keeps_bind.
  { apply keeps_ids_updateCell; [apply canonical_cellRefToCellId | intros c H; exact H]. }
  intros _. apply keeps_bind.
  { destruct (_cells s !! _ ≫= ast); [|apply keeps_ret].
    apply (kept_removeAsDependent ids_ok canonical keeps_ids_remove).
    apply canonical_cellRefToCellId. }
  intros _. apply keeps_bind.
  { apply (kept_evalCell ids_ok canonical ids_ok_read keeps_ids_value keeps_ids_add). }
  intros [updates w].
  apply keeps_bind; [|intros; apply keeps_ret].
  destruct updateStore; [|apply keeps_ret].
  apply keeps_get_bind. intros; apply keeps_ids_store_request.
Qed.

Lemma ids_ok_delete_key (k : string) (s : Sheet) :
  ids_ok s -> ids_ok (set_cells (base.delete k) s).
Proof.
  intros [Hc Hu]. split; [|exact Hu].
  intros k' c. cbn. rewrite lookup_delete. case_decide; [discriminate | apply Hc].
Qed.

Lemma keeps_ids_delete (fuel : nat) (cellId : string) :
  keeps ids_ok (delete fuel cellId).
Proof.
  unfold delete.
  apply keeps_bind; [apply keeps_modify, ids_ok_set_undos_empty|]. intros _.
  apply keeps_get_bind. intros s Hs.
  apply keeps_bind.
  - destruct (_cells s !! Js.toLowerCase cellId) as [cell|] eqn:E.
    + apply keeps_bind.
      { apply keeps_ids_updateCell_delete. apply (cells_ids s Hs _ _ E). }
      intros _. generalize (∅ : gmap string num).
      induction (dependents cell) as [|d ds IH]; intros results; [apply keeps_ret|].
      apply keeps_get_bind. intros s' Hs'.
      destruct (_cells s' !! d); [|apply keeps_throw].
      apply keeps_bind; [apply keeps_lift|]. intros f.
      apply keeps_bind; [apply keeps_ids_eval|]. intros updates. apply IH.
    + case_decide; [|apply keeps_ret].
      apply keeps_bind; [|intros; apply keeps_throw].
      apply keeps_modify, ids_ok_delete_key.
  - intros results. apply keeps_get_bind. intros s' Hs'.
    apply keeps_bind; [apply keeps_ids_store_request | intros; apply keeps_ret].
Qed.

Lemma keeps_ids_copy (fuel : nat) (destCellId srcCellId : string) :
  keeps ids_ok (copy fuel destCellId srcCellId).
Proof.
  unfold copy.
  apply keeps_bind; [apply keeps_modify, ids_ok_set_undos_empty|]. intros _.
  apply keeps_get_bind. intros s Hs.
  destruct (_cells s !! Js.toLowerCase srcCellId) as [srcCell|]; [|apply keeps_ids_delete].
  apply keeps_bind; [apply keeps_lift|]. intros formula.
  destruct (ast srcCell) as [srcAst|]; [|apply keeps_ids_delete].
  destruct formula; [apply keeps_ids_delete|].
  destruct (toString srcAst _) as [f|[[]|]]; try apply keeps_throw; [apply keeps_ids_eval|].
  apply keeps_bind; [apply keeps_lift | intros; apply keeps_throw].
Qed.

Lemma keeps_ids_clear : keeps ids_ok clear.
Proof.
  unfold clear. apply keeps_get_bind. intros s Hs.
  apply keeps_bind; [apply keeps_ids_store_request|]. intros _.
  apply keeps_bind; [apply keeps_modify, ids_ok_set_undos_empty|]. intros _.
  apply keeps_modify. intros s' [Hc Hu]. split; [|exact Hu].
  intros k c. cbn. rewrite lookup_empty. discriminate.
Qed.

Lemma reachable_ids_ok (s : Sheet) : reachable s -> ids_ok s.
Proof.
  induction 1.
  - split; intros k v; cbn; rewrite lookup_empty; discriminate.
  - apply keeps_after; [apply keeps_ids_eval | assumption].
  - apply keeps_after; [apply keeps_ids_delete | assumption].
  - apply keeps_after; [apply keeps_ids_copy | assumption].
  - apply keeps_after; [apply keeps_ids_clear | assumption].
Qed.

(** What [query] answers for a key of the table. *)
Lemma query_key (s : Sheet) (k : string) (c : CellInfo) :
  reachable s -> _cells s !! k = Some c ->
  exists f, CellInfo_formula c = Ret f /\ query s k = Ret (value c, f).
Proof.
  intros Hr E. destruct (reachable_prints s k c Hr E) as [f Hf].
  exists f. split; [exact Hf|]. unfold query.
  rewrite (canonical_toLowerCase k), E by apply (cells_ids s (reachable_ids_ok s Hr) _ _ E).
  rewrite Hf. reflexivity.
Qed.

(** X13: in every state of a sheet, whatever the calls that led to it and
    however they ended, a cell is stored under its own id, the id is in
    lower case with no dollar sign, the ids of its dependents are too and
    none is listed twice, and [query] of the id answers the value and the
    formula of the cell. *)
Theorem reachable_cells (s : Sheet) (k : string) (c : CellInfo) :
  reachable s ->
  _cells s !! k = Some c ->
  id c = k /\ cellRefToCellId k = k /\
  NoDup (dependents c) /\ Forall (fun d => cellRefToCellId d = d) (dependents c) /\
  exists f, CellInfo_formula c = Ret f /\ query s k = Ret (value c, f).
Proof.
  intros Hr E.
  destruct (cells_ids s (reachable_ids_ok s Hr) _ _ E) as [Hk [Hid Hd]].
  destruct (reachable_cells_wf s Hr _ _ E) as [_ Hnd].
  split; [exact Hid|]. split; [exact Hk|]. split; [exact Hnd|]. split; [exact Hd|].
  apply (query_key s k c Hr E).
Qed.

End Ids.

(** ** The values [eval] returns *)

Section Values.
Import ExprParser Spreadsheet.
Context {N : JSNum}.

Lemma values_kept_updateCell (vals : gmap string num) (s0 : Sheet) (cellId : string)
    (updateFn : CellInfo -> CellInfo) :
  (forall c, value (updateFn c) = value c) ->
  keeps (values_kept_off vals s0) (_updateCell cellId updateFn).
Proof.
  intros Hf s Hs. rewrite updateCell_run.
  intros k Hk v H0. specialize (Hs k Hk v H0). unfold valueAt in *. cbn.
  rewrite lookup_insert. case_decide as E; [|exact Hs]. subst k. cbn. rewrite Hf.
  destruct (_cells s !! cellId); [exact Hs | discriminate].
Qed.

Lemma values_kept_evalAst (vals : gmap string num) (s0 : Sheet) (baseCellId : string)
    (a : Ast) :
  keeps (values_kept_off vals s0) (evalAst baseCellId a).
Proof.
  apply (kept_evalAst (values_kept_off vals s0) (fun _ => True)); [|exact I].
  intros b str _. apply values_kept_updateCell. reflexivity.
Qed.

Lemma has_ast_updateCell (k : string) (a : Ast) (cellId : string)
    (updateFn : CellInfo -> CellInfo) :
  (forall c, ast (updateFn c) = ast c /\ id (updateFn c) = id c) ->
  keeps (has_ast k a) (_updateCell cellId updateFn).
Proof.
  intros Hf s (c & Hc & Ha & Hi). rewrite updateCell_run. unfold has_ast. cbn.
  destruct (decide (cellId = k)) as [->|Hne].
  - rewrite lookup_insert_eq, Hc. cbn. eexists. split; [reflexivity|].
    destruct (Hf c) as [-> ->]. auto.
  - rewrite lookup_insert_ne by exact Hne. eauto.
Qed.

Lemma has_ast_evalCell (k : string) (a : Ast) (fuel : nat) (key : string)
    (working : list string) :
  keeps (has_ast k a) (_evalCell fuel key working).
Proof.
  apply (kept_evalCell (has_ast k a) (fun _ => True)); intros; try exact I;
    apply has_ast_updateCell; intros c; split; reflexivity.
Qed.

Lemma has_ast_removeAsDependent (k : string) (a : Ast) (baseCellId : string) (old : Ast) :
  keeps (has_ast k a) (_removeAsDependent baseCellId old).
Proof.
  apply (kept_removeAsDependent (has_ast k a) (fun _ => True)); intros; try exact I;
    apply has_ast_updateCell; intros c; split; reflexivity.
Qed.

Lemma agree_union (vals' vals : gmap string num) (s s' : Sheet) :
  agree vals' s' -> values_kept_off vals' s s' -> agree vals s -> agree (vals' ∪ vals) s'.
Proof.
  intros H' Hk H k v. rewrite lookup_union_Some_raw.
  intros [E|[E1 E2]]; [apply H', E | apply (Hk k E1), H, E2].
Qed.

(** The values [_evalCell] returns are the values it leaves in the table,
    the value of its own cell among them, and it changes no other value. *)
Lemma evalCell_values (fuel : nat) :
  (forall key working s,
     ends (_evalCell fuel key working) s
       (fun r s' => agree r.1 s' /\ values_kept_off r.1 s s' /\
                    exists cell, _cells s !! key = Some cell /\ is_Some (r.1 !! id cell))
       (fun _ _ => True)) /\
  (forall key i vals working s,
     ends (_evalDependents fuel key i vals working) s
       (fun r s' => (agree vals s -> agree r.1 s') /\ values_kept_off r.1 s s' /\
                    forall k, r.1 !! k = None -> vals !! k = None)
       (fun _ _ => True)).
Proof.
  induction fuel as [|fuel [IHc IHd]]; [split; intros; exact I|].
  split.
  - intros key working s. cbn [_evalCell].
    unfold ends, mbind at 1, M_bind at 1, get.
    destruct (_cells s !! key) as [cell|] eqn:E; [|exact I].
    change (ends (value ← _evalAst (id cell) (ast cell);
                  _ ← _updateCell (id cell) (set_value value);
                  '(vals, working0) ← _evalDependents fuel key 0 {[id cell := value]}
                                        (Set_add (id cell) working);
                  mret (vals, Set_delete (id cell) working0)) s
              (fun r s' => agree r.1 s' /\ values_kept_off r.1 s s' /\
                 exists cell0, Some cell = Some cell0 /\ is_Some (r.1 !! id cell0))
              (fun _ _ => True)).
    eapply ends_bind.
    { apply (ends_keeps (values_kept_off ∅ s)) with (Q := fun _ => values_kept_off ∅ s)
                                                   (E := fun _ _ => True);
        [| intros k _ v H; exact H | auto | auto].
      destruct (ast cell); [apply values_kept_evalAst | apply keeps_ret]. }
    intros v s1 H1. eapply ends_bind.
    { unfold ends. rewrite updateCell_run.
      instantiate (1 := fun _ s2 => forall k, valueAt s2 k =
                           if decide (id cell = k) then Some v else valueAt s1 k).
      cbn. intros k. unfold valueAt. cbn. rewrite lookup_insert.
      case_decide; reflexivity. }
    intros u s2 H2.
    apply (ends_bind _ _ s2 _ _ _ (IHd key 0%nat {[id cell := v]} (Set_add (id cell) working) s2)).
    intros [vals w] s3 (Ha & Hk & Hd). cbn in Ha, Hk, Hd. unfold ends. cbn.
    assert (Hin : is_Some (vals !! id cell)).
    { destruct (vals !! id cell) eqn:Ev; [eauto|].
      specialize (Hd _ Ev). rewrite lookup_singleton_eq in Hd. discriminate. }
    split; [|split; [|eauto]].
    + apply Ha. intros k v'. rewrite lookup_singleton_Some. intros [<- <-].
      rewrite H2. rewrite decide_True by reflexivity. reflexivity.
    + intros k Ek v' Hv. apply (Hk k Ek). rewrite H2.
      case_decide as Eid; [subst k; destruct Hin; congruence|].
      apply (H1 k (lookup_empty k)), Hv.
  - intros key i vals working s. cbn [_evalDependents].
    unfold ends, mbind at 1, M_bind at 1, get.
    destruct (_cells s !! key ≫= _) as [dependent|]; [|cbn; auto].
    { case_decide; [exact I|].
      change (ends ('(vals', working0) ← _evalCell fuel dependent working;
                    _evalDependents fuel key (S i) (vals' ∪ vals) working0) s
                (fun r s' => (agree vals s -> agree r.1 s') /\ values_kept_off r.1 s s' /\
                   forall k, r.1 !! k = None -> vals !! k = None)
                (fun _ _ => True)).
      apply (ends_bind _ _ s _ _ _ (IHc dependent working s)).
      intros [vals' w] s1 (Ha & Hk & _). cbn in Ha, Hk.
      pose proof (IHd key (S i) (vals' ∪ vals) w s1) as Hd. unfold ends in *.
      destruct (_evalDependents fuel key (S i) (vals' ∪ vals) w s1) as [[vals2 w2] s2|e s2|];
        [|exact I|exact I].
      cbn in *. destruct Hd as (Ha2 & Hk2 & Hd2).
      split; [|split].
      + intros H0. apply Ha2, (agree_union _ _ s); assumption.
      + intros k Ek v Hv. apply (Hk2 k Ek). apply (Hk k); [|exact Hv].
        specialize (Hd2 k Ek). apply lookup_union_None in Hd2. tauto.
      + intros k Ek. specialize (Hd2 k Ek). apply lookup_union_None in Hd2. tauto. }
    split; [auto|]. split; [intros k _ v H; exact H | auto].
Qed.

Lemma ends_conj {A} (m : M A) (s : Sheet) Q1 Q2 E1 E2 :
  ends m s Q1 E1 -> ends m s Q2 E2 ->
  ends m s (fun a s' => Q1 a s' /\ Q2 a s') (fun e s' => E1 e s' /\ E2 e s').
Proof. unfold ends. destruct (m s); auto. Qed.

Lemma ends_weaken {A} (m : M A) (s : Sheet) (Q Q' : A -> Sheet -> Prop)
    (E E' : exn -> Sheet -> Prop) :
  ends m s Q' E' -> (forall a s', Q' a s' -> Q a s') -> (forall e s', E' e s' -> E e s') ->
  ends m s Q E.
Proof. unfold ends. destruct (m s); auto. Qed.

Lemma store_request_cells (op : StoreOp) (s : Sheet) :
  ends (store_request op) s (fun _ s' => _cells s' = _cells s) (fun _ _ => True).
Proof.
  unfold ends, store_request. destruct (_store s) as [st|]; [|reflexivity].
  destruct (failure st op); [exact I | reflexivity].
Qed.

(** A call of [eval] that returns has parsed the formula, stored it in the
    cell, taken the cell off the dependents of the cells the old formula
    names and evaluated the cell: what these steps guarantee about the
    table, [eval] guarantees. *)
Lemma eval_returns_general (J J' : Sheet -> Prop)
    (P : Ast -> gmap string num -> Sheet -> Prop)
    (fuel : nat) (baseCellId formula : string) (updateStore : bool) (s : Sheet) :
  table_ok s -> J (set_undos (λ _, ∅) s) ->
  (forall a, keeps J (_updateCell (cellRefToCellId baseCellId) (set_ast a))) ->
  (forall s2, J s2 ->
     ends (match _cells s !! cellRefToCellId baseCellId ≫= ast with
           | Some oldAst => _removeAsDependent (cellRefToCellId baseCellId) oldAst
           | None => mret ()
           end) s2 (fun _ => J') (fun _ _ => True)) ->
  (forall a s3,
     parse formula (cellRefToCellId baseCellId) = Ret a ->
     has_ast (cellRefToCellId baseCellId) a s3 -> table_ok s3 -> J' s3 ->
     ends (_evalCell fuel (cellRefToCellId baseCellId) []) s3
       (fun r s4 => P a r.1 s4) (fun _ _ => True)) ->
  (forall a u s4 s5, _cells s5 = _cells s4 -> P a u s4 -> P a u s5) ->
  forall updates s',
    eval fuel baseCellId formula updateStore s = Return updates s' ->
    exists a, parse formula (cellRefToCellId baseCellId) = Ret a /\ P a updates s'.
Proof.
  intros Hok HJ0 HJ1 HJ2 HP Hcells updates s'. unfold eval, try_catch_rethrow.
  set (cellId := cellRefToCellId baseCellId) in *.
  match goal with |- context [match ?b s with _ => _ end] => set (body := b) end.
  assert (Hbody : ends body s
            (fun updates s' => exists a, parse formula cellId = Ret a /\ P a updates s')
            (fun _ _ => True)).
  { subst body. eapply ends_bind.
    { unfold ends, modify.
      instantiate (1 := fun _ s1 => s1 = set_undos (λ _, ∅) s). reflexivity. }
    intros u1 s1 ->. unfold ends, mbind at 1, M_bind at 1, get.
    set (s1 := set_undos (λ _, ∅) s).
    assert (H1 : table_ok s1) by apply table_ok_set_undos_empty, Hok.
    change (_cells s1) with (_cells s).
    set (old := _cells s !! cellId ≫= ast) in *.
    change (ends (a ← lift (parse formula cellId);
                  _ ← _updateCell cellId (set_ast a);
                  _ ← match old with
                      | Some oldAst => _removeAsDependent cellId oldAst
                      | None => mret ()
                      end;
                  '(updates, _) ← _evalCell fuel cellId [];
                  _ ← (if updateStore
                       then s ← get; store_request (StoreUpdateCell (name s) cellId formula)
                       else mret ());
                  mret updates) s1
              (fun updates s' => exists a, parse formula cellId = Ret a /\ P a updates s')
              (fun _ _ => True)).
    destruct (parse formula cellId) as [a|e] eqn:Ep; [|exact I].
    unfold ends, mbind at 1, M_bind at 1, lift.
    pose (I0 := fun s0 => table_ok s0 /\ has_ast cellId a s0).
    assert (H2 : ends (_updateCell cellId (set_ast a)) s1
                   (fun _ s0 => I0 s0 /\ J s0) (fun _ _ => True)).
    { apply ends_weaken with (Q' := fun _ s0 => (table_ok s0 /\ has_ast cellId a s0) /\ J s0)
                             (E' := fun _ _ => (True /\ True) /\ True); [|auto|auto].
      apply ends_conj; [apply ends_conj|].
      - apply (ends_keeps table_ok); [|exact H1|auto|auto].
        apply keeps_updateCell; [apply nodollar_cellRefToCellId | reflexivity].
      - unfold ends. rewrite updateCell_run. unfold has_ast. cbn.
        rewrite lookup_insert_eq. eexists. split; [reflexivity|]. split; [reflexivity|].
        cbn. destruct (_cells s !! cellId) as [c|] eqn:Ec; cbn; [|reflexivity].
        apply (cells_ok s Hok _ _ Ec).
      - apply (ends_keeps J); [apply HJ1 | exact HJ0 | auto | auto]. }
    apply (ends_bind _ _ s1 _ _ _ H2). intros u2 s2 [Hs2 HJs2]. eapply ends_bind.
    { apply ends_weaken with (Q' := fun _ s0 => I0 s0 /\ J' s0)
                             (E' := fun _ _ => True /\ True); [|intros r s0 H; exact H|auto].
      apply ends_conj; [|apply (HJ2 s2 HJs2)].
      apply (ends_keeps I0); [| exact Hs2 | auto | auto].
      destruct old; [|apply keeps_ret].
      apply keeps_conj; [apply keeps_removeAsDependent | apply has_ast_removeAsDependent]. }
    intros u3 s3 [[Hok3 Hs3] HJ3]. eapply ends_bind; [apply (HP a s3 eq_refl Hs3 Hok3 HJ3)|].
    intros [updates0 w] s4 H4. cbn in H4.
    destruct updateStore.
    - unfold ends, mbind at 1, M_bind at 1. unfold mbind at 1, M_bind at 1, get.
      pose proof (store_request_cells (StoreUpdateCell (name s4) cellId formula) s4) as Hst.
      unfold ends in Hst.
      destruct (store_request _ s4) as [u5 s5|e s5|]; [|exact I|exact I].
      cbn. exists a. split; [reflexivity|]. apply (Hcells a updates0 s4 s5 Hst H4).
    - cbn. exists a. split; [reflexivity | exact H4]. }
  unfold ends in Hbody. destruct (body s) as [r s1|e s1|]; [|discriminate|discriminate].
  intros [= <- <-]. exact Hbody.
Qed.

Lemma eval_returns_with (J : Sheet -> Prop) (P : Ast -> gmap string num -> Sheet -> Prop)
    (fuel : nat) (baseCellId formula : string) (updateStore : bool) (s : Sheet) :
  table_ok s -> J (set_undos (λ _, ∅) s) ->
  (forall a, keeps J (_updateCell (cellRefToCellId baseCellId) (set_ast a))) ->
  (forall old, keeps J (_removeAsDependent (cellRefToCellId baseCellId) old)) ->
  (forall a s3,
     parse formula (cellRefToCellId baseCellId) = Ret a ->
     has_ast (cellRefToCellId baseCellId) a s3 -> table_ok s3 -> J s3 ->
     ends (_evalCell fuel (cellRefToCellId baseCellId) []) s3
       (fun r s4 => P a r.1 s4) (fun _ _ => True)) ->
  (forall a u s4 s5, _cells s5 = _cells s4 -> P a u s4 -> P a u s5) ->
  forall updates s',
    eval fuel baseCellId formula updateStore s = Return updates s' ->
    exists a, parse formula (cellRefToCellId baseCellId) = Ret a /\ P a updates s'.
Proof.
  intros Hok HJ0 HJ1 HJ2. apply (eval_returns_general J J); [assumption..|].
  intros s2 Hs2. apply (ends_keeps J); [|exact Hs2|auto|auto].
  destruct (_ ≫= _); [apply HJ2 | apply keeps_ret].
Qed.

(** What a call of [eval] that returns leaves behind. *)
Lemma eval_returns (fuel : nat) (baseCellId formula : string) (updateStore : bool)
    (s : Sheet) (updates : gmap string num) (s' : Sheet) :
  table_ok s ->
  eval fuel baseCellId formula updateStore s = Return updates s' ->
  exists a, parse formula (cellRefToCellId baseCellId) = Ret a /\
            has_ast (cellRefToCellId baseCellId) a s' /\
            agree updates s' /\ is_Some (updates !! cellRefToCellId baseCellId).
Proof.
  intros Hok.
  apply (eval_returns_with (fun _ => True)
           (fun a updates s' =>
              has_ast (cellRefToCellId baseCellId) a s' /\ agree updates s' /\
              is_Some (updates !! cellRefToCellId baseCellId)));
    [exact Hok | exact I | intros a0 s0 _; destruct (_updateCell _ _ s0); exact I
    | intros a0 s0 _; destruct (_removeAsDependent _ _ s0); exact I | |].
  - intros a s3 _ Hs3 _ _.
    eapply ends_weaken.
    { apply ends_conj; [apply (proj1 (evalCell_values fuel) (cellRefToCellId baseCellId) [] s3)|].
      apply (ends_keeps (has_ast (cellRefToCellId baseCellId) a))
        with (Q := fun _ => has_ast (cellRefToCellId baseCellId) a) (E := fun _ _ => True);
        [apply has_ast_evalCell | exact Hs3 | auto | auto]. }
    + intros [updates0 w] s4 [(Hag & _ & cell & Hcell & Hin) Hs4]. cbn in *.
      destruct Hs3 as (c3 & Hc3 & _ & Hid3). rewrite Hc3 in Hcell.
      injection Hcell as <-. rewrite Hid3 in Hin. auto.
    + auto.
  - intros a u s4 s5 E5. unfold has_ast, agree, valueAt. rewrite E5. auto.
Qed.

(** X14: when [eval] returns, the values it returns are those [query]
    answers afterwards, cell by cell; the cell of the call is among them,
    and [query] shows, as its formula, the text of the formula as parsed. *)
Theorem eval_then_query (fuel : nat) (baseCellId formula : string) (updateStore : bool)
    (s : Sheet) (updates : gmap string num) (s' : Sheet) :
  reachable s ->
  eval fuel baseCellId formula updateStore s = Return updates s' ->
  exists a text v,
    parse formula (cellRefToCellId baseCellId) = Ret a /\
    toString a (cellRefToCellId baseCellId) = Ret text /\
    updates !! cellRefToCellId baseCellId = Some v /\
    query s' (cellRefToCellId baseCellId) = Ret (v, text) /\
    forall k v', updates !! k = Some v' -> exists text', query s' k = Ret (v', text').
Proof.
  intros Hr He.
  assert (Hr' : reachable s').
  { pose proof (reachable_eval s fuel baseCellId formula updateStore Hr) as H.
    unfold after in H. rewrite He in H. exact H. }
  destruct (eval_returns _ _ _ _ _ _ _ (reachable_table_ok s Hr) He)
    as (a & Hp & (c & Hc & Ha & Hid) & Hag & [v Hv]).
  destruct (parse_prints _ _ _ Hp) as [text Ht].
  assert (Hq : forall k v', updates !! k = Some v' ->
                 exists c', _cells s' !! k = Some c' /\ value c' = v').
  { intros k v' Hk. specialize (Hag k v' Hk). unfold valueAt in Hag.
    destruct (_cells s' !! k) as [c'|]; [|discriminate]. injection Hag as <-. eauto. }
  exists a, text, v. split; [exact Hp|]. split; [exact Ht|]. split; [exact Hv|]. split.
  - destruct (Hq _ _ Hv) as (c' & Hc' & Hv'). rewrite Hc in Hc'. injection Hc' as <-.
    destruct (query_key s' _ c Hr' Hc) as (f0 & Hf & Hquery).
    unfold CellInfo_formula in Hf. rewrite Ha, Hid, Ht in Hf. injection Hf as <-.
    rewrite Hquery, Hv'. reflexivity.
  - intros k v' Hk. destruct (Hq _ _ Hk) as (c' & Hc' & Hv').
    destruct (query_key s' k c' Hr' Hc') as (f0 & _ & Hquery).
    exists f0. rewrite Hquery, Hv'. reflexivity.
Qed.

End Values.

(** ** The dependents [eval] records *)

Section Dependents.
Import ExprParser Spreadsheet.
Context {N : JSNum}.

Lemma deps_grow_refl (s : Sheet) : deps_grow s s.
Proof. intros k c E. eauto. Qed.

Lemma deps_grow_trans (s0 s1 s2 : Sheet) :
  deps_grow s0 s1 -> deps_grow s1 s2 -> deps_grow s0 s2.
Proof.
  intros H1 H2 k c E. destruct (H1 k c E) as (c1 & E1 & P1).
  destruct (H2 k c1 E1) as (c2 & E2 & P2). exists c2. split; [exact E2|].
  etrans; eassumption.
Qed.

Lemma deps_grow_updateCell (s0 : Sheet) (cellId : string) (updateFn : CellInfo -> CellInfo) :
  (forall c, dependents c `prefix_of` dependents (updateFn c)) ->
  keeps (deps_grow s0) (_updateCell cellId updateFn).
Proof.
  intros Hf s Hs. rewrite updateCell_run. intros k c E.
  destruct (Hs k c E) as (c1 & E1 & P1). cbn. rewrite lookup_insert.
  case_decide as Ek; [|eauto]. subst k. rewrite E1. cbn [default].
  eexists. split; [reflexivity|]. etrans; [exact P1 | apply Hf].
Qed.

Lemma prefix_Set_add (b : string) (l : list string) : l `prefix_of` Set_add b l.
Proof. unfold Set_add. case_decide; [reflexivity | apply prefix_app_r; reflexivity]. Qed.

Lemma elem_of_Set_add (b : string) (l : list string) : b ∈ Set_add b l.
Proof.
  unfold Set_add. case_decide; [assumption|]. apply elem_of_app. right. constructor.
Qed.

Lemma deps_grow_evalAst (s0 : Sheet) (baseCellId : string) (a : Ast) :
  keeps (deps_grow s0) (evalAst baseCellId a).
Proof.
  apply (kept_evalAst (deps_grow s0) (fun _ => True)); [|exact I].
  intros b str _. apply deps_grow_updateCell. intros c. apply prefix_Set_add.
Qed.

Lemma deps_grow_evalCell (s0 : Sheet) (fuel : nat) :
  (forall key working, keeps (deps_grow s0) (_evalCell fuel key working)) /\
  (forall key i vals working, keeps (deps_grow s0) (_evalDependents fuel key i vals working)).
Proof.
  apply (kept_evalCell (deps_grow s0) (fun _ => True)); intros; try exact I;
    apply deps_grow_updateCell; intros c; [reflexivity | apply prefix_Set_add].
Qed.

Lemma registered_grow (baseCellId : string) (r : CellRef) (s s' : Sheet) :
  deps_grow s s' -> registered baseCellId r s -> registered baseCellId r s'.
Proof.
  intros Hg (str & c & Hs & Hc & Hin). destruct (Hg _ _ Hc) as (c' & Hc' & Hp).
  exists str, c'. split; [exact Hs|]. split; [exact Hc'|].
  destruct Hp as [l ->]. apply elem_of_app. left. exact Hin.
Qed.

(** The evaluation of a formula registers its cell with every cell the
    formula names. *)
Lemma evalAst_registers (baseCellId : string) (a : Ast) (s : Sheet) :
  ends (evalAst baseCellId a) s
    (fun _ s' => deps_grow s s' /\ Forall (fun r => registered baseCellId r s') (refs a))
    (fun _ _ => True).
Proof.
  revert s. induction a as [v|r|fn kids IH] using Ast_induction; intros s; cbn [evalAst refs].
  - split; [apply deps_grow_refl | constructor].
  - unfold ends, mbind at 1, M_bind at 1, lift.
    destruct (toString (Ref r) baseCellId) as [str|e] eqn:Es; [|exact I].
    unfold mbind at 1, M_bind at 1. rewrite updateCell_run. cbn.
    split.
    + intros k c E. cbn. rewrite lookup_insert. case_decide as Ek; [|eauto].
      subst k. rewrite E. cbn. eexists. split; [reflexivity | apply prefix_Set_add].
    + constructor; [|constructor]. exists str. eexists. split; [exact Es|]. cbn.
      rewrite lookup_insert_eq. split; [reflexivity|]. cbn. apply elem_of_Set_add.
  - eapply ends_bind with
      (Q1 := fun _ s' => deps_grow s s' /\
                         Forall (fun r => registered baseCellId r s') (flat_map refs kids)).
    2: { intros args s1 H1. unfold ends.
         destruct (FNS fn args); [exact H1 | exact I]. }
    revert s. induction IH as [|k ks Hk _ IHks]; intros s.
    + split; [apply deps_grow_refl | constructor].
    + eapply ends_bind; [apply Hk|]. intros v s1 [Hg1 Hr1].
      eapply ends_bind; [apply IHks|]. intros vs s2 [Hg2 Hr2]. unfold ends. cbn.
      split; [eapply deps_grow_trans; eassumption|].
      apply Forall_app. split; [|exact Hr2].
      eapply Forall_impl; [exact Hr1|]. intros r. apply registered_grow, Hg2.
Qed.

Lemma evalCell_registers (fuel : nat) (key : string) (working : list string)
    (a : Ast) (s : Sheet) :
  has_ast key a s ->
  ends (_evalCell fuel key working) s
    (fun _ s' => Forall (fun r => registered key r s') (refs a)) (fun _ _ => True).
Proof.
  intros (c & Hc & Ha & Hid). destruct fuel as [|fuel]; [exact I|].
  cbn [_evalCell]. unfold ends, mbind at 1, M_bind at 1, get. rewrite Hc, Ha, Hid.
  change (ends (value ← evalAst key a;
                _ ← _updateCell key (set_value value);
                '(vals, working0) ← _evalDependents fuel key 0 {[key := value]}
                                      (Set_add key working);
                mret (vals, Set_delete key working0)) s
            (fun _ s' => Forall (fun r => registered key r s') (refs a)) (fun _ _ => True)).
  eapply ends_bind; [apply evalAst_registers|]. intros v s1 [_ H1].
  pose (I0 := fun s0 => deps_grow s1 s0).
  assert (Hend : forall s0, I0 s0 -> Forall (fun r => registered key r s0) (refs a)).
  { intros s0 Hg. eapply Forall_impl; [exact H1|]. intros r. apply registered_grow, Hg. }
  eapply ends_bind.
  { apply (ends_keeps I0) with (Q := fun _ => I0) (E := fun _ _ => True);
      [|apply deps_grow_refl|auto|auto].
    apply deps_grow_updateCell. reflexivity. }
  intros u s2 H2. eapply ends_bind.
  { apply (ends_keeps I0) with (Q := fun _ => I0) (E := fun _ _ => True);
      [|exact H2|auto|auto]. apply deps_grow_evalCell. }
  intros [vals w] s3 H3. apply Hend, H3.
Qed.

(** X15: when [eval] returns, the cell is on record as a dependent of every
    cell its formula names: a later change of any of them evaluates it
    again. *)
Theorem eval_registers_dependents (fuel : nat) (baseCellId formula : string)
    (updateStore : bool) (s : Sheet) (updates : gmap string num) (s' : Sheet) :
  reachable s ->
  eval fuel baseCellId formula updateStore s = Return updates s' ->
  exists a,
    parse formula (cellRefToCellId baseCellId) = Ret a /\
    forall r, r ∈ refs a ->
      exists str c,
        toString (Ref r) (cellRefToCellId baseCellId) = Ret str /\
        _cells s' !! cellRefToCellId str = Some c /\
        cellRefToCellId baseCellId ∈ dependents c.
Proof.
  intros Hr He.
  destruct (eval_returns_with (fun _ => True)
              (fun a _ s' =>
                 Forall (fun r => registered (cellRefToCellId baseCellId) r s') (refs a))
              fuel baseCellId formula updateStore s (reachable_table_ok s Hr) I)
    with (updates := updates) (s' := s') as (a & Hp & Hreg).
  - intros a0 s0 _; destruct (_updateCell _ _ s0); exact I.
  - intros a0 s0 _; destruct (_removeAsDependent _ _ s0); exact I.
  - intros a s3 _ Hs3 _ _. apply evalCell_registers, Hs3.
  - intros a u s4 s5 E5. unfold registered. rewrite E5. auto.
  - exact He.
  - exists a. split; [exact Hp|]. intros r Hin.
    rewrite Forall_forall in Hreg. apply Hreg, Hin.
Qed.

(** What is in the working set stays there while other cells are
    evaluated. *)
Lemma evalCell_working (fuel : nat) :
  (forall key working s, table_ok s ->
     ends (_evalCell fuel key working) s
       (fun r _ => forall x, x ∈ working -> x <> key -> x ∈ r.2) (fun _ _ => True)) /\
  (forall key i vals working s, table_ok s ->
     ends (_evalDependents fuel key i vals working) s
       (fun r _ => forall x, x ∈ working -> x ∈ r.2) (fun _ _ => True)).
Proof.
  induction fuel as [|fuel [IHc IHd]]; [split; intros; exact I|].
  split.
  - intros key working s Hok. cbn [_evalCell].
    unfold ends, mbind at 1, M_bind at 1, get.
    destruct (_cells s !! key) as [cell|] eqn:E; [|exact I].
    destruct (cells_ok s Hok _ _ E) as [Hid Hd]. rewrite Hid.
    change (ends (value ← _evalAst key (ast cell);
                  _ ← _updateCell key (set_value value);
                  '(vals, working0) ← _evalDependents fuel key 0 {[key := value]}
                                        (Set_add key working);
                  mret (vals, Set_delete key working0)) s
              (fun r _ => forall x, x ∈ working -> x <> key -> x ∈ r.2) (fun _ _ => True)).
    eapply ends_bind.
    { apply (ends_keeps table_ok) with (Q := fun _ => table_ok) (E := fun _ _ => True);
        [|exact Hok|auto|auto].
      destruct (ast cell); [apply keeps_evalAst | apply keeps_ret]. }
    intros v s1 H1. eapply ends_bind.
    { apply (ends_keeps table_ok) with (Q := fun _ => table_ok) (E := fun _ _ => True);
        [|exact H1|auto|auto].
      apply keeps_updateCell; [exact Hd | reflexivity]. }
    intros u s2 H2. eapply ends_bind; [apply (IHd _ _ _ _ _ H2)|].
    intros [vals w] s3 H3. cbn in H3. unfold ends. cbn.
    intros x Hx Hne. unfold Set_delete. apply list_elem_of_filter. split; [exact Hne|].
    apply H3. unfold Set_add. case_decide; [exact Hx|]. apply elem_of_app. left. exact Hx.
  - intros key i vals working s Hok. cbn [_evalDependents].
    unfold ends, mbind at 1, M_bind at 1, get.
    destruct (_cells s !! key ≫= _) as [dependent|]; [|cbn; auto].
    case_decide as Hin; [exact I|].
    change (ends ('(vals', working0) ← _evalCell fuel dependent working;
                  _evalDependents fuel key (S i) (vals' ∪ vals) working0) s
              (fun r _ => forall x, x ∈ working -> x ∈ r.2) (fun _ _ => True)).
    eapply ends_bind.
    { eapply ends_weaken; [|intros r s0 H; exact H | auto].
      apply ends_conj; [apply (IHc dependent working s Hok)|].
      apply (ends_keeps table_ok) with (Q := fun _ => table_ok) (E := fun _ _ => True);
        [apply keeps_evalCell | exact Hok | auto | auto]. }
    intros [vals' w] s1 [H1 Hok1]. cbn in H1.
    eapply ends_weaken; [apply (IHd key (S i) (vals' ∪ vals) w s1 Hok1) | | auto].
    intros [vals2 w2] s2 H2 x Hx. cbn in *. apply H2, H1; [exact Hx|].
    intros ->. contradiction.
Qed.

(** The loop over the dependents of a cell does not get past a dependent
    that is in the working set. *)
Lemma evalDependents_blocked (fuel : nat) :
  forall key i vals working s c p d,
    table_ok s -> _cells s !! key = Some c -> dependents c !! p = Some d ->
    (i <= p)%nat -> d ∈ working ->
    ends (_evalDependents fuel key i vals working) s (fun _ _ => False) (fun _ _ => True).
Proof.
  induction fuel as [|fuel IH]; intros key i vals working s c p d Hok Hc Hp Hi Hd;
    [exact I|].
  cbn [_evalDependents]. unfold ends, mbind at 1, M_bind at 1, get. rewrite Hc. cbn.
  destruct (dependents c !! i) as [dependent|] eqn:Ei.
  2: { apply lookup_ge_None in Ei. apply lookup_lt_Some in Hp. lia. }
  case_decide as Hin; [exact I|].
  assert (Hlt : (S i <= p)%nat).
  { destruct (decide (i = p)) as [->|]; [|lia]. congruence. }
  change (ends ('(vals', working0) ← _evalCell fuel dependent working;
                _evalDependents fuel key (S i) (vals' ∪ vals) working0) s
            (fun _ _ => False) (fun _ _ => True)).
  eapply ends_bind.
  { eapply ends_weaken; [|intros r s0 H; exact H | auto].
    apply ends_conj; [apply (proj1 (evalCell_working fuel) dependent working s Hok)|].
    apply ends_conj.
    - apply (ends_keeps table_ok) with (Q := fun _ => table_ok) (E := fun _ _ => True);
        [apply keeps_evalCell | exact Hok | auto | auto].
    - apply (ends_keeps (deps_grow s)) with (Q := fun _ => deps_grow s)
                                            (E := fun _ _ => True);
        [apply deps_grow_evalCell | apply deps_grow_refl | auto | auto]. }
  intros [vals' w] s1 (Hw & Hok1 & Hg). cbn in Hw.
  destruct (Hg _ _ Hc) as (c' & Hc' & Hpre).
  apply (IH key (S i) (vals' ∪ vals) w s1 c' p d Hok1 Hc'); [|exact Hlt|].
  - apply (prefix_lookup_Some _ _ _ _ Hp Hpre).
  - apply Hw; [exact Hd|]. intros ->. contradiction.
Qed.

(** The evaluation of a cell whose formula names the cell does not
    return. *)
Lemma evalCell_self (fuel : nat) (key : string) (working : list string) (s : Sheet)
    (a : Ast) (r : CellRef) (str : string) :
  table_ok s -> has_ast key a s ->
  r ∈ refs a -> toString (Ref r) key = Ret str -> cellRefToCellId str = key ->
  ends (_evalCell fuel key working) s (fun _ _ => False) (fun _ _ => True).
Proof.
  intros Hok (c & Hc & Ha & Hid) Hr Hs Hk. destruct fuel as [|fuel]; [exact I|].
  cbn [_evalCell]. unfold ends, mbind at 1, M_bind at 1, get. rewrite Hc, Ha, Hid.
  change (ends (value ← evalAst key a;
                _ ← _updateCell key (set_value value);
                '(vals, working0) ← _evalDependents fuel key 0 {[key := value]}
                                      (Set_add key working);
                mret (vals, Set_delete key working0)) s
            (fun _ _ => False) (fun _ _ => True)).
  eapply ends_bind.
  { eapply ends_weaken; [|intros v s0 H; exact H | auto].
    apply ends_conj; [apply evalAst_registers|].
    apply (ends_keeps table_ok) with (Q := fun _ => table_ok) (E := fun _ _ => True);
      [apply keeps_evalAst | exact Hok | auto | auto]. }
  intros v s1 [[_ Hreg] Hok1].
  rewrite Forall_forall in Hreg. destruct (Hreg r Hr) as (str' & c1 & Hs' & Hc1 & Hin).
  rewrite Hs in Hs'. injection Hs' as <-. rewrite Hk in Hc1.
  assert (Hd : nodollar key) by apply (cells_ok s1 Hok1 _ _ Hc1).
  unfold ends, mbind at 1, M_bind at 1.
  pose proof (keeps_updateCell key (set_value v) Hd ltac:(reflexivity) s1 Hok1) as Hok2.
  rewrite updateCell_run in *. rewrite Hc1 in *. cbn [default] in *.
  match goal with |- context [set_cells ?f ?s0] => set (s2 := set_cells f s0) in * end.
  apply list_elem_of_lookup in Hin as [p Hp].
  eapply ends_bind.
  { apply (evalDependents_blocked fuel key 0%nat _ (Set_add key working) s2
             (set_value v c1) p key Hok2).
    - subst s2. cbn. apply lookup_insert_eq.
    - exact Hp.
    - lia.
    - apply elem_of_Set_add. }
  intros r0 s3 [].
Qed.

(** X16: a formula that names its own cell is never accepted: [eval] does
    not return, in whatever state of the sheet it is called. *)
Theorem eval_self_reference (fuel : nat) (baseCellId formula : string)
    (updateStore : bool) (s : Sheet) (a : Ast) (r : CellRef) (str : string) :
  reachable s ->
  parse formula (cellRefToCellId baseCellId) = Ret a ->
  r ∈ refs a ->
  toString (Ref r) (cellRefToCellId baseCellId) = Ret str ->
  cellRefToCellId str = cellRefToCellId baseCellId ->
  returned (eval fuel baseCellId formula updateStore s) = None.
Proof.
  intros Hr Hp Hin Hs Hk.
  destruct (eval fuel baseCellId formula updateStore s) as [updates s'| |] eqn:He;
    [exfalso | reflexivity | reflexivity].
  destruct (eval_returns_with (fun _ => True) (fun _ _ _ => False)
              fuel baseCellId formula updateStore s (reachable_table_ok s Hr) I)
    with (updates := updates) (s' := s') as (a' & _ & []);
    [ intros a0 s0 _; destruct (_updateCell _ _ s0); exact I
    | intros a0 s0 _; destruct (_removeAsDependent _ _ s0); exact I
    | | auto | exact He].
  intros a' s3 Hp' Hs3 Hok3 _. rewrite Hp in Hp'. injection Hp' as <-.
  apply (evalCell_self fuel _ [] s3 a r str Hok3 Hs3 Hin Hs Hk).
Qed.

End Dependents.

(** ** What [valueFormulas] returns *)

Section ValueFormulas.
Import ExprParser Spreadsheet.
Context {N : JSNum}.

Lemma foldl_insert_lookup {V} (entries : list (string * V)) (m : gmap string V)
    (k : string) (v : V) :
  (forall k v v', (k, v) ∈ entries -> (k, v') ∈ entries -> v = v') ->
  (foldl (λ m entry, <[fst entry := snd entry]> m) m entries) !! k = Some v <->
  (k, v) ∈ entries \/ ((k ∉ entries.*1) /\ m !! k = Some v).
Proof.
  revert m. induction entries as [|[k0 v0] l IH]; intros m Hfun.
  - cbn. split.
    + intros H. right. split; [apply not_elem_of_nil | exact H].
    + intros [H|[_ H]]; [inversion H | exact H].
  - cbn [foldl fst snd].
    rewrite IH by (intros k1 v1 v1' H1 H2; apply (Hfun k1); apply elem_of_cons; tauto).
    rewrite fmap_cons. cbn [fst]. rewrite elem_of_cons, not_elem_of_cons, lookup_insert.
    case_decide as E.
    + subst k0. split.
      * intros [H|[Hn H]]; [tauto|]. injection H as <-. tauto.
      * intros [[H|H]|[[Hn _] _]]; [| tauto | congruence].
        injection H as ->.
        destruct (decide (k ∈ l.*1)) as [Hin|Hn]; [|tauto].
        apply list_elem_of_fmap in Hin as ([k1 v1] & Hk & Hin). cbn in Hk. subst k1.
        left. rewrite (Hfun k v0 v1); [exact Hin | | ]; apply elem_of_cons; tauto.
    + split.
      * intros [H|[Hn H]]; [tauto|]. right. split; [split; [congruence | exact Hn] | exact H].
      * intros [[H|H]|[[_ Hn] H]]; [congruence | tauto | tauto].
Qed.

Lemma fromEntries_lookup {V} (entries : list (string * V)) (k : string) (v : V) :
  (forall k v v', (k, v) ∈ entries -> (k, v') ∈ entries -> v = v') ->
  fromEntries entries !! k = Some v <-> (k, v) ∈ entries.
Proof.
  intros Hfun. unfold fromEntries. rewrite foldl_insert_lookup by exact Hfun.
  rewrite lookup_empty. split; [intros [H|[_ H]]; [exact H | discriminate] | tauto].
Qed.

(** In a state of the sheet [query] returns for every id. *)
Lemma query_returns (s : Sheet) (cellId : string) :
  reachable s -> exists q, query s cellId = Ret q.
Proof.
  intros Hr. unfold query.
  destruct (_cells s !! Js.toLowerCase cellId) as [c|] eqn:E; [|eauto].
  destruct (reachable_prints s _ c Hr E) as [f ->]. cbn. eauto.
Qed.

Lemma pairValues_spec {V} (s : Sheet) (pairs : list (string * V)) :
  reachable s ->
  exists m, pairValues s pairs = Ret m /\
            forall k q, m !! k = Some q <-> k ∈ pairs.*1 /\ query s k = Ret q.
Proof.
  intros Hr. unfold pairValues.
  assert (H : exists entries,
            mapM (M := result) (λ pair : string * V, q ← query s pair.1; Ret (pair.1, q))
                 pairs = Ret entries /\
            forall k q, (k, q) ∈ entries <-> k ∈ pairs.*1 /\ query s k = Ret q).
  { induction pairs as [|[k0 x0] l (entries & Hm & Hin)].
    - exists []. split; [reflexivity|]. intros k q. cbn. rewrite !elem_of_nil. tauto.
    - destruct (query_returns s k0 Hr) as [q0 Hq0].
      exists ((k0, q0) :: entries). split.
      + cbn [mapM fst]. rewrite Hq0. cbn. rewrite Hm. reflexivity.
      + intros k q. rewrite fmap_cons, !elem_of_cons, Hin. cbn [fst]. split.
        * intros [H|H]; [injection H as -> ->; tauto | tauto].
        * intros [[->|H] Hq]; [left | tauto]. congruence. }
  destruct H as (entries & -> & Hin). cbn. eexists. split; [reflexivity|].
  intros k q. rewrite fromEntries_lookup; [apply Hin|].
  intros k1 v v' H1 H2. apply Hin in H1 as [_ H1]. apply Hin in H2 as [_ H2]. congruence.
Qed.

(** X17: for every list of pairs, [valueFormulas] returns in every state
    of the sheet: an object with a property for each id of the list, as it
    is written there, whose value is the answer of [query] for the id. *)
Theorem valueFormulas_of_pairs {V} (fuel : nat) (s : Sheet) (pairs : list (string * V)) :
  reachable s ->
  exists m,
    valueFormulas fuel s (Some pairs) = Some (Ret m) /\
    forall k q, m !! k = Some q <-> k ∈ pairs.*1 /\ query s k = Ret q.
Proof.
  intros Hr. destruct (pairValues_spec s pairs Hr) as (m & Hm & H).
  exists m. split; [cbn; rewrite Hm; reflexivity | exact H].
Qed.

(** X18: with no argument, [valueFormulas] returns an object with a
    property for each cell that has a formula, and for no other id, whose
    value is the answer of [query] for the cell. *)
Theorem valueFormulas_default (s : Sheet) (depth : string -> nat) (fuel : nat) :
  reachable s ->
  is_depth s depth ->
  (size (_cells s) <= fuel)%nat ->
  exists m,
    valueFormulas (V := string) fuel s None = Some (Ret m) /\
    forall k q, m !! k = Some q <-> nonEmptyCell s k /\ query s k = Ret q.
Proof.
  intros Hr Hdepth Hfuel.
  destruct (dump_order_wf s depth (reachable_cells_wf s Hr) Hdepth fuel)
    as (l & Hl & _ & Hin); [intros k c; apply reachable_prints, Hr | exact Hfuel |].
  destruct (pairValues_spec s l Hr) as (m & Hm & H).
  exists m. split; [cbn; rewrite Hl; cbn; rewrite Hm; reflexivity|].
  intros k q. rewrite H. split; intros [Hk Hq]; (split; [|exact Hq]).
  - apply list_elem_of_fmap in Hk as ([k' f] & -> & Hk). apply Hin in Hk as (c & Hc & He & _).
    exists c. auto.
  - destruct Hk as (c & Hc & He). destruct (reachable_prints s k c Hr Hc) as [f Hf].
    apply list_elem_of_fmap. exists (k, f). split; [reflexivity|]. apply Hin. eauto.
Qed.

End ValueFormulas.

(** ** After [clear] and [delete] *)

Section ClearDelete.
Import ExprParser Spreadsheet.
Context {N : JSNum}.

Lemma query_empty_at (s : Sheet) (cellId : string) :
  empty_at (Js.toLowerCase cellId) s -> query s cellId = Ret (zero, "").
Proof.
  unfold empty_at, query. destruct (_cells s !! Js.toLowerCase cellId) as [c|]; [|reflexivity].
  intros [Ha Hv]. unfold CellInfo_formula. rewrite Ha, Hv. reflexivity.
Qed.

Lemma dump_empty (fuel : nat) (s : Sheet) : _cells s = ∅ -> dump fuel s = Some (Ret []).
Proof.
  intros E. unfold dump, _makePrereqs. rewrite E, map_to_list_empty. cbn.
  rewrite map_to_list_empty. cbn. destruct fuel; reflexivity.
Qed.

(** X19: when [clear] returns, the table is empty: [query] answers the
    value zero and no formula for every id, [dump] returns no pair, and the
    store has received the request to clear the sheet; when it throws, it
    is the store that refused the request, and the table is as it was. *)
Theorem clear_outcome (s : Sheet) :
  let op := StoreClear (name s) in
  match clear s with
  | Return _ s' =>
      _store s' = logged op <$> _store s /\
      (forall cellId, query s' cellId = Ret (zero, "")) /\
      (forall fuel, dump fuel s' = Some (Ret []))
  | Throw e s' =>
      _cells s' = _cells s /\
      exists st, _store s = Some st /\ failure st op = Some e /\
                 _store s' = Some (logged op st)
  | OutOfFuel => False
  end.
Proof.
  intros op. unfold clear, mbind, M_bind, get, store_request, modify. fold op.
  destruct (_store s) as [st|] eqn:Es.
  - destruct (failure st op) as [e|] eqn:Ef; cbn.
    + split; [reflexivity|]. exists st. auto.
    + split; [reflexivity|]. split.
      * intros cellId. apply query_empty_at. unfold empty_at. cbn.
        rewrite lookup_empty. exact I.
      * intros fuel. apply dump_empty. reflexivity.
  - cbn. split; [exact Es|]. split.
    + intros cellId. apply query_empty_at. unfold empty_at. cbn.
      rewrite lookup_empty. exact I.
    + intros fuel. apply dump_empty. reflexivity.
Qed.

Lemma empty_at_updateCell (k cellId : string) (updateFn : CellInfo -> CellInfo) :
  cellId <> k \/
  (forall c, ast c = None /\ value c = zero ->
             ast (updateFn c) = None /\ value (updateFn c) = zero) ->
  keeps (empty_at k) (_updateCell cellId updateFn).
Proof.
  intros Hf s Hs. rewrite updateCell_run. unfold empty_at in *. cbn.
  rewrite lookup_insert. case_decide as E; [|exact Hs]. subst cellId.
  destruct Hf as [Hf|Hf]; [congruence|]. cbn. apply Hf.
  destruct (_cells s !! k); [exact Hs | split; reflexivity].
Qed.

Lemma empty_at_evalAst (k baseCellId : string) (a : Ast) :
  keeps (empty_at k) (evalAst baseCellId a).
Proof.
  apply (kept_evalAst (empty_at k) (fun _ => True)); [|exact I].
  intros b str _. apply empty_at_updateCell. right. intros c H. exact H.
Qed.

Lemma empty_at_removeAsDependent (k baseCellId : string) (a : Ast) :
  keeps (empty_at k) (_removeAsDependent baseCellId a).
Proof.
  apply (kept_removeAsDependent (empty_at k) (fun _ => True)); [|exact I].
  intros b str _. apply empty_at_updateCell. right. intros c H. exact H.
Qed.

(** The evaluation of the cells leaves a cell with no formula at the value
    zero. *)
Lemma empty_at_evalCell (k : string) (fuel : nat) :
  (forall key working,
     keeps (fun s => table_ok s /\ empty_at k s) (_evalCell fuel key working)) /\
  (forall key i vals working,
     keeps (fun s => table_ok s /\ empty_at k s) (_evalDependents fuel key i vals working)).
Proof.
  induction fuel as [|fuel [IHc IHd]]; [split; intros; intros s Hs; exact I|].
  split.
  - intros key working. cbn [_evalCell].
    apply keeps_get_bind. intros s [Hok He].
    destruct (_cells s !! key) as [cell|] eqn:E; [|apply keeps_throw].
    destruct (cells_ok s Hok _ _ E) as [Hid Hd]. rewrite Hid.
    destruct (decide (key = k)) as [->|Hne].
    + unfold empty_at in He. rewrite E in He. destruct He as [Ha Hv]. rewrite Ha.
      cbn [_evalAst].
      assert (Hrest : keeps (fun s => table_ok s /\ empty_at k s)
                (_ ← _updateCell k (set_value zero);
                 '(vals, working0) ← _evalDependents fuel k 0 {[k := zero]} (Set_add k working);
                 mret (vals, Set_delete k working0))).
      { apply keeps_bind;
          [|intros u; apply keeps_bind; [apply IHd | intros [? ?]; apply keeps_ret]].
        apply keeps_conj; [apply keeps_updateCell; [exact Hd | reflexivity]|].
        apply empty_at_updateCell. right. intros c [Hc _]. split; [exact Hc | reflexivity]. }
      intros s0 Hs0. exact (Hrest s0 Hs0).
    + apply keeps_bind.
      { destruct (ast cell); [|apply keeps_ret].
        apply keeps_conj; [apply keeps_evalAst | apply empty_at_evalAst]. }
      intros v. apply keeps_bind.
      { apply keeps_conj; [apply keeps_updateCell; [exact Hd | reflexivity]|].
        apply empty_at_updateCell. left. exact Hne. }
      intros u. apply keeps_bind; [apply IHd | intros [? ?]; apply keeps_ret].
  - intros key i vals working. cbn [_evalDependents].
    apply keeps_get_bind. intros s Hs.
    destruct (_cells s !! key ≫= _) as [dependent|]; [|apply keeps_ret].
    case_decide; [apply keeps_throw|].
    apply keeps_bind; [apply IHc|]. intros [vals' w]. apply IHd.
Qed.

(** The empty formula does not parse. *)
Lemma parse_empty (baseCellId : string) : exists e, parse "" baseCellId = Raise e.
Proof.
  unfold parse. destruct (CellRef_new baseCellId None) as [base|e]; [|eauto].
  cbn. eauto.
Qed.

(** A call of [eval] for another cell leaves a cell with no formula as it
    is. *)
Lemma eval_keeps_empty (k : string) (fuel : nat) (baseCellId formula : string)
    (updateStore : bool) (s : Sheet) :
  table_ok s -> empty_at k s -> cellRefToCellId baseCellId <> k ->
  ends (eval fuel baseCellId formula updateStore) s
    (fun _ s' => table_ok s' /\ empty_at k s') (fun _ _ => True).
Proof.
  intros Hok He Hne.
  pose proof (keeps_eval fuel baseCellId formula updateStore s Hok) as Hk.
  unfold ends.
  destruct (eval fuel baseCellId formula updateStore s) as [updates s'| |] eqn:Ev;
    [|exact I|exact I].
  split; [exact Hk|].
  destruct (eval_returns_with (empty_at k) (fun _ _ s' => empty_at k s')
              fuel baseCellId formula updateStore s Hok)
    with (updates := updates) (s' := s') as (a & _ & H); [| | | | | exact Ev | exact H].
  - exact He.
  - intros a. apply empty_at_updateCell. left. exact Hne.
  - intros old. apply empty_at_removeAsDependent.
  - intros a s3 _ _ Hok3 He3.
    apply (ends_keeps (fun s => table_ok s /\ empty_at k s));
      [apply empty_at_evalCell | split; assumption | | auto].
    intros r s4 [_ H4]. exact H4.
  - intros a u s4 s5 E5. unfold empty_at. rewrite E5. auto.
Qed.

(** X20: when [delete] returns, [query] of the cell answers the value zero
    and no formula, whatever the cell held and whatever the evaluation of
    its dependents did. *)
Theorem delete_then_query (fuel : nat) (cellId : string) (s : Sheet)
    (results : gmap string num) (s' : Sheet) :
  reachable s ->
  delete fuel cellId s = Return results s' ->
  query s' cellId = Ret (zero, "").
Proof.
  intros Hr. set (k := Js.toLowerCase cellId).
  assert (Hend : ends (delete fuel cellId) s (fun _ s' => empty_at k s') (fun _ _ => True)).
  { pose proof (reachable_table_ok s Hr) as Hok.
    pose proof (reachable_ids_ok s Hr) as Hids.
    unfold delete. fold k. eapply ends_bind.
    { unfold ends, modify.
      instantiate (1 := fun _ s1 => s1 = set_undos (λ _, ∅) s). reflexivity. }
    intros u1 s1 ->. unfold ends, mbind at 1, M_bind at 1, get.
    set (s1 := set_undos (λ _, ∅) s).
    assert (Hok1 : table_ok s1) by apply table_ok_set_undos_empty, Hok.
    change (_cells s1) with (_cells s).
    match goal with
    | |- match (?m ≫= ?f) s1 with _ => _ end =>
        change (ends (m ≫= f) s1 (fun _ s' => empty_at k s') (fun _ _ => True))
    end.
    eapply ends_bind with (Q1 := fun _ s' => empty_at k s').
    2: { intros results0 s2 H2. unfold ends, mbind at 1, M_bind at 1, get.
         unfold mbind, M_bind.
         pose proof (store_request_cells (StoreDelete (name s2) k) s2) as Hst.
         unfold ends in Hst. destruct (store_request _ s2); [|exact I|exact I].
         cbn. unfold empty_at in *. rewrite Hst. exact H2. }
    destruct (_cells s !! k) as [cell|] eqn:E.
    2: { case_decide; [|unfold ends, empty_at; cbn; rewrite E; exact I].
         unfold ends, mbind, M_bind, modify, throw. exact I. }
    destruct (cells_ok s Hok _ _ E) as [Hid Hd].
    destruct (cells_ids s Hids _ _ E) as [Hk [_ Hdeps]].
    eapply ends_bind with (Q1 := fun _ s' => table_ok s' /\ empty_at k s').
    { pose proof (keeps_updateCell_delete k Hd s1 Hok1) as Hkd.
      unfold ends, _updateCell_delete in *. unfold getOrCreate in *.
      assert (Hc : _cells (recordUndo k s1) = _cells s)
        by apply (proj1 (recordUndo_cells k s1)).
      rewrite Hc, E in *. split; [exact Hkd|].
      unfold empty_at. cbn. rewrite Hid, lookup_delete_eq. exact I. }
    intros u2 s2 [Hok2 He2]. revert s2 Hok2 He2. generalize (∅ : gmap string num).
    induction Hdeps as [|d ds Hcan _ IH]; intros results0 s2 Hok2 He2; [exact He2|].
    unfold ends, mbind at 1, M_bind at 1, get.
    destruct (_cells s2 !! d) as [depCell|] eqn:Ed; [|exact I].
    destruct (CellInfo_formula depCell) as [formula|e] eqn:Ef; [|exact I].
    unfold mbind at 1, M_bind at 1, lift.
    destruct (decide (d = k)) as [->|Hne].
    - unfold empty_at in He2. rewrite Ed in He2. destruct He2 as [Ha _].
      unfold CellInfo_formula in Ef. rewrite Ha in Ef. injection Ef as <-.
      destruct (parse_empty (cellRefToCellId k)) as [e Hp].
      unfold mbind at 1, M_bind at 1, eval, try_catch_rethrow.
      unfold mbind at 1, M_bind at 1, modify. unfold mbind at 1, M_bind at 1, get.
      unfold mbind at 1, M_bind at 1. rewrite Hp. exact I.
    - pose proof (eval_keeps_empty k fuel d formula true s2 Hok2 He2) as Hev.
      rewrite Hcan in Hev. specialize (Hev Hne). unfold ends in Hev.
      unfold mbind at 1, M_bind at 1.
      destruct (eval fuel d formula true s2) as [updates s3|e s3|]; [|exact I|exact I].
      destruct Hev as [Hok3 He3]. apply (IH (updates ∪ results0) s3 Hok3 He3). }
  unfold ends in Hend. intros He. rewrite He in Hend. apply query_empty_at, Hend.
Qed.

End ClearDelete.

(** ** Moving a reference *)

Section Moves.
Import ExprParser.
Context {N : JSNum}.

Lemma CellRef_new_rebase (str : string) (b1 b2 : option CellRef) (r : CellRef) :
  Js.toLowerCase (Js.trim str) <> "" ->
  CellRef_new str b1 = Ret r -> CellRef_new str b2 = Ret (rebase b1 b2 r).
Proof.
  unfold CellRef_new. intros Hne.
  destruct (Js.toLowerCase (Js.trim str)) as [|x y]; [congruence|].
  destruct (matchCellRef (String x y)) as [[[[ac c] ar] rs]|]; [|discriminate].
  destruct (colSpecToIndex c) as [ci|]; [|discriminate].
  cbn [mbind result_bind rbind].
  destruct (rowSpecToIndex rs) as [ri|]; [|discriminate].
  cbn [mbind result_bind rbind]. intros [= <-]. unfold rebase. cbn.
  do 3 f_equal; [destruct ac | destruct ar]; lia.
Qed.

Lemma indexToColSpec_range (index baseIndex : Z) (s : string) :
  indexToColSpec index baseIndex = Ret s -> 0 <= baseIndex + index < LIMITS.MAX_N_COLS.
Proof.
  unfold indexToColSpec. cbn zeta.
  destruct (_ || _) eqn:E; [discriminate|]. intros _.
  apply orb_false_iff in E as [E1 E2]. rewrite Z.geb_leb in E2. lia.
Qed.

Lemma indexToRowSpec_range (index baseIndex : Z) (s : string) :
  indexToRowSpec index baseIndex = Ret s -> 0 <= baseIndex + index < LIMITS.MAX_N_ROWS.
Proof.
  unfold indexToRowSpec. cbn zeta.
  destruct (_ || _) eqn:E; [discriminate|]. intros _.
  apply orb_false_iff in E as [E1 E2]. rewrite Z.geb_leb in E2. lia.
Qed.

Lemma CellRef_toString_in_range (r base : CellRef) (s : string) :
  CellRef_toString r (Some base) = Ret s -> ref_in_range base r.
Proof.
  unfold CellRef_toString, ref_in_range, axis_in_range. cbn [baseCol baseRow].
  intros H. split.
  - destruct (isAbs (col r)).
    + destruct (indexToColSpec (index (col r)) 0) eqn:E; [|discriminate].
      apply indexToColSpec_range in E. lia.
    + destruct (indexToColSpec (index (col r)) (index (col base))) eqn:E; [|discriminate].
      apply indexToColSpec_range in E. lia.
  - destruct (if isAbs (col r) then _ else _); [|discriminate].
    cbn [mbind result_bind rbind] in H. destruct (isAbs (row r)).
    + destruct (indexToRowSpec (index (row r)) 0) eqn:E; [|discriminate].
      apply indexToRowSpec_range in E. lia.
    + destruct (indexToRowSpec (index (row r)) (index (row base))) eqn:E; [|discriminate].
      apply indexToRowSpec_range in E. lia.
Qed.

(** X21: a reference typed in the cell [src] and printed for the cell
    [dest] names the cell at the same distance from [dest] as the cell it
    named was from [src], along each axis that is relative; along an axis
    with a dollar sign it names the same column or row. *)
Theorem CellRef_moves (str : string) (src dest r : CellRef) (moved : string) :
  Js.toLowerCase (Js.trim str) <> "" ->
  CellRef_new str (Some src) = Ret r ->
  CellRef_toString r (Some dest) = Ret moved ->
  exists a a',
    CellRef_new str None = Ret a /\ CellRef_new moved None = Ret a' /\
    isAbs (col a') = isAbs (col a) /\ isAbs (row a') = isAbs (row a) /\
    index (col a') = index (col a) +
                     (if isAbs (col a) then 0 else index (col dest) - index (col src)) /\
    index (row a') = index (row a) +
                     (if isAbs (row a) then 0 else index (row dest) - index (row src)).
Proof.
  intros Hne Hr Hs.
  destruct (CellRef_print_read dest r (CellRef_toString_in_range r dest moved Hs))
    as (s & Hs' & Hread & Hw & Hd & Hn & _).
  rewrite Hs in Hs'. injection Hs' as <-.
  assert (Hne' : Js.toLowerCase (Js.trim moved) <> "").
  { apply is_word_text. repeat split; assumption. }
  exists (rebase (Some src) None r), (rebase (Some dest) None r).
  split; [apply CellRef_new_rebase; assumption|].
  split; [apply CellRef_new_rebase; assumption|].
  unfold rebase. cbn. destruct (isAbs (col r)), (isAbs (row r)); repeat split; lia.
Qed.

Lemma CellRef_moves_witness :
  let src := {| col := {| isAbs := false; index := 1 |};
                row := {| isAbs := false; index := 1 |} |} in
  let dest := {| col := {| isAbs := false; index := 3 |};
                 row := {| isAbs := false; index := 6 |} |} in
  let r := {| col := {| isAbs := false; index := -1 |};
              row := {| isAbs := true; index := 2 |} |} in
  Js.toLowerCase (Js.trim "A$3") <> "" /\
  CellRef_new "A$3" (Some src) = Ret r /\
  CellRef_toString r (Some dest) = Ret "c$3" /\
  exists a a',
    CellRef_new "A$3" None = Ret a /\ CellRef_new "c$3" None = Ret a' /\
    isAbs (col a') = isAbs (col a) /\ isAbs (row a') = isAbs (row a) /\
    index (col a') = index (col a) +
                     (if isAbs (col a) then 0 else index (col dest) - index (col src)) /\
    index (row a') = index (row a) +
                     (if isAbs (row a) then 0 else index (row dest) - index (row src)).
Proof.
  intros src dest r.
  assert (H1 : Js.toLowerCase (Js.trim "A$3") <> "") by discriminate.
  assert (H2 : CellRef_new "A$3" (Some src) = Ret r) by reflexivity.
  assert (H3 : CellRef_toString r (Some dest) = Ret "c$3") by reflexivity.
  split; [exact H1|]. split; [exact H2|]. split; [exact H3|].
  exact (CellRef_moves "A$3" src dest r "c$3" H1 H2 H3).
Defined.

End Moves.

(** ** After an [eval] that throws *)

Section Failure.
Import ExprParser Spreadsheet.
Context {N : JSNum}.

Lemma query_cells (s s' : Sheet) (cellId : string) :
  _cells s' = _cells s -> query s' cellId = query s cellId.
Proof. intros E. unfold query. rewrite E. reflexivity. Qed.

Lemma dumpCell_cells (s s' : Sheet) (prereqs : gmap string (list string))
    (acc : result (list string * list string * gset string)) (cellIds : list string) :
  _cells s' = _cells s ->
  foldl (dumpCell s' prereqs) acc cellIds = foldl (dumpCell s prereqs) acc cellIds.
Proof.
  intros E. revert acc. induction cellIds as [|k l IH]; intros acc; [reflexivity|].
  cbn [foldl]. rewrite IH. unfold dumpCell. rewrite E. reflexivity.
Qed.

Lemma dumpLoop_cells (s s' : Sheet) (fuel : nat) (prereqs : gmap string (list string))
    (nCells : nat) (cellIds0 sortedIds : list string) (doneIds : gset string) :
  _cells s' = _cells s ->
  dumpLoop fuel s' prereqs nCells cellIds0 sortedIds doneIds
  = dumpLoop fuel s prereqs nCells cellIds0 sortedIds doneIds.
Proof.
  intros E. revert cellIds0 sortedIds doneIds.
  induction fuel as [|fuel IH]; intros cellIds0 sortedIds doneIds; [reflexivity|].
  cbn [dumpLoop]. case_decide; [|reflexivity].
  rewrite (dumpCell_cells s s' _ _ _ E).
  destruct (foldl _ _ cellIds0) as [[[c1 so] d]|]; [apply IH | reflexivity].
Qed.

Lemma dump_cells (s s' : Sheet) (fuel : nat) :
  _cells s' = _cells s -> dump fuel s' = dump fuel s.
Proof.
  intros E. unfold dump, _makePrereqs. rewrite E, (dumpLoop_cells s s' _ _ _ _ _ _ E).
  reflexivity.
Qed.

(** X22: a call of [eval] that throws leaves no trace in the sheet: the
    table is as it was, so [query] answers for every id what it answered
    before, and [dump] and [valueFormulas] return what they returned. *)
Theorem eval_failure_leaves_sheet (fuel : nat) (baseCellId formula : string)
    (updateStore : bool) (s : Sheet) (e : exn) (s' : Sheet) :
  eval fuel baseCellId formula updateStore s = Throw e s' ->
  _cells s' = _cells s /\
  (forall cellId, query s' cellId = query s cellId) /\
  (forall n, dump n s' = dump n s) /\
  (forall n, valueFormulas (V := string) n s' None = valueFormulas (V := string) n s None).
Proof.
  intros He. pose proof (eval_rolls_back _ _ _ _ _ _ _ He) as E.
  split; [exact E|]. split; [intros; apply query_cells, E|].
  split; [intros; apply dump_cells, E|].
  intros n. unfold valueFormulas. rewrite (dump_cells s s' n E).
  unfold pairValues, query. rewrite E. reflexivity.
Qed.

End Failure.

(** ** The engine on the integers *)

Section EngineExamples.
Import ExprParser Spreadsheet.

Lemma returned_Return `{N : JSNum} {A} (m : M A) (s : Sheet) (a : A) :
  returned (m s) = Some a -> m s = Return a (after m s).
Proof. unfold returned, after. destruct (m s); congruence. Qed.

Lemma thrown_Throw `{N : JSNum} {A} (m : M A) (s : Sheet) (e : exn) :
  thrown (m s) = Some e -> m s = Throw e (after m s).
Proof. unfold thrown, after. destruct (m s); congruence. Qed.

Lemma reachable_cells_witness :
  let s := after (eval 4 "B1" "a1+1" true) (new (N := IntNum) "sheet" None) in
  let c := {| id := "a1"; value := Int 0; ast := None; dependents := ["b1"] |} in
  _cells s !! "a1" = Some c /\
  id c = "a1" /\ cellRefToCellId "a1" = "a1" /\
  NoDup (dependents c) /\ Forall (fun d => cellRefToCellId d = d) (dependents c) /\
  exists f, CellInfo_formula c = Ret f /\ query s "a1" = Ret (value c, f).
Proof.
  intros s c.
  assert (E : _cells s !! "a1" = Some c) by reflexivity.
  split; [exact E|].
  apply (reachable_cells (N := IntNum) s "a1" c); [|exact E].
  apply reachable_eval, reachable_new.
Defined.

Lemma eval_then_query_witness :
  let s := after (eval 4 "a1" "2" true) (new (N := IntNum) "sheet" None) in
  let updates : gmap string int53 := {[ "b1" := Int 6 ]} in
  let s' := after (eval 4 "$B1" "a1 * 3" true) s in
  eval 4 "$B1" "a1 * 3" true s = Return updates s' /\
  exists a text v,
    parse "a1 * 3" (cellRefToCellId "$B1") = Ret a /\
    toString a (cellRefToCellId "$B1") = Ret text /\
    updates !! cellRefToCellId "$B1" = Some v /\
    query s' (cellRefToCellId "$B1") = Ret (v, text) /\
    forall k v', updates !! k = Some v' -> exists text', query s' k = Ret (v', text').
Proof.
  intros s updates s'.
  assert (E : eval 4 "$B1" "a1 * 3" true s = Return updates s')
    by (apply returned_Return; reflexivity).
  split; [exact E|].
  apply (eval_then_query (N := IntNum) 4 "$B1" "a1 * 3" true s updates s');
    [apply reachable_eval, reachable_new | exact E].
Defined.

Lemma eval_registers_dependents_witness :
  let s := after (eval 4 "a1" "2" true) (new (N := IntNum) "sheet" None) in
  let updates : gmap string int53 := {[ "c1" := Int 2 ]} in
  let s' := after (eval 4 "c1" "max(a1, $b$2)" true) s in
  eval 4 "c1" "max(a1, $b$2)" true s = Return updates s' /\
  exists a,
    parse "max(a1, $b$2)" (cellRefToCellId "c1") = Ret a /\
    forall r, r ∈ refs a ->
      exists str c,
        toString (Ref r) (cellRefToCellId "c1") = Ret str /\
        _cells s' !! cellRefToCellId str = Some c /\
        cellRefToCellId "c1" ∈ dependents c.
Proof.
  intros s updates s'.
  assert (E : eval 4 "c1" "max(a1, $b$2)" true s = Return updates s')
    by (apply returned_Return; reflexivity).
  split; [exact E|].
  apply (eval_registers_dependents (N := IntNum) 4 "c1" "max(a1, $b$2)" true s updates s');
    [apply reachable_eval, reachable_new | exact E].
Defined.

Lemma eval_self_reference_witness :
  let s := after (eval 4 "a1" "2" true) (new (N := IntNum) "sheet" None) in
  let r := {| col := {| isAbs := false; index := 0 |};
              row := {| isAbs := true; index := 1 |} |} in
  let a := App "+" [Num (Int 1); Ref r] in
  parse "1 + b$2" (cellRefToCellId "B2") = Ret a /\
  r ∈ refs a /\
  toString (Ref r) (cellRefToCellId "B2") = Ret "b$2" /\
  cellRefToCellId "b$2" = cellRefToCellId "B2" /\
  returned (eval 9 "B2" "1 + b$2" true s) = None.
Proof.
  intros s r a.
  assert (H1 : parse (N := IntNum) "1 + b$2" (cellRefToCellId "B2") = Ret a) by reflexivity.
  assert (H2 : r ∈ refs a) by (cbn; constructor).
  assert (H3 : toString (N := IntNum) (Ref r) (cellRefToCellId "B2") = Ret "b$2")
    by reflexivity.
  assert (H4 : cellRefToCellId "b$2" = cellRefToCellId "B2") by reflexivity.
  split; [exact H1|]. split; [exact H2|]. split; [exact H3|]. split; [exact H4|].
  apply (eval_self_reference (N := IntNum) 9 "B2" "1 + b$2" true s a r "b$2");
    [apply reachable_eval, reachable_new | exact H1 | exact H2 | exact H3 | exact H4].
Defined.

Lemma valueFormulas_of_pairs_witness :
  let s := after (eval 4 "b1" "a1+1" true) (new (N := IntNum) "sheet" None) in
  exists m,
    valueFormulas 0 s (Some [("b1", 1%nat); ("A1", 2%nat); ("b1", 3%nat)]) = Some (Ret m) /\
    forall k q, m !! k = Some q <->
                k ∈ [("b1", 1%nat); ("A1", 2%nat); ("b1", 3%nat)].*1 /\ query s k = Ret q.
Proof.
  intros s. apply (valueFormulas_of_pairs (N := IntNum)).
  apply reachable_eval, reachable_new.
Defined.

Lemma valueFormulas_default_witness :
  let s0 := new (N := IntNum) "sheet" None in
  let s1 := after (eval 4 "a1" "1" true) s0 in
  let s := after (eval 4 "b1" "a1+c1" true) s1 in
  let depth := λ k : string, if decide (k = "b1") then 1%nat else 0%nat in
  exists m,
    valueFormulas (V := string) 3 s None = Some (Ret m) /\
    forall k q, m !! k = Some q <-> nonEmptyCell s k /\ query s k = Ret q.
Proof.
  intros s0 s1 s depth.
  apply (valueFormulas_default (N := IntNum) s depth).
  - unfold s, s1, s0. repeat apply reachable_eval. apply reachable_new.
  - apply is_depth_check. apply (bool_decide_unpack _). vm_compute. exact I.
  - vm_compute. lia.
Defined.

Lemma delete_then_query_witness :
  let s1 := after (eval 4 "a1" "2" true) (new (N := IntNum) "sheet" None) in
  let s := after (eval 4 "b1" "a1*3" true) s1 in
  let results : gmap string int53 := {[ "b1" := Int 0 ]} in
  let s' := after (delete 4 "A1") s in
  delete 4 "A1" s = Return results s' /\
  query s' "A1" = Ret (zero, "").
Proof.
  intros s1 s results s'.
  assert (E : delete 4 "A1" s = Return results s')
    by (apply returned_Return; reflexivity).
  split; [exact E|].
  apply (delete_then_query (N := IntNum) 4 "A1" s results s'); [|exact E].
  unfold s, s1. repeat apply reachable_eval. apply reachable_new.
Defined.

Lemma eval_failure_leaves_sheet_witness :
  let s1 := after (eval 4 "a1" "2" true) (new (N := IntNum) "sheet" None) in
  let s := after (eval 4 "b1" "a1*3" true) s1 in
  let e := AppError CIRCULAR_REF "circular ref involving a1" in
  let s' := after (eval 4 "a1" "b1+1" true) s in
  eval 4 "a1" "b1+1" true s = Throw e s' /\
  _cells s' = _cells s /\
  (forall cellId, query s' cellId = query s cellId) /\
  (forall n, dump n s' = dump n s) /\
  (forall n, valueFormulas (V := string) n s' None = valueFormulas (V := string) n s None).
Proof.
  intros s1 s e s'.
  assert (E : eval 4 "a1" "b1+1" true s = Throw e s')
    by (apply thrown_Throw; reflexivity).
  split; [exact E|].
  apply (eval_failure_leaves_sheet (N := IntNum) 4 "a1" "b1+1" true s e s' E).
Defined.

End EngineExamples.

(** ** What [eval] leaves alone *)

Section Frame.
Import ExprParser Spreadsheet.
Context {N : JSNum}.

Lemma asts_kept_updateCell (cellId : string) (s0 : Sheet) (k : string)
    (updateFn : CellInfo -> CellInfo) :
  k = cellId \/ (forall c, ast (updateFn c) = ast c) ->
  keeps (asts_kept_off cellId s0) (_updateCell k updateFn).
Proof.
  intros Hf s Hs. rewrite updateCell_run. intros k' Hk'. rewrite <- (Hs k' Hk').
  unfold astAt. cbn. rewrite lookup_insert. case_decide as E; [|reflexivity].
  subst k'. destruct Hf as [->|Hf]; [congruence|]. cbn. rewrite Hf.
  destruct (_cells s !! k); reflexivity.
Qed.

Lemma asts_kept_evalCell (cellId : string) (s0 : Sheet) (fuel : nat) (key : string)
    (working : list string) :
  keeps (asts_kept_off cellId s0) (_evalCell fuel key working).
Proof.
  apply (kept_evalCell (asts_kept_off cellId s0) (fun _ => True)); intros; try exact I;
    apply asts_kept_updateCell; right; reflexivity.
Qed.

Lemma asts_kept_removeAsDependent (cellId : string) (s0 : Sheet) (baseCellId : string)
    (old : Ast) :
  keeps (asts_kept_off cellId s0) (_removeAsDependent baseCellId old).
Proof.
  apply (kept_removeAsDependent (asts_kept_off cellId s0) (fun _ => True));
    intros; try exact I; apply asts_kept_updateCell; right; reflexivity.
Qed.

(** X23: when [eval] returns, every other cell has the formula it had:
    [query] of an id that is not the id of the call answers the same
    formula before and after. *)
Theorem eval_keeps_other_formulas (fuel : nat) (baseCellId formula : string)
    (updateStore : bool) (s : Sheet) (updates : gmap string num) (s' : Sheet)
    (cellId : string) :
  reachable s ->
  eval fuel baseCellId formula updateStore s = Return updates s' ->
  Js.toLowerCase cellId <> cellRefToCellId baseCellId ->
  exists v v' text, query s cellId = Ret (v, text) /\ query s' cellId = Ret (v', text).
Proof.
  intros Hr He Hne.
  assert (Hr' : reachable s').
  { pose proof (reachable_eval s fuel baseCellId formula updateStore Hr) as H.
    unfold after in H. rewrite He in H. exact H. }
  destruct (eval_returns_with (asts_kept_off (cellRefToCellId baseCellId) s)
              (fun _ _ s' => asts_kept_off (cellRefToCellId baseCellId) s s')
              fuel baseCellId formula updateStore s (reachable_table_ok s Hr))
    with (updates := updates) (s' := s') as (a & _ & H); [| | | | | exact He |].
  - intros k _. reflexivity.
  - intros a. apply asts_kept_updateCell. left. reflexivity.
  - intros old. apply asts_kept_removeAsDependent.
  - intros a s3 _ _ _ H3.
    apply (ends_keeps (asts_kept_off (cellRefToCellId baseCellId) s));
      [apply asts_kept_evalCell | exact H3 | auto | auto].
  - intros a u s4 s5 E5. unfold asts_kept_off, astAt. rewrite E5. auto.
  - specialize (H _ Hne). unfold astAt in H. unfold query.
    destruct (_cells s !! Js.toLowerCase cellId) as [c|] eqn:Ec;
      destruct (_cells s' !! Js.toLowerCase cellId) as [c'|] eqn:Ec'; cbn in H.
    + destruct (reachable_prints s _ c Hr Ec) as [f Hf].
      pose proof (cells_ok s (reachable_table_ok s Hr) _ _ Ec) as [Hid _].
      pose proof (cells_ok s' (reachable_table_ok s' Hr') _ _ Ec') as [Hid' _].
      assert (Hf' : CellInfo_formula c' = Ret f).
      { unfold CellInfo_formula in *. rewrite H, Hid'. rewrite Hid in Hf. exact Hf. }
      rewrite Hf, Hf'. cbn. eauto.
    + unfold CellInfo_formula. rewrite <- H. cbn. eauto.
    + unfold CellInfo_formula. rewrite H. cbn. eauto.
    + eauto.
Qed.

End Frame.

(** ** Dependents that [eval] drops *)

Section Unlist.
Import ExprParser Spreadsheet.
Context {N : JSNum}.

Lemma not_listed_updateCell (t cellId x : string) (updateFn : CellInfo -> CellInfo) :
  x <> t \/ (forall c, cellId ∉ dependents c -> cellId ∉ dependents (updateFn c)) ->
  keeps (not_listed t cellId) (_updateCell x updateFn).
Proof.
  intros Hf s Hs. rewrite updateCell_run. intros c. cbn. rewrite lookup_insert.
  case_decide as E; [|apply Hs]. subst x. intros [= <-].
  destruct Hf as [Hf|Hf]; [congruence|]. apply Hf.
  destruct (_cells s !! t) as [c|] eqn:Ec; cbn; [apply Hs, Ec | apply not_elem_of_nil].
Qed.

Lemma not_in_Set_delete (b cellId : string) (l : list string) :
  cellId ∉ l -> cellId ∉ Set_delete b l.
Proof. intros H Hin. apply list_elem_of_filter in Hin as [_ Hin]. contradiction. Qed.

Lemma not_in_Set_add (b cellId : string) (l : list string) :
  b <> cellId -> cellId ∉ l -> cellId ∉ Set_add b l.
Proof.
  intros Hb H. unfold Set_add. case_decide; [exact H|].
  intros [Hin|Hin]%elem_of_app; [contradiction|].
  apply list_elem_of_singleton in Hin. congruence.
Qed.

Lemma unlisted_kept_removeAsDependent (cellId : string) (s0 : Sheet) (baseCellId : string)
    (old : Ast) :
  keeps (unlisted_kept cellId s0) (_removeAsDependent baseCellId old).
Proof.
  apply (kept_removeAsDependent (unlisted_kept cellId s0) (fun _ => True)); [|exact I].
  intros b str _ s Hs.
  assert (H : forall t, not_listed t cellId s0 ->
                keeps (not_listed t cellId)
                  (_updateCell (cellRefToCellId str) (set_dependents (Set_delete b)))).
  { intros t _. apply not_listed_updateCell. right. intros c. apply not_in_Set_delete. }
  destruct (_updateCell _ _ s) as [c1 s1|e s1|] eqn:E; [| |exact I];
    intros t Ht; specialize (H t Ht s (Hs t Ht)); rewrite E in H; exact H.
Qed.

(** [_removeAsDependent] takes the cell off the dependents of every cell
    the formula names. *)
Lemma removeAsDependent_unlists (cellId : string) (old : Ast) (s : Sheet) :
  ends (_removeAsDependent cellId old) s
    (fun _ s' =>
       unlisted_kept cellId s s' /\
       Forall (fun r => forall str, toString (Ref r) cellId = Ret str ->
                                    not_listed (cellRefToCellId str) cellId s') (refs old))
    (fun _ _ => True).
Proof.
  revert s. induction old as [v|r|fn kids IH] using Ast_induction; intros s;
    cbn [_removeAsDependent refs].
  - split; [intros t H; exact H | constructor].
  - unfold ends, mbind at 1, M_bind at 1, lift.
    destruct (toString (Ref r) cellId) as [str|e] eqn:Es; [|exact I].
    unfold mbind at 1, M_bind at 1.
    pose proof (fun t H => not_listed_updateCell t cellId (cellRefToCellId str)
                             (set_dependents (Set_delete cellId))
                             (or_intror (fun c => not_in_Set_delete cellId cellId _)) s H)
      as Hk.
    rewrite updateCell_run in *. cbn. split; [exact Hk|].
    constructor; [|constructor]. intros str' Hs' c.
    assert (str' = str) as -> by congruence. cbn.
    rewrite lookup_insert_eq. intros [= <-]. cbn. unfold Set_delete.
    intros Hin%list_elem_of_filter. destruct Hin as [Hne _]. congruence.
  - revert s. induction IH as [|k ks Hk _ IHks]; intros s.
    + split; [intros t H; exact H | constructor].
    + eapply ends_bind; [apply Hk|]. intros u s1 [Hg1 Hr1].
      eapply ends_weaken; [apply IHks | | auto].
      intros u2 s2 [Hg2 Hr2]. cbn. split; [intros t Ht; apply Hg2, Hg1, Ht|].
      apply Forall_app. split; [|exact Hr2].
      eapply Forall_impl; [exact Hr1|]. intros r Hr str Hs. apply Hg2, Hr, Hs.
Qed.

Lemma names_other_kids (cellId t fn : string) (kids : list Ast) :
  names_other cellId t (App fn kids) -> Forall (names_other cellId t) kids.
Proof.
  intros H. apply Forall_forall. intros k Hk r str Hr. apply H. cbn [refs].
  apply list_elem_of_In, in_flat_map. exists k.
  split; apply list_elem_of_In; assumption.
Qed.

Lemma not_listed_evalAst_own (t cellId : string) (a : Ast) :
  names_other cellId t a -> keeps (not_listed t cellId) (evalAst cellId a).
Proof.
  induction a as [v|r|fn kids IH] using Ast_induction; intros Hn; cbn [evalAst].
  - apply keeps_ret.
  - apply keeps_lift_bind. intros str Hs.
    apply keeps_bind; [|intros; apply keeps_ret].
    apply not_listed_updateCell. left. apply (Hn r str); [cbn; constructor | exact Hs].
  - apply names_other_kids in Hn. apply keeps_bind.
    + induction IH as [|k ks Hk _ IHks]; [apply keeps_ret|].
      apply Forall_cons in Hn as [Hn1 Hn2].
      apply keeps_bind; [apply Hk, Hn1|]. intros v.
      apply keeps_bind; [apply IHks, Hn2|]. intros vs. apply keeps_ret.
    + intros args. destruct (FNS fn args); [apply keeps_ret | apply keeps_throw].
Qed.

Lemma not_listed_evalAst_other (t cellId baseCellId : string) (a : Ast) :
  baseCellId <> cellId -> keeps (not_listed t cellId) (evalAst baseCellId a).
Proof.
  intros Hb. apply (kept_evalAst (not_listed t cellId) (fun b => b <> cellId)); [|exact Hb].
  intros b str Hne. apply not_listed_updateCell. right. intros c. apply not_in_Set_add, Hne.
Qed.

Lemma has_ast_evalAst (k : string) (a : Ast) (baseCellId : string) (x : Ast) :
  keeps (has_ast k a) (evalAst baseCellId x).
Proof.
  apply (kept_evalAst (has_ast k a) (fun _ => True)); intros; try exact I;
    apply has_ast_updateCell; intros c; split; reflexivity.
Qed.

(** The evaluation of the cells adds the cell of the call to the
    dependents of the cells its formula names, and of no other. *)
Lemma not_listed_evalCell (t cellId : string) (a : Ast) (fuel : nat) :
  names_other cellId t a ->
  (forall key working,
     keeps (fun s => (table_ok s /\ has_ast cellId a s) /\ not_listed t cellId s)
       (_evalCell fuel key working)) /\
  (forall key i vals working,
     keeps (fun s => (table_ok s /\ has_ast cellId a s) /\ not_listed t cellId s)
       (_evalDependents fuel key i vals working)).
Proof.
  intros Hn. induction fuel as [|fuel [IHc IHd]]; [split; intros; intros s Hs; exact I|].
  split.
  - intros key working. cbn [_evalCell].
    apply keeps_get_bind. intros s [[Hok Ha] Hl].
    destruct (_cells s !! key) as [cell|] eqn:E; [|apply keeps_throw].
    destruct (cells_ok s Hok _ _ E) as [Hid Hd]. rewrite Hid.
    apply keeps_bind.
    { destruct (ast cell) as [x|] eqn:Ex; [|apply keeps_ret]. cbn [_evalAst].
      apply keeps_conj; [apply keeps_conj; [apply keeps_evalAst | apply has_ast_evalAst]|].
      destruct (decide (key = cellId)) as [->|Hne]; [|apply not_listed_evalAst_other, Hne].
      destruct Ha as (c & Hc & Hac & _). rewrite E in Hc. injection Hc as <-.
      rewrite Ex in Hac. injection Hac as ->. apply not_listed_evalAst_own, Hn. }
    intros v. apply keeps_bind.
    { apply keeps_conj; [apply keeps_conj|].
      - apply keeps_updateCell; [exact Hd | reflexivity].
      - apply has_ast_updateCell. intros c. split; reflexivity.
      - apply not_listed_updateCell. right. intros c H. exact H. }
    intros u. apply keeps_bind; [apply IHd | intros [? ?]; apply keeps_ret].
  - intros key i vals working. cbn [_evalDependents].
    apply keeps_get_bind. intros s Hs.
    destruct (_cells s !! key ≫= _) as [dependent|]; [|apply keeps_ret].
    case_decide; [apply keeps_throw|].
    apply keeps_bind; [apply IHc|]. intros [vals' w]. apply IHd.
Qed.

(** X24: when [eval] returns, a cell that the old formula of the cell
    named and the new formula does not name no longer has the cell among
    its dependents: a later change of it does not evaluate the cell
    again. *)
Theorem eval_unregisters (fuel : nat) (baseCellId formula : string) (updateStore : bool)
    (s : Sheet) (updates : gmap string num) (s' : Sheet)
    (cell : CellInfo) (oldAst : Ast) (r : CellRef) (str : string) :
  reachable s ->
  eval fuel baseCellId formula updateStore s = Return updates s' ->
  _cells s !! cellRefToCellId baseCellId = Some cell ->
  ast cell = Some oldAst ->
  r ∈ refs oldAst ->
  toString (Ref r) (cellRefToCellId baseCellId) = Ret str ->
  (forall a r' str',
     parse formula (cellRefToCellId baseCellId) = Ret a ->
     r' ∈ refs a ->
     toString (Ref r') (cellRefToCellId baseCellId) = Ret str' ->
     cellRefToCellId str' <> cellRefToCellId str) ->
  forall c, _cells s' !! cellRefToCellId str = Some c ->
            cellRefToCellId baseCellId ∉ dependents c.
Proof.
  intros Hr He Hcell Hold Hin Hs Hnew.
  set (cellId := cellRefToCellId baseCellId) in *.
  set (t := cellRefToCellId str) in *.
  destruct (eval_returns_general (fun _ => True) (not_listed t cellId)
              (fun _ _ s' => not_listed t cellId s')
              fuel baseCellId formula updateStore s (reachable_table_ok s Hr) I)
    with (updates := updates) (s' := s') as (a & _ & H); [| | | | exact He | exact H].
  - intros a s0 _. destruct (_updateCell _ _ s0); exact I.
  - intros s2 _. fold cellId. rewrite Hcell. cbn. rewrite Hold.
    eapply ends_weaken; [apply removeAsDependent_unlists | | auto].
    intros u s3 [_ HF]. rewrite Forall_forall in HF. apply (HF r Hin str Hs).
  - intros a s3 Hp Ha Hok Hl.
    apply (ends_keeps (fun s => (table_ok s /\ has_ast cellId a s) /\ not_listed t cellId s));
      [| auto | intros r0 s4 [_ H4]; exact H4 | auto].
    apply not_listed_evalCell. intros r' str' Hr' Hs'. apply (Hnew a r' str' Hp Hr' Hs').
  - intros a u s4 s5 E5. unfold not_listed. rewrite E5. auto.
Qed.

End Unlist.

(** ** More of the engine on the integers *)

Section FrameExamples.
Import ExprParser Spreadsheet.

Lemma eval_keeps_other_formulas_witness :
  let s1 := after (eval 4 "a1" "2" true) (new (N := IntNum) "sheet" None) in
  let s := after (eval 4 "b1" "a1*3" true) s1 in
  let updates : gmap string int53 := {[ "a1" := Int 5; "b1" := Int 15 ]} in
  let s' := after (eval 4 "a1" "5" true) s in
  eval 4 "a1" "5" true s = Return updates s' /\
  Js.toLowerCase "B1" <> cellRefToCellId "a1" /\
  exists v v' text, query s "B1" = Ret (v, text) /\ query s' "B1" = Ret (v', text).
Proof.
  intros s1 s updates s'.
  assert (E : eval 4 "a1" "5" true s = Return updates s')
    by (apply returned_Return; reflexivity).
  assert (Hne : Js.toLowerCase "B1" <> cellRefToCellId "a1") by discriminate.
  split; [exact E|]. split; [exact Hne|].
  apply (eval_keeps_other_formulas (N := IntNum) 4 "a1" "5" true s updates s' "B1");
    [|exact E|exact Hne].
  unfold s, s1. repeat apply reachable_eval. apply reachable_new.
Defined.

Lemma eval_unregisters_witness :
  let s := after (eval 4 "c1" "a1+b1" true) (new (N := IntNum) "sheet" None) in
  let ra := {| col := {| isAbs := false; index := -2 |};
               row := {| isAbs := false; index := 0 |} |} in
  let rb := {| col := {| isAbs := false; index := -1 |};
               row := {| isAbs := false; index := 0 |} |} in
  let cell := {| id := "c1"; value := Int 0; ast := Some (App "+" [Ref ra; Ref rb]);
                 dependents := [] |} in
  let updates : gmap string int53 := {[ "c1" := Int 0 ]} in
  let s' := after (eval 4 "c1" "b1*2" true) s in
  eval 4 "c1" "b1*2" true s = Return updates s' /\
  _cells s !! cellRefToCellId "c1" = Some cell /\
  ra ∈ refs (App "+" [Ref ra; Ref rb]) /\
  toString (Ref ra) (cellRefToCellId "c1") = Ret "a1" /\
  forall c, _cells s' !! cellRefToCellId "a1" = Some c ->
            cellRefToCellId "c1" ∉ dependents c.
Proof.
  intros s ra rb cell updates s'.
  assert (E : eval 4 "c1" "b1*2" true s = Return updates s')
    by (apply returned_Return; reflexivity).
  assert (Hc : _cells s !! cellRefToCellId "c1" = Some cell) by reflexivity.
  assert (Hin : ra ∈ refs (N := IntNum) (App "+" [Ref ra; Ref rb])) by (cbn; constructor).
  assert (Hs : toString (N := IntNum) (Ref ra) (cellRefToCellId "c1") = Ret "a1")
    by reflexivity.
  split; [exact E|]. split; [exact Hc|]. split; [exact Hin|]. split; [exact Hs|].
  apply (eval_unregisters (N := IntNum) 4 "c1" "b1*2" true s updates s' cell
           (App "+" [Ref ra; Ref rb]) ra "a1");
    [apply reachable_eval, reachable_new | exact E | exact Hc | reflexivity
    | exact Hin | exact Hs |].
  intros a r' str' Hp Hr' Hs'.
  assert (Hnew : parse (N := IntNum) "b1*2" (cellRefToCellId "c1")
                 = Ret (App "*" [Ref rb; Num (Int 2)])) by reflexivity.
  rewrite Hnew in Hp. injection Hp as <-.
  cbn in Hr'. apply list_elem_of_singleton in Hr'. subst r'.
  assert (Hb : toString (N := IntNum) (Ref rb) (cellRefToCellId "c1") = Ret "b1")
    by reflexivity.
  rewrite Hb in Hs'. injection Hs' as <-. discriminate.
Defined.

End FrameExamples.

(** ** The order of [dump] after a [delete] *)

Section StaleOrder.
Import ExprParser Spreadsheet.
Context {N : JSNum}.
Variable name : string.

(** C7 at its failing input: on an empty sheet [eval("b1","2")],
    [eval("a1","b1*3")], [delete("a1")] and [eval("a1","7")] return one after
    the other.  Then [a1] and [b1] are the cells of the table and both hold
    a number, a formula with no reference, so neither has a prerequisite
    and both have depth [0]; yet [b1] still lists [a1] among its dependents,
    and [dump], which reads the prerequisites off the sets of dependents,
    returns [b1] before [a1], although [a1] comes before [b1] in the order
    of the ids. *)
Theorem dump_order_after_delete (n : nat) :
  let fuel := (3 + n)%nat in
  let s0 := new name None in
  let s1 := after (eval fuel "b1" "2" true) s0 in
  let s2 := after (eval fuel "a1" "b1*3" true) s1 in
  let s3 := after (delete fuel "a1") s2 in
  let s4 := after (eval fuel "a1" "7" true) s3 in
  eval fuel "b1" "2" true s0 = Return {[ "b1" := Number "2" ]} s1 /\
  eval fuel "a1" "b1*3" true s1
    = Return {[ "a1" := mul (Number "2") (Number "3") ]} s2 /\
  delete fuel "a1" s2 = Return ∅ s3 /\
  eval fuel "a1" "7" true s3 = Return {[ "a1" := Number "7" ]} s4 /\
  ast <$> (_cells s4 !! "a1") = Some (Some (Num (Number "7"))) /\
  ast <$> (_cells s4 !! "b1") = Some (Some (Num (Number "2"))) /\
  refs <$> astAt s4 "a1" = Some [] /\
  refs <$> astAt s4 "b1" = Some [] /\
  dom (_cells s4) = {[ "a1"; "b1" ]} /\
  dependents <$> (_cells s4 !! "b1") = Some ["a1"] /\
  dump fuel s4 = Some (Ret [("b1", num_toString (Number "2"));
                            ("a1", num_toString (Number "7"))]) /\
  String.le "a1" "b1" /\ "a1" <> "b1".
Proof.
  intros fuel s0 s1 s2 s3 s4.
  split; [vm_compute; reflexivity|].
  split; [vm_compute; reflexivity|].
  split; [vm_compute; reflexivity|].
  split; [vm_compute; reflexivity|].
  split; [vm_compute; reflexivity|].
  split; [vm_compute; reflexivity|].
  split; [vm_compute; reflexivity|].
  split; [vm_compute; reflexivity|].
  split; [vm_compute; reflexivity|].
  split; [vm_compute; reflexivity|].
  split; [vm_compute; reflexivity|].
  split; [|discriminate].
  vm_compute. exact I.
Qed.

End StaleOrder.

(** ** The shape of the formulas of the table *)

Section Shaped.
Import ExprParser Spreadsheet.
Context {N : JSNum}.















End Shaped.

(** ** A formula printed for another cell *)

Section Rebase.
Import ExprParser.
Context {N : JSNum}.












End Rebase.

(** ** [copy] in the states of a sheet *)

Section CopyReachable.
Import ExprParser Spreadsheet.
Context {N : JSNum}.






End CopyReachable.

(** ** [copy] on the integers *)

Section CopyExamples.
Import ExprParser Spreadsheet.


(** The copy of [$a1+b1] from [c1]: for [c2] the formula prints as
    [$a2+b2]; the column with the dollar sign stays and the column without
    moves with the cell, and so do the two rows, which have none; [c2] then
    holds the AST of [c1].  To [a1] the copy throws [SYNTAX], for the
    column before [a]. *)
Example copy_moves_references :
  let s := after (eval 3 "c1" "$a1+b1" true) (new (N := IntNum) "sheet" None) in
  let srcAst := App "+" [Ref {| col := {| isAbs := true; index := 0 |};
                                row := {| isAbs := false; index := 0 |} |};
                         Ref {| col := {| isAbs := false; index := -1 |};
                                row := {| isAbs := false; index := 0 |} |}] in
  astAt s "c1" = Some srcAst /\
  toString srcAst "c1" = Ret "$a1+b1" /\
  toString srcAst "c2" = Ret "$a2+b2" /\
  returned (copy 3 "c2" "c1" s) = returned (eval 3 "c2" "$a2+b2" true s) /\
  query (after (copy 3 "c2" "c1") s) "c2" = Ret (Int 0, "$a2+b2") /\
  astAt (after (copy 3 "c2" "c1") s) "c2" = Some srcAst /\
  thrown (copy 3 "a1" "c1" s)
  = Some (AppError SYNTAX
            ("cannot copy formula $a1+b1 to a1: " +:+
             "bad column spec with index -1 relative to 0")).
Proof.
  intros s srcAst.
  split; [vm_compute; reflexivity|].
  split; [vm_compute; reflexivity|].
  split; [vm_compute; reflexivity|].
  split; [vm_compute; reflexivity|].
  split; [vm_compute; reflexivity|].
  split; vm_compute; reflexivity.
Qed.

End CopyExamples.

(** ** [delete] of a cell of the table *)

Section DeleteHeld.
Import ExprParser Spreadsheet.
Context {N : JSNum}.

(** A call of [eval] that returns leaves the values it returns in the
    table, its own cell among them, and changes no other value. *)
Lemma eval_values (fuel : nat) (baseCellId formula : string) (updateStore : bool)
    (s : Sheet) (updates : gmap string num) (s' : Sheet) :
  table_ok s ->
  eval fuel baseCellId formula updateStore s = Return updates s' ->
  agree updates s' /\ values_kept_off updates s s' /\
  is_Some (updates !! cellRefToCellId baseCellId).
Proof.
  intros Hok He.
  destruct (eval_returns_with (values_kept_off ∅ s)
              (fun _ updates s' =>
                 agree updates s' /\ values_kept_off updates s s' /\
                 is_Some (updates !! cellRefToCellId baseCellId))
              fuel baseCellId formula updateStore s Hok)
    with (updates := updates) (s' := s') as (a & _ & H); [| | | | | exact He | exact H].
  - intros k _ v H. exact H.
  - intros a. apply values_kept_updateCell. reflexivity.
  - intros old. apply (kept_removeAsDependent (values_kept_off ∅ s) (fun _ => True)); [|exact I].
    intros b str _. apply values_kept_updateCell. reflexivity.
  - intros a s3 _ Hs3 _ H3.
    eapply ends_weaken;
      [apply (proj1 (evalCell_values fuel) (cellRefToCellId baseCellId) [] s3) | | auto].
    intros [updates0 w] s4 (Hag & Hk & cell & Hcell & Hin). cbn in *.
    destruct Hs3 as (c3 & Hc3 & _ & Hid3). rewrite Hc3 in Hcell.
    injection Hcell as <-. rewrite Hid3 in Hin.
    split; [exact Hag|]. split; [|exact Hin].
    intros k Ek v Hv. apply (Hk k Ek), (H3 k (lookup_empty k)), Hv.
  - intros a u s4 s5 E5 (Hag & Hk & Hin). unfold agree, values_kept_off, valueAt in *.
    rewrite E5. auto.
Qed.

(** X26: when [delete] of a cell of the table returns, even of a cell
    with no formula that the table holds for its dependents, every
    dependent the cell had has been evaluated again and is in the map
    [delete] returns, and the values of the map are those [query] answers
    afterwards, cell by cell. *)
Theorem delete_returns_dependents (fuel : nat) (cellId : string) (s : Sheet)
    (cell : CellInfo) (results : gmap string num) (s' : Sheet) :
  reachable s ->
  _cells s !! Js.toLowerCase cellId = Some cell ->
  delete fuel cellId s = Return results s' ->
  (forall d, d ∈ dependents cell -> is_Some (results !! d)) /\
  (forall k v, results !! k = Some v -> exists text, query s' k = Ret (v, text)).
Proof.
  intros Hr E He. set (k := Js.toLowerCase cellId) in *.
  assert (Hr' : reachable s').
  { pose proof (reachable_delete s fuel cellId Hr) as H.
    unfold after in H. rewrite He in H. exact H. }
  assert (Hend : ends (delete fuel cellId) s
            (fun results s' =>
               agree results s' /\ forall d, d ∈ dependents cell -> is_Some (results !! d))
            (fun _ _ => True)).
  { pose proof (reachable_table_ok s Hr) as Hok.
    pose proof (reachable_ids_ok s Hr) as Hids.
    unfold delete. fold k. eapply ends_bind.
    { unfold ends, modify.
      instantiate (1 := fun _ s1 => s1 = set_undos (λ _, ∅) s). reflexivity. }
    intros u1 s1 ->. unfold ends, mbind at 1, M_bind at 1, get.
    set (s1 := set_undos (λ _, ∅) s).
    assert (Hok1 : table_ok s1) by apply table_ok_set_undos_empty, Hok.
    change (_cells s1) with (_cells s).
    match goal with
    | |- match (?m ≫= ?f) s1 with _ => _ end =>
        change (ends (m ≫= f) s1
                  (fun results s' =>
                     agree results s' /\
                     forall d, d ∈ dependents cell -> is_Some (results !! d))
                  (fun _ _ => True))
    end.
    eapply ends_bind with
      (Q1 := fun results s' =>
               agree results s' /\ forall d, d ∈ dependents cell -> is_Some (results !! d)).
    2: { intros results0 s2 [H2 Hd2]. unfold ends, mbind at 1, M_bind at 1, get.
         unfold mbind, M_bind.
         pose proof (store_request_cells (StoreDelete (name s2) k) s2) as Hst.
         unfold ends in Hst. destruct (store_request _ s2); [|exact I|exact I].
         cbn. split; [|exact Hd2]. unfold agree, valueAt in *. rewrite Hst. exact H2. }
    rewrite E.
    destruct (cells_ok s Hok _ _ E) as [Hid Hd].
    destruct (cells_ids s Hids _ _ E) as [Hk [_ Hdeps]].
    eapply ends_bind with (Q1 := fun _ s' => table_ok s').
    { apply (ends_keeps table_ok); [|exact Hok1|auto|auto].
      apply keeps_updateCell_delete, Hd. }
    intros u2 s2 Hok2.
    assert (Hloop : forall ds, Forall canonical ds ->
              forall results0 s2, table_ok s2 -> agree results0 s2 ->
              ends ((fix loop (ds : list string) (results : gmap string num)
                       : M (gmap string num) :=
                       match ds with
                       | [] => mret results
                       | dependent :: ds =>
                           s ← get;
                           match _cells s !! dependent with
                           | None => throw TypeError
                           | Some depCell =>
                               formula ← lift (CellInfo_formula depCell);
                               updates ← eval fuel dependent formula true;
                               loop ds (updates ∪ results)
                           end
                       end) ds results0) s2
                (fun results s' =>
                   agree results s' /\
                   (forall d, d ∈ ds -> is_Some (results !! d)) /\
                   (forall d, is_Some (results0 !! d) -> is_Some (results !! d)))
                (fun _ _ => True)).
    { clear. induction 1 as [|d ds Hcan _ IH]; intros results0 s2 Hok2 Hag2.
      { unfold ends. cbn. split; [exact Hag2|]. split; [|auto].
        intros d Hd. apply elem_of_nil in Hd. destruct Hd. }
      unfold ends, mbind at 1, M_bind at 1, get.
      destruct (_cells s2 !! d) as [depCell|] eqn:Ed; [|exact I].
      destruct (CellInfo_formula depCell) as [formula|e] eqn:Ef; [|exact I].
      unfold mbind at 1, M_bind at 1, lift. unfold mbind at 1, M_bind at 1.
      pose proof (keeps_eval fuel d formula true s2 Hok2) as Hok3.
      destruct (eval fuel d formula true s2) as [updates s3|e s3|] eqn:Ev; [|exact I|exact I].
      destruct (eval_values _ _ _ _ _ _ _ Hok2 Ev) as (Hag3 & Hk3 & Hin3).
      rewrite Hcan in Hin3.
      specialize (IH (updates ∪ results0) s3 Hok3 (agree_union _ _ s2 _ Hag3 Hk3 Hag2)).
      assert (Hup : forall x, is_Some (results0 !! x) -> is_Some ((updates ∪ results0) !! x)).
      { intros x [v Hx]. destruct (updates !! x) as [v'|] eqn:Eu.
        - exists v'. apply lookup_union_Some_raw. auto.
        - exists v. apply lookup_union_Some_raw. auto. }
      refine (ends_weaken _ _ _ _ _ _ IH _ _); [|auto].
      intros results1 s4 (Hag4 & Hin4 & Hmono).
      split; [exact Hag4|]. split.
      - intros x Hx. apply elem_of_cons in Hx as [->|Hx]; [|apply Hin4, Hx].
        apply Hmono. destruct Hin3 as [v Hv]. exists v.
        apply lookup_union_Some_raw. auto.
      - intros x Hx. apply Hmono, Hup, Hx. }
    eapply ends_weaken; [apply (Hloop _ Hdeps ∅ s2 Hok2) | | auto].
    - intros x v. rewrite lookup_empty. discriminate.
    - intros results0 s3 (Hag & Hin & _). auto. }
  unfold ends in Hend. rewrite He in Hend. destruct Hend as [Hag Hin].
  split; [exact Hin|].
  intros x v Hx. specialize (Hag x v Hx). unfold valueAt in Hag.
  destruct (_cells s' !! x) as [c'|] eqn:Ec; [|discriminate]. injection Hag as <-.
  destruct (query_key s' x c' Hr' Ec) as (f0 & _ & Hquery). eauto.
Qed.

End DeleteHeld.

(** ** [delete] on the integers *)

Section DeleteExamples.
Import ExprParser Spreadsheet.

Lemma delete_returns_dependents_witness :
  let s := after (eval 5 "a1" "b1+1" true) (new (N := IntNum) "sheet" None) in
  let cell : CellInfo :=
    {| id := "b1"; value := Int 0; ast := None; dependents := ["a1"] |} in
  let results : gmap string int53 := {[ "a1" := Int 1 ]} in
  let s' := after (delete 5 "B1") s in
  _cells s !! Js.toLowerCase "B1" = Some cell /\
  delete 5 "B1" s = Return results s' /\
  (forall d, d ∈ dependents cell -> is_Some (results !! d)) /\
  (forall k v, results !! k = Some v -> exists text, query s' k = Ret (v, text)).
Proof.
  intros s cell results s'.
  assert (H : _cells s !! Js.toLowerCase "B1" = Some cell) by reflexivity.
  assert (E : delete 5 "B1" s = Return results s')
    by (apply returned_Return; reflexivity).
  split; [exact H|]. split; [exact E|].
  apply (delete_returns_dependents (N := IntNum) 5 "B1" s cell results s'); [|exact H|exact E].
  unfold s. apply reachable_eval, reachable_new.
Defined.

End DeleteExamples.
